(** * Cost-benefit memory management: the range profile and the estimator

    A shallow embedding of [mm/estimator.c]: the per-process interval store
    (a red-black tree of [profile_range] keyed by start address), the
    overlap-evicting insert, the directional search, the range splitting used
    by the mmap filters, the cost/benefit estimator, the decider and the
    parser behind the [mmap_filters] proc file; then the rest of the file:
    moving, copying and freeing profiles, the sysfs stores, the printers
    of the two proc files and [mm_add_memory_range].

    Conventions of the embedding.
    - A [u64] is a [Z]; every operation that can wrap in C is written with
      [u64], the reduction modulo [2^64].
    - [struct rb_root] is a binary tree of ranges.  The colour and parent
      word of [struct rb_node] is not represented: recolouring and rotations
      ([rb_insert_color], the fix-up inside [rb_erase]) live in lib/rbtree.c
      and change the shape of the tree, never its in-order sequence.  The
      statements below therefore speak about [inorder] and are proved for
      trees of every shape.
    - A pointer to a node of a tree is the in-order rank of that node:
      [rb_first] is rank [0], [rb_next] adds one, [rb_prev] subtracts one.
    - [mm_econ_vmalloc] may fail; a function that allocates takes the
      outcome of its successive allocations as a function [nat -> bool].
      The byte counter [mm_econ_vmalloc_bytes] is part of the global state
      but is not threaded through the tree functions. *)

From Stdlib Require Import ZArith List Bool Lia String Ascii Sorted.
Import ListNotations.
Open Scope Z_scope.

(** ** Machine integers *)

Definition u64_modulus : Z := 2 ^ 64.
Definition U64_MAX : Z := u64_modulus - 1.

(** Reduction of a mathematical integer to the value a [u64] holds. *)
Definition u64 (z : Z) : Z := z mod u64_modulus.

Definition u64_add (a b : Z) : Z := u64 (a + b).
Definition u64_sub (a b : Z) : Z := u64 (a - b).
Definition u64_mul (a b : Z) : Z := u64 (a * b).
Definition u64_div (a b : Z) : Z := a / b.

(** [PAGE_SIZE] of the target (x86-64); the macro comes from the
    architecture headers. *)
Definition PAGE_SHIFT : Z := 12.
Definition PAGE_SIZE : Z := 2 ^ PAGE_SHIFT.

(** ** Profile ranges and the interval tree *)

(** [struct profile_range] without its embedded [rb_node]: the half-open
    range [[start, end_)] and its benefit. *)
Record profile_range : Type := mk_range {
  start : Z;
  end_ : Z;
  benefit : Z
}.

Inductive mmap_comparator : Type :=
| CompEquals
| CompGreaterThan
| CompLessThan.

(** [struct rb_root]: [rb_null] is a NULL link. *)
Inductive rb_tree : Type :=
| rb_null
| rb_node (rb_left : rb_tree) (range : profile_range) (rb_right : rb_tree).

Definition RB_ROOT : rb_tree := rb_null.

Fixpoint inorder (t : rb_tree) : list profile_range :=
  match t with
  | rb_null => []
  | rb_node l x r => inorder l ++ x :: inorder r
  end.

Fixpoint size (t : rb_tree) : nat :=
  match t with
  | rb_null => O
  | rb_node l _ r => (size l + 1 + size r)%nat
  end.

(** [container_of(node, struct profile_range, node)] for the node of rank
    [n]; [None] stands for a NULL node. *)
Definition container_of (t : rb_tree) (n : nat) : option profile_range :=
  nth_error (inorder t) n.

(** The range [r] is stored in the tree [t]. *)
Definition stored (t : rb_tree) (r : profile_range) : Prop :=
  In r (inorder t).

(** *** profile_search *)

Fixpoint profile_search (t : rb_tree) (addr : Z) : option profile_range :=
  match t with
  | rb_null => None
  | rb_node l x r =>
      if (start x <=? addr) && (addr <? end_ x) then Some x
      else if addr <? start x then profile_search l addr
      else profile_search r addr
  end.

(** *** profile_find_first_range *)

(** The first loop: descend from the root until a node satisfies the
    condition.  [off] is the rank of the leftmost node of the subtree [t]
    in the whole tree; the result is the rank of the node the loop stopped
    at, [None] when it ran off the tree. *)
Fixpoint find_any_range (t : rb_tree) (addr : Z) (comp : mmap_comparator)
    (off : nat) : option nat :=
  match t with
  | rb_null => None
  | rb_node l x r =>
      match comp with
      | CompLessThan =>
          if start x <? addr then Some (off + size l)%nat
          else find_any_range l addr comp off
      | CompGreaterThan =>
          if addr <? end_ x then Some (off + size l)%nat
          else find_any_range r addr comp (off + size l + 1)%nat
      | CompEquals =>
          if (start x <=? addr) && (addr <? end_ x) then Some (off + size l)%nat
          else if start x <? addr
               then find_any_range r addr comp (off + size l + 1)%nat
               else find_any_range l addr comp off
      end
  end.

(** The second loop for [CompLessThan]: follow [rb_next] while the start
    stays below [addr].  [l] lists the ranges from the current node on,
    [n] is the rank of the current node. *)
Fixpoint walk_next (l : list profile_range) (addr : Z) (n : nat)
    (result : option nat) : option nat :=
  match l with
  | [] => result
  | x :: l' =>
      if addr <=? start x then result
      else walk_next l' addr (S n) (Some n)
  end.

(** The second loop for [CompGreaterThan]: follow [rb_prev] while the end
    stays above [addr].  [l] lists the ranges from the current node
    backwards. *)
Fixpoint walk_prev (l : list profile_range) (addr : Z) (n : nat)
    (result : option nat) : option nat :=
  match l with
  | [] => result
  | x :: l' =>
      if end_ x <=? addr then result
      else walk_prev l' addr (pred n) (Some n)
  end.

(** The node [profile_find_first_range] returns, as a rank. *)
Definition profile_find_first_node (t : rb_tree) (addr : Z)
    (comp : mmap_comparator) : option nat :=
  match find_any_range t addr comp O with
  | None => None
  | Some n =>
      match comp with
      | CompEquals => Some n
      | CompLessThan => walk_next (skipn n (inorder t)) addr n (Some n)
      | CompGreaterThan =>
          walk_prev (rev (firstn (S n) (inorder t))) addr n (Some n)
      end
  end.

Definition profile_find_first_range (t : rb_tree) (addr : Z)
    (comp : mmap_comparator) : option profile_range :=
  match profile_find_first_node t addr comp with
  | None => None
  | Some n => container_of t n
  end.

(** *** ranges_overlap *)

Definition ranges_overlap (r1 r2 : profile_range) : bool :=
  ((start r1 <=? start r2) && (start r2 <? end_ r1))
  || ((start r2 <=? start r1) && (start r1 <? end_ r2)).

(** *** rb_erase *)

(** Detach the leftmost node of a non-empty subtree. *)
Fixpoint rb_pop_first (l : rb_tree) (x : profile_range) (r : rb_tree)
    : profile_range * rb_tree :=
  match l with
  | rb_null => (x, r)
  | rb_node ll lx lr =>
      let (m, l') := rb_pop_first ll lx lr in (m, rb_node l' x r)
  end.

(** What takes the place of an erased node with children [l] and [r]: the
    only child, or the in-order successor when there are two. *)
Definition rb_replace (l r : rb_tree) : rb_tree :=
  match l, r with
  | rb_null, _ => r
  | _, rb_null => l
  | _, rb_node rl rx rr =>
      let (m, r') := rb_pop_first rl rx rr in rb_node l m r'
  end.

(** [rb_erase(node, root)] for the node of rank [n], without the colour
    fix-up. *)
Fixpoint rb_erase (t : rb_tree) (n : nat) : rb_tree :=
  match t with
  | rb_null => rb_null
  | rb_node l x r =>
      if (n <? size l)%nat then rb_node (rb_erase l n) x r
      else if (n =? size l)%nat then rb_replace l r
      else rb_node l x (rb_erase r (n - size l - 1))
  end.

(** *** remove_overlapping_ranges *)

(** The first loop: the last overlapping node met on the way down, which
    is the earliest overlapping range of a well-formed store. *)
Fixpoint find_first_overlapping (t : rb_tree) (new_range : profile_range)
    (off : nat) (first_overlapping : option nat) : option nat :=
  match t with
  | rb_null => first_overlapping
  | rb_node l x r =>
      if ranges_overlap new_range x
      then find_first_overlapping l new_range off (Some (off + size l)%nat)
      else if start new_range <? start x
           then find_first_overlapping l new_range off first_overlapping
           else find_first_overlapping r new_range (off + size l + 1)%nat
                  first_overlapping
  end.

(** The second loop.  Erasing the node of rank [node] gives its successor
    that same rank, so the cursor does not move; the loop ends on the first
    range that does not overlap or when there is no successor.  Every
    iteration erases a node, so [size t] iterations are enough ([fuel]). *)
Fixpoint erase_overlapping (fuel : nat) (t : rb_tree) (node : nat)
    (new_range : profile_range) : rb_tree :=
  match fuel with
  | O => t
  | S fuel' =>
      match container_of t node with
      | None => t
      | Some cur_range =>
          if ranges_overlap new_range cur_range
          then erase_overlapping fuel' (rb_erase t node) node new_range
          else t
      end
  end.

Definition remove_overlapping_ranges (t : rb_tree)
    (new_range : profile_range) : rb_tree :=
  match find_first_overlapping t new_range O None with
  | None => t
  | Some first => erase_overlapping (size t) t first new_range
  end.

(** *** profile_range_insert *)

(** The descent by start address followed by [rb_link_node].  On a tie the
    loop is left with [new] still pointing at the occupied link, and
    [rb_link_node] stores the new node (with NULL children) into that link:
    the node that was there, and everything below it, is no longer
    reachable from the root. *)
Fixpoint rb_link_node (t : rb_tree) (new_range : profile_range) : rb_tree :=
  match t with
  | rb_null => rb_node rb_null new_range rb_null
  | rb_node l x r =>
      if start new_range <? start x
      then rb_node (rb_link_node l new_range) x r
      else if start x <? start new_range
           then rb_node l x (rb_link_node r new_range)
           else rb_node rb_null new_range rb_null
  end.

(** Rebalancing after the link; the in-order sequence is what it keeps. *)
Definition rb_insert_color (t : rb_tree) : rb_tree := t.

Definition profile_range_insert (t : rb_tree) (new_range : profile_range)
    : rb_tree :=
  rb_insert_color (rb_link_node (remove_overlapping_ranges t new_range) new_range).

(** *** Following a node through an insert *)

(** [profile_range_insert] erases a run of consecutive ranks and then
    places the new node; a pointer held across the call keeps designating
    the same node, whose rank has moved.  [node_after_remove] and
    [node_after_link] give the new rank, [None] when the node is gone. *)
Definition node_after_remove (t : rb_tree) (new_range : profile_range)
    (n : nat) : option nat :=
  match find_first_overlapping t new_range O None with
  | None => Some n
  | Some first =>
      let erased := (size t - size (remove_overlapping_ranges t new_range))%nat in
      if (n <? first)%nat then Some n
      else if (n <? first + erased)%nat then None
      else Some (n - erased)%nat
  end.

(** The rank the new node is linked at, and how many nodes the link
    displaces (none, unless the descent stopped on a tie). *)
Fixpoint rb_link_slot (t : rb_tree) (new_range : profile_range) (off : nat)
    : nat * nat :=
  match t with
  | rb_null => (off, O)
  | rb_node l x r =>
      if start new_range <? start x then rb_link_slot l new_range off
      else if start x <? start new_range
           then rb_link_slot r new_range (off + size l + 1)%nat
           else (off, size t)
  end.

Definition node_after_link (t : rb_tree) (new_range : profile_range)
    (n : nat) : option nat :=
  let (slot, displaced) := rb_link_slot t new_range O in
  if (n <? slot)%nat then Some n
  else if (n <? slot + displaced)%nat then None
  else Some (n - displaced + 1)%nat.

Definition node_after_insert (t : rb_tree) (new_range : profile_range)
    (n : nat) : option nat :=
  match node_after_remove t new_range n with
  | None => None
  | Some n' => node_after_link (remove_overlapping_ranges t new_range) new_range n'
  end.

(** *** mm_split_ranges *)

(** Assignment through a [struct profile_range *] that points into the
    tree: the node of rank [n] gets the fields of [r], the tree keeps its
    shape. *)
Fixpoint rb_store (t : rb_tree) (n : nat) (r : profile_range) : rb_tree :=
  match t with
  | rb_null => rb_null
  | rb_node l x rt =>
      if (n <? size l)%nat then rb_node (rb_store l n r) x rt
      else if (n =? size l)%nat then rb_node l r rt
      else rb_node l x (rb_store rt (n - size l - 1) r)
  end.

(** [base] is the rank of [base_range] in [subranges]; [vmalloc_ok k] tells
    whether the call's [k]-th allocation succeeds.  The result is the
    returned flag and the tree afterwards; [None] when [base] designates no
    node of the tree, or stops designating one that the code goes on to
    use. *)
Definition mm_split_ranges (vmalloc_ok : nat -> bool) (subranges : rb_tree)
    (base : nat) (addr : Z) (comp : mmap_comparator)
    : option (bool * rb_tree) :=
  match container_of subranges base with
  | None => None
  | Some base_range =>
      match comp with
      | CompGreaterThan =>
          if addr <=? start base_range then Some (true, subranges)
          else if negb (vmalloc_ok O) then Some (false, subranges)
          else
            let split_range := mk_range (start base_range) addr 0 in
            let t1 := rb_store subranges base
                        (mk_range addr (end_ base_range) (benefit base_range)) in
            Some (true, profile_range_insert t1 split_range)
      | CompLessThan =>
          if end_ base_range <=? addr then Some (true, subranges)
          else if negb (vmalloc_ok O) then Some (false, subranges)
          else
            let split_range := mk_range addr (end_ base_range) 0 in
            let t1 := rb_store subranges base
                        (mk_range (start base_range) addr (benefit base_range)) in
            Some (true, profile_range_insert t1 split_range)
      | CompEquals =>
          (* Do we need to split on the left?  [None]: the allocation
             failed; otherwise the tree, the rank and the fields of
             [base_range] afterwards, and the allocations made. *)
          let after_left :=
            if start base_range <? addr then
              if negb (vmalloc_ok O) then None
              else
                let split_range := mk_range (start base_range) addr 0 in
                let base1 :=
                  mk_range addr (end_ base_range) (benefit base_range) in
                let t1 := rb_store subranges base base1 in
                Some (profile_range_insert t1 split_range,
                      node_after_insert t1 split_range base, base1, 1%nat)
            else Some (subranges, Some base, base_range, O) in
          match after_left with
          | None => Some (false, subranges)
          | Some (_, None, _, _) => None
          | Some (t, Some base', base_range, allocs) =>
              (* Do we need to split on the right? *)
              if u64_add addr PAGE_SIZE <? end_ base_range then
                if negb (vmalloc_ok allocs) then Some (false, t)
                else
                  let split_range :=
                    mk_range (u64_add addr PAGE_SIZE) (end_ base_range) 0 in
                  let t2 :=
                    rb_store t base'
                      (mk_range (start base_range) (u64_add addr PAGE_SIZE)
                         (benefit base_range)) in
                  Some (true, profile_range_insert t2 split_range)
              else Some (true, t)
          end
      end
  end.

(** ** Filters and per-process profiles *)

Inductive mm_policy : Type := PolicyHugePage | PolicyEagerPage.

(** [enum mm_memory_section], declared in linux/mm_econ.h. *)
Inductive mm_memory_section : Type :=
| SectionCode | SectionData | SectionHeap | SectionMmap.

Inductive mmap_quantity : Type :=
| QuantSectionOff | QuantAddr | QuantLen | QuantProt | QuantFlags
| QuantFD | QuantOff.

Record mmap_comparison : Type := mk_comparison {
  quant : mmap_quantity;
  comp : mmap_comparator;
  val : Z
}.

Record mmap_filter : Type := mk_filter {
  section : mm_memory_section;
  policy : mm_policy;
  filter_benefit : Z;
  comparisons : list mmap_comparison
}.

Record mmap_filter_proc : Type := mk_proc {
  pid : Z;
  filters : list mmap_filter;
  hp_ranges_root : rb_tree;
  eager_ranges_root : rb_tree
}.

Fixpoint find_filter_proc_by_pid (filter_procs : list mmap_filter_proc)
    (p : Z) : option mmap_filter_proc :=
  match filter_procs with
  | [] => None
  | proc :: rest =>
      if pid proc =? p then Some proc else find_filter_proc_by_pid rest p
  end.

(** ** Global state *)

(** What the code prints with [printk]/[pr_warn]. *)
Inductive log_event : Type :=
| LogUnknownAction (code : Z)
| LogEstimate (cost benefit : Z).

Record econ_state : Type := mk_state {
  mm_econ_mode : Z;
  mm_econ_debugging_mode : Z;
  mm_econ_contention_ms : Z;
  mm_econ_freq_mhz : Z;
  mm_econ_num_estimates : Z;
  mm_econ_num_decisions : Z;
  mm_econ_num_decisions_yes : Z;
  mm_econ_num_hp_promotions : Z;
  mm_econ_num_async_compaction : Z;
  mm_econ_num_async_prezeroing : Z;
  mm_econ_vmalloc_bytes : Z;
  (* the two histograms of mm_stats: the values measured, latest first *)
  mm_econ_cost : list Z;
  mm_econ_benefit : list Z;
  kernel_log : list log_event
}.

(** ** The estimator *)

(** The [action] field of [struct mm_action] is an [int] compared against
    the [MM_ACTION_*] constants of linux/mm_econ.h; [MM_ACTION_UNKNOWN]
    carries a value that equals none of them. *)
Inductive mm_action_kind : Type :=
| MM_ACTION_NONE
| MM_ACTION_PROMOTE_HUGE
| MM_ACTION_DEMOTE_HUGE
| MM_ACTION_RUN_DEFRAG
| MM_ACTION_RUN_PROMOTION
| MM_ACTION_RUN_PREZEROING
| MM_ACTION_ALLOC_RECLAIM
| MM_ACTION_EAGER_PAGING
| MM_ACTION_UNKNOWN (code : Z).

(** [struct mm_action]; the header declares [prezero_n] and [len] as
    members of one union, and each action kind reads only its own. *)
Record mm_action : Type := mk_action {
  action : mm_action_kind;
  address : Z;
  prezero_n : Z;
  len : Z
}.

(** The [extra] word of [struct mm_cost_delta] holds a number or, for eager
    paging, the address of the list of ranges to page in. *)
Inductive cost_extra : Type :=
| ExtraWord (w : Z)
| ExtraRanges (ranges : list (Z * Z)).

Record mm_cost_delta : Type := mk_cost {
  cost : Z;
  cost_benefit : Z;
  extra : cost_extra
}.

Inductive free_huge_page_status : Type := fhps_none | fhps_free | fhps_zeroed.

(** What the estimator reads from the rest of the kernel at the time of a
    call. *)
Record estimator_env : Type := mk_env {
  have_free_huge_pages : free_huge_page_status;
  tlb_miss_est_fn : option (mm_action -> Z);
  num_online_cpus : Z;
  load_int : Z;                       (* LOAD_INT(loads[0]) *)
  mm_estimated_prezeroed_used : Z;
  current_tgid : Z;
  filter_procs : list mmap_filter_proc;
  vmalloc_ranges_ok : bool            (* the vmalloc of the range list *)
}.

Definition set_cost (c : mm_cost_delta) (v : Z) : mm_cost_delta :=
  mk_cost v (cost_benefit c) (extra c).
Definition set_benefit (c : mm_cost_delta) (v : Z) : mm_cost_delta :=
  mk_cost (cost c) v (extra c).

Definition compute_hpage_benefit_from_profile (env : estimator_env)
    (a : mm_action) : Z :=
  match find_filter_proc_by_pid (filter_procs env) (current_tgid env) with
  | None => 0
  | Some proc =>
      match profile_search (hp_ranges_root proc) (address a) with
      | Some range => benefit range
      | None => 0
      end
  end.

Definition compute_hpage_benefit (env : estimator_env) (a : mm_action) : Z :=
  match tlb_miss_est_fn env with
  | Some f => f a
  | None => compute_hpage_benefit_from_profile env a
  end.

(** The ranges met from [first_range] on, up to the first one that lies
    outside [[start, end)], keeping those whose benefit exceeds the cost. *)
Fixpoint eager_ranges (l : list profile_range) (s e c : Z)
    : list profile_range :=
  match l with
  | [] => []
  | range :: l' =>
      if (end_ range <=? s) || (e <=? start range) then []
      else if c <? benefit range then range :: eager_ranges l' s e c
           else eager_ranges l' s e c
  end.

Definition compute_eager_page_benefit (env : estimator_env) (a : mm_action)
    (c : mm_cost_delta) : mm_cost_delta :=
  let s := address a in
  let e := u64_add (address a) (len a) in
  match find_filter_proc_by_pid (filter_procs env) (current_tgid env) with
  | None => set_benefit c 0
  | Some proc =>
      match profile_find_first_node (eager_ranges_root proc) s CompGreaterThan with
      | None => set_benefit c 0
      | Some first_range =>
          let found :=
            eager_ranges (skipn first_range (inorder (eager_ranges_root proc)))
              s e (cost c) in
          match found with
          | [] => set_benefit c 0
          | _ :: _ =>
              if vmalloc_ranges_ok env then
                mk_cost (cost c)
                  (fold_left (fun b r => if b <? benefit r then benefit r else b)
                     found 0)
                  (ExtraRanges (map (fun r => (start r, end_ r)) found))
              else mk_cost (cost c) 0 (ExtraWord 0)
          end
      end
  end.

Definition mm_estimate_huge_page_promote_cost_benefit (env : estimator_env)
    (a : mm_action) (c : mm_cost_delta) : mm_cost_delta :=
  let fhps := have_free_huge_pages env in
  let alloc_cost := match fhps with fhps_none => 2 ^ 32 | _ => 0 end in
  let prep_cost := match fhps with fhps_zeroed => 0 | _ => 100 * 2000 end in
  mk_cost (u64_add alloc_cost prep_cost)
    (compute_hpage_benefit env a)
    (ExtraWord (match fhps with fhps_zeroed => 1 | _ => 0 end)).

Definition mm_estimate_huge_page_reclaim_cost (a : mm_action)
    (c : mm_cost_delta) : mm_cost_delta :=
  let reclaim_cost := 1000000000 in
  set_cost c (u64_add (cost c) reclaim_cost).

(** [None] is the [BUG()] of the default case. *)
Definition mm_estimate_daemon_cost (env : estimator_env) (a : mm_action)
    (c : mm_cost_delta) : option mm_cost_delta :=
  let huge_page_zeroing_cost := 1000000 in
  if load_int env <? num_online_cpus env then Some (set_cost c 0)
  else
    match action a with
    | MM_ACTION_RUN_PREZEROING =>
        Some (set_cost c (u64_mul huge_page_zeroing_cost (prezero_n a)))
    | MM_ACTION_RUN_DEFRAG | MM_ACTION_RUN_PROMOTION =>
        Some (set_cost c (2 ^ 32))
    | _ => None
    end.

Definition mm_estimate_async_prezeroing_benefit (env : estimator_env)
    (a : mm_action) (c : mm_cost_delta) : mm_cost_delta :=
  let zeroing_per_page_cost := 1000000 in
  let recent_used := mm_estimated_prezeroed_used env in
  set_benefit c
    (u64_mul (Z.min (prezero_n a) recent_used) zeroing_per_page_cost).

Definition mm_estimate_async_prezeroing_lock_contention_cost
    (st : econ_state) (a : mm_action) (c : mm_cost_delta) : mm_cost_delta :=
  let critical_section_cost := 150 * 2 in
  let nfree :=
    u64_div (u64_mul (u64_mul (mm_econ_contention_ms st) (mm_econ_freq_mhz st)) 1000)
      critical_section_cost in
  set_cost c
    (u64_add (cost c)
       (u64_mul (if nfree <? prezero_n a then u64_sub (prezero_n a) nfree else 0)
          critical_section_cost)).

Definition mm_estimate_eager_page_cost_benefit (env : estimator_env)
    (st : econ_state) (a : mm_action) (c : mm_cost_delta) : mm_cost_delta :=
  compute_eager_page_benefit env a
    (set_cost c (u64_mul (mm_econ_freq_mhz st) 10)).

Definition count_async_compaction (st : econ_state) : econ_state :=
  mk_state (mm_econ_mode st) (mm_econ_debugging_mode st)
    (mm_econ_contention_ms st) (mm_econ_freq_mhz st)
    (mm_econ_num_estimates st) (mm_econ_num_decisions st)
    (mm_econ_num_decisions_yes st) (mm_econ_num_hp_promotions st)
    (u64_add (mm_econ_num_async_compaction st) 1)
    (mm_econ_num_async_prezeroing st) (mm_econ_vmalloc_bytes st)
    (mm_econ_cost st) (mm_econ_benefit st) (kernel_log st).

Definition count_async_prezeroing (st : econ_state) : econ_state :=
  mk_state (mm_econ_mode st) (mm_econ_debugging_mode st)
    (mm_econ_contention_ms st) (mm_econ_freq_mhz st)
    (mm_econ_num_estimates st) (mm_econ_num_decisions st)
    (mm_econ_num_decisions_yes st) (mm_econ_num_hp_promotions st)
    (mm_econ_num_async_compaction st)
    (u64_add (mm_econ_num_async_prezeroing st) 1) (mm_econ_vmalloc_bytes st)
    (mm_econ_cost st) (mm_econ_benefit st) (kernel_log st).

Definition log (st : econ_state) (ev : log_event) : econ_state :=
  mk_state (mm_econ_mode st) (mm_econ_debugging_mode st)
    (mm_econ_contention_ms st) (mm_econ_freq_mhz st)
    (mm_econ_num_estimates st) (mm_econ_num_decisions st)
    (mm_econ_num_decisions_yes st) (mm_econ_num_hp_promotions st)
    (mm_econ_num_async_compaction st)
    (mm_econ_num_async_prezeroing st) (mm_econ_vmalloc_bytes st)
    (mm_econ_cost st) (mm_econ_benefit st) (ev :: kernel_log st).

(** The tail of [mm_estimate_changes]: count the estimate, feed the two
    histograms, print when debugging. *)
Definition record_estimate (st : econ_state) (c : mm_cost_delta)
    : econ_state :=
  let st1 :=
    mk_state (mm_econ_mode st) (mm_econ_debugging_mode st)
      (mm_econ_contention_ms st) (mm_econ_freq_mhz st)
      (u64_add (mm_econ_num_estimates st) 1) (mm_econ_num_decisions st)
      (mm_econ_num_decisions_yes st) (mm_econ_num_hp_promotions st)
      (mm_econ_num_async_compaction st)
      (mm_econ_num_async_prezeroing st) (mm_econ_vmalloc_bytes st)
      (cost c :: mm_econ_cost st) (cost_benefit c :: mm_econ_benefit st)
      (kernel_log st) in
  if mm_econ_debugging_mode st =? 2
  then log st1 (LogEstimate (cost c) (cost_benefit c))
  else st1.

(** [mm_estimate_changes] updates the caller's [struct mm_cost_delta] in
    place: [c] is its content on entry, the result its content on return.
    [None] is a [BUG()]. *)
Definition mm_estimate_changes (env : estimator_env) (st : econ_state)
    (a : mm_action) (c : mm_cost_delta) : option (econ_state * mm_cost_delta) :=
  let switch : option (econ_state * mm_cost_delta) :=
    match action a with
    | MM_ACTION_NONE => Some (st, mk_cost 0 0 (extra c))
    | MM_ACTION_PROMOTE_HUGE =>
        Some (st, mm_estimate_huge_page_promote_cost_benefit env a c)
    | MM_ACTION_DEMOTE_HUGE => Some (st, mk_cost 0 0 (extra c))
    | MM_ACTION_RUN_DEFRAG =>
        match mm_estimate_daemon_cost env a c with
        | None => None
        | Some c1 =>
            let c2 := set_benefit c1 0 in
            Some (if cost c2 <? cost_benefit c2
                  then count_async_compaction st else st, c2)
        end
    | MM_ACTION_RUN_PROMOTION =>
        match mm_estimate_daemon_cost env a c with
        | None => None
        | Some c1 => Some (st, set_benefit c1 0)
        end
    | MM_ACTION_RUN_PREZEROING =>
        match mm_estimate_daemon_cost env a c with
        | None => None
        | Some c1 =>
            let c2 := mm_estimate_async_prezeroing_lock_contention_cost st a c1 in
            let c3 := mm_estimate_async_prezeroing_benefit env a c2 in
            Some (if cost c3 <? cost_benefit c3
                  then count_async_prezeroing st else st, c3)
        end
    | MM_ACTION_ALLOC_RECLAIM =>
        Some (st, mm_estimate_huge_page_reclaim_cost a
                    (mm_estimate_huge_page_promote_cost_benefit env a c))
    | MM_ACTION_EAGER_PAGING =>
        Some (st, mm_estimate_eager_page_cost_benefit env st a c)
    | MM_ACTION_UNKNOWN code => Some (log st (LogUnknownAction code), c)
    end in
  match switch with
  | None => None
  | Some (st1, c1) => Some (record_estimate st1 c1, c1)
  end.

(** ** The decider *)

(** [mm_decide]: the state afterwards and the returned flag, [None] for the
    [BUG()] of a mode that is neither 0 nor 1. *)
Definition mm_decide (st : econ_state) (c : mm_cost_delta)
    : econ_state * option bool :=
  let st1 :=
    mk_state (mm_econ_mode st) (mm_econ_debugging_mode st)
      (mm_econ_contention_ms st) (mm_econ_freq_mhz st)
      (mm_econ_num_estimates st) (u64_add (mm_econ_num_decisions st) 1)
      (mm_econ_num_decisions_yes st) (mm_econ_num_hp_promotions st)
      (mm_econ_num_async_compaction st)
      (mm_econ_num_async_prezeroing st) (mm_econ_vmalloc_bytes st)
      (mm_econ_cost st) (mm_econ_benefit st) (kernel_log st) in
  if mm_econ_mode st =? 0 then (st1, Some true)
  else if mm_econ_mode st =? 1 then
    let should_do := cost c <? cost_benefit c in
    (if should_do
     then
       mk_state (mm_econ_mode st1) (mm_econ_debugging_mode st1)
         (mm_econ_contention_ms st1) (mm_econ_freq_mhz st1)
         (mm_econ_num_estimates st1) (mm_econ_num_decisions st1)
         (u64_add (mm_econ_num_decisions_yes st1) 1)
         (mm_econ_num_hp_promotions st1)
         (mm_econ_num_async_compaction st1)
         (mm_econ_num_async_prezeroing st1) (mm_econ_vmalloc_bytes st1)
         (mm_econ_cost st1) (mm_econ_benefit st1) (kernel_log st1)
     else st1, Some should_do)
  else (st1, None).

(** ** The filter program parser *)

Definition NUL : ascii := "000"%char.
Definition newline : ascii := "010"%char.
Definition comma : ascii := ","%char.

(** The C string that starts a buffer: the bytes before the first NUL. *)
Fixpoint c_str (buf : string) : string :=
  match buf with
  | EmptyString => EmptyString
  | String c buf' => if Ascii.eqb c NUL then EmptyString else String c (c_str buf')
  end.

Definition strlen (s : string) : Z := Z.of_nat (String.length s).

(** A cursor that is only ever advanced by [strsep] with one delimiter is
    the list of the fields still to come: [fields] cuts the text at every
    delimiter, and a NULL cursor is the empty list. *)
Fixpoint fields (delim : ascii) (s : string) : list string :=
  match s with
  | EmptyString => [EmptyString]
  | String c s' =>
      if Ascii.eqb c delim then EmptyString :: fields delim s'
      else
        match fields delim s' with
        | [] => [String c EmptyString]
        | tok :: rest => String c tok :: rest
        end
  end.

(** [strsep(&cursor, delim)]: the token returned and the cursor afterwards. *)
Definition strsep (stringp : list string) : option string * list string :=
  match stringp with
  | [] => (None, [])
  | tok :: rest => (Some tok, rest)
  end.

Definition get_memory_section (buf : string) : option mm_memory_section :=
  if String.eqb buf "code" then Some SectionCode
  else if String.eqb buf "data" then Some SectionData
  else if String.eqb buf "heap" then Some SectionHeap
  else if String.eqb buf "mmap" then Some SectionMmap
  else None.

Definition get_mm_policy (buf : string) : option mm_policy :=
  if String.eqb buf "huge" then Some PolicyHugePage
  else if String.eqb buf "eager" then Some PolicyEagerPage
  else None.

Definition get_mmap_quantity (buf : string) : option mmap_quantity :=
  if String.eqb buf "section_off" then Some QuantSectionOff
  else if String.eqb buf "addr" then Some QuantAddr
  else if String.eqb buf "len" then Some QuantLen
  else if String.eqb buf "prot" then Some QuantProt
  else if String.eqb buf "flags" then Some QuantFlags
  else if String.eqb buf "fd" then Some QuantFD
  else if String.eqb buf "off" then Some QuantOff
  else None.

Definition get_mmap_comparator (buf : string) : option mmap_comparator :=
  if String.eqb buf "=" then Some CompEquals
  else if String.eqb buf ">" then Some CompGreaterThan
  else if String.eqb buf "<" then Some CompLessThan
  else None.

(** The words [mmap_filters_read] prints for the enumerations. *)
Definition mm_memory_section_get_str (section : mm_memory_section) : string :=
  match section with
  | SectionCode => "code"
  | SectionData => "data"
  | SectionHeap => "heap"
  | SectionMmap => "mmap"
  end.

Definition mm_policy_get_str (policy : mm_policy) : string :=
  match policy with
  | PolicyHugePage => "huge"
  | PolicyEagerPage => "eager"
  end.

Definition mmap_comparator_get_char (comp : mmap_comparator) : ascii :=
  match comp with
  | CompEquals => "="
  | CompGreaterThan => ">"
  | CompLessThan => "<"
  end.

Definition mmap_quantity_get_str (quant : mmap_quantity) : string :=
  match quant with
  | QuantSectionOff => "section_off"
  | QuantAddr => "addr"
  | QuantLen => "len"
  | QuantProt => "prot"
  | QuantFlags => "flags"
  | QuantFD => "fd"
  | QuantOff => "off"
  end.

Definition ENOMEM : Z := 12.
Definition EFAULT : Z := 14.
Definition ESRCH : Z := 3.
Definition EINVAL : Z := 22.

Inductive comparisons_result : Type :=
| ComparisonsRead (cs : list mmap_comparison) (allocs : nat)
| ComparisonsInvalid
| ComparisonsNoMem.

Inductive filter_result : Type :=
| FilterRead (f : mmap_filter) (allocs : nat)
| FilterBreak
| FilterNoMem.

Inductive filters_result : Type :=
| FiltersRead (fs : list mmap_filter) (bytes_read : Z)
| FiltersNoMem (fs : list mmap_filter).

Section FilterWrite.

(** [kstrtoull(s, 0, &v)] of lib/kstrtox.c: the value stored when it
    returns 0, [None] when it returns an error. *)
Variable kstrtoull : string -> option Z.

(** Whether the [k]-th call of [mm_econ_vmalloc] made by one write
    succeeds. *)
Variable vmalloc_ok : nat -> bool.

Definition mmap_filter_read_comparison (tok : list string)
    : option mmap_comparison :=
  match strsep tok with
  | (None, _) => None
  | (Some value_buf, tok) =>
      match get_mmap_quantity value_buf with
      | None => None
      | Some q =>
          match strsep tok with
          | (None, _) => None
          | (Some value_buf, tok) =>
              match get_mmap_comparator value_buf with
              | None => None
              | Some c =>
                  match strsep tok with
                  | (None, _) => None
                  | (Some value_buf, tok) =>
                      match kstrtoull value_buf with
                      | None => None
                      | Some value => Some (mk_comparison q c value)
                      end
                  end
              end
          end
      end
  end.

(** The inner loop of [mmap_filters_write].  A comparison that was read
    took three fields off the cursor. *)
Fixpoint read_comparisons (tok : list string) (allocs : nat)
    : comparisons_result :=
  match tok with
  | [] => ComparisonsRead [] allocs
  | first :: after_first =>
      match first, after_first with
      | EmptyString, [] => ComparisonsRead [] allocs   (* tok[0] == 0 *)
      | _, _ =>
          if negb (vmalloc_ok allocs) then ComparisonsNoMem
          else
            match mmap_filter_read_comparison tok with
            | None => ComparisonsInvalid
            | Some comparison =>
                match after_first with
                | _ :: _ :: tok' =>
                    match read_comparisons tok' (S allocs) with
                    | ComparisonsRead cs n => ComparisonsRead (comparison :: cs) n
                    | other => other
                    end
                | _ => ComparisonsInvalid
                end
            end
      end
  end.

(** The body of the outer loop from the allocation of the filter to the
    end of its comparisons, for the line [tok]. *)
Definition read_filter (tok : string) (allocs : nat) : filter_result :=
  if negb (vmalloc_ok allocs) then FilterNoMem
  else
    let tok := fields comma tok in
    match strsep tok with
    | (None, _) => FilterBreak
    | (Some value_buf, tok) =>
        match get_mm_policy value_buf with
        | None => FilterBreak
        | Some pol =>
            match strsep tok with
            | (None, _) => FilterBreak
            | (Some value_buf, tok) =>
                match get_memory_section value_buf with
                | None => FilterBreak
                | Some sec =>
                    match strsep tok with
                    | (None, _) => FilterBreak
                    | (Some value_buf, tok) =>
                        match kstrtoull value_buf with
                        | None => FilterBreak
                        | Some value =>
                            match read_comparisons tok (S allocs) with
                            | ComparisonsRead cs n =>
                                FilterRead (mk_filter sec pol value cs) n
                            | ComparisonsInvalid => FilterBreak
                            | ComparisonsNoMem => FilterNoMem
                            end
                        end
                    end
                end
            end
        end
    end.

(** The outer loop: [tok] is the line at hand, [outerTok] the cursor
    behind it, [fs] the filters of the process so far. *)
Fixpoint read_filters (tok : string) (outerTok : list string)
    (allocs : nat) (fs : list mmap_filter) (bytes_read : Z)
    : filters_result :=
  match outerTok with
  | [] => FiltersRead fs bytes_read
  | next :: outerTok' =>
      match tok with
      | EmptyString => FiltersRead fs bytes_read
      | _ =>
          let filter_len := strlen tok + 1 in
          match read_filter tok allocs with
          | FilterNoMem => FiltersNoMem fs
          | FilterBreak => FiltersRead fs bytes_read
          | FilterRead f n =>
              read_filters next outerTok' n (fs ++ [f])
                (bytes_read + filter_len)
          end
      end
  end.

Fixpoint replace_proc (procs : list mmap_filter_proc)
    (proc : mmap_filter_proc) : list mmap_filter_proc :=
  match procs with
  | [] => []
  | p :: rest =>
      if pid p =? pid proc then proc :: rest
      else p :: replace_proc rest proc
  end.

Definition with_filters (proc : mmap_filter_proc) (fs : list mmap_filter)
    : mmap_filter_proc :=
  mk_proc (pid proc) fs (hp_ranges_root proc) (eager_ranges_root proc).

(** [mmap_filters_write]: [buf] holds the [count] bytes of the user
    buffer, [copy_ok] tells whether [copy_from_user] succeeds, [task] is
    the thread group the proc file belongs to, if it still exists, and
    [fresh_eager] is what the memory of a new [mmap_filter_proc] holds in
    the field the code does not initialise.  The result is the returned
    [ssize_t] and the list of profiles afterwards. *)
Definition mmap_filters_write (procs : list mmap_filter_proc)
    (task : option Z) (copy_ok : bool) (fresh_eager : rb_tree)
    (buf : string) : Z * list mmap_filter_proc :=
  if negb (vmalloc_ok O) then (- ENOMEM, procs)
  else if negb copy_ok then (- EFAULT, procs)
  else
    match task with
    | None => (- ESRCH, procs)
    | Some tgid =>
        let found := find_filter_proc_by_pid procs tgid in
        let alloc_new_proc :=
          match found with Some _ => false | None => true end in
        if alloc_new_proc && negb (vmalloc_ok 1%nat) then (- ENOMEM, procs)
        else
          let proc :=
            match found with
            | Some p => p
            | None => mk_proc tgid [] RB_ROOT fresh_eager
            end in
          let allocs := if alloc_new_proc then 2%nat else 1%nat in
          let err (error : Z) :=
            (* mmap_filters_free_all(proc), and the new proc is freed *)
            (error,
             if alloc_new_proc then procs
             else replace_proc procs (with_filters proc [])) in
          match fields newline (c_str buf) with
          | [] => err (- EINVAL)
          | tok :: outerTok =>
              match read_filters tok outerTok allocs (filters proc) 0 with
              | FiltersNoMem _ => err (- ENOMEM)
              | FiltersRead fs bytes_read =>
                  if bytes_read =? 0 then err (- EINVAL)
                  else
                    (bytes_read,
                     if alloc_new_proc
                     then procs ++ [with_filters proc fs]
                     else replace_proc procs (with_filters proc fs))
              end
          end
    end.

End FilterWrite.

(** A reader of hexadecimal literals [0x...], enough of [kstrtoull] for the
    filter lines used as examples below. *)
Definition hex_digit (c : ascii) : option Z :=
  let n := Z.of_nat (nat_of_ascii c) in
  if (48 <=? n) && (n <=? 57) then Some (n - 48)
  else if (97 <=? n) && (n <=? 102) then Some (n - 87)
  else if (65 <=? n) && (n <=? 70) then Some (n - 55)
  else None.

Fixpoint hex_digits (s : string) (acc : Z) : option Z :=
  match s with
  | EmptyString => Some acc
  | String c s' =>
      match hex_digit c with
      | None => None
      | Some d => if 16 * acc + d <=? U64_MAX then hex_digits s' (16 * acc + d) else None
      end
  end.

Definition hex_literal (s : string) : option Z :=
  match s with
  | String "0" (String "x" (String c s')) => hex_digits (String c s') 0
  | _ => None
  end.

(** ** The rest of the interval store *)

(** *** profile_move *)

(** The loop of [profile_move]: take the node at the root of [src] out and
    insert it into [dst], until [src] is empty.  Every iteration removes a
    node, so [size src] iterations are enough ([fuel]). *)
Fixpoint profile_move_loop (fuel : nat) (src dst : rb_tree)
    : rb_tree * rb_tree :=
  match fuel with
  | O => (src, dst)
  | S fuel' =>
      match src with
      | rb_null => (src, dst)
      | rb_node l range _ =>
          profile_move_loop fuel' (rb_erase src (size l))
            (profile_range_insert dst range)
      end
  end.

(** [profile_move(src, dst)]: the two trees afterwards. *)
Definition profile_move (src dst : rb_tree) : rb_tree * rb_tree :=
  profile_move_loop (size src) src dst.

(** *** profile_free_all *)

Fixpoint profile_free_all_loop (fuel : nat) (t : rb_tree) : rb_tree :=
  match fuel with
  | O => t
  | S fuel' =>
      match t with
      | rb_null => t
      | rb_node l _ _ => profile_free_all_loop fuel' (rb_erase t (size l))
      end
  end.

Definition profile_free_all (t : rb_tree) : rb_tree :=
  profile_free_all_loop (size t) t.

(** *** mm_copy_profile_range *)

(** The loop of [mm_copy_profile_range] over the nodes of the old tree
    from [rb_first] on: the returned code, the new tree and the number of
    allocations asked for so far. *)
Fixpoint copy_profile_ranges (vmalloc_ok : nat -> bool)
    (nodes : list profile_range) (allocs : nat) (new_root : rb_tree)
    : Z * rb_tree * nat :=
  match nodes with
  | [] => (0, new_root, allocs)
  | range :: rest =>
      if negb (vmalloc_ok allocs) then (-1, new_root, S allocs)
      else
        let new_range := mk_range (start range) (end_ range) (benefit range) in
        copy_profile_ranges vmalloc_ok rest (S allocs)
          (profile_range_insert new_root new_range)
  end.

Definition mm_copy_profile_range (vmalloc_ok : nat -> bool) (allocs : nat)
    (old_root new_root : rb_tree) : Z * rb_tree * nat :=
  copy_profile_ranges vmalloc_ok (inorder old_root) allocs new_root.

(** ** The registry of profiles *)

(** [list_del] of the profile that [find_filter_proc_by_pid] finds. *)
Fixpoint list_del_proc (filter_procs : list mmap_filter_proc) (p : Z)
    : list mmap_filter_proc :=
  match filter_procs with
  | [] => []
  | proc :: rest =>
      if pid proc =? p then rest else proc :: list_del_proc rest p
  end.

(** [mm_profile_check_exiting_proc]: the list of profiles afterwards.  The
    trees and the filters of the profile are freed before it is unlinked;
    nothing of them is reachable any more. *)
Definition mm_profile_check_exiting_proc
    (filter_procs : list mmap_filter_proc) (p : Z) : list mmap_filter_proc :=
  match find_filter_proc_by_pid filter_procs p with
  | None => filter_procs
  | Some _ => list_del_proc filter_procs p
  end.

(** The two copy loops of [mm_copy_profile]: [None] when an allocation
    fails, otherwise the copies and the number of allocations asked for so
    far. *)
Fixpoint copy_comparisons (vmalloc_ok : nat -> bool)
    (cs : list mmap_comparison) (allocs : nat)
    : option (list mmap_comparison * nat) :=
  match cs with
  | [] => Some ([], allocs)
  | comparison :: rest =>
      if negb (vmalloc_ok allocs) then None
      else
        match copy_comparisons vmalloc_ok rest (S allocs) with
        | None => None
        | Some (cs', n) =>
            Some (mk_comparison (quant comparison) (comp comparison)
                    (val comparison) :: cs', n)
        end
  end.

Fixpoint copy_filters (vmalloc_ok : nat -> bool) (fs : list mmap_filter)
    (allocs : nat) : option (list mmap_filter * nat) :=
  match fs with
  | [] => Some ([], allocs)
  | filter :: rest =>
      if negb (vmalloc_ok allocs) then None
      else
        match copy_comparisons vmalloc_ok (comparisons filter) (S allocs) with
        | None => None
        | Some (cs', n) =>
            match copy_filters vmalloc_ok rest n with
            | None => None
            | Some (fs', n') =>
                Some (mk_filter (section filter) (policy filter)
                        (filter_benefit filter) cs' :: fs', n')
            end
        end
  end.

(** [mm_copy_profile]: the list of profiles afterwards.  Every failure
    frees what was built and leaves the list as it was. *)
Definition mm_copy_profile (vmalloc_ok : nat -> bool)
    (filter_procs : list mmap_filter_proc) (old_pid new_pid : Z)
    : list mmap_filter_proc :=
  match find_filter_proc_by_pid filter_procs old_pid with
  | None => filter_procs
  | Some proc =>
      if negb (vmalloc_ok O) then filter_procs
      else
        match copy_filters vmalloc_ok (filters proc) 1%nat with
        | None => filter_procs
        | Some (fs, n1) =>
            let '(ret, hp, n2) :=
              mm_copy_profile_range vmalloc_ok n1 (hp_ranges_root proc) RB_ROOT in
            if negb (ret =? 0) then filter_procs
            else
              let '(ret, eager, _) :=
                mm_copy_profile_range vmalloc_ok n2 (eager_ranges_root proc)
                  RB_ROOT in
              if negb (ret =? 0) then filter_procs
              else filter_procs ++ [mk_proc new_pid fs hp eager]
        end
  end.

(** ** The sysfs files *)

Definition set_mm_econ_mode (st : econ_state) (mode : Z) : econ_state :=
  mk_state mode (mm_econ_debugging_mode st)
    (mm_econ_contention_ms st) (mm_econ_freq_mhz st)
    (mm_econ_num_estimates st) (mm_econ_num_decisions st)
    (mm_econ_num_decisions_yes st) (mm_econ_num_hp_promotions st)
    (mm_econ_num_async_compaction st)
    (mm_econ_num_async_prezeroing st) (mm_econ_vmalloc_bytes st)
    (mm_econ_cost st) (mm_econ_benefit st) (kernel_log st).

Definition set_mm_econ_debugging_mode (st : econ_state) (mode : Z)
    : econ_state :=
  mk_state (mm_econ_mode st) mode
    (mm_econ_contention_ms st) (mm_econ_freq_mhz st)
    (mm_econ_num_estimates st) (mm_econ_num_decisions st)
    (mm_econ_num_decisions_yes st) (mm_econ_num_hp_promotions st)
    (mm_econ_num_async_compaction st)
    (mm_econ_num_async_prezeroing st) (mm_econ_vmalloc_bytes st)
    (mm_econ_cost st) (mm_econ_benefit st) (kernel_log st).

Definition set_mm_econ_contention_ms (st : econ_state) (ms : Z) : econ_state :=
  mk_state (mm_econ_mode st) (mm_econ_debugging_mode st)
    ms (mm_econ_freq_mhz st)
    (mm_econ_num_estimates st) (mm_econ_num_decisions st)
    (mm_econ_num_decisions_yes st) (mm_econ_num_hp_promotions st)
    (mm_econ_num_async_compaction st)
    (mm_econ_num_async_prezeroing st) (mm_econ_vmalloc_bytes st)
    (mm_econ_cost st) (mm_econ_benefit st) (kernel_log st).

Definition set_mm_econ_freq_mhz (st : econ_state) (mhz : Z) : econ_state :=
  mk_state (mm_econ_mode st) (mm_econ_debugging_mode st)
    (mm_econ_contention_ms st) mhz
    (mm_econ_num_estimates st) (mm_econ_num_decisions st)
    (mm_econ_num_decisions_yes st) (mm_econ_num_hp_promotions st)
    (mm_econ_num_async_compaction st)
    (mm_econ_num_async_prezeroing st) (mm_econ_vmalloc_bytes st)
    (mm_econ_cost st) (mm_econ_benefit st) (kernel_log st).

(** [kstrtoint(buf, 0, &v)] and [kstrtou64(buf, 0, &v)] of lib/kstrtox.c
    are arguments of the store functions: [inr v] when the call returns 0
    and stores [v], [inl ret] when it returns the error [ret]. *)
Definition enabled_store (kstrtoint : string -> Z + Z) (st : econ_state)
    (buf : string) (count : Z) : econ_state * Z :=
  match kstrtoint buf with
  | inl ret => (set_mm_econ_mode st 0, ret)
  | inr mode =>
      if (0 <=? mode) && (mode <=? 1) then (set_mm_econ_mode st mode, count)
      else (set_mm_econ_mode st 0, - EINVAL)
  end.

Definition debugging_mode_store (kstrtoint : string -> Z + Z)
    (st : econ_state) (buf : string) (count : Z) : econ_state * Z :=
  match kstrtoint buf with
  | inl ret => (set_mm_econ_debugging_mode st 0, ret)
  | inr mode => (set_mm_econ_debugging_mode st mode, count)
  end.

Definition contention_cycles_store (kstrtou64 : string -> Z + Z)
    (st : econ_state) (buf : string) (count : Z) : econ_state * Z :=
  match kstrtou64 buf with
  | inl ret => (st, ret)
  | inr ms => (set_mm_econ_contention_ms st ms, count)
  end.

Definition freq_mhz_store (kstrtou64 : string -> Z + Z)
    (st : econ_state) (buf : string) (count : Z) : econ_state * Z :=
  match kstrtou64 buf with
  | inl ret => (st, ret)
  | inr mhz => (set_mm_econ_freq_mhz st mhz, count)
  end.

Definition stats_store (st : econ_state) (buf : string) (count : Z)
    : econ_state * Z :=
  (st, - EINVAL).

Definition mm_econ_is_on (st : econ_state) : bool := 0 <? mm_econ_mode st.

Definition mm_register_promotion (st : econ_state) (addr : Z) : econ_state :=
  mk_state (mm_econ_mode st) (mm_econ_debugging_mode st)
    (mm_econ_contention_ms st) (mm_econ_freq_mhz st)
    (mm_econ_num_estimates st) (mm_econ_num_decisions st)
    (mm_econ_num_decisions_yes st)
    (u64_add (mm_econ_num_hp_promotions st) 1)
    (mm_econ_num_async_compaction st)
    (mm_econ_num_async_prezeroing st) (mm_econ_vmalloc_bytes st)
    (mm_econ_cost st) (mm_econ_benefit st) (kernel_log st).

(** ** mmap_filters_read *)

Definition MMAP_FILTER_BUF_SIZE : Z := 4096.
Definition MMAP_FILTER_BUF_DEAD_ZONE : Z := 128.

(** The CSV header [mmap_filters_read] prints first. *)
Definition filters_header : string :=
  ("POLICY,SECTION,MISSES,CONSTRAINTS..." ++ String newline EmptyString)%string.

Section FilterRead.

(** The digits [sprintf] prints for the conversion [%llx]. *)
Variable llx : Z -> string.

(** The bytes at the start of [buffer] that the calls of [sprintf] have
    written so far; their number is [len].  The inner loop: the buffer
    afterwards, and whether the loop left with [goto out]. *)
Fixpoint print_comparisons (cs : list mmap_comparison) (buffer : string)
    : string * bool :=
  match cs with
  | [] => (buffer, false)
  | comparison :: cs' =>
      if MMAP_FILTER_BUF_SIZE - MMAP_FILTER_BUF_DEAD_ZONE <? strlen buffer
      then (buffer, true)
      else
        print_comparisons cs'
          (buffer ++ String comma (mmap_quantity_get_str (quant comparison)
             ++ String comma (String (mmap_comparator_get_char (comp comparison))
                  (String comma ("0x" ++ llx (val comparison))))))%string
  end.

Fixpoint print_filters (fs : list mmap_filter) (buffer : string) : string :=
  match fs with
  | [] => buffer
  | filter :: fs' =>
      if MMAP_FILTER_BUF_SIZE - MMAP_FILTER_BUF_DEAD_ZONE <? strlen buffer
      then buffer
      else
        let buffer :=
          (buffer ++ mm_policy_get_str (policy filter)
             ++ String comma (mm_memory_section_get_str (section filter)
                  ++ String comma ("0x" ++ llx (filter_benefit filter))))%string in
        let (buffer, out) := print_comparisons (comparisons filter) buffer in
        if out then buffer
        else print_filters fs' (buffer ++ String newline EmptyString)%string
  end.

(** [mmap_filters_read] up to the call of [simple_read_from_buffer]:
    [inl] is the error returned before, [inr] the [len] bytes of the buffer
    that the call is given to copy out.  [task] is the thread group of the
    proc file, if it still exists, [vmalloc_ok] the outcome of the
    allocation of the buffer. *)
Definition mmap_filters_read (vmalloc_ok : bool)
    (procs : list mmap_filter_proc) (task : option Z) : Z + string :=
  match task with
  | None => inl (- ESRCH)
  | Some tgid =>
      if negb vmalloc_ok then inl (- ENOMEM)
      else
        match find_filter_proc_by_pid procs tgid with
        | None => inr filters_header
        | Some proc => inr (print_filters (filters proc) filters_header)
        end
  end.

End FilterRead.

(** ** mm_add_memory_range *)

(** [PAGE_MASK] is [~(PAGE_SIZE - 1)] as an [unsigned long]. *)
Definition PAGE_MASK : Z := u64 (Z.lnot (PAGE_SIZE - 1)).

Definition mm_does_quantity_match (c : mmap_comparison) (value : Z) : bool :=
  match comp c with
  | CompEquals => value =? val c
  | CompGreaterThan => val c <? value
  | CompLessThan => value <? val c
  end.

Definition mm_memory_section_eqb (a b : mm_memory_section) : bool :=
  match a, b with
  | SectionCode, SectionCode | SectionData, SectionData
  | SectionHeap, SectionHeap | SectionMmap, SectionMmap => true
  | _, _ => false
  end.

(** The rank at which [profile_range_insert] links the new node. *)
Definition node_of_insert (t : rb_tree) (new_range : profile_range) : nat :=
  fst (rb_link_slot (remove_overlapping_ranges t new_range) new_range O).

(** The number of allocations a call of [mm_split_ranges] that returns
    true has made. *)
Definition mm_split_ranges_allocs (base_range : profile_range) (addr : Z)
    (comp : mmap_comparator) : nat :=
  match comp with
  | CompGreaterThan => if addr <=? start base_range then O else 1%nat
  | CompLessThan => if end_ base_range <=? addr then O else 1%nat
  | CompEquals =>
      Nat.add (if start base_range <? addr then 1%nat else O)
        (if u64_add addr PAGE_SIZE <? end_ base_range then 1%nat else O)
  end.

(** The loop that gives every range of benefit 0 the benefit of the
    filter that matched the whole mapping. *)
Fixpoint set_unset_benefits (t : rb_tree) (b : Z) : rb_tree :=
  match t with
  | rb_null => rb_null
  | rb_node l x r =>
      rb_node (set_unset_benefits l b)
        (if benefit x =? 0 then mk_range (start x) (end_ x) b else x)
        (set_unset_benefits r b)
  end.

(** How the loop over the comparisons of one filter ends: normally, with
    the variables it leaves behind, or at [goto err]. *)
Inductive comparisons_outcome : Type :=
| ComparisonsDone (passes_filter : bool) (parent_range : option nat)
    (temp_subranges : rb_tree) (allocs : nat)
| ComparisonsErr.

Section AddMemoryRange.

(** Whether the [k]-th call of [mm_econ_vmalloc] made by one call of
    [mm_add_memory_range] succeeds. *)
Variable vmalloc_ok : nat -> bool.

(** The arguments of [mm_add_memory_range] after the pid. *)
Variable msection : mm_memory_section.
Variables mapaddr section_off addr len prot flags fd off : Z.

(** The address a comparison on the address or on the section offset is
    about, and the comparator to search and split with. *)
Definition search_key_of (c : mmap_comparison) : Z * mmap_comparator :=
  match quant c with
  | QuantAddr => (val c, comp c)
  | _ =>
      match msection with
      | SectionMmap =>
          let section_base := u64_add mapaddr section_off in
          (u64_sub section_base (val c),
           match comp c with
           | CompGreaterThan => CompLessThan
           | CompLessThan => CompGreaterThan
           | CompEquals => CompEquals
           end)
      | _ =>
          let section_base := u64_sub mapaddr section_off in
          (u64_add section_base (val c), comp c)
      end
  end.

(** The tail of an address comparison, from the assignment of the benefit
    on: [range] is the rank in [temp_subranges] of the range to split.
    The result is the tree and the allocation count to go on with; [Some
    None] is [goto err], [None] a pointer that designates no node. *)
Definition split_for_filter (filter : mmap_filter) (temp_subranges : rb_tree)
    (range : nat) (search_key : Z) (comparator : mmap_comparator)
    (allocs : nat) : option (option (rb_tree * nat)) :=
  match container_of temp_subranges range with
  | None => None
  | Some r =>
      let r1 := mk_range (start r) (end_ r) (filter_benefit filter) in
      let temp1 := rb_store temp_subranges range r1 in
      match mm_split_ranges (fun k => vmalloc_ok (allocs + k)) temp1 range
              search_key comparator with
      | None => None
      | Some (false, _) => Some None
      | Some (true, temp2) =>
          Some (Some (temp2,
                      (allocs + mm_split_ranges_allocs r1 search_key comparator)%nat))
      end
  end.

(** The inner loop of [mm_add_memory_range] over the comparisons of
    [filter], whose policy selects the tree [subranges].  [parent_range]
    is a rank in [subranges]. *)
Fixpoint match_comparisons (filter : mmap_filter) (subranges : rb_tree)
    (cs : list mmap_comparison) (passes_filter : bool)
    (parent_range : option nat) (temp_subranges : rb_tree) (allocs : nat)
    : option comparisons_outcome :=
  match cs with
  | [] => Some (ComparisonsDone passes_filter parent_range temp_subranges allocs)
  | c :: cs' =>
      if negb passes_filter
      then Some (ComparisonsDone passes_filter parent_range temp_subranges allocs)
      else
        match quant c with
        | QuantSectionOff | QuantAddr =>
            let (search_key, comparator) := search_key_of c in
            match parent_range with
            | None =>
                match profile_find_first_node subranges search_key comparator with
                | None =>
                    Some (ComparisonsDone false None temp_subranges allocs)
                | Some parent =>
                    match container_of subranges parent with
                    | None => None
                    | Some p =>
                        if negb (benefit p =? 0)
                        then Some (ComparisonsDone false (Some parent)
                                     temp_subranges allocs)
                        else if negb (vmalloc_ok allocs)
                        then Some ComparisonsErr
                        else
                          let range := mk_range (start p) (end_ p) (benefit p) in
                          match split_for_filter filter
                                  (profile_range_insert temp_subranges range)
                                  (node_of_insert temp_subranges range)
                                  search_key comparator (S allocs) with
                          | None => None
                          | Some None => Some ComparisonsErr
                          | Some (Some (temp, allocs')) =>
                              match_comparisons filter subranges cs' true
                                (Some parent) temp allocs'
                          end
                    end
                end
            | Some _ =>
                match profile_find_first_node temp_subranges search_key
                        comparator with
                | None =>
                    Some (ComparisonsDone false parent_range temp_subranges
                            allocs)
                | Some range =>
                    match split_for_filter filter temp_subranges range
                            search_key comparator allocs with
                    | None => None
                    | Some None => Some ComparisonsErr
                    | Some (Some (temp, allocs')) =>
                        match_comparisons filter subranges cs' true
                          parent_range temp allocs'
                    end
                end
            end
        | q =>
            let value :=
              match q with
              | QuantLen => len
              | QuantProt => prot
              | QuantFlags => flags
              | QuantFD => fd
              | _ => off
              end in
            match_comparisons filter subranges cs'
              (passes_filter && mm_does_quantity_match c value)
              parent_range temp_subranges allocs
        end
  end.

(** The loop over the filters of the process.  The result is the two
    working trees at the end of the loop; [Some None] is [goto err], [None]
    a pointer that designates no node. *)
Fixpoint apply_filters (fs : list mmap_filter)
    (huge_subranges eager_subranges : rb_tree) (allocs : nat)
    : option (option (rb_tree * rb_tree)) :=
  match fs with
  | [] => Some (Some (huge_subranges, eager_subranges))
  | filter :: fs' =>
      let subranges :=
        match policy filter with
        | PolicyHugePage => huge_subranges
        | PolicyEagerPage => eager_subranges
        end in
      let put (subranges : rb_tree) : rb_tree * rb_tree :=
        match policy filter with
        | PolicyHugePage => (subranges, eager_subranges)
        | PolicyEagerPage => (huge_subranges, subranges)
        end in
      let passes_filter := mm_memory_section_eqb msection (section filter) in
      match match_comparisons filter subranges (comparisons filter)
              passes_filter None RB_ROOT allocs with
      | None => None
      | Some ComparisonsErr => Some None
      | Some (ComparisonsDone passes_filter parent_range temp_subranges allocs') =>
          if passes_filter then
            match parent_range with
            | Some parent =>
                let (huge, eager) :=
                  put (snd (profile_move temp_subranges
                              (rb_erase subranges parent))) in
                apply_filters fs' huge eager allocs'
            | None =>
                (* the whole new range matches: no more filters *)
                Some (Some (put (set_unset_benefits subranges
                                   (filter_benefit filter))))
            end
          else apply_filters fs' huge_subranges eager_subranges allocs'
      end
  end.

(** [mm_add_memory_range]: the registry of profiles afterwards; [None]
    when a pointer of the model designates no node. *)
Definition mm_add_memory_range (procs : list mmap_filter_proc) (p : Z)
    : option (list mmap_filter_proc) :=
  match find_filter_proc_by_pid procs p with
  | None => Some procs
  | Some proc =>
      if negb (vmalloc_ok O) then Some procs
      else
        let range :=
          mk_range (Z.land mapaddr PAGE_MASK)
            (Z.land (u64_sub (u64_add (u64_add mapaddr len) PAGE_SIZE) 1)
               PAGE_MASK)
            0 in
        let huge_subranges := profile_range_insert RB_ROOT range in
        match mm_copy_profile_range vmalloc_ok 1 huge_subranges RB_ROOT with
        | (ret, eager_subranges, allocs) =>
            if negb (ret =? 0) then Some procs
            else
              match apply_filters (filters proc) huge_subranges
                      eager_subranges allocs with
              | None => None
              | Some None => Some procs
              | Some (Some (huge, eager)) =>
                  Some (replace_proc procs
                          (mk_proc (pid proc) (filters proc)
                             (snd (profile_move huge (hp_ranges_root proc)))
                             (snd (profile_move eager
                                     (eager_ranges_root proc)))))
              end
        end
  end.

End AddMemoryRange.

(** ** print_profile *)

Section PrintProfile.

(** The digits [sprintf] prints for [%llx] and for [%llu]. *)
Variable llx : Z -> string.
Variable llu : Z -> string.

(** [print_range_tree(buffer, buf_size, node)] over the nodes from [node]
    on; [buffer] is the text printed so far by this call, [len] its
    length. *)
Fixpoint print_range_tree (buf_size : Z) (nodes : list profile_range)
    (buffer : string) : string :=
  match nodes with
  | [] => buffer
  | range :: rest =>
      if buf_size - MMAP_FILTER_BUF_DEAD_ZONE <? strlen buffer then buffer
      else
        print_range_tree buf_size rest
          (buffer ++ "[0x" ++ llx (start range) ++ ", 0x" ++ llx (end_ range)
             ++ ") (" ++ llu (u64_sub (end_ range) (start range))
             ++ " bytes) benefit=0x" ++ llx (benefit range)
             ++ String newline EmptyString)%string
  end.

(** [print_profile] up to the call of [simple_read_from_buffer]: [inl] is
    the value returned before, [inr] the [len] bytes of the buffer that the
    call is given to copy out. *)
Definition print_profile (vmalloc_ok : bool) (procs : list mmap_filter_proc)
    (task : option Z) : Z + string :=
  match task with
  | None => inl (- ESRCH)
  | Some tgid =>
      match find_filter_proc_by_pid procs tgid with
      | None => inl 0
      | Some proc =>
          if negb vmalloc_ok then inl (- ENOMEM)
          else
            let buffer :=
              ("Huge Page Ranges:" ++ String newline EmptyString)%string in
            let buffer :=
              (buffer
               ++ print_range_tree (MMAP_FILTER_BUF_SIZE - strlen buffer)
                    (inorder (hp_ranges_root proc)) EmptyString)%string in
            let buffer :=
              (buffer ++ "Eager Page Ranges:"
               ++ String newline EmptyString)%string in
            inr (buffer
                 ++ print_range_tree (MMAP_FILTER_BUF_SIZE - strlen buffer)
                      (inorder (eager_ranges_root proc)) EmptyString)%string
      end
  end.

End PrintProfile.

(** * Specification vocabulary *)

Definition nonempty (r : profile_range) : Prop := start r < end_ r.

(** Overlap of two half-open ranges, as the specification words it. *)
Definition overlaps (a b : profile_range) : Prop :=
  start a < end_ b /\ start b < end_ a.

Definition before (a b : profile_range) : Prop := end_ a <= start b.

(** The working invariant: every range is non-empty and each one ends
    before the next one starts. *)
Definition wf_ranges (l : list profile_range) : Prop :=
  Forall nonempty l /\ StronglySorted before l.

(** The same invariant in the words of the data model: the tree is a
    search tree on the start address, its ranges are non-empty and no two
    of them overlap. *)
Definition interval_store (t : rb_tree) : Prop :=
  StronglySorted (fun a b => start a <= start b) (inorder t)
  /\ Forall nonempty (inorder t)
  /\ ForallOrdPairs (fun a b => ~ overlaps a b) (inorder t).

(** States of one interval store that a sequence of inserts of non-empty
    ranges can produce.  The tree a call leaves behind has the ranges of
    the model's tree in the same order; its shape is whatever the
    rebalancing made of it. *)
Inductive store_reachable : rb_tree -> Prop :=
| reach_root : store_reachable RB_ROOT
| reach_insert : forall t new_range t',
    store_reachable t ->
    nonempty new_range ->
    inorder t' = inorder (profile_range_insert t new_range) ->
    store_reachable t'.

(** What an insert leaves in a well-formed store, on lists: the ranges that
    do not overlap the new one, and the new one at its place. *)
Definition insert_spec (l : list profile_range) (new_range : profile_range)
    : list profile_range :=
  let kept := filter (fun r => negb (ranges_overlap new_range r)) l in
  filter (fun r => start r <? start new_range) kept
  ++ new_range :: filter (fun r => start new_range <? start r) kept.

Fixpoint first_index {A : Type} (p : A -> bool) (l : list A) : option nat :=
  match l with
  | [] => None
  | x :: l' => if p x then Some O else option_map S (first_index p l')
  end.

Fixpoint skip_while {A : Type} (p : A -> bool) (l : list A) : list A :=
  match l with
  | [] => []
  | x :: l' => if p x then skip_while p l' else l
  end.

Definition state_with_mode (mode : Z) : econ_state :=
  mk_state mode 0 10 3000 0 0 0 0 0 0 0 [] [] [].

(** The number of critical sections that fit into one contention window
    for free, and what the operations beyond them are charged. *)
Definition free_critical_sections (window_ms freq_mhz : Z) : Z :=
  u64_div (u64_mul (u64_mul window_ms freq_mhz) 1000) 300.

Definition contention_charge (n nfree : Z) : Z :=
  if n >? nfree then (n - nfree) * 300 else 0.

Fixpoint has_char (ch : ascii) (s : string) : bool :=
  match s with
  | EmptyString => false
  | String c s' => Ascii.eqb c ch || has_char ch s'
  end.

(** The text of a filter program: every line followed by a newline. *)
Fixpoint filter_lines (lines : list string) : string :=
  match lines with
  | [] => EmptyString
  | line :: lines' => (line ++ String newline (filter_lines lines'))%string
  end.

Fixpoint filter_lines_length (lines : list string) : Z :=
  match lines with
  | [] => 0
  | line :: lines' => strlen line + 1 + filter_lines_length lines'
  end.

(** A complete, well-formed filter line: a line of text (no NUL, no
    newline) from which the loop body reads a filter. *)
Definition well_formed_line (kstrtoull : string -> option Z)
    (vmalloc_ok : nat -> bool) (line : string) : Prop :=
  has_char NUL line = false
  /\ has_char newline line = false
  /\ forall allocs, exists f n,
       read_filter kstrtoull vmalloc_ok line allocs = FilterRead f n.

(** A remainder cut in the middle of a line: no newline follows. *)
Definition truncated (rest : string) : Prop :=
  has_char newline (c_str rest) = false.

(** A remainder whose first line is complete but is empty or does not
    parse as a filter. *)
Definition malformed (kstrtoull : string -> option Z)
    (vmalloc_ok : nat -> bool) (rest : string) : Prop :=
  exists tok more,
    c_str rest = (tok ++ String newline more)%string
    /\ has_char newline tok = false
    /\ (tok = EmptyString
        \/ forall allocs, read_filter kstrtoull vmalloc_ok tok allocs = FilterBreak).

(** A field of a filter line: text without NUL, newline or comma. *)
Definition clean_field (s : string) : Prop :=
  has_char NUL s = false /\ has_char newline s = false
  /\ has_char comma s = false.

(** The filter program format, one line:
    [policy,section,benefit[,quantity,operator,value]*], the numbers given
    as the text the line holds for them. *)
Fixpoint comparisons_text (cs : list (mmap_quantity * mmap_comparator * string))
    : string :=
  match cs with
  | [] => EmptyString
  | (q, c, v) :: cs' =>
      String comma (mmap_quantity_get_str q
        ++ String comma (String (mmap_comparator_get_char c)
             (String comma (v ++ comparisons_text cs'))))
  end.

Definition filter_text (policy : mm_policy) (section : mm_memory_section)
    (benefit : string) (cs : list (mmap_quantity * mmap_comparator * string))
    : string :=
  (mm_policy_get_str policy
   ++ String comma (mm_memory_section_get_str section
        ++ String comma (benefit ++ comparisons_text cs)))%string.

Fixpoint comparisons_fields (cs : list (mmap_quantity * mmap_comparator * string))
    : list string :=
  match cs with
  | [] => []
  | (q, c, v) :: cs' =>
      mmap_quantity_get_str q
      :: String (mmap_comparator_get_char c) EmptyString
      :: v :: comparisons_fields cs'
  end.

Definition numbers_ok (kstrtoull : string -> option Z)
    (cs : list (mmap_quantity * mmap_comparator * string)) : Prop :=
  Forall (fun qcv => clean_field (snd qcv) /\ kstrtoull (snd qcv) <> None) cs.

Definition line_break : string := String newline EmptyString.

(** The same format as a test on the text of one line, in the words of
    the format: the fields between the commas are a policy, a section and
    a benefit, then any number of constraints of three fields each, a
    quantity, an operator and a value.  A number is a text [kstrtoull]
    accepts. *)
Definition policy_word (s : string) : bool :=
  String.eqb s "huge" || String.eqb s "eager".

Definition section_word (s : string) : bool :=
  String.eqb s "code" || String.eqb s "data" || String.eqb s "heap"
  || String.eqb s "mmap".

Definition quantity_word (s : string) : bool :=
  String.eqb s "section_off" || String.eqb s "addr" || String.eqb s "len"
  || String.eqb s "prot" || String.eqb s "flags" || String.eqb s "fd"
  || String.eqb s "off".

Definition operator_word (s : string) : bool :=
  String.eqb s "=" || String.eqb s ">" || String.eqb s "<".

Definition number_text (kstrtoull : string -> option Z) (s : string) : bool :=
  match kstrtoull s with
  | Some _ => true
  | None => false
  end.

Fixpoint constraints_format (kstrtoull : string -> option Z)
    (fs : list string) : bool :=
  match fs with
  | [] => true
  | q :: o :: v :: fs' =>
      quantity_word q && operator_word o && number_text kstrtoull v
      && constraints_format kstrtoull fs'
  | _ => false
  end.

Definition format_line (kstrtoull : string -> option Z) (line : string)
    : bool :=
  match fields comma line with
  | p :: s :: b :: cs =>
      policy_word p && section_word s && number_text kstrtoull b
      && constraints_format kstrtoull cs
  | _ => false
  end.

(** The line without its last character, when that is a comma. *)
Fixpoint without_last_comma (line : string) : option string :=
  match line with
  | EmptyString => None
  | String c rest =>
      match rest with
      | EmptyString => if Ascii.eqb c comma then Some EmptyString else None
      | String _ _ => option_map (String c) (without_last_comma rest)
      end
  end.

(** A line of the format, or a line of the format with one more comma at
    its end. *)
Definition format_line_comma (kstrtoull : string -> option Z) (line : string)
    : bool :=
  format_line kstrtoull line
  || match without_last_comma line with
     | Some line' => format_line kstrtoull line'
     | None => false
     end.

(** The numbers of the constraints of a line of the format: accepted by
    [kstrtoull], and without a comma. *)
Definition numbers_format (kstrtoull : string -> option Z)
    (cs : list (mmap_quantity * mmap_comparator * string)) : Prop :=
  Forall (fun qcv => has_char comma (snd qcv) = false
                     /\ kstrtoull (snd qcv) <> None) cs.

(** A line of text: no NUL, no newline. *)
Definition text_line (line : string) : Prop :=
  has_char NUL line = false /\ has_char newline line = false.

(** A remainder whose first line is complete and fails the test [ok]. *)
Definition first_line_fails (ok : string -> bool) (rest : string) : Prop :=
  exists tok more,
    c_str rest = (tok ++ String newline more)%string
    /\ has_char newline tok = false
    /\ ok tok = false.

(** What a huge page promotion costs, by the state of the free lists. *)
Definition promote_cost (fhps : free_huge_page_status) : Z :=
  match fhps with
  | fhps_none => 2 ^ 32 + 200000
  | fhps_free => 200000
  | fhps_zeroed => 0
  end.

(** The ranges an eager paging estimate is after: those that reach into
    the window [[s, e)] and whose benefit exceeds the cost [c]. *)
Definition eager_candidate (s e c : Z) (r : profile_range) : bool :=
  (s <? end_ r) && (start r <? e) && (c <? benefit r).

(** The line [mmap_filters_read] prints for a filter, without its newline,
    in the format of the filter program. *)
Definition comparison_fields (llx : Z -> string) (c : mmap_comparison)
    : mmap_quantity * mmap_comparator * string :=
  (quant c, comp c, ("0x" ++ llx (val c))%string).

Definition filter_line (llx : Z -> string) (f : mmap_filter) : string :=
  filter_text (policy f) (section f) ("0x" ++ llx (filter_benefit f))
    (map (comparison_fields llx) (comparisons f)).

(** The numbers of a filter. *)
Definition filter_numbers (f : mmap_filter) : list Z :=
  filter_benefit f :: map val (comparisons f).

(** Lower-case hexadecimal digits of a [u64], as [%llx] prints them. *)
Definition hex_char (d : Z) : ascii :=
  ascii_of_nat (Z.to_nat (if d <? 10 then 48 + d else 87 + d)).

Fixpoint hex_text_loop (fuel : nat) (v : Z) (acc : string) : string :=
  match fuel with
  | O => acc
  | S fuel' =>
      let acc' := String (hex_char (v mod 16)) acc in
      if v / 16 =? 0 then acc' else hex_text_loop fuel' (v / 16) acc'
  end.

Definition hex_text (v : Z) : string := hex_text_loop 16 v EmptyString.

(** A number whose printed form is a field of a filter line that
    [kstrtoull] reads back. *)
Definition number_round_trips (kstrtoull : string -> option Z)
    (llx : Z -> string) (v : Z) : Prop :=
  clean_field ("0x" ++ llx v) /\ kstrtoull ("0x" ++ llx v)%string = Some v.

(** The value a comparison on a quantity other than an address is about. *)
Definition quantity_value (len prot flags fd off : Z) (q : mmap_quantity) : Z :=
  match q with
  | QuantLen => len
  | QuantProt => prot
  | QuantFlags => flags
  | QuantFD => fd
  | _ => off
  end.

(** A filter that compares no address and no section offset. *)
Definition tests_no_address (f : mmap_filter) : bool :=
  forallb (fun c => match quant c with
                    | QuantSectionOff | QuantAddr => false
                    | _ => true
                    end) (comparisons f).

(** A filter of the section of the mapping all of whose comparisons hold
    for the quantities of the mapping. *)
Definition matches_mapping (msection : mm_memory_section)
    (len prot flags fd off : Z) (f : mmap_filter) : bool :=
  mm_memory_section_eqb msection (section f)
  && forallb (fun c => mm_does_quantity_match c
                         (quantity_value len prot flags fd off (quant c)))
       (comparisons f).

(** The page-aligned range of a mapping, with benefit [b]. *)
Definition aligned_range (mapaddr len b : Z) : profile_range :=
  mk_range (Z.land mapaddr PAGE_MASK)
    (Z.land (u64_sub (u64_add (u64_add mapaddr len) PAGE_SIZE) 1) PAGE_MASK) b.

(** A range inside the address space that leaves room for one more page
    above its end. *)
Definition page_bounded (r : profile_range) : Prop :=
  0 <= start r /\ end_ r <= u64_modulus - PAGE_SIZE.

(** The invariant of the working trees of [mm_add_memory_range]. *)
Definition working_tree (t : rb_tree) : Prop :=
  wf_ranges (inorder t) /\ Forall page_bounded (inorder t).

(** What a comparator asks of the range found for a search key. *)
Definition found_for (comparator : mmap_comparator) (key : Z)
    (r : profile_range) : Prop :=
  match comparator with
  | CompGreaterThan => key < end_ r
  | CompLessThan => start r < key
  | CompEquals => start r <= key < end_ r
  end.

(** The ranges of [l], in order, cut [[a, b)] into non-empty pieces. *)
Fixpoint tiles (a b : Z) (l : list profile_range) : Prop :=
  match l with
  | [] => a = b
  | r :: l' => start r = a /\ a < end_ r /\ tiles (end_ r) b l'
  end.

(** A range meets the window [[a, b)]. *)
Definition meets (a b : Z) (r : profile_range) : Prop :=
  start r < b /\ a < end_ r.

(** Where the benefit of a range of a mapping can come from: it is 0, or
    the benefit of a filter of the given policy for the section of the
    mapping. *)
Definition benefit_from (fs : list mmap_filter) (msection : mm_memory_section)
    (pol : mm_policy) (v : Z) : Prop :=
  v = 0
  \/ exists f, In f fs /\ policy f = pol /\ section f = msection
               /\ filter_benefit f = v.

(** The temporary tree of a filter cuts the parent range, the range of
    rank [parent] of [subranges], into pieces that carry the benefit of
    the filter or 0. *)
Definition splits_parent (filter : mmap_filter) (subranges : rb_tree)
    (parent : nat) (temp : rb_tree) : Prop :=
  exists p,
    container_of subranges parent = Some p
    /\ tiles (start p) (end_ p) (inorder temp)
    /\ working_tree temp
    /\ Forall (fun x => benefit x = filter_benefit filter \/ benefit x = 0)
         (inorder temp).

(** The states of the globals that the entry points of the module can
    produce from the initial values (mode 0, a contention window of 10 ms,
    3000 MHz, all counters 0). *)
Inductive econ_reachable : econ_state -> Prop :=
| econ_initial : econ_reachable (state_with_mode 0)
| econ_enabled_store (st : econ_state) (kstrtoint : string -> Z + Z)
    (buf : string) (count : Z) :
    econ_reachable st ->
    econ_reachable (fst (enabled_store kstrtoint st buf count))
| econ_debugging_mode_store (st : econ_state) (kstrtoint : string -> Z + Z)
    (buf : string) (count : Z) :
    econ_reachable st ->
    econ_reachable (fst (debugging_mode_store kstrtoint st buf count))
| econ_contention_cycles_store (st : econ_state) (kstrtou64 : string -> Z + Z)
    (buf : string) (count : Z) :
    econ_reachable st ->
    econ_reachable (fst (contention_cycles_store kstrtou64 st buf count))
| econ_freq_mhz_store (st : econ_state) (kstrtou64 : string -> Z + Z)
    (buf : string) (count : Z) :
    econ_reachable st ->
    econ_reachable (fst (freq_mhz_store kstrtou64 st buf count))
| econ_stats_store (st : econ_state) (buf : string) (count : Z) :
    econ_reachable st -> econ_reachable (fst (stats_store st buf count))
| econ_estimate_changes (env : estimator_env) (st st' : econ_state)
    (a : mm_action) (c c' : mm_cost_delta) :
    econ_reachable st ->
    mm_estimate_changes env st a c = Some (st', c') ->
    econ_reachable st'
| econ_decide (st : econ_state) (c : mm_cost_delta) :
    econ_reachable st -> econ_reachable (fst (mm_decide st c))
| econ_register_promotion (st : econ_state) (addr : Z) :
    econ_reachable st -> econ_reachable (mm_register_promotion st addr).

(** * Properties *)

(** Goals about bounds of ranges: unfold the vocabulary and leave the rest
    to linear arithmetic. *)
Ltac range_arith :=
  unfold before, nonempty, overlaps in *; cbn [start end_ benefit] in *; lia.

(** ** Lists *)

Lemma StronglySorted_app_iff {A : Type} (R : A -> A -> Prop) (l1 l2 : list A) :
  StronglySorted R (l1 ++ l2) <->
  StronglySorted R l1 /\ StronglySorted R l2
  /\ (forall a b, In a l1 -> In b l2 -> R a b).
Proof.
  induction l1 as [|x l1 IH]; simpl.
  - split.
    + intros H. repeat split; auto. constructor. intros a b [].
    + intros (_ & H & _). exact H.
  - split.
    + intros H. inversion H as [|? ? Hs Hf]; subst.
      apply IH in Hs. destruct Hs as (H1 & H2 & H3).
      rewrite Forall_app in Hf. destruct Hf as [Hf1 Hf2].
      repeat split; auto.
      * constructor; auto.
      * intros a b [->|Ha] Hb.
        -- rewrite Forall_forall in Hf2. auto.
        -- auto.
    + intros (H1 & H2 & H3). inversion H1 as [|? ? Hs Hf]; subst.
      constructor.
      * apply IH. repeat split; auto.
      * rewrite Forall_app. split; auto.
        rewrite Forall_forall. intros b Hb. apply H3; auto.
Qed.

Lemma wf_ranges_nil : wf_ranges [].
Proof. split; constructor. Qed.

Lemma wf_ranges_app (l1 l2 : list profile_range) :
  wf_ranges (l1 ++ l2) <->
  wf_ranges l1 /\ wf_ranges l2
  /\ (forall a b, In a l1 -> In b l2 -> before a b).
Proof.
  unfold wf_ranges. rewrite Forall_app, StronglySorted_app_iff. tauto.
Qed.

Lemma wf_ranges_cons (x : profile_range) (l : list profile_range) :
  wf_ranges (x :: l) <->
  nonempty x /\ wf_ranges l /\ (forall b, In b l -> before x b).
Proof.
  unfold wf_ranges. split.
  - intros [Hn Hs]. inversion Hn; subst. inversion Hs as [|? ? Hs' Hf]; subst.
    rewrite Forall_forall in Hf. auto.
  - intros (Hx & [Hn Hs] & Hb). split; constructor; auto.
    rewrite Forall_forall. exact Hb.
Qed.

Lemma wf_ranges_In (l : list profile_range) (r : profile_range) :
  wf_ranges l -> In r l -> nonempty r.
Proof.
  intros [Hn _] Hin. rewrite Forall_forall in Hn. auto.
Qed.

Lemma interval_store_wf (t : rb_tree) :
  interval_store t <-> wf_ranges (inorder t).
Proof.
  unfold interval_store. generalize (inorder t) as l.
  induction l as [|x l IH].
  - split; intros _.
    + apply wf_ranges_nil.
    + repeat split; constructor.
  - rewrite wf_ranges_cons. split.
    + intros (Hs & Hn & Ho).
      inversion Hs as [|? ? Hs' Hf]; subst.
      inversion Hn as [|? ? Hx Hn']; subst.
      inversion Ho as [|? ? Hox Ho']; subst.
      split; [exact Hx|]. split; [apply IH; auto|].
      intros b Hb. rewrite Forall_forall in Hf, Hox, Hn'.
      specialize (Hf b Hb). specialize (Hox b Hb). specialize (Hn' b Hb).
      unfold before, overlaps, nonempty in *. lia.
    + intros (Hx & Hl & Hb). apply IH in Hl. destruct Hl as (Hs & Hn & Ho).
      assert (Hn' := Hn). rewrite Forall_forall in Hn'.
      repeat split.
      * constructor; auto. rewrite Forall_forall. intros b Hin.
        specialize (Hb b Hin). specialize (Hn' b Hin).
        range_arith.
      * constructor; auto.
      * constructor; auto. rewrite Forall_forall. intros b Hin.
        specialize (Hb b Hin). unfold before, overlaps in *. lia.
Qed.

Lemma ranges_overlap_true (a b : profile_range) :
  ranges_overlap a b = true <->
  (start a <= start b < end_ a) \/ (start b <= start a < end_ b).
Proof.
  unfold ranges_overlap.
  rewrite orb_true_iff, !andb_true_iff, !Z.leb_le, !Z.ltb_lt. tauto.
Qed.

Lemma ranges_overlap_false (a b : profile_range) :
  ranges_overlap a b = false <->
  ~ (start a <= start b < end_ a) /\ ~ (start b <= start a < end_ b).
Proof.
  rewrite <- not_true_iff_false, ranges_overlap_true. tauto.
Qed.

(** On non-empty ranges the test of the code is the overlap of the
    specification. *)
Lemma ranges_overlap_overlaps (a b : profile_range) :
  nonempty a -> nonempty b ->
  (ranges_overlap a b = true <-> overlaps a b).
Proof.
  unfold nonempty, overlaps. intros Ha Hb.
  rewrite ranges_overlap_true. lia.
Qed.

Lemma first_index_app {A : Type} (p : A -> bool) (l1 : list A) (x : A) (l2 : list A) :
  first_index p (l1 ++ x :: l2) =
  match first_index p l1 with
  | Some i => Some i
  | None =>
      if p x then Some (List.length l1)
      else option_map (fun j => (List.length l1 + 1 + j)%nat) (first_index p l2)
  end.
Proof.
  induction l1 as [|y l1 IH]; simpl.
  - destruct (p x); [reflexivity|].
    destruct (first_index p l2); reflexivity.
  - destruct (p y); [reflexivity|]. rewrite IH.
    destruct (first_index p l1); [reflexivity|].
    destruct (p x); [reflexivity|].
    destruct (first_index p l2); reflexivity.
Qed.

Lemma first_index_none {A : Type} (p : A -> bool) (l : list A) :
  (forall x, In x l -> p x = false) -> first_index p l = None.
Proof.
  induction l as [|y l IH]; simpl; intros H; [reflexivity|].
  rewrite (H y) by auto. rewrite IH; auto.
Qed.

Lemma first_index_some {A : Type} (p : A -> bool) (l : list A) (i : nat) :
  first_index p l = Some i ->
  exists x, nth_error l i = Some x /\ p x = true
            /\ forall y, In y (firstn i l) -> p y = false.
Proof.
  revert i. induction l as [|y l IH]; simpl; intros i H; [discriminate|].
  destruct (p y) eqn:Hy.
  - inversion H; subst. exists y. simpl. repeat split; auto. intros ? [].
  - destruct (first_index p l) as [j|] eqn:Hj; [|discriminate].
    inversion H; subst. destruct (IH j eq_refl) as (x & Hx & Hp & Hf).
    exists x. simpl. repeat split; auto.
    intros z [<-|Hz]; auto.
Qed.

Lemma filter_all_false {A : Type} (p : A -> bool) (l : list A) :
  (forall x, In x l -> p x = false) -> filter (fun x => negb (p x)) l = l.
Proof.
  induction l as [|y l IH]; simpl; intros H; [reflexivity|].
  rewrite (H y) by auto. simpl. rewrite IH; auto.
Qed.

Lemma filter_all_true {A : Type} (p : A -> bool) (l : list A) :
  (forall x, In x l -> p x = true) -> filter p l = l.
Proof.
  induction l as [|y l IH]; simpl; intros H; [reflexivity|].
  rewrite (H y) by auto. rewrite IH; auto.
Qed.

Lemma filter_none {A : Type} (p : A -> bool) (l : list A) :
  (forall x, In x l -> p x = false) -> filter p l = [].
Proof.
  induction l as [|y l IH]; simpl; intros H; [reflexivity|].
  rewrite (H y) by auto. rewrite IH; auto.
Qed.

(** ** Trees *)

Lemma size_inorder (t : rb_tree) : List.length (inorder t) = size t.
Proof.
  induction t as [|l IHl x r IHr]; simpl; [reflexivity|].
  rewrite length_app. simpl. lia.
Qed.

Lemma inorder_rb_pop_first (l : rb_tree) (x : profile_range) (r : rb_tree) :
  let (m, t') := rb_pop_first l x r in
  inorder l ++ x :: inorder r = m :: inorder t'.
Proof.
  revert x r. induction l as [|ll IHll lx lr _]; intros x r; simpl.
  - reflexivity.
  - specialize (IHll lx lr). destruct (rb_pop_first ll lx lr) as [m l'].
    simpl. rewrite IHll. reflexivity.
Qed.

Lemma inorder_rb_replace (l r : rb_tree) :
  inorder (rb_replace l r) = inorder l ++ inorder r.
Proof.
  destruct l as [|ll lx lr]; [reflexivity|].
  destruct r as [|rl rx rr]; simpl.
  - rewrite app_nil_r. reflexivity.
  - pose proof (inorder_rb_pop_first rl rx rr) as H.
    destruct (rb_pop_first rl rx rr) as [m r']. simpl. rewrite H. reflexivity.
Qed.

Lemma inorder_rb_erase (t : rb_tree) (n : nat) :
  (n < size t)%nat ->
  inorder (rb_erase t n) = firstn n (inorder t) ++ skipn (S n) (inorder t).
Proof.
  revert n. induction t as [|l IHl x r IHr]; cbn [size rb_erase inorder];
    intros n Hn; [lia|].
  pose proof (size_inorder l) as Hl.
  rewrite firstn_app, skipn_app. rewrite Hl.
  destruct (n <? size l)%nat eqn:E1.
  - apply Nat.ltb_lt in E1. cbn [inorder]. rewrite IHl by exact E1.
    replace (n - size l)%nat with O by lia.
    replace (S n - size l)%nat with O by lia.
    rewrite firstn_O, skipn_O, app_nil_r, <- app_assoc. reflexivity.
  - apply Nat.ltb_ge in E1. destruct (n =? size l)%nat eqn:E2.
    + apply Nat.eqb_eq in E2. subst n. rewrite inorder_rb_replace.
      replace (size l - size l)%nat with O by lia.
      replace (S (size l) - size l)%nat with 1%nat by lia.
      rewrite <- Hl. rewrite firstn_all, skipn_all2 by lia.
      rewrite firstn_O, app_nil_r. reflexivity.
    + apply Nat.eqb_neq in E2.
      assert (exists k, n = (size l + S k)%nat) as [k ->]
        by (exists (n - size l - 1)%nat; lia).
      replace (size l + S k - size l - 1)%nat with k by lia.
      replace (size l + S k - size l)%nat with (S k) by lia.
      replace (S (size l + S k) - size l)%nat with (S (S k)) by lia.
      cbn [inorder]. rewrite IHr by lia.
      rewrite (@firstn_all2 _ (size l + S k) (inorder l)) by lia.
      rewrite (@skipn_all2 _ (S (size l + S k)) (inorder l)) by lia.
      rewrite firstn_cons, skipn_cons. cbn [app].
      rewrite <- app_assoc. reflexivity.
Qed.

Lemma find_first_overlapping_spec (t : rb_tree) (new_range : profile_range) :
  wf_ranges (inorder t) -> nonempty new_range ->
  forall off acc,
  find_first_overlapping t new_range off acc =
  match first_index (ranges_overlap new_range) (inorder t) with
  | Some i => Some (off + i)%nat
  | None => acc
  end.
Proof.
  intros Hwf Hnew.
  induction t as [|l IHl x r IHr]; intros off acc; cbn [find_first_overlapping inorder].
  - reflexivity.
  - cbn [inorder] in Hwf. apply wf_ranges_app in Hwf.
    destruct Hwf as (Hl & Hxr & Hlxr).
    apply wf_ranges_cons in Hxr. destruct Hxr as (Hx & Hr & Hxb).
    rewrite first_index_app, size_inorder.
    destruct (ranges_overlap new_range x) eqn:Eo.
    + rewrite IHl by assumption.
      destruct (first_index _ (inorder l)); reflexivity.
    + apply ranges_overlap_false in Eo.
      destruct (start new_range <? start x) eqn:Es.
      * apply Z.ltb_lt in Es. rewrite IHl by assumption.
        destruct (first_index _ (inorder l)); [reflexivity|].
        rewrite first_index_none; [reflexivity|].
        intros b Hb. apply ranges_overlap_false.
        specialize (Hxb b Hb). range_arith.
      * apply Z.ltb_ge in Es. rewrite IHr by assumption.
        rewrite (first_index_none _ (inorder l)).
        -- destruct (first_index _ (inorder r)); cbn [option_map]; [f_equal; lia|reflexivity].
        -- intros a Ha. apply ranges_overlap_false.
           assert (before a x) by (apply Hlxr; simpl; auto).
           pose proof (wf_ranges_In _ _ Hl Ha).
           range_arith.
Qed.

Lemma skipn_nth_error {A : Type} (l : list A) (n : nat) (x : A) :
  nth_error l n = Some x -> skipn n l = x :: skipn (S n) l.
Proof.
  revert n. induction l as [|y l IH]; intros [|n] H; simpl in *; try discriminate.
  - inversion H; reflexivity.
  - apply IH in H. rewrite H. reflexivity.
Qed.

Lemma erase_overlapping_spec (new_range : profile_range) (n : nat) :
  forall fuel t,
  (List.length (inorder t) - n <= fuel)%nat ->
  inorder (erase_overlapping fuel t n new_range) =
  firstn n (inorder t)
  ++ skip_while (ranges_overlap new_range) (skipn n (inorder t)).
Proof.
  induction fuel as [|fuel IH]; intros t Hfuel; cbn [erase_overlapping].
  - rewrite skipn_all2 by lia. rewrite firstn_all2 by lia.
    cbn. rewrite app_nil_r. reflexivity.
  - unfold container_of. destruct (nth_error (inorder t) n) as [cur|] eqn:En.
    + assert (Hlt : (n < List.length (inorder t))%nat)
        by (apply nth_error_Some; congruence).
      rewrite (skipn_nth_error _ _ _ En). cbn [skip_while].
      destruct (ranges_overlap new_range cur).
      * rewrite IH.
        -- rewrite inorder_rb_erase by (rewrite <- size_inorder; exact Hlt).
           rewrite firstn_app, skipn_app.
           rewrite length_firstn, Nat.min_l by lia.
           rewrite firstn_firstn, Nat.min_id.
           replace (n - n)%nat with O by lia.
           rewrite firstn_O, skipn_O, app_nil_r.
           rewrite (@skipn_all2 _ n (firstn n (inorder t)))
             by (rewrite length_firstn; lia).
           reflexivity.
        -- rewrite inorder_rb_erase by (rewrite <- size_inorder; exact Hlt).
           rewrite length_app, length_firstn, length_skipn. lia.
      * rewrite <- (skipn_nth_error _ _ _ En). rewrite firstn_skipn. reflexivity.
    + apply nth_error_None in En. rewrite skipn_all2 by lia.
      rewrite firstn_all2 by lia. cbn. rewrite app_nil_r. reflexivity.
Qed.

(** The iterations granted to the second loop are enough: more of them
    change nothing. *)
Lemma erase_overlapping_fuel (new_range : profile_range) (n fuel : nat)
    (t : rb_tree) :
  (size t <= fuel)%nat ->
  inorder (erase_overlapping fuel t n new_range)
  = inorder (erase_overlapping (size t) t n new_range).
Proof.
  intros H. rewrite !erase_overlapping_spec; [reflexivity | |];
    rewrite size_inorder; lia.
Qed.

(** In a well-formed store the ranges that overlap a non-empty range are
    consecutive. *)
Lemma overlapping_run (new_range : profile_range) (l : list profile_range) :
  wf_ranges l -> nonempty new_range ->
  forall i, first_index (ranges_overlap new_range) l = Some i ->
  firstn i l ++ skip_while (ranges_overlap new_range) (skipn i l) =
  filter (fun r => negb (ranges_overlap new_range r)) l.
Proof.
  intros Hwf Hnew i Hi.
  destruct (first_index_some _ _ _ Hi) as (o & Ho & Hov & Hpre).
  rewrite <- (firstn_skipn i l) at 3. rewrite filter_app.
  rewrite (filter_all_false _ (firstn i l)) by exact Hpre. f_equal.
  rewrite <- (firstn_skipn i l) in Hwf. apply wf_ranges_app in Hwf.
  destruct Hwf as (_ & Hwf & _).
  rewrite (skipn_nth_error _ _ _ Ho) in *.
  (* every range after an overlapping one that does not overlap lies to
     the right of the new range, and so do all its successors *)
  assert (Hgen : forall l' o', wf_ranges (o' :: l') ->
            start new_range < end_ o' ->
            skip_while (ranges_overlap new_range) l' =
            filter (fun r => negb (ranges_overlap new_range r)) l').
  { clear - Hnew. induction l' as [|h l' IH]; intros o' Hwf Ho'; [reflexivity|].
    apply wf_ranges_cons in Hwf. destruct Hwf as (Hno & Hwf & Hb).
    cbn [skip_while filter].
    destruct (ranges_overlap new_range h) eqn:Eh; cbn [negb].
    - apply (IH h); [exact Hwf|].
      apply ranges_overlap_true in Eh.
      apply wf_ranges_cons in Hwf. destruct Hwf as (Hh & _ & _).
      range_arith.
    - f_equal. symmetry. apply filter_all_false.
      intros b Hin. apply ranges_overlap_false.
      apply ranges_overlap_false in Eh.
      assert (Hob : before o' h) by (apply Hb; simpl; auto).
      apply wf_ranges_cons in Hwf. destruct Hwf as (Hh & Hwf & Hhb).
      specialize (Hhb b Hin). pose proof (wf_ranges_In _ _ Hwf Hin).
      range_arith. }
  cbn [skip_while filter]. rewrite Hov. cbn [negb].
  apply (Hgen _ o); [exact Hwf|].
  apply ranges_overlap_true in Hov.
  apply wf_ranges_cons in Hwf. destruct Hwf as (Hno & _ & _).
  range_arith.
Qed.

Lemma inorder_remove_overlapping_ranges (t : rb_tree) (new_range : profile_range) :
  wf_ranges (inorder t) -> nonempty new_range ->
  inorder (remove_overlapping_ranges t new_range) =
  filter (fun r => negb (ranges_overlap new_range r)) (inorder t).
Proof.
  intros Hwf Hnew. unfold remove_overlapping_ranges.
  rewrite find_first_overlapping_spec by assumption.
  destruct (first_index (ranges_overlap new_range) (inorder t)) as [i|] eqn:Ei.
  - rewrite erase_overlapping_spec by (rewrite size_inorder; lia).
    cbn [Nat.add]. apply overlapping_run; assumption.
  - symmetry. apply filter_all_false. intros x Hx.
    destruct (ranges_overlap new_range x) eqn:E; [|reflexivity].
    exfalso. clear - Ei Hx E.
    induction (inorder t) as [|y l IH]; [destruct Hx|].
    cbn [first_index] in Ei. destruct Hx as [->|Hx].
    + rewrite E in Ei. discriminate.
    + destruct (ranges_overlap new_range y); [discriminate|].
      destruct (first_index _ l); [discriminate|]. auto.
Qed.

Lemma wf_ranges_filter (p : profile_range -> bool) (l : list profile_range) :
  wf_ranges l -> wf_ranges (filter p l).
Proof.
  induction l as [|x l IH]; intros Hwf; [exact Hwf|].
  apply wf_ranges_cons in Hwf. destruct Hwf as (Hx & Hl & Hb).
  cbn [filter]. destruct (p x); auto.
  apply wf_ranges_cons. split; [exact Hx|]. split; [auto|].
  intros b Hin. apply filter_In in Hin. apply Hb, Hin.
Qed.

Lemma wf_ranges_before (l : list profile_range) (a b : profile_range) :
  wf_ranges l -> In a l -> In b l -> start a < start b -> before a b.
Proof.
  induction l as [|x l IH]; intros Hwf Ha Hb Hlt; [destruct Ha|].
  apply wf_ranges_cons in Hwf. destruct Hwf as (Hx & Hl & Hxb).
  destruct Ha as [->|Ha], Hb as [->|Hb]; auto.
  - lia.
  - specialize (Hxb a Ha). pose proof (wf_ranges_In _ _ Hl Ha).
    range_arith.
Qed.

Lemma inorder_rb_link_node (t : rb_tree) (new_range : profile_range) :
  wf_ranges (inorder t) -> nonempty new_range ->
  (forall r, In r (inorder t) -> ranges_overlap new_range r = false) ->
  inorder (rb_link_node t new_range) =
  filter (fun r => start r <? start new_range) (inorder t)
  ++ new_range :: filter (fun r => start new_range <? start r) (inorder t).
Proof.
  intros Hwf Hnew. induction t as [|l IHl x r IHr]; intros Hno;
    cbn [rb_link_node inorder]; [reflexivity|].
  cbn [inorder] in Hwf, Hno. apply wf_ranges_app in Hwf.
  destruct Hwf as (Hl & Hxr & Hlxr).
  apply wf_ranges_cons in Hxr. destruct Hxr as (Hx & Hr & Hxb).
  assert (Hox : ranges_overlap new_range x = false)
    by (apply Hno, in_or_app; simpl; auto).
  apply ranges_overlap_false in Hox.
  rewrite !filter_app. cbn [filter].
  destruct (start new_range <? start x) eqn:E1.
  - apply Z.ltb_lt in E1.
    replace (start x <? start new_range) with false by (symmetry; apply Z.ltb_ge; lia).
    cbn [inorder]. rewrite IHl; auto.
    2:{ intros b Hb. apply Hno, in_or_app; auto. }
    rewrite (filter_none _ (inorder r)).
    2:{ intros b Hb. specialize (Hxb b Hb). apply Z.ltb_ge.
        range_arith. }
    rewrite (filter_all_true _ (inorder r)).
    2:{ intros b Hb. specialize (Hxb b Hb). apply Z.ltb_lt.
        range_arith. }
    rewrite app_nil_r, <- app_assoc. reflexivity.
  - apply Z.ltb_ge in E1. destruct (start x <? start new_range) eqn:E2.
    + apply Z.ltb_lt in E2. cbn [inorder]. rewrite IHr; auto.
      2:{ intros b Hb. apply Hno, in_or_app; simpl; auto. }
      rewrite (filter_all_true _ (inorder l)).
      2:{ intros a Ha. assert (before a x) by (apply Hlxr; simpl; auto).
          pose proof (wf_ranges_In _ _ Hl Ha). apply Z.ltb_lt.
          range_arith. }
      rewrite (filter_none _ (inorder l)).
      2:{ intros a Ha. assert (before a x) by (apply Hlxr; simpl; auto).
          pose proof (wf_ranges_In _ _ Hl Ha). apply Z.ltb_ge.
          range_arith. }
      rewrite <- app_assoc. reflexivity.
    + apply Z.ltb_ge in E2. range_arith.
Qed.

(** An insert into a well-formed store, on the in-order sequence. *)
Lemma inorder_profile_range_insert (t : rb_tree) (new_range : profile_range) :
  wf_ranges (inorder t) -> nonempty new_range ->
  inorder (profile_range_insert t new_range) =
  insert_spec (inorder t) new_range.
Proof.
  intros Hwf Hnew. unfold profile_range_insert, rb_insert_color, insert_spec.
  rewrite inorder_rb_link_node.
  - rewrite inorder_remove_overlapping_ranges by assumption. reflexivity.
  - rewrite inorder_remove_overlapping_ranges by assumption.
    apply wf_ranges_filter, Hwf.
  - exact Hnew.
  - intros r Hr. rewrite inorder_remove_overlapping_ranges in Hr by assumption.
    apply filter_In in Hr. destruct Hr as [_ Hr].
    apply negb_true_iff in Hr. exact Hr.
Qed.

Lemma wf_ranges_insert_spec (l : list profile_range) (new_range : profile_range) :
  wf_ranges l -> nonempty new_range -> wf_ranges (insert_spec l new_range).
Proof.
  intros Hwf Hnew. unfold insert_spec.
  set (kept := filter (fun r => negb (ranges_overlap new_range r)) l).
  assert (Hk : wf_ranges kept) by (apply wf_ranges_filter, Hwf).
  assert (Hno : forall r, In r kept ->
            ~ (start new_range <= start r < end_ new_range)
            /\ ~ (start r <= start new_range < end_ r)).
  { intros r Hr. apply filter_In in Hr. destruct Hr as [_ Hr].
    apply negb_true_iff in Hr. apply ranges_overlap_false, Hr. }
  apply wf_ranges_app. split; [apply wf_ranges_filter, Hk|]. split.
  - apply wf_ranges_cons. split; [exact Hnew|].
    split; [apply wf_ranges_filter, Hk|].
    intros b Hb. apply filter_In in Hb. destruct Hb as [Hb Hlt].
    apply Z.ltb_lt in Hlt. specialize (Hno b Hb).
    range_arith.
  - intros a b Ha [<-|Hb].
    + apply filter_In in Ha. destruct Ha as [Ha Hlt].
      apply Z.ltb_lt in Hlt. specialize (Hno a Ha).
      range_arith.
    + apply filter_In in Ha, Hb. destruct Ha as [Ha Hlt], Hb as [Hb Hgt].
      apply Z.ltb_lt in Hlt, Hgt.
      apply (wf_ranges_before kept); auto. lia.
Qed.

Lemma wf_ranges_profile_range_insert (t : rb_tree) (new_range : profile_range) :
  wf_ranges (inorder t) -> nonempty new_range ->
  wf_ranges (inorder (profile_range_insert t new_range)).
Proof.
  intros Hwf Hnew. rewrite inorder_profile_range_insert by assumption.
  apply wf_ranges_insert_spec; assumption.
Qed.

Lemma store_reachable_wf (t : rb_tree) :
  store_reachable t -> wf_ranges (inorder t).
Proof.
  induction 1 as [|t new_range t' _ IH Hnew Heq].
  - apply wf_ranges_nil.
  - rewrite Heq. apply wf_ranges_profile_range_insert; assumption.
Qed.

(** The store built by inserting a list of non-empty ranges one after the
    other is one of the reachable states. *)
Lemma store_reachable_fold (rs : list profile_range) (t : rb_tree) :
  store_reachable t -> Forall nonempty rs ->
  store_reachable (fold_left profile_range_insert rs t).
Proof.
  intros Ht Hrs. revert t Ht.
  induction Hrs as [|r rs Hr _ IH]; intros t Ht; cbn [fold_left].
  - exact Ht.
  - apply IH. exact (reach_insert t r _ Ht Hr eq_refl).
Qed.

(** C2: after every insert of a sequence of inserts of non-empty ranges
    into one interval store, no two stored ranges overlap. *)
Theorem insert_sequence_no_overlap (t : rb_tree) :
  store_reachable t ->
  ForallOrdPairs (fun a b => ~ overlaps a b) (inorder t).
Proof.
  intros H. apply store_reachable_wf, interval_store_wf in H.
  destruct H as (_ & _ & H). exact H.
Qed.

Lemma insert_sequence_no_overlap_witness :
  store_reachable
    (profile_range_insert
       (profile_range_insert
          (profile_range_insert RB_ROOT (mk_range 5 15 1)) (mk_range 18 25 2))
       (mk_range 10 20 3))
  /\ ForallOrdPairs (fun a b => ~ overlaps a b)
       (inorder
          (profile_range_insert
             (profile_range_insert
                (profile_range_insert RB_ROOT (mk_range 5 15 1)) (mk_range 18 25 2))
             (mk_range 10 20 3))).
Proof.
  assert (H : store_reachable
    (profile_range_insert
       (profile_range_insert
          (profile_range_insert RB_ROOT (mk_range 5 15 1)) (mk_range 18 25 2))
       (mk_range 10 20 3))).
  { apply (reach_insert
             (profile_range_insert
                (profile_range_insert RB_ROOT (mk_range 5 15 1)) (mk_range 18 25 2))
             (mk_range 10 20 3));
      [| unfold nonempty; simpl; lia | reflexivity].
    apply (reach_insert (profile_range_insert RB_ROOT (mk_range 5 15 1))
             (mk_range 18 25 2));
      [| unfold nonempty; simpl; lia | reflexivity].
    apply (reach_insert RB_ROOT (mk_range 5 15 1));
      [| unfold nonempty; simpl; lia | reflexivity].
    apply reach_root. }
  split; [exact H | exact (insert_sequence_no_overlap _ H)].
Defined.

(** C4: inserting [10,20) into a store that holds exactly [5,15) and
    [18,25) leaves exactly [10,20) with its benefit. *)
Theorem insert_evicts_both_neighbours (t : rb_tree) (b1 b2 B : Z) :
  inorder t = [mk_range 5 15 b1; mk_range 18 25 b2] ->
  inorder (profile_range_insert t (mk_range 10 20 B)) = [mk_range 10 20 B].
Proof.
  intros Ht. rewrite inorder_profile_range_insert.
  - rewrite Ht. reflexivity.
  - rewrite Ht. split.
    + repeat constructor; unfold nonempty; simpl; lia.
    + repeat constructor; unfold before; simpl; lia.
  - unfold nonempty; simpl; lia.
Qed.

Lemma insert_evicts_both_neighbours_witness :
  inorder (profile_range_insert
             (rb_node rb_null (mk_range 5 15 3)
                (rb_node rb_null (mk_range 18 25 4) rb_null))
             (mk_range 10 20 7)) = [mk_range 10 20 7]
  /\ inorder (profile_range_insert
             (rb_node (rb_node rb_null (mk_range 5 15 3) rb_null)
                (mk_range 18 25 4) rb_null)
             (mk_range 10 20 7)) = [mk_range 10 20 7].
Proof.
  split.
  - exact (insert_evicts_both_neighbours
             (rb_node rb_null (mk_range 5 15 3)
                (rb_node rb_null (mk_range 18 25 4) rb_null)) 3 4 7 eq_refl).
  - exact (insert_evicts_both_neighbours
             (rb_node (rb_node rb_null (mk_range 5 15 3) rb_null)
                (mk_range 18 25 4) rb_null) 3 4 7 eq_refl).
Defined.

(** ** profile_find_first_range *)

Lemma wf_ranges_start_le (l : list profile_range) (a : profile_range)
    (l2 : list profile_range) (b : profile_range) :
  wf_ranges (l ++ a :: l2) -> In b l2 -> end_ a <= start b /\ start a < start b /\ end_ a < end_ b.
Proof.
  intros Hwf Hb. apply wf_ranges_app in Hwf. destruct Hwf as (_ & Hwf & _).
  apply wf_ranges_cons in Hwf. destruct Hwf as (Ha & Hl2 & Hab).
  specialize (Hab b Hb). pose proof (wf_ranges_In _ _ Hl2 Hb).
  range_arith.
Qed.

Lemma find_any_range_lt (t : rb_tree) (addr : Z) :
  wf_ranges (inorder t) ->
  forall off,
  match find_any_range t addr CompLessThan off with
  | Some n => exists k r, n = (off + k)%nat
                /\ nth_error (inorder t) k = Some r /\ start r < addr
  | None => forall r, In r (inorder t) -> addr <= start r
  end.
Proof.
  induction t as [|l IHl x r IHr]; intros Hwf off; cbn [find_any_range inorder].
  - intros r [].
  - cbn [inorder] in Hwf.
    destruct (start x <? addr) eqn:E.
    + apply Z.ltb_lt in E. exists (size l), x. split; [reflexivity|].
      split; [|exact E].
      rewrite nth_error_app2 by (rewrite size_inorder; lia).
      rewrite size_inorder, Nat.sub_diag. reflexivity.
    + apply Z.ltb_ge in E.
      assert (Hl : wf_ranges (inorder l)) by (apply wf_ranges_app in Hwf; tauto).
      specialize (IHl Hl off).
      destruct (find_any_range l addr CompLessThan off) as [n|].
      * destruct IHl as (k & r0 & -> & Hk & Hr0). exists k, r0.
        split; [reflexivity|]. split; [|exact Hr0].
        rewrite nth_error_app1; [exact Hk|].
        apply nth_error_Some. congruence.
      * intros b Hb. apply in_app_or in Hb. destruct Hb as [Hb|[<-|Hb]]; auto.
        pose proof (wf_ranges_start_le _ _ _ _ Hwf Hb). lia.
Qed.

Lemma find_any_range_gt (t : rb_tree) (addr : Z) :
  wf_ranges (inorder t) ->
  forall off,
  match find_any_range t addr CompGreaterThan off with
  | Some n => exists k r, n = (off + k)%nat
                /\ nth_error (inorder t) k = Some r /\ addr < end_ r
  | None => forall r, In r (inorder t) -> end_ r <= addr
  end.
Proof.
  induction t as [|l IHl x r IHr]; intros Hwf off; cbn [find_any_range inorder].
  - intros r [].
  - cbn [inorder] in Hwf.
    destruct (addr <? end_ x) eqn:E.
    + apply Z.ltb_lt in E. exists (size l), x. split; [reflexivity|].
      split; [|exact E].
      rewrite nth_error_app2 by (rewrite size_inorder; lia).
      rewrite size_inorder, Nat.sub_diag. reflexivity.
    + apply Z.ltb_ge in E.
      assert (Hr : wf_ranges (inorder r)).
      { apply wf_ranges_app in Hwf. destruct Hwf as (_ & Hwf & _).
        apply wf_ranges_cons in Hwf. tauto. }
      specialize (IHr Hr (off + size l + 1)%nat).
      destruct (find_any_range r addr CompGreaterThan (off + size l + 1)) as [n|].
      * destruct IHr as (k & r0 & -> & Hk & Hr0). exists (size l + 1 + k)%nat, r0.
        split; [lia|]. split; [|exact Hr0].
        rewrite nth_error_app2 by (rewrite size_inorder; lia).
        rewrite size_inorder.
        replace (size l + 1 + k - size l)%nat with (S k) by lia. exact Hk.
      * intros b Hb. apply in_app_or in Hb. destruct Hb as [Hb|[<-|Hb]]; auto.
        apply wf_ranges_app in Hwf. destruct Hwf as (Hl & Hxr & Hlx).
        assert (before b x) by (apply Hlx; simpl; auto).
        apply wf_ranges_cons in Hxr. destruct Hxr as (Hx & _ & _).
        range_arith.
Qed.

Lemma find_any_range_eq (t : rb_tree) (addr : Z) :
  wf_ranges (inorder t) ->
  forall off,
  match find_any_range t addr CompEquals off with
  | Some n => exists k r, n = (off + k)%nat
                /\ nth_error (inorder t) k = Some r
                /\ start r <= addr < end_ r
  | None => forall r, In r (inorder t) -> ~ (start r <= addr < end_ r)
  end.
Proof.
  induction t as [|l IHl x r IHr]; intros Hwf off; cbn [find_any_range inorder].
  - intros r [].
  - cbn [inorder] in Hwf.
    assert (Hwf' := Hwf).
    apply wf_ranges_app in Hwf'. destruct Hwf' as (Hl & Hxr & Hlx).
    apply wf_ranges_cons in Hxr. destruct Hxr as (Hx & Hr & Hxb).
    destruct ((start x <=? addr) && (addr <? end_ x)) eqn:E.
    + apply andb_true_iff in E. destruct E as [E1 E2].
      apply Z.leb_le in E1. apply Z.ltb_lt in E2.
      exists (size l), x. split; [reflexivity|]. split; [|lia].
      rewrite nth_error_app2 by (rewrite size_inorder; lia).
      rewrite size_inorder, Nat.sub_diag. reflexivity.
    + apply andb_false_iff in E. rewrite Z.leb_gt, Z.ltb_ge in E.
      destruct (start x <? addr) eqn:E3.
      * apply Z.ltb_lt in E3.
        specialize (IHr Hr (off + size l + 1)%nat).
        destruct (find_any_range r addr CompEquals (off + size l + 1)) as [n|].
        -- destruct IHr as (k & r0 & -> & Hk & Hr0).
           exists (size l + 1 + k)%nat, r0.
           split; [lia|]. split; [|exact Hr0].
           rewrite nth_error_app2 by (rewrite size_inorder; lia).
           rewrite size_inorder.
           replace (size l + 1 + k - size l)%nat with (S k) by lia. exact Hk.
        -- intros b Hb. apply in_app_or in Hb. destruct Hb as [Hb|[<-|Hb]]; auto.
           ++ assert (before b x) by (apply Hlx; simpl; auto).
              range_arith.
           ++ lia.
      * apply Z.ltb_ge in E3.
        specialize (IHl Hl off).
        destruct (find_any_range l addr CompEquals off) as [n|].
        -- destruct IHl as (k & r0 & -> & Hk & Hr0). exists k, r0.
           split; [reflexivity|]. split; [|exact Hr0].
           rewrite nth_error_app1; [exact Hk|].
           apply nth_error_Some. congruence.
        -- intros b Hb. apply in_app_or in Hb. destruct Hb as [Hb|[<-|Hb]]; auto.
           ++ lia.
           ++ specialize (Hxb b Hb). range_arith.
Qed.

Lemma walk_next_spec (addr : Z) :
  forall l pre x, start x < addr ->
  exists A r B,
    pre ++ x :: l = A ++ r :: B
    /\ walk_next l addr (S (List.length pre)) (Some (List.length pre))
       = Some (List.length A)
    /\ start r < addr
    /\ match B with [] => True | h :: _ => addr <= start h end.
Proof.
  induction l as [|y l IH]; intros pre x Hx; cbn [walk_next].
  - exists pre, x, []. auto.
  - destruct (addr <=? start y) eqn:E.
    + apply Z.leb_le in E. exists pre, x, (y :: l). auto.
    + apply Z.leb_gt in E.
      destruct (IH (pre ++ [x]) y E) as (A & r & B & Heq & Hw & Hr & HB).
      exists A, r, B. rewrite <- app_assoc in Heq. cbn [app] in Heq.
      rewrite length_app in Hw. cbn [List.length] in Hw.
      rewrite Nat.add_1_r in Hw. auto.
Qed.

Lemma walk_prev_spec (addr : Z) :
  forall l post x, addr < end_ x ->
  exists A r B,
    rev l ++ x :: post = A ++ r :: B
    /\ walk_prev l addr (pred (List.length l)) (Some (List.length l))
       = Some (List.length A)
    /\ addr < end_ r
    /\ (A = [] \/ exists A' h, A = A' ++ [h] /\ end_ h <= addr).
Proof.
  induction l as [|y l IH]; intros post x Hx; cbn [walk_prev rev List.length pred].
  - exists [], x, post. auto.
  - destruct (end_ y <=? addr) eqn:E.
    + apply Z.leb_le in E. exists (rev l ++ [y]), x, post.
      rewrite length_app, length_rev. cbn [List.length].
      rewrite Nat.add_1_r. repeat split; auto.
      right. exists (rev l), y. auto.
    + apply Z.leb_gt in E.
      destruct (IH (x :: post) y E) as (A & r & B & Heq & Hw & Hr & HA).
      exists A, r, B. rewrite <- app_assoc. cbn [app]. auto.
Qed.

Lemma nth_error_split_at {A : Type} (l : list A) (n : nat) (x : A) :
  nth_error l n = Some x ->
  l = firstn n l ++ x :: skipn (S n) l /\ List.length (firstn n l) = n.
Proof.
  intros H. split.
  - rewrite <- (firstn_skipn n l) at 1. f_equal. apply skipn_nth_error, H.
  - apply firstn_length_le. apply Nat.lt_le_incl, nth_error_Some. congruence.
Qed.

Lemma nth_error_middle {A : Type} (l1 : list A) (x : A) (l2 : list A) :
  nth_error (l1 ++ x :: l2) (List.length l1) = Some x.
Proof.
  rewrite nth_error_app2 by lia. rewrite Nat.sub_diag. reflexivity.
Qed.

(** [CompLessThan]: the stored range with the largest start below [addr]. *)
Lemma profile_find_first_range_lt (t : rb_tree) (addr : Z) :
  wf_ranges (inorder t) ->
  match profile_find_first_range t addr CompLessThan with
  | Some r => stored t r /\ start r < addr
              /\ forall r', stored t r' -> start r' < addr -> start r' <= start r
  | None => forall r', stored t r' -> ~ start r' < addr
  end.
Proof.
  intros Hwf. unfold profile_find_first_range, profile_find_first_node, stored.
  pose proof (find_any_range_lt t addr Hwf O) as Hany.
  destruct (find_any_range t addr CompLessThan O) as [n|].
  - destruct Hany as (k & x & -> & Hk & Hx). cbn [Nat.add].
    destruct (nth_error_split_at _ _ _ Hk) as [Hsplit Hlen].
    rewrite (skipn_nth_error _ _ _ Hk). cbn [walk_next].
    replace (addr <=? start x) with false by (symmetry; apply Z.leb_gt; exact Hx).
    destruct (walk_next_spec addr (skipn (S k) (inorder t)) (firstn k (inorder t)) x Hx)
      as (A & r & B & Heq & Hw & Hr & HB).
    rewrite Hlen in Hw. rewrite Hw. unfold container_of.
    rewrite <- Hsplit in Heq. rewrite Heq, nth_error_middle.
    split; [apply in_or_app; simpl; auto|]. split; [exact Hr|].
    intros r' Hin Hr'. rewrite Heq in Hwf.
    apply in_app_or in Hin. destruct Hin as [Hin|[<-|Hin]].
    + apply wf_ranges_app in Hwf. destruct Hwf as (HA & _ & HAr).
      assert (before r' r) by (apply HAr; simpl; auto).
      pose proof (wf_ranges_In _ _ HA Hin). range_arith.
    + lia.
    + exfalso. destruct B as [|h B]; [destruct Hin|].
      destruct Hin as [<-|Hin]; [lia|].
      replace (A ++ r :: h :: B) with ((A ++ [r]) ++ h :: B) in Hwf
        by (rewrite <- app_assoc; reflexivity).
      pose proof (wf_ranges_start_le _ _ _ _ Hwf Hin). lia.
  - intros r' Hin. specialize (Hany r' Hin). lia.
Qed.

(** [CompGreaterThan]: the stored range with the smallest end above
    [addr]. *)
Lemma profile_find_first_range_gt (t : rb_tree) (addr : Z) :
  wf_ranges (inorder t) ->
  match profile_find_first_range t addr CompGreaterThan with
  | Some r => stored t r /\ addr < end_ r
              /\ forall r', stored t r' -> addr < end_ r' -> end_ r <= end_ r'
  | None => forall r', stored t r' -> ~ addr < end_ r'
  end.
Proof.
  intros Hwf. unfold profile_find_first_range, profile_find_first_node, stored.
  pose proof (find_any_range_gt t addr Hwf O) as Hany.
  destruct (find_any_range t addr CompGreaterThan O) as [n|].
  - destruct Hany as (k & x & -> & Hk & Hx). cbn [Nat.add].
    destruct (nth_error_split_at _ _ _ Hk) as [Hsplit Hlen].
    assert (Hfirst : firstn (S k) (inorder t) = firstn k (inorder t) ++ [x]).
    { rewrite Hsplit at 1. rewrite firstn_app, Hlen.
      rewrite firstn_all2 by lia.
      replace (S k - k)%nat with 1%nat by lia. reflexivity. }
    rewrite Hfirst, rev_app_distr. cbn [rev app walk_prev].
    replace (end_ x <=? addr) with false by (symmetry; apply Z.leb_gt; exact Hx).
    destruct (walk_prev_spec addr (rev (firstn k (inorder t)))
                (skipn (S k) (inorder t)) x Hx)
      as (A & r & B & Heq & Hw & Hr & HA).
    rewrite length_rev, Hlen in Hw. rewrite Hw. unfold container_of.
    rewrite rev_involutive, <- Hsplit in Heq. rewrite Heq, nth_error_middle.
    split; [apply in_or_app; simpl; auto|]. split; [exact Hr|].
    intros r' Hin Hr'. rewrite Heq in Hwf.
    apply in_app_or in Hin. destruct Hin as [Hin|[<-|Hin]].
    + exfalso. destruct HA as [->|(A' & h & -> & Hh)]; [destruct Hin|].
      apply in_app_or in Hin. destruct Hin as [Hin|[<-|[]]]; [|lia].
      rewrite <- !app_assoc in Hwf. cbn [app] in Hwf.
      apply wf_ranges_app in Hwf. destruct Hwf as (HA' & Hh' & HA'h).
      assert (before r' h) by (apply HA'h; simpl; auto).
      apply wf_ranges_cons in Hh'. destruct Hh' as (Hhn & _ & _).
      range_arith.
    + lia.
    + pose proof (wf_ranges_start_le _ _ _ _ Hwf Hin). lia.
  - intros r' Hin. specialize (Hany r' Hin). lia.
Qed.

(** [CompEquals]: the one stored range that contains [addr]. *)
Lemma profile_find_first_range_eq (t : rb_tree) (addr : Z) :
  wf_ranges (inorder t) ->
  match profile_find_first_range t addr CompEquals with
  | Some r => stored t r /\ start r <= addr < end_ r
              /\ forall r', stored t r' -> start r' <= addr < end_ r' -> r' = r
  | None => forall r', stored t r' -> ~ (start r' <= addr < end_ r')
  end.
Proof.
  intros Hwf. unfold profile_find_first_range, profile_find_first_node, stored.
  pose proof (find_any_range_eq t addr Hwf O) as Hany.
  destruct (find_any_range t addr CompEquals O) as [n|].
  - destruct Hany as (k & x & -> & Hk & Hx). cbn [Nat.add].
    unfold container_of. rewrite Hk.
    split; [eapply nth_error_In; exact Hk|]. split; [exact Hx|].
    intros r' Hin Hr'.
    destruct (nth_error_split_at _ _ _ Hk) as [Hsplit _].
    rewrite Hsplit in Hwf, Hin.
    apply in_app_or in Hin. destruct Hin as [Hin|[<-|Hin]].
    + exfalso. apply wf_ranges_app in Hwf. destruct Hwf as (_ & _ & Hb).
      assert (before r' x) by (apply Hb; simpl; auto).
      range_arith.
    + reflexivity.
    + exfalso. pose proof (wf_ranges_start_le _ _ _ _ Hwf Hin). lia.
  - exact Hany.
Qed.

(** C5: on an interval store (non-empty, pairwise non-overlapping ranges in
    a search tree on the start address) [profile_find_first_range] returns,
    for [CompLessThan], the stored range with the largest start strictly
    below [addr]; for [CompGreaterThan], the stored range with the smallest
    end strictly above [addr]; for [CompEquals], the unique stored range
    that contains [addr]; and in each case nothing when no stored range
    qualifies. *)
Theorem profile_find_first_range_correct (t : rb_tree) (addr : Z) :
  interval_store t ->
  match profile_find_first_range t addr CompLessThan with
  | Some r => stored t r /\ start r < addr
              /\ forall r', stored t r' -> start r' < addr -> start r' <= start r
  | None => forall r', stored t r' -> ~ start r' < addr
  end
  /\ match profile_find_first_range t addr CompGreaterThan with
     | Some r => stored t r /\ addr < end_ r
                 /\ forall r', stored t r' -> addr < end_ r' -> end_ r <= end_ r'
     | None => forall r', stored t r' -> ~ addr < end_ r'
     end
  /\ match profile_find_first_range t addr CompEquals with
     | Some r => stored t r /\ start r <= addr < end_ r
                 /\ forall r', stored t r' -> start r' <= addr < end_ r' -> r' = r
     | None => forall r', stored t r' -> ~ (start r' <= addr < end_ r')
     end.
Proof.
  intros H. apply interval_store_wf in H.
  split; [apply profile_find_first_range_lt, H|].
  split; [apply profile_find_first_range_gt, H
         |apply profile_find_first_range_eq, H].
Qed.

Lemma profile_find_first_range_correct_witness :
  let t := rb_node (rb_node rb_null (mk_range 0 10 1) rb_null)
             (mk_range 10 20 2)
             (rb_node rb_null (mk_range 30 40 3) rb_null) in
  interval_store t
  /\ profile_find_first_range t 25 CompLessThan = Some (mk_range 10 20 2)
  /\ profile_find_first_range t 25 CompGreaterThan = Some (mk_range 30 40 3)
  /\ profile_find_first_range t 25 CompEquals = None
  /\ (forall r', stored t r' -> start r' < 25 -> start r' <= 10).
Proof.
  intros t.
  assert (H : interval_store t).
  { apply interval_store_wf. cbn [t inorder app].
    repeat (apply wf_ranges_cons; split; [unfold nonempty; cbn; lia
      | split; [| intros b Hb; cbn in Hb; unfold before;
                  intuition (subst; cbn; lia)]]).
    apply wf_ranges_nil. }
  split; [exact H|].
  split; [reflexivity|]. split; [reflexivity|]. split; [reflexivity|].
  exact (proj2 (proj2 (proj1 (profile_find_first_range_correct t 25 H)))).
Defined.

(** ** mm_split_ranges *)

Lemma inorder_rb_store (t : rb_tree) (n : nat) (r : profile_range) :
  (n < size t)%nat ->
  inorder (rb_store t n r) = firstn n (inorder t) ++ r :: skipn (S n) (inorder t).
Proof.
  revert n. induction t as [|l IHl x rt IHr]; cbn [size rb_store inorder];
    intros n Hn; [lia|].
  pose proof (size_inorder l) as Hl.
  rewrite firstn_app, skipn_app. rewrite Hl.
  destruct (n <? size l)%nat eqn:E1.
  - apply Nat.ltb_lt in E1. cbn [inorder]. rewrite IHl by exact E1.
    replace (n - size l)%nat with O by lia.
    replace (S n - size l)%nat with O by lia.
    rewrite firstn_O, skipn_O, app_nil_r, <- app_assoc. reflexivity.
  - apply Nat.ltb_ge in E1. destruct (n =? size l)%nat eqn:E2.
    + apply Nat.eqb_eq in E2. subst n. cbn [inorder].
      replace (size l - size l)%nat with O by lia.
      replace (S (size l) - size l)%nat with 1%nat by lia.
      rewrite <- Hl. rewrite firstn_all, skipn_all2 by lia.
      rewrite firstn_O, app_nil_r. reflexivity.
    + apply Nat.eqb_neq in E2.
      assert (exists k, n = (size l + S k)%nat) as [k ->]
        by (exists (n - size l - 1)%nat; lia).
      replace (size l + S k - size l - 1)%nat with k by lia.
      replace (size l + S k - size l)%nat with (S k) by lia.
      replace (S (size l + S k) - size l)%nat with (S (S k)) by lia.
      cbn [inorder]. rewrite IHr by lia.
      rewrite (@firstn_all2 _ (size l + S k) (inorder l)) by lia.
      rewrite (@skipn_all2 _ (S (size l + S k)) (inorder l)) by lia.
      rewrite firstn_cons, skipn_cons. cbn [app].
      rewrite <- app_assoc. reflexivity.
Qed.

(** A range that fits between two parts of a well-formed store is
    inserted there and evicts nothing. *)
Lemma insert_spec_between (A B : list profile_range) (new_range : profile_range) :
  wf_ranges (A ++ B) -> nonempty new_range ->
  (forall a, In a A -> end_ a <= start new_range) ->
  (forall b, In b B -> end_ new_range <= start b) ->
  insert_spec (A ++ B) new_range = A ++ new_range :: B.
Proof.
  intros Hwf Hnew HA HB. unfold insert_spec.
  apply wf_ranges_app in Hwf. destruct Hwf as (HwA & HwB & _).
  rewrite (filter_all_false (ranges_overlap new_range)).
  - rewrite !filter_app.
    rewrite (filter_all_true _ A), (filter_none _ B),
            (filter_none _ A), (filter_all_true _ B).
    + rewrite app_nil_r. reflexivity.
    + intros b Hb. specialize (HB b Hb). apply Z.ltb_lt.
      range_arith.
    + intros a Ha. specialize (HA a Ha). pose proof (wf_ranges_In _ _ HwA Ha).
      apply Z.ltb_ge. range_arith.
    + intros b Hb. specialize (HB b Hb). apply Z.ltb_ge.
      range_arith.
    + intros a Ha. specialize (HA a Ha). pose proof (wf_ranges_In _ _ HwA Ha).
      apply Z.ltb_lt. range_arith.
  - intros x Hx. apply ranges_overlap_false.
    apply in_app_or in Hx. destruct Hx as [Hx|Hx].
    + specialize (HA x Hx). pose proof (wf_ranges_In _ _ HwA Hx).
      range_arith.
    + specialize (HB x Hx). range_arith.
Qed.

(** When the sibling cannot be allocated the split reports failure and the
    tree is as it was. *)
Lemma mm_split_ranges_gt_no_memory (vmalloc_ok : nat -> bool) (t : rb_tree)
    (base : nat) (base_range : profile_range) (addr : Z) :
  container_of t base = Some base_range ->
  start base_range < addr ->
  vmalloc_ok O = false ->
  mm_split_ranges vmalloc_ok t base addr CompGreaterThan = Some (false, t).
Proof.
  intros Hbase Hlt Halloc. unfold mm_split_ranges. rewrite Hbase.
  replace (addr <=? start base_range) with false
    by (symmetry; apply Z.leb_gt; exact Hlt).
  rewrite Halloc. reflexivity.
Qed.

(** C6: in a working tree that is an interval store, splitting the stored
    range [s,e) of benefit V at an address strictly inside it with
    [CompGreaterThan], the allocation of the sibling succeeding, reports
    success and leaves [s,addr) with benefit 0 and [addr,e) with benefit V
    in the tree, next to each other in place of [s,e), not overlapping; the
    tree is still an interval store. *)
Theorem mm_split_ranges_gt (vmalloc_ok : nat -> bool) (t : rb_tree)
    (base : nat) (s e V addr : Z) :
  interval_store t ->
  container_of t base = Some (mk_range s e V) ->
  s < addr < e ->
  vmalloc_ok O = true ->
  exists t',
    mm_split_ranges vmalloc_ok t base addr CompGreaterThan = Some (true, t')
    /\ stored t' (mk_range s addr 0)
    /\ stored t' (mk_range addr e V)
    /\ ~ overlaps (mk_range s addr 0) (mk_range addr e V)
    /\ inorder t' =
       firstn base (inorder t)
       ++ mk_range s addr 0 :: mk_range addr e V :: skipn (S base) (inorder t)
    /\ interval_store t'.
Proof.
  intros Hstore Hbase Haddr Halloc.
  apply interval_store_wf in Hstore.
  unfold mm_split_ranges. rewrite Hbase. cbn [start end_ benefit].
  replace (addr <=? s) with false by (symmetry; apply Z.leb_gt; lia).
  rewrite Halloc. cbn [negb].
  set (t1 := rb_store t base (mk_range addr e V)).
  set (split_range := mk_range s addr 0).
  unfold container_of in Hbase.
  destruct (nth_error_split_at _ _ _ Hbase) as [Hsplit Hlen].
  set (A := firstn base (inorder t)) in *.
  set (B := skipn (S base) (inorder t)) in *.
  assert (Ht1 : inorder t1 = A ++ mk_range addr e V :: B).
  { unfold t1. apply inorder_rb_store. rewrite <- size_inorder.
    apply nth_error_Some. congruence. }
  rewrite Hsplit in Hstore.
  pose proof Hstore as Hparts.
  apply wf_ranges_app in Hparts. destruct Hparts as (HA & HxB & HAx).
  apply wf_ranges_cons in HxB. destruct HxB as (Hx & HB & HxB).
  assert (Hwf1 : wf_ranges (inorder t1)).
  { rewrite Ht1. apply wf_ranges_app. split; [exact HA|]. split.
    - apply wf_ranges_cons. split; [unfold nonempty; cbn; lia|].
      split; [exact HB|]. intros b Hb. specialize (HxB b Hb).
      unfold before in *. cbn in *. lia.
    - intros a b Ha [<-|Hb].
      + assert (H := HAx a (mk_range s e V) Ha (or_introl eq_refl)).
        unfold before in *. cbn in *. lia.
      + apply HAx; simpl; auto. }
  assert (Hnew : nonempty split_range) by (unfold nonempty; cbn; lia).
  assert (Hins : inorder (profile_range_insert t1 split_range) =
                 A ++ split_range :: mk_range addr e V :: B).
  { rewrite inorder_profile_range_insert by assumption.
    rewrite Ht1. apply (insert_spec_between A (mk_range addr e V :: B)).
    - rewrite <- Ht1. exact Hwf1.
    - exact Hnew.
    - intros a Ha.
      assert (H := HAx a (mk_range s e V) Ha (or_introl eq_refl)).
      unfold before in *. cbn in *. lia.
    - intros b [<-|Hb]; cbn; [lia|]. specialize (HxB b Hb).
      unfold before in *. cbn in *. lia. }
  exists (profile_range_insert t1 split_range).
  split; [reflexivity|]. unfold stored. rewrite Hins.
  split; [apply in_or_app; simpl; auto|].
  split; [apply in_or_app; simpl; auto|].
  split; [unfold overlaps; cbn; lia|].
  split; [reflexivity|].
  apply interval_store_wf.
  apply wf_ranges_profile_range_insert; assumption.
Qed.

Lemma mm_split_ranges_gt_witness :
  let t := rb_node rb_null (mk_range 0 100 7) rb_null in
  exists t',
    mm_split_ranges (fun _ => true) t O 40 CompGreaterThan = Some (true, t')
    /\ stored t' (mk_range 0 40 0)
    /\ stored t' (mk_range 40 100 7)
    /\ ~ overlaps (mk_range 0 40 0) (mk_range 40 100 7)
    /\ inorder t' = [mk_range 0 40 0; mk_range 40 100 7]
    /\ interval_store t'.
Proof.
  intros t.
  assert (H : interval_store t).
  { apply interval_store_wf. cbn [t inorder app].
    apply wf_ranges_cons. split; [unfold nonempty; cbn; lia|].
    split; [apply wf_ranges_nil|]. intros b []. }
  exact (mm_split_ranges_gt (fun _ => true) t O 0 100 7 40 H eq_refl
           (conj eq_refl eq_refl) eq_refl).
Defined.

(** ** Ties in profile_range_insert *)

(** A tie that survives the eviction is not rejected: the new node is
    linked over the node it ties with. *)
Lemma rb_link_node_tie (l r : rb_tree) (x new_range : profile_range) :
  start new_range = start x ->
  rb_link_node (rb_node l x r) new_range = rb_node rb_null new_range rb_null.
Proof.
  intros H. cbn [rb_link_node]. rewrite H, Z.ltb_irrefl. reflexivity.
Qed.

(** C9 does not hold of the code: a tie that survives the eviction is not
    rejected.  Three inserts into an empty store leave [0x1000,0x2000), the
    empty range at 0x5000 (the root) and [0x8000,0x9000).  Inserting
    another empty range at 0x5000 evicts nothing and ties with the root;
    the new node is linked over the root and the store ends up holding the
    new range only. *)
Theorem profile_range_insert_tie_drops_subtree :
  let t := profile_range_insert
             (profile_range_insert
                (profile_range_insert RB_ROOT (mk_range 20480 20480 2))
                (mk_range 4096 8192 1))
             (mk_range 32768 36864 3) in
  inorder t = [mk_range 4096 8192 1; mk_range 20480 20480 2;
               mk_range 32768 36864 3]
  /\ remove_overlapping_ranges t (mk_range 20480 20480 9) = t
  /\ inorder (profile_range_insert t (mk_range 20480 20480 9))
     = [mk_range 20480 20480 9].
Proof.
  cbv zeta. split; [reflexivity|]. split; reflexivity.
Qed.

(** What does hold: after the eviction for a non-empty range no stored
    range of a well-formed store has the start of the new range. *)
Lemma no_tie_after_eviction (t : rb_tree) (new_range r : profile_range) :
  wf_ranges (inorder t) -> nonempty new_range ->
  stored (remove_overlapping_ranges t new_range) r ->
  start r <> start new_range.
Proof.
  intros Hwf Hnew Hr. unfold stored in Hr.
  rewrite inorder_remove_overlapping_ranges in Hr by assumption.
  apply filter_In in Hr. destruct Hr as [_ Hr].
  apply negb_true_iff, ranges_overlap_false in Hr.
  range_arith.
Qed.

(** ** The decider *)

(** C1: [mm_decide] returns true in mode 0 whatever the cost and the
    benefit are, and in mode 1 returns true exactly when the benefit is
    strictly above the cost (equal values give false). *)
Theorem mm_decide_result (st : econ_state) (c : mm_cost_delta) :
  (mm_econ_mode st = 0 -> snd (mm_decide st c) = Some true)
  /\ (mm_econ_mode st = 1 ->
      snd (mm_decide st c) = Some (cost c <? cost_benefit c)
      /\ (snd (mm_decide st c) = Some true <-> cost_benefit c > cost c)
      /\ (cost_benefit c = cost c -> snd (mm_decide st c) = Some false)).
Proof.
  unfold mm_decide. split; intros Hmode; rewrite Hmode; cbn.
  - reflexivity.
  - destruct (cost c <? cost_benefit c) eqn:E; cbn.
    + apply Z.ltb_lt in E. repeat split; auto; try lia.
    + apply Z.ltb_ge in E. repeat split; auto; try lia; try discriminate.
Qed.

Lemma mm_decide_result_witness :
  snd (mm_decide (state_with_mode 0) (mk_cost U64_MAX 0 (ExtraWord 0))) = Some true
  /\ snd (mm_decide (state_with_mode 1) (mk_cost 5 10 (ExtraWord 0))) = Some true
  /\ snd (mm_decide (state_with_mode 1) (mk_cost 10 5 (ExtraWord 0))) = Some false
  /\ snd (mm_decide (state_with_mode 1) (mk_cost 5 5 (ExtraWord 0))) = Some false.
Proof.
  split.
  - exact (proj1 (mm_decide_result (state_with_mode 0)
                    (mk_cost U64_MAX 0 (ExtraWord 0))) eq_refl).
  - split.
    + exact (proj1 (proj2 (mm_decide_result (state_with_mode 1)
                             (mk_cost 5 10 (ExtraWord 0))) eq_refl)).
    + split.
      * exact (proj1 (proj2 (mm_decide_result (state_with_mode 1)
                               (mk_cost 10 5 (ExtraWord 0))) eq_refl)).
      * exact (proj2 (proj2 (proj2 (mm_decide_result (state_with_mode 1)
                               (mk_cost 5 5 (ExtraWord 0))) eq_refl)) eq_refl).
Defined.

(** C10: every call of [mm_decide] adds one to the decision counter, in
    every mode; the yes-counter moves, by one, only when the mode is 1 and
    the decision is true, so in mode 0 the call returns true and leaves it
    alone; nothing else of the global state changes. *)
Theorem mm_decide_counters (st : econ_state) (c : mm_cost_delta) :
  let st' := fst (mm_decide st c) in
  mm_econ_num_decisions st' = u64_add (mm_econ_num_decisions st) 1
  /\ (0 <= mm_econ_num_decisions st < U64_MAX ->
      mm_econ_num_decisions st' = mm_econ_num_decisions st + 1)
  /\ mm_econ_num_decisions_yes st' =
     (if (mm_econ_mode st =? 1) && (cost c <? cost_benefit c)
      then u64_add (mm_econ_num_decisions_yes st) 1
      else mm_econ_num_decisions_yes st)
  /\ (mm_econ_num_decisions_yes st' <> mm_econ_num_decisions_yes st ->
      mm_econ_mode st = 1 /\ snd (mm_decide st c) = Some true)
  /\ (mm_econ_mode st = 0 ->
      snd (mm_decide st c) = Some true
      /\ mm_econ_num_decisions_yes st' = mm_econ_num_decisions_yes st)
  /\ mm_econ_mode st' = mm_econ_mode st
  /\ mm_econ_debugging_mode st' = mm_econ_debugging_mode st
  /\ mm_econ_contention_ms st' = mm_econ_contention_ms st
  /\ mm_econ_freq_mhz st' = mm_econ_freq_mhz st
  /\ mm_econ_num_estimates st' = mm_econ_num_estimates st
  /\ mm_econ_num_hp_promotions st' = mm_econ_num_hp_promotions st
  /\ mm_econ_num_async_compaction st' = mm_econ_num_async_compaction st
  /\ mm_econ_num_async_prezeroing st' = mm_econ_num_async_prezeroing st
  /\ mm_econ_vmalloc_bytes st' = mm_econ_vmalloc_bytes st
  /\ mm_econ_cost st' = mm_econ_cost st
  /\ mm_econ_benefit st' = mm_econ_benefit st
  /\ kernel_log st' = kernel_log st.
Proof.
  assert (Hinc : forall n, 0 <= n < U64_MAX -> u64_add n 1 = n + 1).
  { intros n Hn. unfold u64_add, u64, U64_MAX, u64_modulus in *.
    apply Z.mod_small. lia. }
  unfold mm_decide.
  destruct (mm_econ_mode st =? 0) eqn:E0.
  - apply Z.eqb_eq in E0. rewrite E0. cbn -[u64_add U64_MAX].
    repeat match goal with |- _ /\ _ => split end;
      try reflexivity; try congruence; auto.
  - apply Z.eqb_neq in E0. destruct (mm_econ_mode st =? 1) eqn:E1.
    + apply Z.eqb_eq in E1.
      destruct (cost c <? cost_benefit c) eqn:Ec; cbn -[u64_add U64_MAX];
        repeat match goal with |- _ /\ _ => split end;
        try reflexivity; try congruence; auto.
    + cbn -[u64_add U64_MAX].
      repeat match goal with |- _ /\ _ => split end;
        try reflexivity; try congruence; auto.
Qed.

Lemma mm_decide_counters_witness :
  let st := mk_state 0 0 10 3000 4 7 2 0 0 0 0 [] [] [] in
  let c := mk_cost 5 10 (ExtraWord 0) in
  mm_econ_num_decisions (fst (mm_decide st c)) = 8
  /\ snd (mm_decide st c) = Some true
  /\ mm_econ_num_decisions_yes (fst (mm_decide st c)) = 2.
Proof.
  intros st c.
  pose proof (mm_decide_counters st c) as H. cbv zeta in H.
  destruct H as (_ & H1 & _ & _ & H2 & _).
  split; [exact (H1 ltac:(cbn; unfold U64_MAX, u64_modulus; lia))|].
  exact (H2 eq_refl).
Defined.

(** ** The estimator *)

(** No call of [mm_estimate_changes] reaches the [BUG()] of
    [mm_estimate_daemon_cost]: the estimate always returns. *)
Lemma mm_estimate_changes_returns (env : estimator_env) (st : econ_state)
    (a : mm_action) (c : mm_cost_delta) :
  exists st' c', mm_estimate_changes env st a c = Some (st', c').
Proof.
  unfold mm_estimate_changes, mm_estimate_daemon_cost.
  destruct (action a); destruct (load_int env <? num_online_cpus env);
    eexists; eexists; reflexivity.
Qed.

(** An unknown action kind is logged and the caller's cost delta is left
    as it was on entry. *)
Lemma mm_estimate_changes_unknown (env : estimator_env) (st : econ_state)
    (a : mm_action) (c : mm_cost_delta) (code : Z) :
  action a = MM_ACTION_UNKNOWN code ->
  mm_estimate_changes env st a c =
  Some (record_estimate (log st (LogUnknownAction code)) c, c).
Proof.
  intros H. unfold mm_estimate_changes. rewrite H. reflexivity.
Qed.

(** C3 does not hold of the code: for an unknown action kind the cost
    delta is not zeroed.  With the action kind 99 and a cost delta that
    holds cost 5 and benefit 10 on entry, the call logs the kind and
    returns cost 5 and benefit 10; in mode 1 the decider then says yes. *)
Theorem mm_estimate_changes_unknown_not_zeroed :
  let env := mk_env fhps_none None 8 4 0 1 [] true in
  let st := mk_state 1 0 10 3000 0 0 0 0 0 0 0 [] [] [] in
  let a := mk_action (MM_ACTION_UNKNOWN 99) 0 0 0 in
  let c := mk_cost 5 10 (ExtraWord 0) in
  exists st',
    mm_estimate_changes env st a c = Some (st', c)
    /\ kernel_log st' = [LogUnknownAction 99]
    /\ cost c = 5 /\ cost_benefit c = 10
    /\ snd (mm_decide st' c) = Some true.
Proof.
  cbv zeta. eexists. split; [reflexivity|].
  repeat split; reflexivity.
Qed.

Lemma contention_charge_nonneg (n nfree : Z) : 0 <= contention_charge n nfree.
Proof.
  unfold contention_charge. destruct (n >? nfree) eqn:E; [|lia].
  apply Z.gtb_lt in E. lia.
Qed.

Lemma lock_contention_cost_eq (st : econ_state) (a : mm_action)
    (c : mm_cost_delta) :
  cost (mm_estimate_async_prezeroing_lock_contention_cost st a c) =
  u64 (cost c
       + contention_charge (prezero_n a)
           (free_critical_sections (mm_econ_contention_ms st)
              (mm_econ_freq_mhz st))).
Proof.
  unfold mm_estimate_async_prezeroing_lock_contention_cost,
    free_critical_sections, contention_charge, set_cost.
  cbn [cost]. change (150 * 2) with 300.
  set (nfree := u64_div _ 300).
  rewrite Z.gtb_ltb.
  unfold u64_add, u64_mul, u64_sub, u64.
  destruct (nfree <? prezero_n a).
  - rewrite Z.mul_mod_idemp_l by (unfold u64_modulus; lia).
    rewrite Z.add_mod_idemp_r by (unfold u64_modulus; lia). reflexivity.
  - reflexivity.
Qed.

(** The cost a prezeroing estimate returns: the daemon cost plus the
    contention charge, in [u64]. *)
Lemma mm_estimate_changes_prezeroing_cost (env : estimator_env)
    (st : econ_state) (a : mm_action) (c : mm_cost_delta) :
  action a = MM_ACTION_RUN_PREZEROING ->
  exists st' c',
    mm_estimate_changes env st a c = Some (st', c')
    /\ cost c' =
       u64 ((if load_int env <? num_online_cpus env then 0
             else u64_mul 1000000 (prezero_n a))
            + contention_charge (prezero_n a)
                (free_critical_sections (mm_econ_contention_ms st)
                   (mm_econ_freq_mhz st))).
Proof.
  intros Ha. unfold mm_estimate_changes, mm_estimate_daemon_cost. rewrite Ha.
  destruct (load_int env <? num_online_cpus env);
    eexists; eexists; (split; [reflexivity|]);
    unfold mm_estimate_async_prezeroing_benefit, set_benefit; cbn [cost];
    rewrite lock_contention_cost_eq; reflexivity.
Qed.

(** C7: the lock-contention step adds to the cost already computed, in
    [u64] arithmetic, [(prezero_n - nfree) * 300] when [prezero_n > nfree]
    and nothing otherwise, with [nfree = window_ms * freq_mhz * 1000 / 300]
    computed in [u64]; benefit and extra are not touched. *)
Theorem lock_contention_cost_added (st : econ_state) (a : mm_action)
    (c : mm_cost_delta) :
  let nfree :=
    free_critical_sections (mm_econ_contention_ms st) (mm_econ_freq_mhz st) in
  let c' := mm_estimate_async_prezeroing_lock_contention_cost st a c in
  cost c' = u64 (cost c + contention_charge (prezero_n a) nfree)
  /\ (0 <= cost c ->
      cost c + contention_charge (prezero_n a) nfree <= U64_MAX ->
      cost c' = cost c + contention_charge (prezero_n a) nfree)
  /\ cost_benefit c' = cost_benefit c
  /\ extra c' = extra c.
Proof.
  cbv zeta. split; [apply lock_contention_cost_eq|].
  split; [|split; reflexivity].
  intros Hc Hsum. rewrite lock_contention_cost_eq.
  unfold u64. apply Z.mod_small.
  pose proof (contention_charge_nonneg (prezero_n a)
                (free_critical_sections (mm_econ_contention_ms st)
                   (mm_econ_freq_mhz st))).
  unfold U64_MAX in Hsum. lia.
Qed.

Lemma lock_contention_cost_added_witness :
  let st := mk_state 1 0 10 3000 0 0 0 0 0 0 0 [] [] [] in
  let a := mk_action MM_ACTION_RUN_PREZEROING 0 100010 0 in
  let c := mk_cost 7 0 (ExtraWord 0) in
  free_critical_sections 10 3000 = 100000
  /\ cost (mm_estimate_async_prezeroing_lock_contention_cost st a c) = 7 + 10 * 300.
Proof.
  intros st a c. split; [reflexivity|].
  exact (proj1 (proj2 (lock_contention_cost_added st a c))
           ltac:(cbn; lia) ltac:(vm_compute; discriminate)).
Defined.

(** ** The filter program parser *)

Lemma fields_not_nil (delim : ascii) (s : string) : fields delim s <> [].
Proof.
  destruct s as [|c s]; cbn [fields]; [discriminate|].
  destruct (Ascii.eqb c delim); [discriminate|].
  destruct (fields delim s); discriminate.
Qed.

Lemma fields_no_delim (delim : ascii) (s : string) :
  has_char delim s = false -> fields delim s = [s].
Proof.
  induction s as [|c s IH]; cbn [has_char fields]; intros H; [reflexivity|].
  apply orb_false_iff in H. destruct H as [H1 H2].
  rewrite H1, (IH H2). reflexivity.
Qed.

Lemma fields_app (delim : ascii) (tok s : string) :
  has_char delim tok = false ->
  fields delim (tok ++ String delim s) = tok :: fields delim s.
Proof.
  induction tok as [|c tok IH]; cbn [has_char fields String.append]; intros H.
  - rewrite Ascii.eqb_refl. reflexivity.
  - apply orb_false_iff in H. destruct H as [H1 H2].
    rewrite H1, (IH H2). reflexivity.
Qed.

Lemma c_str_app (tok s : string) :
  has_char NUL tok = false ->
  c_str (tok ++ String newline s) = (tok ++ String newline (c_str s))%string.
Proof.
  induction tok as [|c tok IH]; cbn [has_char c_str String.append]; intros H.
  - reflexivity.
  - apply orb_false_iff in H. destruct H as [H1 H2].
    rewrite H1, (IH H2). reflexivity.
Qed.

Lemma string_append_assoc (a b c : string) :
  ((a ++ b) ++ c = a ++ (b ++ c))%string.
Proof.
  induction a as [|ch a IH]; cbn [String.append]; [reflexivity|].
  rewrite IH. reflexivity.
Qed.

Lemma has_char_append (ch : ascii) (a b : string) :
  has_char ch (a ++ b) = has_char ch a || has_char ch b.
Proof.
  induction a as [|c a IH]; cbn [String.append has_char]; [reflexivity|].
  rewrite IH, orb_assoc. reflexivity.
Qed.

Lemma string_append_nil (a : string) : (a ++ "")%string = a.
Proof.
  induction a as [|c a IH]; cbn [String.append]; [reflexivity|].
  rewrite IH. reflexivity.
Qed.

Section FilterText.

Variable kstrtoull : string -> option Z.
Variable vmalloc_ok : nat -> bool.
Hypothesis vmalloc_succeeds : forall k, vmalloc_ok k = true.

Lemma fields_comparisons_text (v : string)
    (cs : list (mmap_quantity * mmap_comparator * string)) :
  has_char comma v = false ->
  numbers_ok kstrtoull cs ->
  fields comma (v ++ comparisons_text cs) = v :: comparisons_fields cs.
Proof.
  intros Hv Hcs. revert v Hv.
  induction Hcs as [|[[q c] w] cs [(_ & _ & Hw) _] _ IH]; intros v Hv;
    cbn [comparisons_text comparisons_fields].
  - rewrite string_append_nil. apply fields_no_delim, Hv.
  - rewrite fields_app by exact Hv. f_equal.
    rewrite fields_app by (destruct q; reflexivity). f_equal.
    change (String (mmap_comparator_get_char c) (String comma (w ++ comparisons_text cs)))
      with (String (mmap_comparator_get_char c) EmptyString
            ++ String comma (w ++ comparisons_text cs))%string.
    rewrite fields_app by (destruct c; reflexivity). f_equal.
    apply IH. exact Hw.
Qed.

Lemma has_char_comparisons_text (ch : ascii)
    (cs : list (mmap_quantity * mmap_comparator * string)) :
  ch = NUL \/ ch = newline ->
  numbers_ok kstrtoull cs ->
  has_char ch (comparisons_text cs) = false.
Proof.
  intros Hch. induction 1 as [|[[q c] w] cs [(Hn & Hl & _) _] _ IH];
    cbn [comparisons_text]; [reflexivity|].
  cbn [has_char]. rewrite has_char_append. cbn [has_char snd] in *.
  rewrite has_char_append, IH.
  destruct Hch as [-> | ->]; rewrite ?Hn, ?Hl; destruct q, c; reflexivity.
Qed.

Lemma read_comparisons_fields
    (cs : list (mmap_quantity * mmap_comparator * string)) :
  numbers_ok kstrtoull cs ->
  forall allocs, exists cs' n,
    read_comparisons kstrtoull vmalloc_ok (comparisons_fields cs) allocs
    = ComparisonsRead cs' n.
Proof.
  induction 1 as [|[[q c] w] cs [_ Hw] _ IH]; intros allocs;
    cbn [comparisons_fields].
  - exists [], allocs. reflexivity.
  - cbn [snd] in Hw. destruct (kstrtoull w) as [value|] eqn:Ew; [|congruence].
    destruct (IH (S allocs)) as (cs' & n & Hrec).
    exists (mk_comparison q c value :: cs'), n.
    destruct q, c; cbn; rewrite vmalloc_succeeds; cbn; rewrite Ew;
      cbn; rewrite Hrec; reflexivity.
Qed.

(** Every line of the filter program format whose numbers [kstrtoull]
    accepts is a complete well-formed line for the parser. *)
Lemma filter_text_well_formed (policy : mm_policy)
    (section : mm_memory_section) (benefit : string)
    (cs : list (mmap_quantity * mmap_comparator * string)) :
  clean_field benefit -> kstrtoull benefit <> None ->
  numbers_ok kstrtoull cs ->
  well_formed_line kstrtoull vmalloc_ok (filter_text policy section benefit cs).
Proof.
  intros (Hn & Hl & Hc) Hb Hcs. unfold well_formed_line, filter_text.
  split; [|split].
  - rewrite has_char_append. cbn [has_char]. rewrite has_char_append.
    cbn [has_char]. rewrite has_char_append, Hn.
    rewrite has_char_comparisons_text by auto.
    destruct policy, section; reflexivity.
  - rewrite has_char_append. cbn [has_char]. rewrite has_char_append.
    cbn [has_char]. rewrite has_char_append, Hl.
    rewrite has_char_comparisons_text by auto.
    destruct policy, section; reflexivity.
  - intros allocs. unfold read_filter. rewrite vmalloc_succeeds. cbn [negb].
    rewrite fields_app by (destruct policy; reflexivity).
    rewrite fields_app by (destruct section; reflexivity).
    rewrite fields_comparisons_text by assumption.
    destruct (kstrtoull benefit) as [value|] eqn:Eb; [|congruence].
    destruct (read_comparisons_fields cs Hcs (S allocs)) as (cs' & n & Hrec).
    exists (mk_filter section policy value cs'), n.
    destruct policy, section; cbn; rewrite Eb, Hrec; reflexivity.
Qed.

End FilterText.

(** *** The format on the text and what the parser reads *)

(** Induction on a list three elements at a time, as the inner loop
    consumes its fields. *)
Lemma triples_ind (A : Type) (P : list A -> Prop) :
  P [] -> (forall x, P [x]) -> (forall x y, P [x; y]) ->
  (forall x y z l, P l -> P (x :: y :: z :: l)) ->
  forall l, P l.
Proof.
  intros H0 H1 H2 H3.
  fix IH 1. intros [|x [|y [|z l]]].
  - exact H0.
  - apply H1.
  - apply H2.
  - apply H3. apply IH.
Qed.

Lemma fields_app_delim (delim : ascii) (s : string) :
  fields delim (s ++ String delim EmptyString)
  = fields delim s ++ [EmptyString].
Proof.
  induction s as [|c s IH]; cbn [String.append fields].
  - rewrite Ascii.eqb_refl. reflexivity.
  - destruct (Ascii.eqb c delim); rewrite IH; [reflexivity|].
    pose proof (fields_not_nil delim s) as Hne.
    destruct (fields delim s); [congruence|reflexivity].
Qed.

Lemma fields_single (delim : ascii) (s t : string) :
  fields delim s = [t] -> s = t.
Proof.
  revert t. induction s as [|c s IH]; intros t; cbn [fields].
  - congruence.
  - destruct (Ascii.eqb c delim).
    + intros H. pose proof (fields_not_nil delim s). 
      destruct (fields delim s); [congruence|discriminate].
    + destruct (fields delim s) as [|tok rest] eqn:E.
      * exfalso. exact (fields_not_nil delim s E).
      * intros H. injection H as <- ->. f_equal. apply IH. reflexivity.
Qed.

Lemma fields_last_empty (delim : ascii) (s : string) (xs : list string) :
  xs <> [] -> fields delim s = xs ++ [EmptyString] ->
  exists s', s = (s' ++ String delim EmptyString)%string
             /\ fields delim s' = xs.
Proof.
  revert xs. induction s as [|c s IH]; intros xs Hxs; cbn [fields].
  - destruct xs as [|x [|y xs]]; [congruence|discriminate|discriminate].
  - destruct (Ascii.eqb c delim) eqn:Ec.
    + apply Ascii.eqb_eq in Ec. subst c.
      destruct xs as [|x xs]; [congruence|]. cbn [app].
      intros H. injection H as <- Hs.
      destruct xs as [|y xs].
      * cbn [app] in Hs. apply fields_single in Hs. subst s.
        exists EmptyString. split; reflexivity.
      * destruct (IH (y :: xs) ltac:(discriminate) Hs) as (s' & -> & Hf).
        exists (String delim s'). split; [reflexivity|].
        cbn [fields]. rewrite Ascii.eqb_refl, Hf. reflexivity.
    + destruct (fields delim s) as [|tok rest] eqn:E.
      { exfalso. exact (fields_not_nil delim s E). }
      destruct xs as [|x xs]; [congruence|]. cbn [app].
      intros H. injection H as <- Hs. subst rest.
      destruct (IH (tok :: xs) ltac:(discriminate) eq_refl)
        as (s' & -> & Hf).
      exists (String c s'). split; [reflexivity|].
      cbn [fields]. rewrite Ec, Hf. reflexivity.
Qed.

Lemma without_last_comma_Some (line line' : string) :
  without_last_comma line = Some line' <->
  line = (line' ++ String comma EmptyString)%string.
Proof.
  split.
  - revert line'. induction line as [|c rest IH]; intros line';
      cbn [without_last_comma]; [discriminate|].
    destruct rest as [|c' rest'].
    + destruct (Ascii.eqb c comma) eqn:Ec; [|discriminate].
      apply Ascii.eqb_eq in Ec. subst c. intros H. injection H as <-.
      reflexivity.
    + destruct (without_last_comma (String c' rest')) as [l0|];
        cbn [option_map]; [|discriminate].
      intros H. injection H as <-. cbn [String.append].
      f_equal. apply IH. reflexivity.
  - intros ->. induction line' as [|c l IH]; cbn [String.append].
    + reflexivity.
    + cbn [without_last_comma].
      destruct (l ++ String comma EmptyString)%string eqn:E.
      * destruct l; discriminate.
      * rewrite IH. reflexivity.
Qed.

Lemma get_mm_policy_word (s : string) :
  policy_word s = match get_mm_policy s with Some _ => true | None => false end.
Proof.
  unfold policy_word, get_mm_policy.
  repeat match goal with
         | |- context [String.eqb s ?w] => destruct (String.eqb s w)
         end; reflexivity.
Qed.

Lemma get_memory_section_word (s : string) :
  section_word s
  = match get_memory_section s with Some _ => true | None => false end.
Proof.
  unfold section_word, get_memory_section.
  repeat match goal with
         | |- context [String.eqb s ?w] => destruct (String.eqb s w)
         end; reflexivity.
Qed.

Lemma get_mmap_quantity_word (s : string) :
  quantity_word s
  = match get_mmap_quantity s with Some _ => true | None => false end.
Proof.
  unfold quantity_word, get_mmap_quantity.
  repeat match goal with
         | |- context [String.eqb s ?w] => destruct (String.eqb s w)
         end; reflexivity.
Qed.

Lemma get_mmap_comparator_word (s : string) :
  operator_word s
  = match get_mmap_comparator s with Some _ => true | None => false end.
Proof.
  unfold operator_word, get_mmap_comparator.
  repeat match goal with
         | |- context [String.eqb s ?w] => destruct (String.eqb s w)
         end; reflexivity.
Qed.

Section FilterFormat.

Variable kstrtoull : string -> option Z.
Variable vmalloc_ok : nat -> bool.
Hypothesis vmalloc_succeeds : forall k, vmalloc_ok k = true.

(** One turn of the inner loop on a cursor with three fields or more. *)
Lemma read_comparisons_triple (q o v : string) (tok : list string)
    (allocs : nat) :
  read_comparisons kstrtoull vmalloc_ok (q :: o :: v :: tok) allocs
  = if quantity_word q && operator_word o && number_text kstrtoull v
    then match mmap_filter_read_comparison kstrtoull (q :: o :: v :: tok) with
         | Some comparison =>
             match read_comparisons kstrtoull vmalloc_ok tok (S allocs) with
             | ComparisonsRead cs n => ComparisonsRead (comparison :: cs) n
             | other => other
             end
         | None => ComparisonsInvalid
         end
    else ComparisonsInvalid.
Proof.
  rewrite get_mmap_quantity_word, get_mmap_comparator_word.
  unfold number_text.
  cbn [read_comparisons]. rewrite vmalloc_succeeds. cbn [negb].
  unfold mmap_filter_read_comparison. cbn [strsep].
  destruct q; destruct (get_mmap_quantity _);
    destruct (get_mmap_comparator o); destruct (kstrtoull v); reflexivity.
Qed.

Lemma mmap_filter_read_comparison_format (q o v : string) (tok : list string) :
  quantity_word q && operator_word o && number_text kstrtoull v = true ->
  exists comparison,
    mmap_filter_read_comparison kstrtoull (q :: o :: v :: tok)
    = Some comparison.
Proof.
  rewrite get_mmap_quantity_word, get_mmap_comparator_word.
  unfold number_text, mmap_filter_read_comparison. cbn [strsep].
  destruct (get_mmap_quantity q); [|discriminate].
  destruct (get_mmap_comparator o); [|discriminate].
  destruct (kstrtoull v); [|discriminate].
  eexists. reflexivity.
Qed.

Lemma read_comparisons_format (cs : list string) :
  constraints_format kstrtoull cs = true ->
  forall allocs, exists cs' n,
    read_comparisons kstrtoull vmalloc_ok cs allocs = ComparisonsRead cs' n.
Proof.
  induction cs as [|x|x y|q o v cs IH] using triples_ind;
    cbn [constraints_format]; intros H allocs; try discriminate.
  - exists [], allocs. reflexivity.
  - apply andb_true_iff in H. destruct H as [Hw Hcs].
    rewrite read_comparisons_triple, Hw.
    destruct (mmap_filter_read_comparison_format q o v cs Hw) as (c & ->).
    destruct (IH Hcs (S allocs)) as (cs' & n & ->).
    eexists; eexists; reflexivity.
Qed.

Lemma read_comparisons_format_comma (cs : list string) :
  constraints_format kstrtoull cs = true ->
  forall allocs, exists cs' n,
    read_comparisons kstrtoull vmalloc_ok (cs ++ [EmptyString]) allocs
    = ComparisonsRead cs' n.
Proof.
  induction cs as [|x|x y|q o v cs IH] using triples_ind;
    cbn [constraints_format]; intros H allocs; try discriminate.
  - exists [], allocs. reflexivity.
  - apply andb_true_iff in H. destruct H as [Hw Hcs].
    cbn [app]. rewrite read_comparisons_triple, Hw.
    destruct (mmap_filter_read_comparison_format q o v
                (cs ++ [EmptyString]) Hw) as (c & ->).
    destruct (IH Hcs (S allocs)) as (cs' & n & ->).
    eexists; eexists; reflexivity.
Qed.

Lemma read_comparisons_invalid (cs : list string) :
  constraints_format kstrtoull cs = false ->
  (forall cs0, cs = cs0 ++ [EmptyString] ->
     constraints_format kstrtoull cs0 = false) ->
  forall allocs,
    read_comparisons kstrtoull vmalloc_ok cs allocs = ComparisonsInvalid.
Proof.
  induction cs as [|x|x y|q o v cs IH] using triples_ind;
    cbn [constraints_format]; intros H Hcomma allocs.
  - discriminate.
  - destruct x as [|c x].
    + specialize (Hcomma [] eq_refl). discriminate.
    + cbn [read_comparisons]. rewrite vmalloc_succeeds. cbn [negb].
      unfold mmap_filter_read_comparison. cbn [strsep].
      destruct (get_mmap_quantity _); reflexivity.
  - cbn [read_comparisons]. rewrite vmalloc_succeeds. cbn [negb].
    unfold mmap_filter_read_comparison. cbn [strsep].
    destruct x; destruct (get_mmap_quantity _);
      destruct (get_mmap_comparator y); reflexivity.
  - rewrite read_comparisons_triple.
    destruct (quantity_word q && operator_word o && number_text kstrtoull v)
      eqn:Hw; [|reflexivity].
    cbn [andb] in H.
    destruct (mmap_filter_read_comparison_format q o v cs Hw) as (c & ->).
    rewrite IH; [reflexivity|exact H|].
    intros cs0 ->. specialize (Hcomma (q :: o :: v :: cs0) eq_refl).
    cbn [constraints_format] in Hcomma. rewrite Hw in Hcomma. exact Hcomma.
Qed.

(** The loop body reads a filter from every line of the format, and from
    every such line followed by one comma. *)
Lemma read_filter_format (line : string) :
  format_line_comma kstrtoull line = true ->
  forall allocs, exists f n,
    read_filter kstrtoull vmalloc_ok line allocs = FilterRead f n.
Proof.
  intros H allocs.
  assert (Hfields : exists p s b cs cs',
            fields comma line = p :: s :: b :: cs'
            /\ policy_word p && section_word s && number_text kstrtoull b
               = true
            /\ constraints_format kstrtoull cs = true
            /\ (cs' = cs \/ cs' = cs ++ [EmptyString])).
  { unfold format_line_comma in H. apply orb_true_iff in H.
    destruct H as [H|H].
    - unfold format_line in H.
      destruct (fields comma line) as [|p [|s [|b cs]]]; try discriminate.
      apply andb_true_iff in H. destruct H as [Hw Hcs].
      exists p, s, b, cs, cs. auto.
    - destruct (without_last_comma line) as [line'|] eqn:E; [|discriminate].
      apply without_last_comma_Some in E. subst line.
      rewrite fields_app_delim. unfold format_line in H.
      destruct (fields comma line') as [|p [|s [|b cs]]]; try discriminate.
      apply andb_true_iff in H. destruct H as [Hw Hcs].
      exists p, s, b, cs, (cs ++ [EmptyString]). auto. }
  destruct Hfields as (p & s & b & cs & cs' & Hf & Hw & Hcs & Hcs').
  assert (Hread : exists l n,
            read_comparisons kstrtoull vmalloc_ok cs' (S allocs)
            = ComparisonsRead l n).
  { destruct Hcs' as [-> | ->].
    - apply read_comparisons_format, Hcs.
    - apply read_comparisons_format_comma, Hcs. }
  destruct Hread as (l & n & Hread).
  rewrite get_mm_policy_word, get_memory_section_word in Hw.
  unfold number_text in Hw.
  unfold read_filter. rewrite vmalloc_succeeds, Hf. cbn [negb strsep].
  destruct (get_mm_policy p); [|discriminate].
  destruct (get_memory_section s); [|discriminate].
  destruct (kstrtoull b); [|discriminate].
  rewrite Hread. eexists; eexists; reflexivity.
Qed.

(** The loop body breaks on every other line. *)
Lemma read_filter_not_format (line : string) :
  format_line_comma kstrtoull line = false ->
  forall allocs, read_filter kstrtoull vmalloc_ok line allocs = FilterBreak.
Proof.
  intros H allocs. unfold format_line_comma in H.
  apply orb_false_iff in H. destruct H as [Hline Hcomma].
  unfold read_filter. rewrite vmalloc_succeeds. cbn [negb].
  unfold format_line in Hline.
  destruct (fields comma line) as [|p [|s [|b cs]]] eqn:Hf; cbn [strsep].
  - reflexivity.
  - destruct (get_mm_policy p); reflexivity.
  - destruct (get_mm_policy p); [|reflexivity].
    destruct (get_memory_section s); reflexivity.
  - rewrite get_mm_policy_word, get_memory_section_word in Hline.
    unfold number_text in Hline.
    destruct (get_mm_policy p) as [pol|] eqn:Ep; [|reflexivity].
    destruct (get_memory_section s) as [sec|] eqn:Es; [|reflexivity].
    destruct (kstrtoull b) as [value|] eqn:Eb; [|reflexivity].
    cbn [andb] in Hline.
    rewrite read_comparisons_invalid; [reflexivity|exact Hline|].
    intros cs0 ->.
    destruct (fields_last_empty comma line (p :: s :: b :: cs0)
                ltac:(discriminate) Hf) as (line' & Hl & Hf').
    apply without_last_comma_Some in Hl. rewrite Hl in Hcomma.
    unfold format_line in Hcomma. rewrite Hf' in Hcomma.
    rewrite get_mm_policy_word, get_memory_section_word in Hcomma.
    unfold number_text in Hcomma. rewrite Ep, Es, Eb in Hcomma.
    exact Hcomma.
Qed.

End FilterFormat.

(** *** The test of the format and the texts of the format *)

Lemma fields_cons (delim : ascii) (s : string) :
  exists tok rest, fields delim s = tok :: rest.
Proof.
  pose proof (fields_not_nil delim s).
  destruct (fields delim s) as [|tok rest]; [congruence|eauto].
Qed.

(** The first field holds no delimiter and the text is the first field,
    then, if more fields follow, a delimiter and a text with those
    fields. *)
Lemma fields_head (delim : ascii) (s tok : string) (rest : list string) :
  fields delim s = tok :: rest ->
  has_char delim tok = false
  /\ match rest with
     | [] => s = tok
     | _ :: _ => exists s', s = (tok ++ String delim s')%string
                            /\ fields delim s' = rest
     end.
Proof.
  revert tok rest. induction s as [|c s IH]; intros tok rest; cbn [fields].
  - intros H. injection H as <- <-. split; reflexivity.
  - destruct (Ascii.eqb c delim) eqn:Ec.
    + apply Ascii.eqb_eq in Ec. subst c. intros H. injection H as <- <-.
      split; [reflexivity|].
      destruct (fields_cons delim s) as (t & r & E). rewrite E.
      exists s. split; [reflexivity|exact E].
    + destruct (fields_cons delim s) as (t & r & E). rewrite E.
      intros H. injection H as <- <-.
      destruct (IH t r E) as [Ht Hr]. split.
      * cbn [has_char]. rewrite Ec, Ht. reflexivity.
      * destruct r as [|x r].
        -- subst s. reflexivity.
        -- destruct Hr as (s' & -> & Hs'). exists s'.
           split; [reflexivity|exact Hs'].
Qed.

Lemma policy_word_str (s : string) :
  policy_word s = true <-> exists pol, s = mm_policy_get_str pol.
Proof.
  unfold policy_word. rewrite !orb_true_iff, !String.eqb_eq. split.
  - intros [->| ->]; [exists PolicyHugePage|exists PolicyEagerPage];
      reflexivity.
  - intros ([] & ->); cbn; auto.
Qed.

Lemma section_word_str (s : string) :
  section_word s = true <-> exists sec, s = mm_memory_section_get_str sec.
Proof.
  unfold section_word. rewrite !orb_true_iff, !String.eqb_eq. split.
  - intros [[[->| ->]| ->]| ->];
      [exists SectionCode|exists SectionData|exists SectionHeap
      |exists SectionMmap]; reflexivity.
  - intros ([] & ->); cbn; auto.
Qed.

Lemma quantity_word_str (s : string) :
  quantity_word s = true <-> exists q, s = mmap_quantity_get_str q.
Proof.
  unfold quantity_word. rewrite !orb_true_iff, !String.eqb_eq. split.
  - intros [[[[[[->| ->]| ->]| ->]| ->]| ->]| ->];
      [exists QuantSectionOff|exists QuantAddr|exists QuantLen
      |exists QuantProt|exists QuantFlags|exists QuantFD|exists QuantOff];
      reflexivity.
  - intros ([] & ->); cbn; tauto.
Qed.

Lemma operator_word_str (s : string) :
  operator_word s = true <->
  exists c, s = String (mmap_comparator_get_char c) EmptyString.
Proof.
  unfold operator_word. rewrite !orb_true_iff, !String.eqb_eq. split.
  - intros [[->| ->]| ->];
      [exists CompEquals|exists CompGreaterThan|exists CompLessThan];
      reflexivity.
  - intros ([] & ->); cbn; auto.
Qed.

Section FormatText.

Variable kstrtoull : string -> option Z.

Lemma number_text_iff (s : string) :
  number_text kstrtoull s = true <-> kstrtoull s <> None.
Proof.
  unfold number_text. destruct (kstrtoull s); split; congruence.
Qed.

Lemma fields_comparisons_text_format (v : string)
    (cs : list (mmap_quantity * mmap_comparator * string)) :
  has_char comma v = false ->
  numbers_format kstrtoull cs ->
  fields comma (v ++ comparisons_text cs) = v :: comparisons_fields cs.
Proof.
  intros Hv Hcs. revert v Hv.
  induction Hcs as [|[[q c] w] cs [Hw _] _ IH]; intros v Hv;
    cbn [comparisons_text comparisons_fields].
  - rewrite string_append_nil. apply fields_no_delim, Hv.
  - rewrite fields_app by exact Hv. f_equal.
    rewrite fields_app by (destruct q; reflexivity). f_equal.
    change (String (mmap_comparator_get_char c)
              (String comma (w ++ comparisons_text cs)))
      with (String (mmap_comparator_get_char c) EmptyString
            ++ String comma (w ++ comparisons_text cs))%string.
    rewrite fields_app by (destruct c; reflexivity). f_equal.
    apply IH. exact Hw.
Qed.

Lemma constraints_format_fields
    (cs : list (mmap_quantity * mmap_comparator * string)) :
  numbers_format kstrtoull cs ->
  constraints_format kstrtoull (comparisons_fields cs) = true.
Proof.
  induction 1 as [|[[q c] w] cs [_ Hw] _ IH];
    cbn [comparisons_fields constraints_format]; [reflexivity|].
  rewrite IH, andb_true_r. cbn [snd] in Hw.
  apply number_text_iff in Hw. rewrite Hw, andb_true_r.
  apply andb_true_iff. split.
  - apply quantity_word_str. eexists. reflexivity.
  - apply operator_word_str. eexists. reflexivity.
Qed.

(** A text whose fields behind the first are constraints of the format
    is the first field followed by the text of those constraints. *)
Lemma constraints_format_text (fs : list string) :
  constraints_format kstrtoull fs = true ->
  forall s v, fields comma s = v :: fs ->
  exists cs, numbers_format kstrtoull cs /\ s = (v ++ comparisons_text cs)%string.
Proof.
  induction fs as [|x|x y|q o w fs IH] using triples_ind;
    cbn [constraints_format]; intros H s v Hs; try discriminate.
  - exists []. split; [constructor|].
    destruct (fields_head comma s v [] Hs) as [_ ->].
    cbn [comparisons_text]. symmetry. apply string_append_nil.
  - apply andb_true_iff in H. destruct H as [H Hfs].
    apply andb_true_iff in H. destruct H as [H Hw].
    apply andb_true_iff in H. destruct H as [Hq Ho].
    apply quantity_word_str in Hq. destruct Hq as (q' & ->).
    apply operator_word_str in Ho. destruct Ho as (o' & ->).
    apply number_text_iff in Hw.
    destruct (fields_head comma s v _ Hs) as [_ (s1 & -> & Hs1)].
    destruct (fields_head comma s1 _ _ Hs1) as [_ (s2 & -> & Hs2)].
    destruct (fields_head comma s2 _ _ Hs2) as [_ (s3 & -> & Hs3)].
    destruct (fields_head comma s3 w fs Hs3) as [Hwc _].
    destruct (IH Hfs s3 w Hs3) as (cs & Hcs & ->).
    exists ((q', o', w) :: cs). split.
    + constructor; [split; assumption|exact Hcs].
    + reflexivity.
Qed.

(** The test [format_line] holds of exactly the texts of the format. *)
Lemma format_line_filter_text (line : string) :
  format_line kstrtoull line = true <->
  exists policy section benefit cs,
    has_char comma benefit = false /\ kstrtoull benefit <> None
    /\ numbers_format kstrtoull cs
    /\ line = filter_text policy section benefit cs.
Proof.
  split.
  - unfold format_line. intros H.
    destruct (fields comma line) as [|p [|s [|b fs]]] eqn:Hf;
      try discriminate.
    apply andb_true_iff in H. destruct H as [H Hfs].
    apply andb_true_iff in H. destruct H as [H Hb].
    apply andb_true_iff in H. destruct H as [Hp Hs].
    apply policy_word_str in Hp. destruct Hp as (pol & ->).
    apply section_word_str in Hs. destruct Hs as (sec & ->).
    apply number_text_iff in Hb.
    destruct (fields_head comma line _ _ Hf) as [_ (s1 & -> & Hs1)].
    destruct (fields_head comma s1 _ _ Hs1) as [_ (s2 & -> & Hs2)].
    destruct (fields_head comma s2 b fs Hs2) as [Hbc _].
    destruct (constraints_format_text fs Hfs s2 b Hs2) as (cs & Hcs & ->).
    exists pol, sec, b, cs. repeat split; assumption.
  - intros (pol & sec & b & cs & Hbc & Hb & Hcs & ->).
    unfold format_line, filter_text.
    rewrite fields_app by (destruct pol; reflexivity).
    rewrite fields_app by (destruct sec; reflexivity).
    rewrite fields_comparisons_text_format by assumption.
    rewrite constraints_format_fields by exact Hcs.
    apply number_text_iff in Hb. rewrite Hb.
    rewrite !andb_true_r. apply andb_true_iff. split.
    + apply policy_word_str. eexists. reflexivity.
    + apply section_word_str. eexists. reflexivity.
Qed.

End FormatText.

Section FilterWriteProperties.

Variable kstrtoull : string -> option Z.
Variable vmalloc_ok : nat -> bool.
Hypothesis vmalloc_succeeds : forall k, vmalloc_ok k = true.

Lemma fields_filter_lines (lines : list string) (rest : string) :
  Forall (well_formed_line kstrtoull vmalloc_ok) lines ->
  fields newline (c_str (filter_lines lines ++ rest))
  = lines ++ fields newline (c_str rest).
Proof.
  induction 1 as [|line lines (Hnul & Hnl & _) _ IH]; cbn [filter_lines app].
  - reflexivity.
  - rewrite string_append_assoc. cbn [String.append].
    rewrite c_str_app by exact Hnul.
    rewrite fields_app by exact Hnl. rewrite IH. reflexivity.
Qed.

Lemma read_filter_empty (allocs : nat) :
  read_filter kstrtoull vmalloc_ok EmptyString allocs = FilterBreak.
Proof.
  unfold read_filter. rewrite vmalloc_succeeds. reflexivity.
Qed.

(** The loop reads the well-formed lines and stops at the remainder. *)
Lemma read_filters_lines (r0 : string) (rtail : list string) :
  (rtail = [] \/ r0 = EmptyString
   \/ forall allocs, read_filter kstrtoull vmalloc_ok r0 allocs = FilterBreak) ->
  forall lines, Forall (well_formed_line kstrtoull vmalloc_ok) lines ->
  forall tok outerTok allocs fs bytes_read,
  lines ++ r0 :: rtail = tok :: outerTok ->
  exists fs',
    read_filters kstrtoull vmalloc_ok tok outerTok allocs fs bytes_read
    = FiltersRead fs' (bytes_read + filter_lines_length lines).
Proof.
  intros Hstop. induction 1 as [|line lines (_ & _ & Hline) _ IH];
    intros tok outerTok allocs fs bytes_read Heq; cbn [app] in Heq.
  - inversion Heq; subst tok outerTok. cbn [filter_lines_length].
    rewrite Z.add_0_r. exists fs.
    destruct rtail as [|next rtail']; [reflexivity|].
    cbn [read_filters].
    destruct Hstop as [Hstop|[->|Hstop]]; [discriminate|reflexivity|].
    destruct r0; [reflexivity|]. rewrite Hstop. reflexivity.
  - inversion Heq; subst tok outerTok. clear Heq.
    destruct (lines ++ r0 :: rtail) as [|next outerTok'] eqn:Hrest.
    { destruct lines; discriminate. }
    destruct (Hline allocs) as (f & n & Hread).
    cbn [read_filters filter_lines_length].
    destruct line as [|c line].
    { rewrite read_filter_empty in Hread. discriminate. }
    rewrite Hread.
    destruct (IH next outerTok' n (fs ++ [f])
                (bytes_read + (strlen (String c line) + 1)) eq_refl)
      as (fs' & Hfs').
    exists fs'. rewrite Hfs'. f_equal. lia.
Qed.

Lemma filter_lines_length_pos (lines : list string) :
  lines <> [] -> 0 < filter_lines_length lines.
Proof.
  assert (Hnn : forall ls, 0 <= filter_lines_length ls).
  { induction ls as [|l ls IH]; cbn [filter_lines_length]; unfold strlen; lia. }
  destruct lines as [|l ls]; [congruence|]. intros _.
  cbn [filter_lines_length]. specialize (Hnn ls). unfold strlen. lia.
Qed.

(** A write of lines the loop body reads as filters, followed by a
    remainder it stops at. *)
Lemma mmap_filters_write_read_lines (procs : list mmap_filter_proc)
    (tgid : Z) (fresh_eager : rb_tree) (lines : list string) (rest : string) :
  Forall (well_formed_line kstrtoull vmalloc_ok) lines ->
  truncated rest \/ malformed kstrtoull vmalloc_ok rest ->
  fst (mmap_filters_write kstrtoull vmalloc_ok procs (Some tgid) true
         fresh_eager (filter_lines lines ++ rest))
  = match lines with
    | [] => - EINVAL
    | _ :: _ => filter_lines_length lines
    end.
Proof.
  intros Hlines Hrest. unfold mmap_filters_write.
  rewrite !vmalloc_succeeds. cbn [negb andb].
  rewrite andb_false_r.
  rewrite fields_filter_lines by exact Hlines.
  assert (Hstop : exists r0 rtail,
            fields newline (c_str rest) = r0 :: rtail
            /\ (rtail = [] \/ r0 = EmptyString
                \/ forall allocs,
                     read_filter kstrtoull vmalloc_ok r0 allocs = FilterBreak)).
  { destruct Hrest as [Htr|(tok & more & Heq & Hnl & Hbad)].
    - exists (c_str rest), []. split; [apply fields_no_delim, Htr|auto].
    - exists tok, (fields newline more). rewrite Heq.
      split; [apply fields_app, Hnl|auto]. }
  destruct Hstop as (r0 & rtail & Hfields & Hstop). rewrite Hfields.
  destruct (lines ++ r0 :: rtail) as [|tok outerTok] eqn:Hall.
  { destruct lines; discriminate. }
  set (proc := match find_filter_proc_by_pid procs tgid with
               | Some p => p
               | None => mk_proc tgid [] RB_ROOT fresh_eager
               end).
  set (allocs := if match find_filter_proc_by_pid procs tgid with
                    | Some _ => false | None => true end
                 then 2%nat else 1%nat).
  destruct (read_filters_lines r0 rtail Hstop lines Hlines tok outerTok
              allocs (filters proc) 0 Hall) as (fs' & Hread).
  rewrite Hread. cbn [Z.add].
  destruct lines as [|l ls].
  - reflexivity.
  - pose proof (filter_lines_length_pos (l :: ls) ltac:(discriminate)) as Hpos.
    destruct (filter_lines_length (l :: ls) =? 0) eqn:E.
    + apply Z.eqb_eq in E. lia.
    + reflexivity.
Qed.

(** C8: when every allocation succeeds, the user buffer can be copied and
    the process exists, a write of [k] complete filter lines, each a line
    of the format or such a line with one more comma at its end, followed
    by a remainder that is cut before its first newline or whose first
    line is neither, returns the number of bytes of those [k] lines,
    newlines included, if [k >= 1], and [-EINVAL] if [k = 0]. *)
Theorem mmap_filters_write_partial (procs : list mmap_filter_proc)
    (tgid : Z) (fresh_eager : rb_tree) (lines : list string) (rest : string) :
  Forall (fun line => text_line line
                      /\ format_line_comma kstrtoull line = true) lines ->
  truncated rest \/ first_line_fails (format_line_comma kstrtoull) rest ->
  fst (mmap_filters_write kstrtoull vmalloc_ok procs (Some tgid) true
         fresh_eager (filter_lines lines ++ rest))
  = match lines with
    | [] => - EINVAL
    | _ :: _ => filter_lines_length lines
    end.
Proof.
  intros Hlines Hrest.
  apply mmap_filters_write_read_lines.
  - apply Forall_forall. intros line Hline.
    rewrite Forall_forall in Hlines.
    destruct (Hlines line Hline) as [[Hnul Hnl] Hformat].
    split; [exact Hnul|]. split; [exact Hnl|].
    apply (read_filter_format kstrtoull vmalloc_ok vmalloc_succeeds).
    exact Hformat.
  - destruct Hrest as [Htr|(tok & more & Heq & Hnl & Hbad)]; [left; exact Htr|].
    right. exists tok, more. split; [exact Heq|]. split; [exact Hnl|].
    right.
    apply (read_filter_not_format kstrtoull vmalloc_ok vmalloc_succeeds).
    exact Hbad.
Qed.

End FilterWriteProperties.

Lemma mmap_filters_write_partial_witness :
  fst (mmap_filters_write hex_literal (fun _ => true) [] (Some 1) true rb_null
         ("huge,mmap,0x10" ++ line_break ++ "eager,he"))
  = 15
  /\ fst (mmap_filters_write hex_literal (fun _ => true) [] (Some 1) true
            rb_null
            ("huge,mmap,0x10" ++ line_break ++ "huge,mmap,0x2," ++ line_break
             ++ "huge,mm"))
     = 30
  /\ fst (mmap_filters_write hex_literal (fun _ => true) [] (Some 1) true
            rb_null
            ("huge,mmap,0x10" ++ line_break ++ "huge,mmap,,0x2" ++ line_break
             ++ "eager,heap,0x1" ++ line_break))
     = 15
  /\ fst (mmap_filters_write hex_literal (fun _ => true) [] (Some 1) true
            rb_null "eager,he")
     = - EINVAL.
Proof.
  assert (H2 : Forall (fun line => text_line line
                         /\ format_line_comma hex_literal line = true)
                 ["huge,mmap,0x10"%string; "huge,mmap,0x2,"%string]).
  { repeat constructor. }
  assert (H1 : Forall (fun line => text_line line
                         /\ format_line_comma hex_literal line = true)
                 ["huge,mmap,0x10"%string]).
  { repeat constructor. }
  assert (Hbad : first_line_fails (format_line_comma hex_literal)
                   ("huge,mmap,,0x2" ++ line_break ++ "eager,heap,0x1"
                    ++ line_break)).
  { exists "huge,mmap,,0x2"%string, ("eager,heap,0x1" ++ line_break)%string.
    repeat split. }
  split; [|split; [|split]].
  - exact (mmap_filters_write_partial hex_literal (fun _ => true)
             (fun _ => eq_refl) [] 1 rb_null ["huge,mmap,0x10"%string]
             "eager,he"%string H1 (or_introl eq_refl)).
  - exact (mmap_filters_write_partial hex_literal (fun _ => true)
             (fun _ => eq_refl) [] 1 rb_null
             ["huge,mmap,0x10"%string; "huge,mmap,0x2,"%string]
             "huge,mm"%string H2 (or_introl eq_refl)).
  - exact (mmap_filters_write_partial hex_literal (fun _ => true)
             (fun _ => eq_refl) [] 1 rb_null ["huge,mmap,0x10"%string]
             ("huge,mmap,,0x2" ++ line_break ++ "eager,heap,0x1"
              ++ line_break)%string H1 (or_intror Hbad)).
  - exact (mmap_filters_write_partial hex_literal (fun _ => true)
             (fun _ => eq_refl) [] 1 rb_null [] "eager,he"%string
             (Forall_nil _) (or_introl eq_refl)).
Defined.

(** With the format taken to the letter the byte count is not that of the
    leading lines: the second line below ends in a comma, so it is not a
    line of the format and the remainder is malformed, yet the inner loop
    stops at the empty rest of the line ([tok[0] == 0]) and the filter is
    added.  The write returns 30, the bytes of two lines, not the 15 of
    the one leading line of the format. *)
Lemma mmap_filters_write_trailing_comma :
  Forall (fun line => text_line line /\ format_line hex_literal line = true)
    ["huge,mmap,0x10"%string]
  /\ first_line_fails (format_line hex_literal)
       ("huge,mmap,0x2," ++ line_break ++ "huge,mm")
  /\ filter_lines_length ["huge,mmap,0x10"%string] = 15
  /\ fst (mmap_filters_write hex_literal (fun _ => true) [] (Some 1) true
            rb_null
            (filter_lines ["huge,mmap,0x10"%string]
             ++ ("huge,mmap,0x2," ++ line_break ++ "huge,mm")))
     = 30
  /\ fst (mmap_filters_write hex_literal (fun _ => true) [] (Some 1) true
            rb_null
            (filter_lines ["huge,mmap,0x10"%string]
             ++ ("huge,mmap,0x2," ++ line_break ++ "huge,mm")))
     <> filter_lines_length ["huge,mmap,0x10"%string].
Proof.
  split; [|split; [|split; [|split]]].
  - repeat constructor.
  - exists "huge,mmap,0x2,"%string, "huge,mm"%string. repeat split.
  - reflexivity.
  - reflexivity.
  - vm_compute. discriminate.
Qed.

(** * Further properties of the code *)

(** ** profile_search *)

Lemma profile_search_wf (t : rb_tree) (addr : Z) :
  wf_ranges (inorder t) ->
  match profile_search t addr with
  | Some r => In r (inorder t) /\ start r <= addr < end_ r
  | None => forall r, In r (inorder t) -> ~ (start r <= addr < end_ r)
  end.
Proof.
  induction t as [|l IHl x r IHr]; intros Hwf; cbn [profile_search inorder].
  - intros r [].
  - cbn [inorder] in Hwf. assert (Hwf' := Hwf).
    apply wf_ranges_app in Hwf'. destruct Hwf' as (Hl & Hxr & Hlx).
    apply wf_ranges_cons in Hxr. destruct Hxr as (Hx & Hr & Hxb).
    destruct ((start x <=? addr) && (addr <? end_ x)) eqn:E.
    + apply andb_true_iff in E. destruct E as [E1 E2].
      apply Z.leb_le in E1. apply Z.ltb_lt in E2.
      split; [apply in_or_app; simpl; auto|lia].
    + apply andb_false_iff in E. rewrite Z.leb_gt, Z.ltb_ge in E.
      destruct (addr <? start x) eqn:E3.
      * apply Z.ltb_lt in E3. specialize (IHl Hl).
        destruct (profile_search l addr) as [r0|].
        -- destruct IHl as [Hin Hc]. split; [apply in_or_app; auto|exact Hc].
        -- intros b Hb. apply in_app_or in Hb. destruct Hb as [Hb|[<-|Hb]]; auto.
           ++ lia.
           ++ specialize (Hxb b Hb). range_arith.
      * apply Z.ltb_ge in E3. specialize (IHr Hr).
        destruct (profile_search r addr) as [r0|].
        -- destruct IHr as [Hin Hc].
           split; [apply in_or_app; simpl; auto|exact Hc].
        -- intros b Hb. apply in_app_or in Hb. destruct Hb as [Hb|[<-|Hb]]; auto.
           ++ assert (before b x) by (apply Hlx; simpl; auto). range_arith.
           ++ lia.
Qed.

(** In a well-formed store at most one range contains an address. *)
Lemma wf_ranges_unique_container (l : list profile_range)
    (a b : profile_range) (addr : Z) :
  wf_ranges l -> In a l -> In b l ->
  start a <= addr < end_ a -> start b <= addr < end_ b -> a = b.
Proof.
  induction l as [|x l IH]; intros Hwf Ha Hb Hca Hcb; [destruct Ha|].
  apply wf_ranges_cons in Hwf. destruct Hwf as (Hx & Hl & Hxb).
  destruct Ha as [->|Ha], Hb as [->|Hb]; auto.
  - specialize (Hxb b Hb). range_arith.
  - specialize (Hxb a Ha). range_arith.
Qed.

Lemma profile_search_some_iff (t : rb_tree) (addr : Z) (r : profile_range) :
  wf_ranges (inorder t) ->
  (profile_search t addr = Some r <->
   In r (inorder t) /\ start r <= addr < end_ r).
Proof.
  intros Hwf. pose proof (profile_search_wf t addr Hwf) as H.
  destruct (profile_search t addr) as [r0|].
  - destruct H as [Hin Hc]. split.
    + intros E. inversion E; subst. auto.
    + intros [Hin' Hc']. f_equal.
      apply (wf_ranges_unique_container (inorder t) r0 r addr); auto.
  - split; [discriminate|]. intros [Hin Hc]. exfalso. exact (H r Hin Hc).
Qed.

Lemma profile_search_none_iff (t : rb_tree) (addr : Z) :
  wf_ranges (inorder t) ->
  (profile_search t addr = None <->
   forall r, In r (inorder t) -> ~ (start r <= addr < end_ r)).
Proof.
  intros Hwf. pose proof (profile_search_wf t addr Hwf) as H.
  destruct (profile_search t addr) as [r0|].
  - destruct H as [Hin Hc]. split; [discriminate|].
    intros Hno. exfalso. exact (Hno r0 Hin Hc).
  - split; auto.
Qed.

(** X1: on an interval store [profile_search] returns the stored range
    that contains the address, and NULL exactly when no stored range
    contains it; it agrees with [profile_find_first_range] for
    [CompEquals]. *)
Theorem profile_search_correct (t : rb_tree) (addr : Z) :
  interval_store t ->
  match profile_search t addr with
  | Some r => stored t r /\ start r <= addr < end_ r
  | None => forall r, stored t r -> ~ (start r <= addr < end_ r)
  end
  /\ profile_search t addr = profile_find_first_range t addr CompEquals.
Proof.
  intros H. apply interval_store_wf in H.
  split; [exact (profile_search_wf t addr H)|].
  pose proof (profile_find_first_range_eq t addr H) as Hf.
  destruct (profile_find_first_range t addr CompEquals) as [r|].
  - destruct Hf as (Hin & Hc & _). apply profile_search_some_iff; auto.
  - apply profile_search_none_iff; auto.
Qed.

Lemma profile_search_correct_witness :
  let t := rb_node (rb_node rb_null (mk_range 0 10 1) rb_null)
             (mk_range 10 20 2)
             (rb_node rb_null (mk_range 30 40 3) rb_null) in
  interval_store t
  /\ profile_search t 15 = Some (mk_range 10 20 2)
  /\ profile_search t 25 = None
  /\ profile_search t 25 = profile_find_first_range t 25 CompEquals.
Proof.
  intros t.
  assert (H : interval_store t).
  { apply interval_store_wf. cbn [t inorder app].
    repeat (apply wf_ranges_cons; split; [unfold nonempty; cbn; lia
      | split; [| intros b Hb; cbn in Hb; unfold before;
                  intuition (subst; cbn; lia)]]).
    apply wf_ranges_nil. }
  split; [exact H|]. split; [reflexivity|]. split; [reflexivity|].
  exact (proj2 (profile_search_correct t 25 H)).
Defined.

(** ** Insert, then search *)

Lemma In_insert_spec (l : list profile_range) (new_range r : profile_range) :
  nonempty new_range ->
  (In r (insert_spec l new_range) <->
   r = new_range \/ (In r l /\ ranges_overlap new_range r = false)).
Proof.
  intros Hnew. unfold insert_spec. rewrite in_app_iff. cbn [In].
  split.
  - intros [H|[<-|H]]; auto; apply filter_In in H; destruct H as [H _];
      apply filter_In in H; destruct H as [Hin Ho];
      apply negb_true_iff in Ho; auto.
  - intros [->|(Hin & Ho)]; [auto|].
    assert (Hk : In r (filter (fun r0 => negb (ranges_overlap new_range r0)) l))
      by (apply filter_In; rewrite Ho; auto).
    apply ranges_overlap_false in Ho.
    destruct (Z.lt_trichotomy (start r) (start new_range)) as [H|[H|H]].
    + left. apply filter_In. split; [exact Hk|apply Z.ltb_lt, H].
    + exfalso. range_arith.
    + right. right. apply filter_In. split; [exact Hk|apply Z.ltb_lt, H].
Qed.

(** X2: after the insert of a non-empty range into an interval store, a
    search inside the new range finds the new range, and a search outside
    it finds what it found before unless that range overlapped the new one
    and was evicted. *)
Theorem profile_search_after_insert (t : rb_tree) (new_range : profile_range)
    (addr : Z) :
  interval_store t -> nonempty new_range ->
  profile_search (profile_range_insert t new_range) addr =
  if (start new_range <=? addr) && (addr <? end_ new_range) then Some new_range
  else
    match profile_search t addr with
    | Some r => if ranges_overlap new_range r then None else Some r
    | None => None
    end.
Proof.
  intros Ht Hnew. apply interval_store_wf in Ht.
  pose proof (wf_ranges_profile_range_insert t new_range Ht Hnew) as Hwf'.
  assert (Hin : forall r, In r (inorder (profile_range_insert t new_range)) <->
                  r = new_range \/ (In r (inorder t)
                                    /\ ranges_overlap new_range r = false)).
  { intros r. rewrite inorder_profile_range_insert by assumption.
    apply In_insert_spec, Hnew. }
  destruct ((start new_range <=? addr) && (addr <? end_ new_range)) eqn:E.
  - apply andb_true_iff in E. destruct E as [E1 E2].
    apply Z.leb_le in E1. apply Z.ltb_lt in E2.
    apply profile_search_some_iff; [exact Hwf'|].
    split; [apply Hin; auto|lia].
  - apply andb_false_iff in E. rewrite Z.leb_gt, Z.ltb_ge in E.
    pose proof (profile_search_wf t addr Ht) as Hs.
    destruct (profile_search t addr) as [r|].
    + destruct Hs as [Hr Hc]. destruct (ranges_overlap new_range r) eqn:Eo.
      * apply profile_search_none_iff; [exact Hwf'|].
        intros b Hb Hcb. apply Hin in Hb. destruct Hb as [->|[Hb Hob]]; [lia|].
        assert (b = r)
          by (apply (wf_ranges_unique_container (inorder t) b r addr); auto).
        congruence.
      * apply profile_search_some_iff; [exact Hwf'|].
        split; [apply Hin; auto|exact Hc].
    + apply profile_search_none_iff; [exact Hwf'|].
      intros b Hb Hcb. apply Hin in Hb. destruct Hb as [->|[Hb _]]; [lia|].
      exact (Hs b Hb Hcb).
Qed.

Lemma profile_search_after_insert_witness :
  let t := rb_node (rb_node rb_null (mk_range 5 15 1) rb_null)
             (mk_range 18 25 2)
             (rb_node rb_null (mk_range 30 40 3) rb_null) in
  profile_search (profile_range_insert t (mk_range 10 20 7)) 12
    = Some (mk_range 10 20 7)
  /\ profile_search (profile_range_insert t (mk_range 10 20 7)) 22 = None
  /\ profile_search (profile_range_insert t (mk_range 10 20 7)) 35
    = Some (mk_range 30 40 3).
Proof.
  intros t.
  assert (H : interval_store t).
  { apply interval_store_wf. cbn [t inorder app].
    repeat (apply wf_ranges_cons; split; [unfold nonempty; cbn; lia
      | split; [| intros b Hb; cbn in Hb; unfold before;
                  intuition (subst; cbn; lia)]]).
    apply wf_ranges_nil. }
  assert (Hn : nonempty (mk_range 10 20 7)) by (unfold nonempty; cbn; lia).
  split; [exact (profile_search_after_insert t (mk_range 10 20 7) 12 H Hn)|].
  split; [exact (profile_search_after_insert t (mk_range 10 20 7) 22 H Hn)|].
  exact (profile_search_after_insert t (mk_range 10 20 7) 35 H Hn).
Defined.

(** ** mm_split_ranges, the other comparators *)

(** What a store of rank [n] and the parts around it look like. *)
Lemma container_of_split (t : rb_tree) (n : nat) (x : profile_range) :
  container_of t n = Some x ->
  inorder t = firstn n (inorder t) ++ x :: skipn (S n) (inorder t)
  /\ List.length (firstn n (inorder t)) = n
  /\ (n < size t)%nat.
Proof.
  unfold container_of. intros H.
  destruct (nth_error_split_at _ _ _ H) as [H1 H2].
  split; [exact H1|]. split; [exact H2|].
  rewrite <- size_inorder. apply nth_error_Some. congruence.
Qed.

(** Narrowing one range of a well-formed store keeps it well formed. *)
Lemma wf_ranges_narrow (A B : list profile_range) (x y : profile_range) :
  wf_ranges (A ++ x :: B) ->
  start x <= start y -> start y < end_ y -> end_ y <= end_ x ->
  wf_ranges (A ++ y :: B).
Proof.
  intros Hwf H1 H2 H3.
  apply wf_ranges_app in Hwf. destruct Hwf as (HA & HxB & HAx).
  apply wf_ranges_cons in HxB. destruct HxB as (Hx & HB & HxB).
  apply wf_ranges_app. split; [exact HA|]. split.
  - apply wf_ranges_cons. split; [exact H2|]. split; [exact HB|].
    intros b Hb. specialize (HxB b Hb). range_arith.
  - intros a b Ha [<-|Hb].
    + assert (H := HAx a x Ha (or_introl eq_refl)). range_arith.
    + apply HAx; simpl; auto.
Qed.

(** The step shared by the splits that cut the tail of a range off:
    the range of rank [base] shrinks to [s,cut) and [cut,e) is inserted. *)
Lemma split_right_step (t : rb_tree) (base : nat) (s e V cut : Z) :
  wf_ranges (inorder t) ->
  container_of t base = Some (mk_range s e V) ->
  s < cut < e ->
  let t1 := rb_store t base (mk_range s cut V) in
  inorder (profile_range_insert t1 (mk_range cut e 0)) =
  firstn base (inorder t)
  ++ mk_range s cut V :: mk_range cut e 0 :: skipn (S base) (inorder t)
  /\ wf_ranges (inorder (profile_range_insert t1 (mk_range cut e 0))).
Proof.
  intros Hstore Hbase Hcut t1.
  destruct (container_of_split _ _ _ Hbase) as (Hsplit & Hlen & Hlt).
  set (A := firstn base (inorder t)) in *.
  set (B := skipn (S base) (inorder t)) in *.
  assert (Ht1 : inorder t1 = A ++ mk_range s cut V :: B)
    by (apply inorder_rb_store, Hlt).
  rewrite Hsplit in Hstore.
  assert (Hwf1 : wf_ranges (inorder t1)).
  { rewrite Ht1. apply (wf_ranges_narrow A B (mk_range s e V)); cbn; auto; lia. }
  assert (Hnew : nonempty (mk_range cut e 0)) by (unfold nonempty; cbn; lia).
  split; [|apply wf_ranges_profile_range_insert; assumption].
  rewrite inorder_profile_range_insert by assumption.
  rewrite Ht1.
  replace (A ++ mk_range s cut V :: B)
    with ((A ++ [mk_range s cut V]) ++ B)
    by (rewrite <- app_assoc; reflexivity).
  rewrite insert_spec_between.
  - rewrite <- app_assoc. reflexivity.
  - rewrite <- app_assoc. cbn [app]. rewrite <- Ht1. exact Hwf1.
  - exact Hnew.
  - intros a Ha. apply in_app_or in Ha. destruct Ha as [Ha|[<-|[]]]; cbn; [|lia].
    apply wf_ranges_app in Hstore. destruct Hstore as (HA & _ & HAx).
    assert (H := HAx a (mk_range s e V) Ha (or_introl eq_refl)).
    pose proof (wf_ranges_In _ _ HA Ha). range_arith.
  - intros b Hb. apply wf_ranges_app in Hstore.
    destruct Hstore as (_ & HxB & _). apply wf_ranges_cons in HxB.
    destruct HxB as (_ & _ & HxB). specialize (HxB b Hb). range_arith.
Qed.

(** X3: in a working tree that is an interval store, splitting the stored
    range [s,e) of benefit V at an address strictly inside it with
    [CompLessThan], the allocation succeeding, keeps [s,addr) with benefit
    V and adds [addr,e) with benefit 0 right behind it; the tree is still
    an interval store. *)
Theorem mm_split_ranges_lt (vmalloc_ok : nat -> bool) (t : rb_tree)
    (base : nat) (s e V addr : Z) :
  interval_store t ->
  container_of t base = Some (mk_range s e V) ->
  s < addr < e ->
  vmalloc_ok O = true ->
  exists t',
    mm_split_ranges vmalloc_ok t base addr CompLessThan = Some (true, t')
    /\ inorder t' =
       firstn base (inorder t)
       ++ mk_range s addr V :: mk_range addr e 0 :: skipn (S base) (inorder t)
    /\ interval_store t'.
Proof.
  intros Hstore Hbase Haddr Halloc.
  apply interval_store_wf in Hstore.
  unfold mm_split_ranges. rewrite Hbase. cbn [start end_ benefit].
  replace (e <=? addr) with false by (symmetry; apply Z.leb_gt; lia).
  rewrite Halloc. cbn [negb].
  destruct (split_right_step t base s e V addr Hstore Hbase Haddr) as [Hin Hwf].
  eexists. split; [reflexivity|]. split; [exact Hin|].
  apply interval_store_wf, Hwf.
Qed.

Lemma mm_split_ranges_lt_witness :
  let t := rb_node rb_null (mk_range 0 100 7) rb_null in
  exists t',
    mm_split_ranges (fun _ => true) t O 40 CompLessThan = Some (true, t')
    /\ inorder t' = [mk_range 0 40 7; mk_range 40 100 0]
    /\ interval_store t'.
Proof.
  intros t.
  assert (H : interval_store t).
  { apply interval_store_wf. cbn [t inorder app].
    apply wf_ranges_cons. split; [unfold nonempty; cbn; lia|].
    split; [apply wf_ranges_nil|]. intros b []. }
  exact (mm_split_ranges_lt (fun _ => true) t O 0 100 7 40 H eq_refl
           (conj eq_refl eq_refl) eq_refl).
Defined.

Lemma rb_link_slot_wf (t : rb_tree) (new_range : profile_range) :
  wf_ranges (inorder t) -> nonempty new_range ->
  (forall r, In r (inorder t) -> ranges_overlap new_range r = false) ->
  forall off,
  rb_link_slot t new_range off =
  (Nat.add off
     (List.length (filter (fun r => start r <? start new_range) (inorder t))),
   O).
Proof.
  intros Hwf Hnew. induction t as [|l IHl x r IHr]; intros Hno off;
    cbn [rb_link_slot inorder].
  - cbn. f_equal. lia.
  - cbn [inorder] in Hwf, Hno. apply wf_ranges_app in Hwf.
    destruct Hwf as (Hl & Hxr & Hlxr).
    apply wf_ranges_cons in Hxr. destruct Hxr as (Hx & Hr & Hxb).
    assert (Hox : ranges_overlap new_range x = false)
      by (apply Hno, in_or_app; simpl; auto).
    apply ranges_overlap_false in Hox.
    rewrite filter_app, length_app. cbn [filter].
    destruct (start new_range <? start x) eqn:E1.
    + apply Z.ltb_lt in E1.
      replace (start x <? start new_range) with false
        by (symmetry; apply Z.ltb_ge; lia).
      rewrite IHl; auto.
      2:{ intros b Hb. apply Hno, in_or_app; auto. }
      rewrite (filter_none _ (inorder r)).
      2:{ intros b Hb. specialize (Hxb b Hb). apply Z.ltb_ge. range_arith. }
      cbn [List.length]. f_equal. lia.
    + apply Z.ltb_ge in E1. destruct (start x <? start new_range) eqn:E2.
      * apply Z.ltb_lt in E2. rewrite IHr; auto.
        2:{ intros b Hb. apply Hno, in_or_app; simpl; auto. }
        rewrite (filter_all_true _ (inorder l)).
        2:{ intros a Ha. assert (before a x) by (apply Hlxr; simpl; auto).
            pose proof (wf_ranges_In _ _ Hl Ha). apply Z.ltb_lt. range_arith. }
        cbn [List.length]. rewrite size_inorder. f_equal. lia.
      * apply Z.ltb_ge in E2. range_arith.
Qed.

(** A pointer held across an insert that evicts nothing: the nodes before
    the new one keep their rank, the others move up by one. *)
Lemma node_after_insert_between (t : rb_tree) (A B : list profile_range)
    (new_range : profile_range) (n : nat) :
  inorder t = A ++ B -> wf_ranges (inorder t) -> nonempty new_range ->
  (forall a, In a A -> end_ a <= start new_range) ->
  (forall b, In b B -> end_ new_range <= start b) ->
  node_after_insert t new_range n =
  Some (if (n <? List.length A)%nat then n else S n).
Proof.
  intros Ht Hwf Hnew HA HB.
  assert (Hno : forall r, In r (inorder t) -> ranges_overlap new_range r = false).
  { intros r Hr. rewrite Ht in Hr, Hwf. apply ranges_overlap_false.
    apply wf_ranges_app in Hwf. destruct Hwf as (HwA & HwB & _).
    apply in_app_or in Hr. destruct Hr as [Hr|Hr].
    - specialize (HA r Hr). pose proof (wf_ranges_In _ _ HwA Hr). range_arith.
    - specialize (HB r Hr). range_arith. }
  unfold node_after_insert, node_after_remove, remove_overlapping_ranges.
  rewrite find_first_overlapping_spec by assumption.
  rewrite (first_index_none _ _ Hno).
  unfold node_after_link. rewrite rb_link_slot_wf by assumption.
  cbn [Nat.add]. rewrite Ht, filter_app in *.
  apply wf_ranges_app in Hwf. destruct Hwf as (HwA & HwB & _).
  rewrite (filter_all_true _ A), (filter_none _ B).
  - rewrite app_nil_r, Nat.add_0_r.
    destruct (n <? List.length A)%nat; [reflexivity|]. f_equal. lia.
  - intros b Hb. specialize (HB b Hb). apply Z.ltb_ge. range_arith.
  - intros a Ha. specialize (HA a Ha). pose proof (wf_ranges_In _ _ HwA Ha).
    apply Z.ltb_lt. range_arith.
Qed.

(** The step shared by the splits that cut the head of a range off: the
    range of rank [base] shrinks to [cut,e), [s,cut) is inserted before it
    and the shrunk range has moved up by one rank. *)
Lemma split_left_step (t : rb_tree) (base : nat) (s e V cut : Z) :
  wf_ranges (inorder t) ->
  container_of t base = Some (mk_range s e V) ->
  s < cut < e ->
  let t1 := rb_store t base (mk_range cut e V) in
  inorder (profile_range_insert t1 (mk_range s cut 0)) =
  firstn base (inorder t)
  ++ mk_range s cut 0 :: mk_range cut e V :: skipn (S base) (inorder t)
  /\ wf_ranges (inorder (profile_range_insert t1 (mk_range s cut 0)))
  /\ node_after_insert t1 (mk_range s cut 0) base = Some (S base).
Proof.
  intros Hstore Hbase Hcut t1.
  destruct (container_of_split _ _ _ Hbase) as (Hsplit & Hlen & Hlt).
  set (A := firstn base (inorder t)) in *.
  set (B := skipn (S base) (inorder t)) in *.
  assert (Ht1 : inorder t1 = A ++ mk_range cut e V :: B)
    by (apply inorder_rb_store, Hlt).
  rewrite Hsplit in Hstore.
  assert (Hwf1 : wf_ranges (inorder t1)).
  { rewrite Ht1. apply (wf_ranges_narrow A B (mk_range s e V)); cbn; auto; lia. }
  assert (Hnew : nonempty (mk_range s cut 0)) by (unfold nonempty; cbn; lia).
  assert (HA : forall a, In a A -> end_ a <= start (mk_range s cut 0)).
  { intros a Ha. apply wf_ranges_app in Hstore. destruct Hstore as (_ & _ & HAx).
    assert (H := HAx a (mk_range s e V) Ha (or_introl eq_refl)). range_arith. }
  assert (HB : forall b, In b (mk_range cut e V :: B) ->
                 end_ (mk_range s cut 0) <= start b).
  { intros b [<-|Hb]; cbn; [lia|]. apply wf_ranges_app in Hstore.
    destruct Hstore as (_ & HxB & _). apply wf_ranges_cons in HxB.
    destruct HxB as (_ & _ & HxB). specialize (HxB b Hb). range_arith. }
  split; [|split].
  - rewrite inorder_profile_range_insert by assumption.
    rewrite Ht1. apply insert_spec_between; auto. rewrite <- Ht1. exact Hwf1.
  - apply wf_ranges_profile_range_insert; assumption.
  - rewrite (node_after_insert_between t1 A (mk_range cut e V :: B)); auto.
    rewrite Hlen, Nat.ltb_irrefl. reflexivity.
Qed.

Lemma firstn_length_app {A : Type} (l1 l2 : list A) (k : nat) :
  firstn (List.length l1 + k) (l1 ++ l2) = l1 ++ firstn k l2.
Proof.
  induction l1 as [|x l1 IH]; cbn [List.length Nat.add app]; [reflexivity|].
  rewrite firstn_cons, IH. reflexivity.
Qed.

Lemma skipn_length_app {A : Type} (l1 l2 : list A) (k : nat) :
  skipn (List.length l1 + k) (l1 ++ l2) = skipn k l2.
Proof.
  induction l1 as [|x l1 IH]; cbn [List.length Nat.add app]; [reflexivity|].
  rewrite skipn_cons, IH. reflexivity.
Qed.

(** X4: in a working tree that is an interval store, splitting the stored
    range [s,e) of benefit V that contains [addr] with [CompEquals], the
    allocations succeeding and [addr + PAGE_SIZE] not wrapping, leaves the
    page window [addr, min(e, addr + PAGE_SIZE)) with benefit V, preceded
    by [s,addr) with benefit 0 when [s < addr] and followed by
    [addr + PAGE_SIZE, e) with benefit 0 when [addr + PAGE_SIZE < e]; the
    tree is still an interval store. *)
Theorem mm_split_ranges_eq (vmalloc_ok : nat -> bool) (t : rb_tree)
    (base : nat) (s e V addr : Z) :
  interval_store t ->
  container_of t base = Some (mk_range s e V) ->
  s <= addr < e ->
  0 <= addr -> addr + PAGE_SIZE <= U64_MAX ->
  vmalloc_ok O = true -> vmalloc_ok 1%nat = true ->
  exists t',
    mm_split_ranges vmalloc_ok t base addr CompEquals = Some (true, t')
    /\ inorder t' =
       firstn base (inorder t)
       ++ (if s <? addr then [mk_range s addr 0] else [])
       ++ mk_range addr (Z.min e (addr + PAGE_SIZE)) V
       :: (if addr + PAGE_SIZE <? e then [mk_range (addr + PAGE_SIZE) e 0] else [])
       ++ skipn (S base) (inorder t)
    /\ interval_store t'.
Proof.
  intros Hstore Hbase Haddr Hnn Hwrap Halloc0 Halloc1.
  apply interval_store_wf in Hstore.
  assert (Hpage : u64_add addr PAGE_SIZE = addr + PAGE_SIZE).
  { unfold u64_add, u64. apply Z.mod_small.
    unfold U64_MAX in Hwrap. unfold PAGE_SIZE, PAGE_SHIFT in *. lia. }
  assert (Hpos : 0 < PAGE_SIZE) by (unfold PAGE_SIZE, PAGE_SHIFT; lia).
  destruct (container_of_split _ _ _ Hbase) as (Hsplit & Hlen & Hlt).
  unfold mm_split_ranges. rewrite Hbase. cbn [start end_ benefit].
  rewrite Hpage.
  destruct (s <? addr) eqn:El.
  - (* split on the left *)
    apply Z.ltb_lt in El. rewrite Halloc0. cbn [negb].
    destruct (split_left_step t base s e V addr Hstore Hbase ltac:(lia))
      as (HinL & HwfL & Hnode).
    rewrite Hnode. cbn [start end_ benefit].
    set (tL := profile_range_insert (rb_store t base (mk_range addr e V))
                 (mk_range s addr 0)) in *.
    destruct (addr + PAGE_SIZE <? e) eqn:Er.
    + apply Z.ltb_lt in Er. rewrite Halloc1. cbn [negb].
      assert (HbaseL : container_of tL (S base) = Some (mk_range addr e V)).
      { unfold container_of. rewrite HinL.
        replace (S base) with (List.length (firstn base (inorder t)) + 1)%nat by lia.
        rewrite nth_error_app2 by lia.
        replace (List.length (firstn base (inorder t)) + 1
                 - List.length (firstn base (inorder t)))%nat with 1%nat by lia.
        reflexivity. }
      destruct (split_right_step tL (S base) addr e V (addr + PAGE_SIZE)
                  HwfL HbaseL ltac:(lia)) as [HinR HwfR].
      eexists. split; [reflexivity|]. split; [|apply interval_store_wf, HwfR].
      rewrite HinR, HinL.
      replace (S base) with (List.length (firstn base (inorder t)) + 1)%nat at 1 by lia.
      rewrite firstn_length_app.
      replace (S (S base)) with (List.length (firstn base (inorder t)) + 2)%nat by lia.
      rewrite skipn_length_app. cbn [firstn skipn].
      rewrite Z.min_r by lia. rewrite <- app_assoc. reflexivity.
    + apply Z.ltb_ge in Er.
      eexists. split; [reflexivity|]. split; [|apply interval_store_wf, HwfL].
      rewrite HinL. rewrite Z.min_l by lia. reflexivity.
  - (* nothing to split on the left: the range starts at addr *)
    apply Z.ltb_ge in El. assert (s = addr) by lia. subst s.
    cbn [start end_ benefit].
    destruct (addr + PAGE_SIZE <? e) eqn:Er.
    + apply Z.ltb_lt in Er. rewrite Halloc0. cbn [negb].
      destruct (split_right_step t base addr e V (addr + PAGE_SIZE)
                  Hstore Hbase ltac:(lia)) as [HinR HwfR].
      eexists. split; [reflexivity|]. split; [|apply interval_store_wf, HwfR].
      rewrite HinR. rewrite Z.min_r by lia. reflexivity.
    + apply Z.ltb_ge in Er.
      eexists. split; [reflexivity|]. split; [|apply interval_store_wf, Hstore].
      rewrite Z.min_l by lia. cbn [app]. exact Hsplit.
Qed.

Lemma mm_split_ranges_eq_witness :
  let t := rb_node rb_null (mk_range 0 100000 7) rb_null in
  exists t',
    mm_split_ranges (fun _ => true) t O 8192 CompEquals = Some (true, t')
    /\ inorder t' = [mk_range 0 8192 0; mk_range 8192 12288 7;
                     mk_range 12288 100000 0]
    /\ interval_store t'.
Proof.
  intros t.
  assert (H : interval_store t).
  { apply interval_store_wf. cbn [t inorder app].
    apply wf_ranges_cons. split; [unfold nonempty; cbn; lia|].
    split; [apply wf_ranges_nil|]. intros b []. }
  assert (Hc : 0 <= 8192 < 100000) by lia.
  assert (Hn : 0 <= 8192) by lia.
  assert (Hw : 8192 + PAGE_SIZE <= U64_MAX) by (vm_compute; discriminate).
  destruct (mm_split_ranges_eq (fun _ => true) t O 0 100000 7 8192 H eq_refl
              Hc Hn Hw eq_refl eq_refl) as (t' & H1 & H2 & H3).
  exists t'. split; [exact H1|]. split; [|exact H3].
  rewrite H2. vm_compute. reflexivity.
Defined.

(** ** profile_move, profile_free_all, mm_copy_profile_range *)

Lemma rb_erase_root (l : rb_tree) (x : profile_range) (r : rb_tree) :
  rb_erase (rb_node l x r) (size l) = rb_replace l r.
Proof.
  cbn [rb_erase]. rewrite Nat.ltb_irrefl, Nat.eqb_refl. reflexivity.
Qed.

Lemma size_rb_replace (l r : rb_tree) :
  size (rb_replace l r) = (size l + size r)%nat.
Proof.
  rewrite <- !size_inorder, inorder_rb_replace, length_app. reflexivity.
Qed.

Lemma ranges_overlap_sym (a b : profile_range) :
  ranges_overlap a b = ranges_overlap b a.
Proof. unfold ranges_overlap. apply orb_comm. Qed.

(** The loop of [profile_free_all] ends with an empty tree. *)
Lemma profile_free_all_loop_empty (fuel : nat) (t : rb_tree) :
  (size t <= fuel)%nat -> profile_free_all_loop fuel t = rb_null.
Proof.
  revert t. induction fuel as [|fuel IH]; intros t Hf.
  - destruct t; cbn [size] in Hf; [reflexivity|lia].
  - destruct t as [|l x r]; [reflexivity|].
    cbn [profile_free_all_loop]. rewrite rb_erase_root. apply IH.
    rewrite size_rb_replace. cbn [size] in Hf. lia.
Qed.

Lemma profile_free_all_empty (t : rb_tree) : profile_free_all t = rb_null.
Proof. apply profile_free_all_loop_empty. lia. Qed.

Lemma profile_move_loop_spec (fuel : nat) :
  forall src dst,
  (size src <= fuel)%nat ->
  wf_ranges (inorder src) -> wf_ranges (inorder dst) ->
  fst (profile_move_loop fuel src dst) = rb_null
  /\ wf_ranges (inorder (snd (profile_move_loop fuel src dst)))
  /\ forall r,
       In r (inorder (snd (profile_move_loop fuel src dst))) <->
       In r (inorder src)
       \/ (In r (inorder dst)
           /\ forall x, In x (inorder src) -> ranges_overlap x r = false).
Proof.
  induction fuel as [|fuel IH]; intros src dst Hf Hsrc Hdst.
  - destruct src; cbn [size] in Hf; [|lia]. cbn.
    split; [reflexivity|]. split; [exact Hdst|]. intros r. tauto.
  - destruct src as [|l x rt].
    { cbn. split; [reflexivity|]. split; [exact Hdst|]. intros r. tauto. }
    cbn [profile_move_loop]. rewrite rb_erase_root.
    cbn [inorder] in Hsrc.
    pose proof Hsrc as Hparts. apply wf_ranges_app in Hparts.
    destruct Hparts as (Hl & Hxr & Hlx).
    apply wf_ranges_cons in Hxr. destruct Hxr as (Hx & Hr & Hxb).
    assert (Hsrc1 : wf_ranges (inorder (rb_replace l rt))).
    { rewrite inorder_rb_replace. apply wf_ranges_app. split; [exact Hl|].
      split; [exact Hr|]. intros a b Ha Hb. apply Hlx; simpl; auto. }
    assert (Hdst1 : wf_ranges (inorder (profile_range_insert dst x)))
      by (apply wf_ranges_profile_range_insert; assumption).
    destruct (IH (rb_replace l rt) (profile_range_insert dst x)) as (H1 & H2 & H3);
      auto.
    { rewrite size_rb_replace. cbn [size] in Hf. lia. }
    split; [exact H1|]. split; [exact H2|].
    intros r. rewrite H3. rewrite inorder_rb_replace.
    rewrite inorder_profile_range_insert by assumption.
    rewrite In_insert_spec by exact Hx.
    cbn [inorder]. rewrite !in_app_iff. cbn [In].
    assert (Hdisj : forall y, In y (inorder l) \/ In y (inorder rt) ->
                      ranges_overlap y x = false).
    { intros y [Hy|Hy]; apply ranges_overlap_false.
      - assert (before y x) by (apply Hlx; simpl; auto).
        pose proof (wf_ranges_In _ _ Hl Hy). range_arith.
      - specialize (Hxb y Hy). pose proof (wf_ranges_In _ _ Hr Hy). range_arith. }
    split.
    + intros [[Hin|Hin]|[[->|[Hin Ho]] Hall]]; auto.
      right. split; [exact Hin|].
      intros y Hy. apply in_app_or in Hy. destruct Hy as [Hy|[<-|Hy]]; auto;
        apply Hall, in_or_app; auto.
    + intros [[Hin|[<-|Hin]]|[Hin Hall]]; auto.
      * right. split; [auto|]. intros y Hy. apply Hdisj.
        apply in_app_or in Hy. exact Hy.
      * right. split.
        -- right. split; [exact Hin|]. apply Hall, in_or_app. simpl. auto.
        -- intros y Hy. apply in_app_or in Hy. apply Hall, in_or_app.
           simpl. tauto.
Qed.

(** X5: moving an interval store into another one drains the source,
    leaves the destination an interval store, and the destination then
    holds every range of the source together with those of its own ranges
    that overlap no range of the source. *)
Theorem profile_move_correct (src dst : rb_tree) :
  interval_store src -> interval_store dst ->
  fst (profile_move src dst) = RB_ROOT
  /\ interval_store (snd (profile_move src dst))
  /\ forall r,
       stored (snd (profile_move src dst)) r <->
       stored src r
       \/ (stored dst r
           /\ forall x, stored src x -> ranges_overlap x r = false).
Proof.
  intros Hs Hd. apply interval_store_wf in Hs, Hd.
  destruct (profile_move_loop_spec (size src) src dst (le_n _) Hs Hd)
    as (H1 & H2 & H3).
  split; [exact H1|]. split; [apply interval_store_wf, H2|exact H3].
Qed.

Lemma profile_move_correct_witness :
  let src := rb_node (rb_node rb_null (mk_range 10 20 7) rb_null)
               (mk_range 40 50 8) rb_null in
  let dst := rb_node (rb_node rb_null (mk_range 5 15 1) rb_null)
               (mk_range 18 25 2)
               (rb_node rb_null (mk_range 30 40 3) rb_null) in
  fst (profile_move src dst) = RB_ROOT
  /\ inorder (snd (profile_move src dst))
     = [mk_range 10 20 7; mk_range 30 40 3; mk_range 40 50 8]
  /\ interval_store (snd (profile_move src dst)).
Proof.
  intros src dst.
  assert (Hs : interval_store src).
  { apply interval_store_wf. cbn [src inorder app].
    repeat (apply wf_ranges_cons; split; [unfold nonempty; cbn; lia
      | split; [| intros b Hb; cbn in Hb; unfold before;
                  intuition (subst; cbn; lia)]]).
    apply wf_ranges_nil. }
  assert (Hd : interval_store dst).
  { apply interval_store_wf. cbn [dst inorder app].
    repeat (apply wf_ranges_cons; split; [unfold nonempty; cbn; lia
      | split; [| intros b Hb; cbn in Hb; unfold before;
                  intuition (subst; cbn; lia)]]).
    apply wf_ranges_nil. }
  pose proof (profile_move_correct src dst Hs Hd) as H.
  split; [exact (proj1 H)|]. split; [reflexivity|exact (proj1 (proj2 H))].
Defined.

Lemma profile_range_eta (r : profile_range) :
  mk_range (start r) (end_ r) (benefit r) = r.
Proof. destruct r; reflexivity. Qed.

Lemma copy_profile_ranges_spec (vmalloc_ok : nat -> bool) :
  forall nodes done allocs new_root k,
  inorder new_root = done ->
  wf_ranges (done ++ nodes) ->
  (k <= List.length nodes)%nat ->
  (forall j, (j < k)%nat -> vmalloc_ok (allocs + j)%nat = true) ->
  ((k < List.length nodes)%nat -> vmalloc_ok (allocs + k)%nat = false) ->
  let '(ret, t', _) := copy_profile_ranges vmalloc_ok nodes allocs new_root in
  ret = (if (k <? List.length nodes)%nat then -1 else 0)
  /\ inorder t' = done ++ firstn k nodes.
Proof.
  induction nodes as [|r nodes IH]; intros done allocs new_root k Hdone Hwf Hk Hok Hfail;
    cbn [copy_profile_ranges].
  - cbn [List.length] in *. assert (k = O) by lia. subst k. cbn.
    rewrite app_nil_r. auto.
  - destruct k as [|k].
    + rewrite Nat.add_0_r in Hfail. rewrite Hfail by (cbn; lia). cbn.
      rewrite app_nil_r. auto.
    + assert (Hfirst : vmalloc_ok allocs = true)
        by (rewrite <- (Nat.add_0_r allocs); apply Hok; lia).
      rewrite Hfirst. cbn [negb].
      rewrite profile_range_eta.
      assert (Hins : inorder (profile_range_insert new_root r) = done ++ [r]).
      { assert (Hwd : wf_ranges (inorder new_root)).
        { rewrite Hdone. apply wf_ranges_app in Hwf. tauto. }
        assert (Hr : nonempty r).
        { apply (wf_ranges_In (done ++ r :: nodes)); [exact Hwf|].
          apply in_or_app; simpl; auto. }
        rewrite inorder_profile_range_insert by assumption.
        rewrite Hdone. rewrite <- (app_nil_r done) at 1.
        apply insert_spec_between.
        - rewrite app_nil_r, <- Hdone. exact Hwd.
        - exact Hr.
        - intros a Ha. apply wf_ranges_app in Hwf. destruct Hwf as (_ & _ & H).
          assert (before a r) by (apply H; simpl; auto). range_arith.
        - intros b []. }
      specialize (IH (done ++ [r]) (S allocs) (profile_range_insert new_root r) k
                    Hins).
      rewrite <- app_assoc in IH. cbn [app] in IH.
      specialize (IH Hwf ltac:(cbn [List.length] in Hk; lia)).
      assert (Hok' : forall j, (j < k)%nat -> vmalloc_ok (S allocs + j)%nat = true).
      { intros j Hj. replace (S allocs + j)%nat with (allocs + S j)%nat by lia.
        apply Hok. lia. }
      assert (Hfail' : (k < List.length nodes)%nat ->
                       vmalloc_ok (S allocs + k)%nat = false).
      { intros Hlt. replace (S allocs + k)%nat with (allocs + S k)%nat by lia.
        apply Hfail. cbn [List.length]. lia. }
      specialize (IH Hok' Hfail').
      destruct (copy_profile_ranges vmalloc_ok nodes (S allocs)
                  (profile_range_insert new_root r)) as [[ret t'] n].
      destruct IH as [Hret Hin]. cbv beta iota. split.
      * rewrite Hret. cbn [List.length].
        destruct (k <? List.length nodes)%nat eqn:E;
          [apply Nat.ltb_lt in E | apply Nat.ltb_ge in E].
        -- replace (S k <? S (List.length nodes))%nat with true
             by (symmetry; apply Nat.ltb_lt; lia). reflexivity.
        -- replace (S k <? S (List.length nodes))%nat with false
             by (symmetry; apply Nat.ltb_ge; lia). reflexivity.
      * rewrite Hin, <- app_assoc. reflexivity.
Qed.

(** X6: copying an interval store into an empty tree, the first [k]
    allocations succeeding and the next one, if the store has more than [k]
    ranges, failing, copies exactly the first [k] ranges in order; the call
    returns 0 when that is the whole store and -1 otherwise. *)
Theorem mm_copy_profile_range_correct (vmalloc_ok : nat -> bool)
    (allocs : nat) (old_root : rb_tree) (k : nat) :
  interval_store old_root ->
  (k <= size old_root)%nat ->
  (forall j, (j < k)%nat -> vmalloc_ok (allocs + j)%nat = true) ->
  ((k < size old_root)%nat -> vmalloc_ok (allocs + k)%nat = false) ->
  let '(ret, new_root, _) :=
    mm_copy_profile_range vmalloc_ok allocs old_root RB_ROOT in
  ret = (if (k <? size old_root)%nat then -1 else 0)
  /\ inorder new_root = firstn k (inorder old_root)
  /\ (k = size old_root -> inorder new_root = inorder old_root).
Proof.
  intros Hold Hk Hok Hfail. apply interval_store_wf in Hold.
  unfold mm_copy_profile_range.
  pose proof (copy_profile_ranges_spec vmalloc_ok (inorder old_root) []
                allocs RB_ROOT k eq_refl Hold) as H.
  rewrite size_inorder in H. specialize (H Hk Hok Hfail).
  destruct (copy_profile_ranges vmalloc_ok (inorder old_root) allocs RB_ROOT)
    as [[ret t'] n].
  destruct H as [Hret Hin]. cbn [app] in Hin.
  split; [exact Hret|]. split; [exact Hin|].
  intros ->. rewrite Hin. apply firstn_all2. rewrite size_inorder. lia.
Qed.

Lemma mm_copy_profile_range_correct_witness :
  let old := rb_node (rb_node rb_null (mk_range 0 10 1) rb_null)
               (mk_range 10 20 2)
               (rb_node rb_null (mk_range 30 40 3) rb_null) in
  (let '(ret, new_root, _) :=
     mm_copy_profile_range (fun _ => true) O old RB_ROOT in
   ret = 0 /\ inorder new_root = inorder old)
  /\ (let '(ret, new_root, _) :=
        mm_copy_profile_range (fun n => (n <? 2)%nat) O old RB_ROOT in
      ret = -1 /\ inorder new_root = [mk_range 0 10 1; mk_range 10 20 2]).
Proof.
  intros old.
  assert (H : interval_store old).
  { apply interval_store_wf. cbn [old inorder app].
    repeat (apply wf_ranges_cons; split; [unfold nonempty; cbn; lia
      | split; [| intros b Hb; cbn in Hb; unfold before;
                  intuition (subst; cbn; lia)]]).
    apply wf_ranges_nil. }
  split.
  - pose proof (mm_copy_profile_range_correct (fun _ => true) O old 3 H
                  (le_n _) (fun _ _ => eq_refl)
                  (fun Hlt => match Nat.lt_irrefl _ Hlt with end)) as H3.
    destruct (mm_copy_profile_range (fun _ => true) O old RB_ROOT) as [[ret t'] n].
    destruct H3 as (Hr & _ & Hall). split; [exact Hr|exact (Hall eq_refl)].
  - assert (Hok : forall j, (j < 2)%nat -> (0 + j <? 2)%nat = true).
    { intros j Hj. apply Nat.ltb_lt. lia. }
    pose proof (mm_copy_profile_range_correct (fun n => (n <? 2)%nat) O old 2 H
                  ltac:(cbn; lia) Hok (fun _ => eq_refl)) as H2.
    destruct (mm_copy_profile_range (fun n => (n <? 2)%nat) O old RB_ROOT)
      as [[ret t'] n].
    destruct H2 as (Hr & Hin & _). split; [exact Hr|exact Hin].
Defined.

(** ** The registry of profiles *)

Lemma find_filter_proc_by_pid_pid (procs : list mmap_filter_proc) (p : Z)
    (proc : mmap_filter_proc) :
  find_filter_proc_by_pid procs p = Some proc -> pid proc = p.
Proof.
  induction procs as [|x procs IH]; cbn [find_filter_proc_by_pid]; [discriminate|].
  destruct (pid x =? p) eqn:E; [|exact IH].
  intros H. inversion H; subst. apply Z.eqb_eq, E.
Qed.

Lemma find_filter_proc_by_pid_app (procs : list mmap_filter_proc)
    (proc : mmap_filter_proc) (q : Z) :
  find_filter_proc_by_pid (procs ++ [proc]) q =
  match find_filter_proc_by_pid procs q with
  | Some x => Some x
  | None => if pid proc =? q then Some proc else None
  end.
Proof.
  induction procs as [|x procs IH]; cbn [find_filter_proc_by_pid app].
  - reflexivity.
  - destruct (pid x =? q); [reflexivity|exact IH].
Qed.

Lemma find_filter_proc_by_pid_none (procs : list mmap_filter_proc) (p : Z) :
  find_filter_proc_by_pid procs p = None <-> ~ In p (map pid procs).
Proof.
  induction procs as [|x procs IH]; cbn [find_filter_proc_by_pid map In].
  - tauto.
  - destruct (pid x =? p) eqn:E.
    + apply Z.eqb_eq in E. split; [discriminate|]. intros H. exfalso. auto.
    + apply Z.eqb_neq in E. rewrite IH. tauto.
Qed.

Lemma find_list_del_proc_other (procs : list mmap_filter_proc) (p q : Z) :
  q <> p ->
  find_filter_proc_by_pid (list_del_proc procs p) q
  = find_filter_proc_by_pid procs q.
Proof.
  intros Hq. induction procs as [|x procs IH];
    cbn [list_del_proc find_filter_proc_by_pid]; [reflexivity|].
  destruct (pid x =? p) eqn:E.
  - apply Z.eqb_eq in E.
    replace (pid x =? q) with false by (symmetry; apply Z.eqb_neq; lia).
    reflexivity.
  - cbn [find_filter_proc_by_pid]. destruct (pid x =? q); [reflexivity|exact IH].
Qed.

Lemma map_pid_list_del_proc (procs : list mmap_filter_proc) (p : Z) :
  NoDup (map pid procs) ->
  NoDup (map pid (list_del_proc procs p))
  /\ ~ In p (map pid (list_del_proc procs p))
  /\ forall q, In q (map pid (list_del_proc procs p)) -> In q (map pid procs).
Proof.
  induction procs as [|x procs IH]; cbn [list_del_proc map]; intros Hnd.
  - split; [constructor|]. split; auto.
  - inversion Hnd as [|? ? Hx Hnd']; subst.
    destruct (pid x =? p) eqn:E.
    + apply Z.eqb_eq in E. subst p. split; [exact Hnd'|].
      split; [exact Hx|]. intros q Hq. right. exact Hq.
    + apply Z.eqb_neq in E. destruct (IH Hnd') as (H1 & H2 & H3).
      cbn [map]. split; [|split].
      * constructor; [|exact H1]. intros Hin. apply Hx, H3, Hin.
      * intros [Hin|Hin]; [congruence|exact (H2 Hin)].
      * intros q [<-|Hq]; [left; reflexivity|right; apply H3, Hq].
Qed.

(** X7: when a process exits, the profiles of all other processes stay as
    they are, and if the registry holds at most one profile per pid, the
    exiting pid has no profile afterwards and the registry still holds at
    most one profile per pid. *)
Theorem mm_profile_check_exiting_proc_correct
    (procs : list mmap_filter_proc) (p : Z) :
  (forall q, q <> p ->
     find_filter_proc_by_pid (mm_profile_check_exiting_proc procs p) q
     = find_filter_proc_by_pid procs q)
  /\ (NoDup (map pid procs) ->
      find_filter_proc_by_pid (mm_profile_check_exiting_proc procs p) p = None
      /\ NoDup (map pid (mm_profile_check_exiting_proc procs p))).
Proof.
  unfold mm_profile_check_exiting_proc.
  destruct (find_filter_proc_by_pid procs p) as [proc|] eqn:Ef.
  - split.
    + intros q Hq. apply find_list_del_proc_other, Hq.
    + intros Hnd. destruct (map_pid_list_del_proc procs p Hnd) as (H1 & H2 & _).
      split; [apply find_filter_proc_by_pid_none, H2|exact H1].
  - split; [reflexivity|]. intros Hnd. split; [exact Ef|exact Hnd].
Qed.

Lemma mm_profile_check_exiting_proc_correct_witness :
  let procs := [mk_proc 7 [] rb_null rb_null;
                mk_proc 9 [] (rb_node rb_null (mk_range 0 10 1) rb_null) rb_null] in
  find_filter_proc_by_pid (mm_profile_check_exiting_proc procs 9) 9 = None
  /\ find_filter_proc_by_pid (mm_profile_check_exiting_proc procs 9) 7
     = Some (mk_proc 7 [] rb_null rb_null).
Proof.
  intros procs.
  assert (Hnd : NoDup (map pid procs)).
  { cbn. constructor; [intros [H|[]]; discriminate|].
    constructor; [intros []|constructor]. }
  pose proof (mm_profile_check_exiting_proc_correct procs 9) as [H1 H2].
  split; [exact (proj1 (H2 Hnd))|].
  rewrite (H1 7) by discriminate. reflexivity.
Defined.

Lemma mmap_comparison_eta (c : mmap_comparison) :
  mk_comparison (quant c) (comp c) (val c) = c.
Proof. destruct c; reflexivity. Qed.

Lemma copy_comparisons_same (vmalloc_ok : nat -> bool)
    (cs : list mmap_comparison) :
  forall allocs cs' n,
  copy_comparisons vmalloc_ok cs allocs = Some (cs', n) -> cs' = cs.
Proof.
  induction cs as [|c cs IH]; intros allocs cs' n; cbn [copy_comparisons].
  - intros H. inversion H. reflexivity.
  - destruct (vmalloc_ok allocs); cbn [negb]; [|discriminate].
    destruct (copy_comparisons vmalloc_ok cs (S allocs)) as [[cs0 n0]|] eqn:E;
      [|discriminate].
    intros H. inversion H; subst. rewrite mmap_comparison_eta.
    f_equal. exact (IH _ _ _ E).
Qed.

Lemma copy_filters_same (vmalloc_ok : nat -> bool) (fs : list mmap_filter) :
  forall allocs fs' n,
  copy_filters vmalloc_ok fs allocs = Some (fs', n) -> fs' = fs.
Proof.
  induction fs as [|f fs IH]; intros allocs fs' n; cbn [copy_filters].
  - intros H. inversion H. reflexivity.
  - destruct (vmalloc_ok allocs); cbn [negb]; [|discriminate].
    destruct (copy_comparisons vmalloc_ok (comparisons f) (S allocs))
      as [[cs0 n0]|] eqn:Ec; [|discriminate].
    destruct (copy_filters vmalloc_ok fs n0) as [[fs0 n1]|] eqn:Ef; [|discriminate].
    intros H. inversion H; subst.
    rewrite (copy_comparisons_same _ _ _ _ _ Ec), (IH _ _ _ Ef).
    destruct f; reflexivity.
Qed.

Lemma copy_comparisons_ok (vmalloc_ok : nat -> bool)
    (cs : list mmap_comparison) :
  (forall k, vmalloc_ok k = true) ->
  forall allocs, exists n, copy_comparisons vmalloc_ok cs allocs = Some (cs, n).
Proof.
  intros Hok. induction cs as [|c cs IH]; intros allocs; cbn [copy_comparisons].
  - eexists. reflexivity.
  - rewrite Hok. cbn [negb]. destruct (IH (S allocs)) as [n Hn]. rewrite Hn.
    rewrite mmap_comparison_eta. eexists. reflexivity.
Qed.

Lemma copy_filters_ok (vmalloc_ok : nat -> bool) (fs : list mmap_filter) :
  (forall k, vmalloc_ok k = true) ->
  forall allocs, exists n, copy_filters vmalloc_ok fs allocs = Some (fs, n).
Proof.
  intros Hok. induction fs as [|f fs IH]; intros allocs; cbn [copy_filters].
  - eexists. reflexivity.
  - rewrite Hok. cbn [negb].
    destruct (copy_comparisons_ok vmalloc_ok (comparisons f) Hok (S allocs))
      as [n Hn]. rewrite Hn.
    destruct (IH n) as [n' Hn']. rewrite Hn'.
    destruct f. eexists. reflexivity.
Qed.

Lemma copy_profile_ranges_zero (vmalloc_ok : nat -> bool) :
  forall nodes done allocs new_root t' n,
  inorder new_root = done ->
  wf_ranges (done ++ nodes) ->
  copy_profile_ranges vmalloc_ok nodes allocs new_root = (0, t', n) ->
  inorder t' = done ++ nodes.
Proof.
  induction nodes as [|r nodes IH]; intros done allocs new_root t' n Hdone Hwf;
    cbn [copy_profile_ranges].
  - intros H. inversion H; subst. rewrite app_nil_r. reflexivity.
  - destruct (vmalloc_ok allocs); cbn [negb]; [|discriminate].
    rewrite profile_range_eta. intros H.
    assert (Hins : inorder (profile_range_insert new_root r) = done ++ [r]).
    { assert (Hwd : wf_ranges (inorder new_root)).
      { rewrite Hdone. apply wf_ranges_app in Hwf. tauto. }
      assert (Hr : nonempty r).
      { apply (wf_ranges_In (done ++ r :: nodes)); [exact Hwf|].
        apply in_or_app; simpl; auto. }
      rewrite inorder_profile_range_insert by assumption.
      rewrite Hdone. rewrite <- (app_nil_r done) at 1.
      apply insert_spec_between.
      - rewrite app_nil_r, <- Hdone. exact Hwd.
      - exact Hr.
      - intros a Ha. apply wf_ranges_app in Hwf. destruct Hwf as (_ & _ & Hb).
        assert (before a r) by (apply Hb; simpl; auto). range_arith.
      - intros b []. }
    assert (Hwf' : wf_ranges ((done ++ [r]) ++ nodes))
      by (rewrite <- app_assoc; exact Hwf).
    rewrite (IH (done ++ [r]) _ _ _ _ Hins Hwf' H), <- app_assoc.
    reflexivity.
Qed.

Lemma copy_profile_ranges_ok (vmalloc_ok : nat -> bool) :
  (forall k, vmalloc_ok k = true) ->
  forall nodes allocs new_root,
  exists t' n, copy_profile_ranges vmalloc_ok nodes allocs new_root = (0, t', n).
Proof.
  intros Hok. induction nodes as [|r nodes IH]; intros allocs new_root;
    cbn [copy_profile_ranges].
  - eexists. eexists. reflexivity.
  - rewrite Hok. cbn [negb]. apply IH.
Qed.

(** X8: a fork either leaves the registry as it was (the old pid has no
    profile, or an allocation failed) or appends exactly one profile for
    the new pid, whose filters are those of the old profile and whose two
    trees hold the ranges of the old trees; it appends when the old
    profile exists and every allocation succeeds.  Profiles that were
    registered before are seen as before, so a new pid that already had a
    profile keeps seeing the old one. *)
Theorem mm_copy_profile_correct (vmalloc_ok : nat -> bool)
    (procs : list mmap_filter_proc) (old_pid new_pid : Z)
    (proc : mmap_filter_proc) :
  find_filter_proc_by_pid procs old_pid = Some proc ->
  interval_store (hp_ranges_root proc) ->
  interval_store (eager_ranges_root proc) ->
  let procs' := mm_copy_profile vmalloc_ok procs old_pid new_pid in
  (procs' = procs
   \/ exists copy,
        procs' = procs ++ [copy]
        /\ pid copy = new_pid
        /\ filters copy = filters proc
        /\ inorder (hp_ranges_root copy) = inorder (hp_ranges_root proc)
        /\ inorder (eager_ranges_root copy) = inorder (eager_ranges_root proc))
  /\ ((forall k, vmalloc_ok k = true) -> procs' <> procs)
  /\ (forall q x, find_filter_proc_by_pid procs q = Some x ->
        find_filter_proc_by_pid procs' q = Some x)
  /\ (forall q, q <> new_pid ->
        find_filter_proc_by_pid procs' q = find_filter_proc_by_pid procs q).
Proof.
  intros Hfind Hhp Heager. apply interval_store_wf in Hhp, Heager. cbv zeta.
  assert (Hshape :
    mm_copy_profile vmalloc_ok procs old_pid new_pid = procs
    \/ exists copy,
         mm_copy_profile vmalloc_ok procs old_pid new_pid = procs ++ [copy]
         /\ pid copy = new_pid
         /\ filters copy = filters proc
         /\ inorder (hp_ranges_root copy) = inorder (hp_ranges_root proc)
         /\ inorder (eager_ranges_root copy) = inorder (eager_ranges_root proc)).
  { unfold mm_copy_profile, mm_copy_profile_range. rewrite Hfind.
    destruct (vmalloc_ok O); cbn [negb]; [|auto].
    destruct (copy_filters vmalloc_ok (filters proc) 1) as [[fs n1]|] eqn:Ef; [|auto].
    destruct (copy_profile_ranges vmalloc_ok (inorder (hp_ranges_root proc)) n1 RB_ROOT)
      as [[ret hp] n2] eqn:Eh.
    destruct (ret =? 0) eqn:Er; cbn [negb]; [|auto].
    apply Z.eqb_eq in Er. subst ret.
    destruct (copy_profile_ranges vmalloc_ok (inorder (eager_ranges_root proc)) n2 RB_ROOT)
      as [[ret eager] n3] eqn:Ee.
    destruct (ret =? 0) eqn:Er; cbn [negb]; [|auto].
    apply Z.eqb_eq in Er. subst ret.
    right. eexists. split; [reflexivity|]. cbn [pid filters hp_ranges_root eager_ranges_root].
    split; [reflexivity|]. split; [exact (copy_filters_same _ _ _ _ _ Ef)|].
    split.
    - exact (copy_profile_ranges_zero vmalloc_ok _ [] _ RB_ROOT _ _ eq_refl Hhp Eh).
    - exact (copy_profile_ranges_zero vmalloc_ok _ [] _ RB_ROOT _ _ eq_refl
               Heager Ee). }
  split; [exact Hshape|]. split; [|split].
  - intros Hok. unfold mm_copy_profile, mm_copy_profile_range. rewrite Hfind.
    rewrite Hok. cbn [negb].
    destruct (copy_filters_ok vmalloc_ok (filters proc) Hok 1) as [n1 Hn1].
    rewrite Hn1.
    destruct (copy_profile_ranges_ok vmalloc_ok Hok
                (inorder (hp_ranges_root proc)) n1 RB_ROOT) as (hp & n2 & Hh).
    rewrite Hh. cbn [Z.eqb negb].
    destruct (copy_profile_ranges_ok vmalloc_ok Hok
                (inorder (eager_ranges_root proc)) n2 RB_ROOT) as (eg & n3 & He).
    rewrite He. cbn [Z.eqb negb].
    intros Heq. apply (f_equal (@List.length _)) in Heq.
    rewrite length_app in Heq. cbn [List.length] in Heq. lia.
  - intros q x Hq. destruct Hshape as [->|(copy & -> & _)]; [exact Hq|].
    rewrite find_filter_proc_by_pid_app, Hq. reflexivity.
  - intros q Hq. destruct Hshape as [->|(copy & -> & Hpid & _)]; [reflexivity|].
    rewrite find_filter_proc_by_pid_app.
    destruct (find_filter_proc_by_pid procs q); [reflexivity|].
    replace (pid copy =? q) with false by (symmetry; apply Z.eqb_neq; lia).
    reflexivity.
Qed.

Lemma mm_copy_profile_correct_witness :
  let old := mk_proc 7 [mk_filter SectionMmap PolicyHugePage 16
                          [mk_comparison QuantLen CompGreaterThan 4096]]
               (rb_node rb_null (mk_range 0 4096 16) rb_null) rb_null in
  mm_copy_profile (fun _ => true) [old] 7 8 <> [old]
  /\ find_filter_proc_by_pid (mm_copy_profile (fun _ => true) [old] 7 8) 7
     = Some old
  /\ find_filter_proc_by_pid (mm_copy_profile (fun n => (n <? 2)%nat) [old] 7 8) 8
     = None.
Proof.
  intros old.
  assert (Hhp : interval_store (hp_ranges_root old)).
  { apply interval_store_wf. cbn.
    apply wf_ranges_cons. split; [unfold nonempty; cbn; lia|].
    split; [apply wf_ranges_nil|]. intros b []. }
  assert (Heg : interval_store (eager_ranges_root old)).
  { apply interval_store_wf. cbn. apply wf_ranges_nil. }
  pose proof (mm_copy_profile_correct (fun _ => true) [old] 7 8 old eq_refl
                Hhp Heg) as (_ & H2 & H3 & _).
  split; [exact (H2 (fun _ => eq_refl))|].
  split; [exact (H3 7 old eq_refl)|reflexivity].
Defined.

(** ** The sysfs files *)

(** X9: whatever is written to the [enabled] file, the mode afterwards is
    0 or 1: it is the number written when that is 0 or 1 (the call then
    returns the byte count), and 0 for a number out of range (the call
    returns -EINVAL) or text that is no number.  So after a write
    [mm_decide] never reaches its [BUG()], and the estimator is on exactly
    in mode 1. *)
Theorem enabled_store_mode (kstrtoint : string -> Z + Z) (st : econ_state)
    (buf : string) (count : Z) (c : mm_cost_delta) :
  let st' := fst (enabled_store kstrtoint st buf count) in
  let ret := snd (enabled_store kstrtoint st buf count) in
  (mm_econ_mode st' = 0 \/ mm_econ_mode st' = 1)
  /\ (forall mode, kstrtoint buf = inr mode -> 0 <= mode <= 1 ->
        mm_econ_mode st' = mode /\ ret = count)
  /\ (forall mode, kstrtoint buf = inr mode -> ~ 0 <= mode <= 1 ->
        mm_econ_mode st' = 0 /\ ret = - EINVAL)
  /\ (forall err, kstrtoint buf = inl err -> mm_econ_mode st' = 0 /\ ret = err)
  /\ snd (mm_decide st' c) <> None
  /\ (mm_econ_is_on st' = true <-> mm_econ_mode st' = 1).
Proof.
  cbv zeta. unfold enabled_store.
  destruct (kstrtoint buf) as [err|mode] eqn:Ek.
  - cbn. repeat split; auto; try discriminate; try congruence.
    all: intros; try congruence; try discriminate.
  - destruct ((0 <=? mode) && (mode <=? 1)) eqn:E.
    + apply andb_true_iff in E. destruct E as [E1 E2].
      apply Z.leb_le in E1. apply Z.leb_le in E2.
      assert (Hm : mode = 0 \/ mode = 1) by lia.
      cbn [fst snd set_mm_econ_mode mm_econ_mode].
      split; [exact Hm|]. split; [intros m Hm' _; inversion Hm'; auto|].
      split; [intros m Hm' Hno; inversion Hm'; subst; lia|].
      split; [intros err Herr; discriminate|].
      unfold mm_decide, mm_econ_is_on. cbn [mm_econ_mode snd fst].
      destruct Hm as [-> | ->]; cbn; split; try discriminate;
        split; congruence.
    + apply andb_false_iff in E. rewrite Z.leb_gt, Z.leb_gt in E.
      cbn [fst snd set_mm_econ_mode mm_econ_mode].
      split; [auto|]. split; [intros m Hm' Hr; inversion Hm'; subst; lia|].
      split; [intros m Hm' _; auto|].
      split; [intros err Herr; discriminate|].
      cbn. split; [discriminate|]. split; congruence.
Qed.

(** ** The estimator and its statistics *)


(** The dispatch of [mm_estimate_changes] before the statistics are
    recorded: it returns, and what it may change of the state is the log
    and the prezeroing counter. *)
Lemma mm_estimate_changes_effect (env : estimator_env) (st : econ_state)
    (a : mm_action) (c : mm_cost_delta) :
  exists st1 c1,
    mm_estimate_changes env st a c = Some (record_estimate st1 c1, c1)
    /\ mm_econ_num_estimates st1 = mm_econ_num_estimates st
    /\ mm_econ_cost st1 = mm_econ_cost st
    /\ mm_econ_benefit st1 = mm_econ_benefit st
    /\ mm_econ_mode st1 = mm_econ_mode st
    /\ mm_econ_debugging_mode st1 = mm_econ_debugging_mode st
    /\ mm_econ_contention_ms st1 = mm_econ_contention_ms st
    /\ mm_econ_freq_mhz st1 = mm_econ_freq_mhz st
    /\ mm_econ_num_decisions st1 = mm_econ_num_decisions st
    /\ mm_econ_num_decisions_yes st1 = mm_econ_num_decisions_yes st
    /\ mm_econ_num_hp_promotions st1 = mm_econ_num_hp_promotions st
    /\ mm_econ_vmalloc_bytes st1 = mm_econ_vmalloc_bytes st
    /\ mm_econ_num_async_compaction st1 = mm_econ_num_async_compaction st
    /\ mm_econ_num_async_prezeroing st1 =
       (if match action a with MM_ACTION_RUN_PREZEROING => true | _ => false end
           && (cost c1 <? cost_benefit c1)
        then u64_add (mm_econ_num_async_prezeroing st) 1
        else mm_econ_num_async_prezeroing st).
Proof.
  unfold mm_estimate_changes, mm_estimate_daemon_cost.
  destruct (action a) eqn:Ea.
  all: try (eexists; eexists; split; [reflexivity|];
            repeat match goal with |- _ /\ _ => split end; reflexivity).
  - (* defrag: the benefit is 0, the counter cannot move *)
    destruct (load_int env <? num_online_cpus env);
      eexists; eexists; (split; [reflexivity|]);
      repeat match goal with |- _ /\ _ => split end; reflexivity.
  - destruct (load_int env <? num_online_cpus env);
      eexists; eexists; (split; [reflexivity|]);
      repeat match goal with |- _ /\ _ => split end; reflexivity.
  - destruct (load_int env <? num_online_cpus env).
    + set (c3 := mm_estimate_async_prezeroing_benefit env a
                   (mm_estimate_async_prezeroing_lock_contention_cost st a
                      (set_cost c 0))).
      exists (if cost c3 <? cost_benefit c3 then count_async_prezeroing st else st), c3.
      split; [reflexivity|].
      destruct (cost c3 <? cost_benefit c3);
        repeat match goal with |- _ /\ _ => split end; reflexivity.
    + set (c3 := mm_estimate_async_prezeroing_benefit env a
                   (mm_estimate_async_prezeroing_lock_contention_cost st a
                      (set_cost c (u64_mul 1000000 (prezero_n a))))).
      exists (if cost c3 <? cost_benefit c3 then count_async_prezeroing st else st), c3.
      split; [reflexivity|].
      destruct (cost c3 <? cost_benefit c3);
        repeat match goal with |- _ /\ _ => split end; reflexivity.
Qed.

(** X10: every estimate returns (the [BUG()] of the daemon cost is never
    reached), counts one estimate and records the returned cost and
    benefit in the two histograms.  The mode, the tunables, the decision
    and promotion counters and the byte counter are left alone; the
    compaction counter never moves, and the prezeroing counter moves only
    for a prezeroing action whose returned cost is below its benefit. *)
Theorem mm_estimate_changes_statistics (env : estimator_env) (st : econ_state)
    (a : mm_action) (c : mm_cost_delta) :
  exists st' c',
    mm_estimate_changes env st a c = Some (st', c')
    /\ mm_econ_num_estimates st' = u64_add (mm_econ_num_estimates st) 1
    /\ mm_econ_cost st' = cost c' :: mm_econ_cost st
    /\ mm_econ_benefit st' = cost_benefit c' :: mm_econ_benefit st
    /\ mm_econ_mode st' = mm_econ_mode st
    /\ mm_econ_debugging_mode st' = mm_econ_debugging_mode st
    /\ mm_econ_contention_ms st' = mm_econ_contention_ms st
    /\ mm_econ_freq_mhz st' = mm_econ_freq_mhz st
    /\ mm_econ_num_decisions st' = mm_econ_num_decisions st
    /\ mm_econ_num_decisions_yes st' = mm_econ_num_decisions_yes st
    /\ mm_econ_num_hp_promotions st' = mm_econ_num_hp_promotions st
    /\ mm_econ_vmalloc_bytes st' = mm_econ_vmalloc_bytes st
    /\ mm_econ_num_async_compaction st' = mm_econ_num_async_compaction st
    /\ mm_econ_num_async_prezeroing st' =
       (if match action a with MM_ACTION_RUN_PREZEROING => true | _ => false end
           && (cost c' <? cost_benefit c')
        then u64_add (mm_econ_num_async_prezeroing st) 1
        else mm_econ_num_async_prezeroing st).
Proof.
  destruct (mm_estimate_changes_effect env st a c)
    as (st1 & c1 & Hr & H1 & H2 & H3 & H4 & H5 & H6 & H7 & H8 & H9 & H10
        & H11 & H12 & H13).
  exists (record_estimate st1 c1), c1.
  split; [exact Hr|].
  rewrite <- H1, <- H2, <- H3, <- H4, <- H5, <- H6, <- H7, <- H8, <- H9,
    <- H10, <- H11, <- H12, <- H13.
  unfold record_estimate.
  destruct (mm_econ_debugging_mode st1 =? 2);
    repeat match goal with |- _ /\ _ => split end; reflexivity.
Qed.

(** ** The promotion estimate *)

Lemma promote_cost_eq (env : estimator_env) (a : mm_action)
    (c : mm_cost_delta) :
  cost (mm_estimate_huge_page_promote_cost_benefit env a c)
  = promote_cost (have_free_huge_pages env).
Proof.
  unfold mm_estimate_huge_page_promote_cost_benefit, promote_cost.
  destruct (have_free_huge_pages env); vm_compute; reflexivity.
Qed.

Lemma promote_cost_nonneg (fhps : free_huge_page_status) :
  0 <= promote_cost fhps.
Proof. destruct fhps; vm_compute; discriminate. Qed.

(** X11: a promotion of the current process, estimated from its profile
    (no TLB miss estimator installed) and then decided in mode 1, is
    approved exactly when a stored range of the process's huge page
    profile contains the address and has a benefit above the promotion
    cost. *)
Theorem promotion_decided_from_profile (env : estimator_env)
    (st : econ_state) (a : mm_action) (c : mm_cost_delta)
    (proc : mmap_filter_proc) :
  action a = MM_ACTION_PROMOTE_HUGE ->
  tlb_miss_est_fn env = None ->
  find_filter_proc_by_pid (filter_procs env) (current_tgid env) = Some proc ->
  interval_store (hp_ranges_root proc) ->
  mm_econ_mode st = 1 ->
  exists st' c',
    mm_estimate_changes env st a c = Some (st', c')
    /\ cost c' = promote_cost (have_free_huge_pages env)
    /\ (snd (mm_decide st' c') = Some true <->
        exists r, stored (hp_ranges_root proc) r
                  /\ start r <= address a < end_ r
                  /\ promote_cost (have_free_huge_pages env) < benefit r).
Proof.
  intros Ha Htlb Hproc Hstore Hmode.
  apply interval_store_wf in Hstore.
  unfold mm_estimate_changes. rewrite Ha.
  eexists; eexists. split; [reflexivity|].
  split; [apply promote_cost_eq|].
  assert (Hm : mm_econ_mode
                 (record_estimate st
                    (mm_estimate_huge_page_promote_cost_benefit env a c)) = 1).
  { unfold record_estimate.
    destruct (mm_econ_debugging_mode st =? 2); exact Hmode. }
  unfold mm_decide. rewrite Hm.
  change (1 =? 0) with false. change (1 =? 1) with true. cbn [snd].
  rewrite promote_cost_eq.
  assert (Hb : cost_benefit (mm_estimate_huge_page_promote_cost_benefit env a c)
               = match profile_search (hp_ranges_root proc) (address a) with
                 | Some r => benefit r
                 | None => 0
                 end).
  { unfold mm_estimate_huge_page_promote_cost_benefit, compute_hpage_benefit,
      compute_hpage_benefit_from_profile.
    rewrite Htlb, Hproc. reflexivity. }
  rewrite Hb.
  pose proof (profile_search_wf (hp_ranges_root proc) (address a) Hstore) as Hs.
  pose proof (promote_cost_nonneg (have_free_huge_pages env)) as Hnn.
  unfold stored.
  destruct (profile_search (hp_ranges_root proc) (address a)) as [r0|].
  - destruct Hs as [Hin Hc]. split.
    + intros E. exists r0. split; [exact Hin|]. split; [exact Hc|].
      apply Z.ltb_lt. injection E as E. exact E.
    + intros (r & Hr & Hcr & Hlt).
      assert (r0 = r)
        by (apply (wf_ranges_unique_container
                     (inorder (hp_ranges_root proc)) r0 r (address a)); auto).
      subst r. f_equal. apply Z.ltb_lt. exact Hlt.
  - split.
    + intros E. exfalso. injection E as E. apply Z.ltb_lt in E. lia.
    + intros (r & Hr & Hcr & _). exfalso. exact (Hs r Hr Hcr).
Qed.

Lemma promotion_decided_from_profile_witness :
  let proc := mk_proc 7 []
                (rb_node rb_null (mk_range 4096 8192 300000) rb_null) RB_ROOT in
  let env := mk_env fhps_free None 4 1 0 7 [proc] true in
  let st := state_with_mode 1 in
  let a := mk_action MM_ACTION_PROMOTE_HUGE 5000 0 0 in
  let c := mk_cost 0 0 (ExtraWord 0) in
  exists st' c',
    mm_estimate_changes env st a c = Some (st', c')
    /\ cost c' = 200000
    /\ snd (mm_decide st' c') = Some true.
Proof.
  intros proc env st a c.
  assert (Hstore : interval_store (hp_ranges_root proc)).
  { apply interval_store_wf. cbn [proc hp_ranges_root inorder app].
    repeat (apply wf_ranges_cons; split; [unfold nonempty; cbn; lia
      | split; [| intros b Hb; cbn in Hb; unfold before;
                  intuition (subst; cbn; lia)]]).
    apply wf_ranges_nil. }
  destruct (promotion_decided_from_profile env st a c proc
              eq_refl eq_refl eq_refl Hstore eq_refl)
    as (st' & c' & He & Hc & Hd).
  exists st', c'. split; [exact He|]. split; [exact Hc|].
  apply Hd. exists (mk_range 4096 8192 300000).
  split; [left; reflexivity|]. cbn. lia.
Defined.

(** ** The eager paging estimate *)

(** [CompGreaterThan] at node level: the node returned is the first one
    whose range ends above [addr]. *)
Lemma profile_find_first_node_gt (t : rb_tree) (addr : Z) :
  wf_ranges (inorder t) ->
  match profile_find_first_node t addr CompGreaterThan with
  | Some n => exists A r B,
      inorder t = A ++ r :: B /\ n = List.length A /\ addr < end_ r
      /\ forall h, In h A -> end_ h <= addr
  | None => forall h, In h (inorder t) -> end_ h <= addr
  end.
Proof.
  intros Hwf. unfold profile_find_first_node.
  pose proof (find_any_range_gt t addr Hwf O) as Hany.
  destruct (find_any_range t addr CompGreaterThan O) as [n|]; [|exact Hany].
  destruct Hany as (k & x & -> & Hk & Hx). cbn [Nat.add].
  destruct (nth_error_split_at _ _ _ Hk) as [Hsplit Hlen].
  assert (Hfirst : firstn (S k) (inorder t) = firstn k (inorder t) ++ [x]).
  { rewrite Hsplit at 1. rewrite firstn_app, Hlen.
    rewrite firstn_all2 by lia.
    replace (S k - k)%nat with 1%nat by lia. reflexivity. }
  rewrite Hfirst, rev_app_distr. cbn [rev app walk_prev].
  replace (end_ x <=? addr) with false by (symmetry; apply Z.leb_gt; exact Hx).
  destruct (walk_prev_spec addr (rev (firstn k (inorder t)))
              (skipn (S k) (inorder t)) x Hx)
    as (A & r & B & Heq & Hw & Hr & HA).
  rewrite length_rev, Hlen in Hw. rewrite Hw.
  rewrite rev_involutive, <- Hsplit in Heq.
  exists A, r, B. split; [exact Heq|]. split; [reflexivity|].
  split; [exact Hr|].
  intros h Hin. rewrite Heq in Hwf.
  destruct HA as [->|(A' & h' & -> & Hh)]; [destruct Hin|].
  apply in_app_or in Hin. destruct Hin as [Hin|[<-|[]]]; [|lia].
  rewrite <- !app_assoc in Hwf. cbn [app] in Hwf.
  apply wf_ranges_app in Hwf. destruct Hwf as (HA' & Hh' & HA'h).
  assert (before h h') by (apply HA'h; simpl; auto).
  apply wf_ranges_cons in Hh'. destruct Hh' as (Hhn & _ & _).
  range_arith.
Qed.

(** From a node whose range ends above [s] on, the scan of
    [compute_eager_page_benefit] collects the candidates of the window. *)
Lemma eager_ranges_filter (s e c : Z) :
  forall l, wf_ranges l ->
  (forall r, In r l -> s < end_ r) ->
  eager_ranges l s e c = filter (eager_candidate s e c) l.
Proof.
  induction l as [|x l IH]; intros Hwf Hs; [reflexivity|].
  apply wf_ranges_cons in Hwf. destruct Hwf as (Hx & Hl & Hxb).
  assert (Hsx : s < end_ x) by (apply Hs; simpl; auto).
  cbn [eager_ranges filter]. unfold eager_candidate at 1.
  replace (end_ x <=? s) with false by (symmetry; apply Z.leb_gt; exact Hsx).
  replace (s <? end_ x) with true by (symmetry; apply Z.ltb_lt; exact Hsx).
  cbn [orb andb].
  destruct (e <=? start x) eqn:E.
  - apply Z.leb_le in E.
    replace (start x <? e) with false by (symmetry; apply Z.ltb_ge; exact E).
    cbn [andb]. symmetry. apply filter_none.
    intros r Hr. unfold eager_candidate.
    specialize (Hxb r Hr). unfold before, nonempty in *.
    replace (start r <? e) with false by (symmetry; apply Z.ltb_ge; lia).
    rewrite andb_false_r. reflexivity.
  - apply Z.leb_gt in E.
    replace (start x <? e) with true by (symmetry; apply Z.ltb_lt; exact E).
    cbn [andb].
    rewrite IH by (auto; intros r Hr; apply Hs; simpl; auto).
    reflexivity.
Qed.

Lemma eager_benefit_max (found : list profile_range) :
  forall b0, 0 <= b0 ->
  let b := fold_left (fun b r => if b <? benefit r then benefit r else b)
             found b0 in
  b0 <= b
  /\ (forall r, In r found -> benefit r <= b)
  /\ (b = b0 \/ exists r, In r found /\ b = benefit r).
Proof.
  induction found as [|x l IH]; intros b0 Hb0; cbn [fold_left].
  - split; [lia|]. split; [intros r []|auto].
  - destruct (b0 <? benefit x) eqn:E.
    + apply Z.ltb_lt in E.
      destruct (IH (benefit x) ltac:(lia)) as (H1 & H2 & H3).
      split; [lia|]. split.
      * intros r [<-|Hr]; auto.
      * right. destruct H3 as [H3|(r & Hr & H3)].
        -- exists x. split; [left; reflexivity|exact H3].
        -- exists r. split; [right; exact Hr|exact H3].
    + apply Z.ltb_ge in E.
      destruct (IH b0 Hb0) as (H1 & H2 & H3).
      split; [exact H1|]. split.
      * intros r [<-|Hr]; auto. lia.
      * destruct H3 as [H3|(r & Hr & H3)]; auto.
        right. exists r. split; [right; exact Hr|exact H3].
Qed.

(** X12: for a process with an eager paging profile, the estimate hands
    the decider exactly the stored ranges that reach into the window
    [[address, address + len)] and whose benefit exceeds the cost of
    10 * freq_mhz cycles, in address order, and reports the largest of their
    benefits; with no such range the benefit is 0 and the extra word is
    left alone. *)
Theorem eager_page_estimate_correct (env : estimator_env) (st : econ_state)
    (a : mm_action) (c : mm_cost_delta) (proc : mmap_filter_proc) :
  find_filter_proc_by_pid (filter_procs env) (current_tgid env) = Some proc ->
  interval_store (eager_ranges_root proc) ->
  vmalloc_ranges_ok env = true ->
  let k := u64_mul (mm_econ_freq_mhz st) 10 in
  let found :=
    filter (eager_candidate (address a) (u64_add (address a) (len a)) k)
      (inorder (eager_ranges_root proc)) in
  let c' := mm_estimate_eager_page_cost_benefit env st a c in
  cost c' = k
  /\ (found = [] -> cost_benefit c' = 0 /\ extra c' = extra c)
  /\ (found <> [] ->
      extra c' = ExtraRanges (map (fun r => (start r, end_ r)) found)
      /\ (exists r, In r found /\ cost_benefit c' = benefit r)
      /\ forall r, In r found -> benefit r <= cost_benefit c').
Proof.
  intros Hproc Hstore Hv k found c'.
  apply interval_store_wf in Hstore.
  assert (Hk : 0 <= k).
  { unfold k, u64_mul, u64. apply Z.mod_pos_bound. reflexivity. }
  unfold c', mm_estimate_eager_page_cost_benefit, compute_eager_page_benefit.
  rewrite Hproc.
  cbn [cost set_cost]. fold k.
  pose proof (profile_find_first_node_gt (eager_ranges_root proc) (address a)
                Hstore) as Hn.
  destruct (profile_find_first_node (eager_ranges_root proc) (address a)
              CompGreaterThan) as [n|].
  - destruct Hn as (A & r & B & Heq & -> & Hr & HA).
    assert (Hscan :
      eager_ranges (skipn (List.length A) (inorder (eager_ranges_root proc)))
        (address a) (u64_add (address a) (len a)) k = found).
    { unfold found. rewrite Heq.
      rewrite skipn_app, Nat.sub_diag, skipn_all. cbn [skipn app].
      rewrite filter_app.
      rewrite (filter_none (eager_candidate _ _ _) A).
      2:{ intros h Hh. unfold eager_candidate.
          replace (address a <? end_ h) with false
            by (symmetry; apply Z.ltb_ge; auto).
          reflexivity. }
      cbn [app]. rewrite Heq in Hstore.
      apply wf_ranges_app in Hstore. destruct Hstore as (_ & HrB & _).
      apply eager_ranges_filter; [exact HrB|].
      intros h [<-|Hh]; [exact Hr|].
      pose proof (wf_ranges_cons r B) as Hc. apply Hc in HrB.
      destruct HrB as (Hrn & HB & Hrb).
      specialize (Hrb h Hh).
      assert (nonempty h) by (apply (wf_ranges_In B); auto).
      range_arith. }
    rewrite Hscan.
    destruct found as [|f fs] eqn:Ef.
    + cbn. split; [reflexivity|]. split; [auto|]. intros H; contradiction.
    + rewrite Hv.
      cbn [cost cost_benefit extra].
      split; [reflexivity|]. split; [discriminate|]. intros _.
      split; [reflexivity|].
      destruct (eager_benefit_max (f :: fs) 0 ltac:(lia)) as (H1 & H2 & H3).
      split; [|exact H2].
      destruct H3 as [H3|H3]; [|exact H3].
      exfalso.
      assert (Hf : In f (filter (eager_candidate (address a)
                    (u64_add (address a) (len a)) k)
                    (inorder (eager_ranges_root proc)))).
      { fold found. rewrite Ef. left. reflexivity. }
      apply filter_In in Hf. destruct Hf as [_ Hf].
      unfold eager_candidate in Hf.
      apply andb_true_iff in Hf. destruct Hf as [_ Hf]. apply Z.ltb_lt in Hf.
      specialize (H2 f (or_introl eq_refl)). lia.
  - assert (Hnone : found = []).
    { unfold found. apply filter_none. intros h Hh.
      unfold eager_candidate.
      replace (address a <? end_ h) with false
        by (symmetry; apply Z.ltb_ge; auto).
      reflexivity. }
    rewrite Hnone. cbn. split; [reflexivity|]. split; [auto|].
    intros H; contradiction.
Qed.

Lemma eager_page_estimate_correct_witness :
  let t := rb_node (rb_node rb_null (mk_range 0 4096 50000) rb_null)
             (mk_range 4096 8192 10)
             (rb_node rb_null (mk_range 16384 20480 70000) rb_null) in
  let proc := mk_proc 7 [] RB_ROOT t in
  let env := mk_env fhps_free None 4 1 0 7 [proc] true in
  let a := mk_action MM_ACTION_EAGER_PAGING 100 0 20000 in
  let c' := mm_estimate_eager_page_cost_benefit env (state_with_mode 1) a
              (mk_cost 0 0 (ExtraWord 0)) in
  cost c' = 30000
  /\ extra c' = ExtraRanges [(0, 4096); (16384, 20480)]
  /\ forall r, In r [mk_range 0 4096 50000; mk_range 16384 20480 70000] ->
       benefit r <= cost_benefit c'.
Proof.
  intros t proc env a c'.
  assert (Hstore : interval_store (eager_ranges_root proc)).
  { apply interval_store_wf. cbn [proc t eager_ranges_root inorder app].
    repeat (apply wf_ranges_cons; split; [unfold nonempty; cbn; lia
      | split; [| intros b Hb; cbn in Hb; unfold before;
                  intuition (subst; cbn; lia)]]).
    apply wf_ranges_nil. }
  destruct (eager_page_estimate_correct env (state_with_mode 1) a
              (mk_cost 0 0 (ExtraWord 0)) proc eq_refl Hstore eq_refl)
    as (Hc & _ & Hf).
  split; [exact Hc|].
  destruct Hf as (He & _ & Hmax); [vm_compute; discriminate|].
  split; [exact He|exact Hmax].
Defined.

(** ** Actions without a benefit model *)

(** X13: the estimate of an action that has no benefit model (no action, a
    demotion, a defragmentation run or a promotion run) has benefit 0
    whatever the load, so in mode 1 the decider turns the action down; the
    estimate itself always returns. *)
Theorem zero_benefit_actions_refused (env : estimator_env) (st : econ_state)
    (a : mm_action) (c : mm_cost_delta) :
  action a = MM_ACTION_NONE \/ action a = MM_ACTION_DEMOTE_HUGE
  \/ action a = MM_ACTION_RUN_DEFRAG \/ action a = MM_ACTION_RUN_PROMOTION ->
  mm_econ_mode st = 1 ->
  exists st' c',
    mm_estimate_changes env st a c = Some (st', c')
    /\ cost_benefit c' = 0
    /\ snd (mm_decide st' c') = Some false.
Proof.
  intros Ha Hmode.
  assert (Hm : forall c1, mm_econ_mode (record_estimate st c1) = 1).
  { intros c1. unfold record_estimate.
    destruct (mm_econ_debugging_mode st =? 2); exact Hmode. }
  assert (Hdecide : forall c1, cost c1 = 0 \/ cost c1 = 2 ^ 32 ->
            cost_benefit c1 = 0 ->
            snd (mm_decide (record_estimate st c1) c1) = Some false).
  { intros c1 Hc Hb. unfold mm_decide. rewrite Hm.
    change (1 =? 0) with false. change (1 =? 1) with true. cbn [snd].
    rewrite Hb. f_equal. apply Z.ltb_ge.
    destruct Hc as [-> | ->]; [lia|discriminate]. }
  unfold mm_estimate_changes, mm_estimate_daemon_cost.
  destruct Ha as [Ha|[Ha|[Ha|Ha]]]; rewrite Ha.
  - eexists; eexists. split; [reflexivity|]. split; [reflexivity|].
    apply Hdecide; auto.
  - eexists; eexists. split; [reflexivity|]. split; [reflexivity|].
    apply Hdecide; auto.
  - destruct (load_int env <? num_online_cpus env);
      cbn [set_benefit set_cost cost cost_benefit];
      change (0 <? 0) with false; change (2 ^ 32 <? 0) with false;
      (eexists; eexists; split; [reflexivity|]; split; [reflexivity|]);
      apply Hdecide; cbn; auto.
  - destruct (load_int env <? num_online_cpus env);
      (eexists; eexists; split; [reflexivity|]; split; [reflexivity|]);
      apply Hdecide; cbn; auto.
Qed.

Lemma zero_benefit_actions_refused_witness :
  let env := mk_env fhps_zeroed None 4 9 0 7 [] true in
  let a := mk_action MM_ACTION_RUN_DEFRAG 0 0 0 in
  exists st' c',
    mm_estimate_changes env (state_with_mode 1) a (mk_cost 5 10 (ExtraWord 0))
    = Some (st', c')
    /\ cost_benefit c' = 0
    /\ snd (mm_decide st' c') = Some false.
Proof.
  intros env a.
  exact (zero_benefit_actions_refused env (state_with_mode 1) a
           (mk_cost 5 10 (ExtraWord 0))
           (or_intror (or_intror (or_introl eq_refl))) eq_refl).
Defined.

(** ** mmap_filters_read *)

Lemma strlen_append (a b : string) : strlen (a ++ b) = strlen a + strlen b.
Proof.
  unfold strlen. induction a as [|c a IH]; cbn [String.append String.length].
  - reflexivity.
  - rewrite !Nat2Z.inj_succ. lia.
Qed.

Lemma strlen_String (c : ascii) (s : string) : strlen (String c s) = 1 + strlen s.
Proof. unfold strlen. cbn [String.length]. lia. Qed.

Lemma strlen_nonneg (s : string) : 0 <= strlen s.
Proof. unfold strlen. lia. Qed.

Lemma find_filter_proc_by_pid_In (procs : list mmap_filter_proc) (p : Z)
    (proc : mmap_filter_proc) :
  find_filter_proc_by_pid procs p = Some proc -> In proc procs.
Proof.
  induction procs as [|x procs IH]; cbn [find_filter_proc_by_pid];
    [discriminate|].
  destruct (pid x =? p).
  - intros E. inversion E. left. reflexivity.
  - intros E. right. exact (IH E).
Qed.

Section FilterReadProperties.

Variable llx : Z -> string.

Lemma print_comparisons_bound (cs : list mmap_comparison) :
  (forall c, In c cs -> strlen (llx (val c)) <= 16) ->
  forall buffer, strlen buffer <= 4001 ->
  strlen (fst (print_comparisons llx cs buffer)) <= 4001.
Proof.
  induction cs as [|c cs IH]; intros Hcs buffer Hb; cbn [print_comparisons].
  - exact Hb.
  - destruct (MMAP_FILTER_BUF_SIZE - MMAP_FILTER_BUF_DEAD_ZONE <? strlen buffer)
      eqn:E; [exact Hb|].
    apply Z.ltb_ge in E. unfold MMAP_FILTER_BUF_SIZE, MMAP_FILTER_BUF_DEAD_ZONE in E.
    apply IH; [intros c' Hc'; apply Hcs; right; exact Hc'|].
    rewrite strlen_append, strlen_String, strlen_append, !strlen_String,
      strlen_append.
    pose proof (Hcs c (or_introl eq_refl)) as Hv.
    assert (strlen (mmap_quantity_get_str (quant c)) <= 11)
      by (destruct (quant c); vm_compute; discriminate).
    change (strlen "0x") with 2. lia.
Qed.

Lemma print_filters_bound (fs : list mmap_filter) :
  (forall f v, In f fs -> In v (filter_numbers f) -> strlen (llx v) <= 16) ->
  forall buffer, strlen buffer <= 4002 ->
  strlen (print_filters llx fs buffer) <= 4002.
Proof.
  induction fs as [|f fs IH]; intros Hfs buffer Hb; cbn [print_filters].
  - exact Hb.
  - destruct (MMAP_FILTER_BUF_SIZE - MMAP_FILTER_BUF_DEAD_ZONE <? strlen buffer)
      eqn:E; [exact Hb|].
    apply Z.ltb_ge in E. unfold MMAP_FILTER_BUF_SIZE, MMAP_FILTER_BUF_DEAD_ZONE in E.
    set (head := (buffer ++ mm_policy_get_str (policy f)
                    ++ String comma (mm_memory_section_get_str (section f)
                         ++ String comma ("0x" ++ llx (filter_benefit f))))%string).
    assert (Hhead : strlen head <= 4001).
    { unfold head.
      rewrite strlen_append, strlen_append, strlen_String, strlen_append,
        strlen_String, strlen_append.
      pose proof (Hfs f (filter_benefit f) (or_introl eq_refl)
                    (or_introl eq_refl)) as Hv.
      assert (strlen (mm_policy_get_str (policy f)) <= 5)
        by (destruct (policy f); vm_compute; discriminate).
      assert (strlen (mm_memory_section_get_str (section f)) <= 4)
        by (destruct (section f); vm_compute; discriminate).
      change (strlen "0x") with 2. lia. }
    assert (Hcs : forall c, In c (comparisons f) -> strlen (llx (val c)) <= 16).
    { intros c Hc. apply (Hfs f (val c) (or_introl eq_refl)).
      right. apply in_map, Hc. }
    pose proof (print_comparisons_bound (comparisons f) Hcs head Hhead) as Hp.
    destruct (print_comparisons llx (comparisons f) head) as [buffer' out].
    cbn [fst] in Hp. destruct out; [lia|].
    apply IH.
    + intros f' v Hf'. apply Hfs. right. exact Hf'.
    + rewrite strlen_append, strlen_String. change (strlen "") with 0. lia.
Qed.

(** X14: when no number of a filter prints to more than 16 digits,
    [mmap_filters_read] never writes beyond its buffer: the text it has
    printed when it reaches [simple_read_from_buffer], with the
    terminating NUL, fits the [MMAP_FILTER_BUF_SIZE] bytes allocated,
    however many filters the process has. *)
Theorem mmap_filters_read_fits (vmalloc_ok : bool)
    (procs : list mmap_filter_proc) (task : option Z) (buffer : string) :
  (forall proc f v, In proc procs -> In f (filters proc) ->
     In v (filter_numbers f) -> strlen (llx v) <= 16) ->
  mmap_filters_read llx vmalloc_ok procs task = inr buffer ->
  strlen buffer + 1 <= MMAP_FILTER_BUF_SIZE.
Proof.
  intros Hnum. unfold mmap_filters_read.
  destruct task as [tgid|]; [|discriminate].
  destruct (negb vmalloc_ok); [discriminate|].
  destruct (find_filter_proc_by_pid procs tgid) as [proc|] eqn:Ef;
    intros E; inversion E; subst buffer; clear E.
  - apply find_filter_proc_by_pid_In in Ef.
    assert (strlen (print_filters llx (filters proc) filters_header) <= 4002).
    { apply print_filters_bound.
      - intros f v Hf Hv. exact (Hnum proc f v Ef Hf Hv).
      - vm_compute. discriminate. }
    unfold MMAP_FILTER_BUF_SIZE. lia.
  - vm_compute. discriminate.
Qed.

End FilterReadProperties.

Lemma mmap_filters_read_fits_witness :
  let f := mk_filter SectionMmap PolicyHugePage 16
             [mk_comparison QuantLen CompGreaterThan 4096] in
  let procs := [mk_proc 7 [f; f] RB_ROOT RB_ROOT] in
  exists buffer,
    mmap_filters_read hex_text true procs (Some 7) = inr buffer
    /\ strlen buffer + 1 <= MMAP_FILTER_BUF_SIZE.
Proof.
  intros f procs.
  eexists. split; [reflexivity|].
  apply (mmap_filters_read_fits hex_text true procs (Some 7)).
  - intros proc f' v [<-|[]] [<-|[<-|[]]] [<-|[<-|[]]];
      vm_compute; discriminate.
  - reflexivity.
Defined.

(** ** mmap_filters_write: what a write leaves behind *)

Lemma find_replace_proc (procs : list mmap_filter_proc)
    (proc : mmap_filter_proc) (q : Z) :
  find_filter_proc_by_pid (replace_proc procs proc) q =
  if q =? pid proc
  then match find_filter_proc_by_pid procs q with
       | Some _ => Some proc
       | None => None
       end
  else find_filter_proc_by_pid procs q.
Proof.
  induction procs as [|x procs IH];
    cbn [replace_proc find_filter_proc_by_pid].
  - destruct (q =? pid proc); reflexivity.
  - destruct (pid x =? pid proc) eqn:E; cbn [find_filter_proc_by_pid].
    + apply Z.eqb_eq in E. rewrite E.
      rewrite (Z.eqb_sym q (pid proc)).
      destruct (pid proc =? q); reflexivity.
    + apply Z.eqb_neq in E.
      destruct (pid x =? q) eqn:E2.
      * apply Z.eqb_eq in E2.
        replace (q =? pid proc) with false
          by (symmetry; apply Z.eqb_neq; congruence).
        reflexivity.
      * exact IH.
Qed.

Section FilterWriteEffects.

Variable kstrtoull : string -> option Z.
Variable vmalloc_ok : nat -> bool.
Hypothesis vmalloc_succeeds : forall k, vmalloc_ok k = true.

(** A write from which no filter can be read fails with [-EINVAL] and goes
    through [mmap_filters_free_all]. *)
Lemma mmap_filters_write_no_filter (procs : list mmap_filter_proc)
    (tgid : Z) (fresh_eager : rb_tree) (rest : string) :
  truncated rest \/ malformed kstrtoull vmalloc_ok rest ->
  mmap_filters_write kstrtoull vmalloc_ok procs (Some tgid) true
    fresh_eager rest
  = (- EINVAL,
     match find_filter_proc_by_pid procs tgid with
     | Some proc => replace_proc procs (with_filters proc [])
     | None => procs
     end).
Proof.
  intros Hrest. unfold mmap_filters_write.
  rewrite !vmalloc_succeeds. cbn [negb andb]. rewrite andb_false_r.
  assert (Hstop : exists r0 rtail,
            fields newline (c_str rest) = r0 :: rtail
            /\ (rtail = [] \/ r0 = EmptyString
                \/ forall allocs,
                     read_filter kstrtoull vmalloc_ok r0 allocs = FilterBreak)).
  { destruct Hrest as [Htr|(tok & more & Heq & Hnl & Hbad)].
    - exists (c_str rest), []. split; [apply fields_no_delim, Htr|auto].
    - exists tok, (fields newline more). rewrite Heq.
      split; [apply fields_app, Hnl|auto]. }
  destruct Hstop as (r0 & rtail & Hfields & Hstop). rewrite Hfields.
  set (proc := match find_filter_proc_by_pid procs tgid with
               | Some p => p
               | None => mk_proc tgid [] RB_ROOT fresh_eager
               end).
  set (allocs := if match find_filter_proc_by_pid procs tgid with
                    | Some _ => false | None => true end
                 then 2%nat else 1%nat).
  destruct (read_filters_lines kstrtoull vmalloc_ok vmalloc_succeeds
              r0 rtail Hstop [] (Forall_nil _) r0 rtail
              allocs (filters proc) 0 eq_refl) as (fs' & Hread).
  rewrite Hread. cbn [filter_lines_length Z.add Z.eqb].
  unfold proc. destruct (find_filter_proc_by_pid procs tgid); reflexivity.
Qed.

(** X15: a write whose first line is cut short or is no filter returns
    [-EINVAL] and, when the process already has a profile, destroys all the
    filters that profile had; the range trees of the profile and the
    profiles of the other processes stay as they were.  Without a profile
    nothing is registered. *)
Theorem mmap_filters_write_failure_clears (procs : list mmap_filter_proc)
    (tgid : Z) (fresh_eager : rb_tree) (rest : string) :
  truncated rest \/ malformed kstrtoull vmalloc_ok rest ->
  let r := mmap_filters_write kstrtoull vmalloc_ok procs (Some tgid) true
             fresh_eager rest in
  fst r = - EINVAL
  /\ match find_filter_proc_by_pid procs tgid with
     | Some proc =>
         find_filter_proc_by_pid (snd r) tgid
         = Some (mk_proc tgid [] (hp_ranges_root proc) (eager_ranges_root proc))
     | None => snd r = procs
     end
  /\ forall q, q <> tgid ->
       find_filter_proc_by_pid (snd r) q = find_filter_proc_by_pid procs q.
Proof.
  intros Hrest r. unfold r.
  rewrite (mmap_filters_write_no_filter procs tgid fresh_eager rest Hrest).
  cbn [fst snd]. split; [reflexivity|].
  destruct (find_filter_proc_by_pid procs tgid) as [proc|] eqn:Ef.
  - pose proof (find_filter_proc_by_pid_pid procs tgid proc Ef) as Hpid.
    split.
    + rewrite find_replace_proc. unfold with_filters. cbn [pid].
      rewrite Hpid, Z.eqb_refl, Ef. reflexivity.
    + intros q Hq. rewrite find_replace_proc. unfold with_filters.
      cbn [pid]. rewrite Hpid.
      replace (q =? tgid) with false by (symmetry; apply Z.eqb_neq; exact Hq).
      reflexivity.
  - split; reflexivity.
Qed.

End FilterWriteEffects.

Lemma mmap_filters_write_failure_clears_witness :
  let f := mk_filter SectionMmap PolicyHugePage 16 [] in
  let t := rb_node rb_null (mk_range 0 4096 5) rb_null in
  let procs := [mk_proc 7 [f; f] t RB_ROOT; mk_proc 8 [f] RB_ROOT RB_ROOT] in
  let r := mmap_filters_write hex_literal (fun _ => true) procs (Some 7) true
             rb_null "eager,he" in
  fst r = - EINVAL
  /\ find_filter_proc_by_pid (snd r) 7 = Some (mk_proc 7 [] t RB_ROOT)
  /\ find_filter_proc_by_pid (snd r) 8 = Some (mk_proc 8 [f] RB_ROOT RB_ROOT).
Proof.
  intros f t procs r.
  destruct (mmap_filters_write_failure_clears hex_literal (fun _ => true)
              (fun _ => eq_refl) procs 7 rb_null "eager,he"%string
              (or_introl eq_refl)) as (H1 & H2 & H3).
  split; [exact H1|]. split; [exact H2|].
  apply (H3 8). discriminate.
Defined.

(** ** Reading the filters and writing them back *)

Lemma print_comparisons_prefix (llx : Z -> string) (cs : list mmap_comparison) :
  forall buffer, exists rest,
    fst (print_comparisons llx cs buffer) = (buffer ++ rest)%string.
Proof.
  induction cs as [|c cs IH]; intros buffer; cbn [print_comparisons].
  - exists EmptyString. symmetry. apply string_append_nil.
  - destruct (MMAP_FILTER_BUF_SIZE - MMAP_FILTER_BUF_DEAD_ZONE <? strlen buffer).
    + exists EmptyString. symmetry. apply string_append_nil.
    + match goal with
      | |- context [print_comparisons llx cs (buffer ++ ?x)%string] =>
          destruct (IH (buffer ++ x)%string) as (rest & Hrest);
          exists (x ++ rest)%string
      end.
      rewrite Hrest. apply string_append_assoc.
Qed.

Lemma print_filters_prefix (llx : Z -> string) (fs : list mmap_filter) :
  forall buffer, exists rest,
    print_filters llx fs buffer = (buffer ++ rest)%string.
Proof.
  induction fs as [|f fs IH]; intros buffer; cbn [print_filters].
  - exists EmptyString. symmetry. apply string_append_nil.
  - destruct (MMAP_FILTER_BUF_SIZE - MMAP_FILTER_BUF_DEAD_ZONE <? strlen buffer).
    { exists EmptyString. symmetry. apply string_append_nil. }
    match goal with
    | |- context [print_comparisons llx (comparisons f) (buffer ++ ?x)%string] =>
        destruct (print_comparisons_prefix llx (comparisons f)
                    (buffer ++ x)%string) as (r1 & Hr1);
        destruct (print_comparisons llx (comparisons f) (buffer ++ x)%string)
          as [buffer' out];
        cbn [fst] in Hr1; subst buffer';
        destruct out;
        [ exists (x ++ r1)%string; apply string_append_assoc
        | destruct (IH (((buffer ++ x) ++ r1) ++ String newline EmptyString)%string)
            as (r2 & Hr2);
          exists (x ++ r1 ++ String newline r2)%string; rewrite Hr2 ]
    end.
    rewrite !string_append_assoc. reflexivity.
Qed.

Section FilterReadWrite.

Variable kstrtoull : string -> option Z.
Variable llx : Z -> string.
Variable vmalloc_ok : nat -> bool.
Hypothesis vmalloc_succeeds : forall k, vmalloc_ok k = true.

(** X16: what [mmap_filters_read] prints is never a filter program for
    [mmap_filters_write]: the header line comes first and is no filter, so
    writing the text back, to any process, fails with [-EINVAL]. *)
Theorem mmap_filters_read_not_writable (procs : list mmap_filter_proc)
    (task : option Z) (buffer : string) (procs' : list mmap_filter_proc)
    (tgid : Z) (fresh_eager : rb_tree) :
  mmap_filters_read llx true procs task = inr buffer ->
  fst (mmap_filters_write kstrtoull vmalloc_ok procs' (Some tgid) true
         fresh_eager buffer) = - EINVAL.
Proof.
  intros Hread.
  assert (Hpre : exists rest, buffer = (filters_header ++ rest)%string).
  { unfold mmap_filters_read in Hread.
    destruct task as [src|]; [|discriminate]. cbn [negb] in Hread.
    destruct (find_filter_proc_by_pid procs src) as [proc|];
      inversion Hread; subst buffer.
    - apply print_filters_prefix.
    - exists EmptyString. symmetry. apply string_append_nil. }
  destruct Hpre as (rest & ->).
  rewrite (mmap_filters_write_no_filter kstrtoull vmalloc_ok vmalloc_succeeds
             procs' tgid fresh_eager); [reflexivity|].
  right. exists "POLICY,SECTION,MISSES,CONSTRAINTS..."%string, (c_str rest).
  split; [|split].
  - unfold filters_header. rewrite !string_append_assoc.
    change (String newline EmptyString ++ rest)%string
      with (String newline rest).
    apply c_str_app. reflexivity.
  - reflexivity.
  - right. intros allocs. unfold read_filter. rewrite vmalloc_succeeds.
    reflexivity.
Qed.

End FilterReadWrite.

Lemma mmap_filters_read_not_writable_witness :
  let f := mk_filter SectionMmap PolicyHugePage 16
             [mk_comparison QuantLen CompGreaterThan 4096] in
  let procs := [mk_proc 7 [f] RB_ROOT RB_ROOT] in
  exists buffer,
    mmap_filters_read hex_text true procs (Some 7) = inr buffer
    /\ fst (mmap_filters_write hex_literal (fun _ => true) procs (Some 7) true
              rb_null buffer) = - EINVAL.
Proof.
  intros f procs. eexists. split; [reflexivity|].
  apply (mmap_filters_read_not_writable hex_literal hex_text (fun _ => true)
           (fun _ => eq_refl) procs (Some 7)).
  reflexivity.
Defined.

Lemma mmap_filter_eta (f : mmap_filter) :
  mk_filter (section f) (policy f) (filter_benefit f) (comparisons f) = f.
Proof. destruct f; reflexivity. Qed.

Lemma filter_lines_app (a b : list string) :
  filter_lines (a ++ b) = (filter_lines a ++ filter_lines b)%string.
Proof.
  induction a as [|x a IH]; cbn [app filter_lines]; [reflexivity|].
  rewrite IH, string_append_assoc. reflexivity.
Qed.

Lemma strlen_filter_lines (lines : list string) :
  strlen (filter_lines lines) = filter_lines_length lines.
Proof.
  induction lines as [|l lines IH]; cbn [filter_lines filter_lines_length].
  - reflexivity.
  - rewrite strlen_append, strlen_String, IH. lia.
Qed.

Section FilterRoundTrip.

Variable kstrtoull : string -> option Z.
Variable llx : Z -> string.
Variable vmalloc_ok : nat -> bool.
Hypothesis vmalloc_succeeds : forall k, vmalloc_ok k = true.

Lemma print_comparisons_untruncated (cs : list mmap_comparison) :
  forall buffer,
  strlen (buffer ++ comparisons_text (map (comparison_fields llx) cs))
    <= MMAP_FILTER_BUF_SIZE - MMAP_FILTER_BUF_DEAD_ZONE ->
  print_comparisons llx cs buffer
  = ((buffer ++ comparisons_text (map (comparison_fields llx) cs))%string, false).
Proof.
  induction cs as [|c cs IH]; intros buffer Hlen;
    cbn [print_comparisons map comparisons_text].
  - rewrite string_append_nil. reflexivity.
  - cbn [map comparisons_text comparison_fields] in Hlen.
    assert (Hb : strlen buffer
                 <= MMAP_FILTER_BUF_SIZE - MMAP_FILTER_BUF_DEAD_ZONE).
    { rewrite strlen_append in Hlen.
      pose proof (strlen_nonneg
        (String comma
           (mmap_quantity_get_str (quant c) ++
            String comma
              (String (mmap_comparator_get_char (comp c))
                 (String comma
                    (("0x" ++ llx (val c)) ++
                     comparisons_text (map (comparison_fields llx) cs))))))).
      lia. }
    replace (MMAP_FILTER_BUF_SIZE - MMAP_FILTER_BUF_DEAD_ZONE <? strlen buffer)
      with false by (symmetry; apply Z.ltb_ge; exact Hb).
    rewrite IH.
    + f_equal. unfold comparison_fields at 2. cbn [String.append].
      rewrite !string_append_assoc. cbn [String.append].
      rewrite !string_append_assoc. reflexivity.
    + unfold comparison_fields at 1 in Hlen.
      rewrite !string_append_assoc. cbn [String.append].
      rewrite !string_append_assoc. cbn [String.append].
      rewrite !string_append_assoc in Hlen. exact Hlen.
Qed.


Lemma print_filters_untruncated (fs : list mmap_filter) :
  forall buffer,
  strlen (buffer ++ filter_lines (map (filter_line llx) fs))
    <= MMAP_FILTER_BUF_SIZE - MMAP_FILTER_BUF_DEAD_ZONE ->
  print_filters llx fs buffer
  = (buffer ++ filter_lines (map (filter_line llx) fs))%string.
Proof.
  induction fs as [|f fs IH]; intros buffer Hlen;
    cbn [print_filters map filter_lines].
  - rewrite string_append_nil. reflexivity.
  - cbn [map filter_lines] in Hlen.
    assert (Hb : strlen buffer
                 <= MMAP_FILTER_BUF_SIZE - MMAP_FILTER_BUF_DEAD_ZONE).
    { rewrite strlen_append in Hlen.
      pose proof (strlen_nonneg
        (filter_line llx f
         ++ String newline (filter_lines (map (filter_line llx) fs)))).
      lia. }
    replace (MMAP_FILTER_BUF_SIZE - MMAP_FILTER_BUF_DEAD_ZONE <? strlen buffer)
      with false by (symmetry; apply Z.ltb_ge; exact Hb).
    assert (Hline :
      ((buffer ++ mm_policy_get_str (policy f)
          ++ String comma (mm_memory_section_get_str (section f)
               ++ String comma ("0x" ++ llx (filter_benefit f))))
       ++ comparisons_text (map (comparison_fields llx) (comparisons f)))%string
      = (buffer ++ filter_line llx f)%string).
    { unfold filter_line, filter_text.
      repeat (rewrite ?string_append_assoc; cbn [String.append]).
      reflexivity. }
    rewrite print_comparisons_untruncated.
    + rewrite Hline, IH.
      * rewrite ?string_append_assoc. reflexivity.
      * rewrite ?string_append_assoc. cbn [String.append].
        rewrite ?string_append_assoc in Hlen. exact Hlen.
    + rewrite Hline.
      rewrite <- string_append_assoc, strlen_append in Hlen.
      pose proof (strlen_nonneg
        (String newline (filter_lines (map (filter_line llx) fs)))).
      lia.
Qed.

Lemma numbers_ok_fields (cs : list mmap_comparison) :
  (forall c, In c cs -> number_round_trips kstrtoull llx (val c)) ->
  numbers_ok kstrtoull (map (comparison_fields llx) cs).
Proof.
  intros H. unfold numbers_ok. apply Forall_forall. intros x Hx.
  apply in_map_iff in Hx. destruct Hx as (c & <- & Hc).
  destruct (H c Hc) as [Hclean Hk]. cbn [comparison_fields snd].
  split; [exact Hclean|congruence].
Qed.

Lemma read_comparisons_exact (cs : list mmap_comparison) :
  (forall c, In c cs -> number_round_trips kstrtoull llx (val c)) ->
  forall allocs,
  read_comparisons kstrtoull vmalloc_ok
    (comparisons_fields (map (comparison_fields llx) cs)) allocs
  = ComparisonsRead cs (allocs + List.length cs).
Proof.
  induction cs as [|c cs IH]; intros H allocs;
    cbn [map comparisons_fields comparison_fields List.length].
  - rewrite Nat.add_0_r. reflexivity.
  - destruct (H c (or_introl eq_refl)) as [_ Hk].
    assert (Hrec := IH (fun c' Hc' => H c' (or_intror Hc')) (S allocs)).
    replace (allocs + S (List.length cs))%nat
      with (S allocs + List.length cs)%nat by lia.
    cbn [String.append] in Hk. clear H IH.
    destruct c as [q cp v]. cbn [quant comp val] in *.
    destruct q, cp; cbn; rewrite vmalloc_succeeds; cbn;
      rewrite Hk; cbn; rewrite Hrec; reflexivity.
Qed.

Lemma read_filter_exact (f : mmap_filter) (allocs : nat) :
  (forall v, In v (filter_numbers f) -> number_round_trips kstrtoull llx v) ->
  read_filter kstrtoull vmalloc_ok (filter_line llx f) allocs
  = FilterRead f (S allocs + List.length (comparisons f)).
Proof.
  intros H. unfold read_filter, filter_line, filter_text.
  rewrite vmalloc_succeeds. cbn [negb].
  destruct (H (filter_benefit f) (or_introl eq_refl)) as [(_ & _ & Hc) Hk].
  assert (Hcs : forall c, In c (comparisons f) ->
                  number_round_trips kstrtoull llx (val c)).
  { intros c Hc'. apply H. right. apply in_map, Hc'. }
  rewrite fields_app by (destruct (policy f); reflexivity).
  rewrite fields_app by (destruct (section f); reflexivity).
  rewrite (fields_comparisons_text kstrtoull) by
    (auto using numbers_ok_fields).
  cbn [String.append] in Hk.
  pose proof (read_comparisons_exact _ Hcs (S allocs)) as Hrec.
  clear H Hcs Hc.
  destruct f as [sec pol b cs].
  cbn [section policy filter_benefit comparisons] in *.
  destruct pol, sec; cbn; rewrite Hk, Hrec; reflexivity.
Qed.

Lemma filter_line_well_formed (f : mmap_filter) :
  (forall v, In v (filter_numbers f) -> number_round_trips kstrtoull llx v) ->
  well_formed_line kstrtoull vmalloc_ok (filter_line llx f).
Proof.
  intros H. unfold filter_line.
  destruct (H (filter_benefit f) (or_introl eq_refl)) as [Hclean Hk].
  apply (filter_text_well_formed kstrtoull vmalloc_ok vmalloc_succeeds).
  - exact Hclean.
  - congruence.
  - apply numbers_ok_fields. intros c Hc. apply H. right. apply in_map, Hc.
Qed.

Lemma read_filters_exact (fs : list mmap_filter) :
  (forall f v, In f fs -> In v (filter_numbers f) ->
     number_round_trips kstrtoull llx v) ->
  forall tok outerTok allocs fs0 bytes_read,
  map (filter_line llx) fs ++ [EmptyString] = tok :: outerTok ->
  exists n,
    read_filters kstrtoull vmalloc_ok tok outerTok allocs fs0 bytes_read
    = FiltersRead (fs0 ++ fs)
        (bytes_read + filter_lines_length (map (filter_line llx) fs))
    /\ (allocs <= n)%nat.
Proof.
  induction fs as [|f fs IH]; intros H tok outerTok allocs fs0 bytes_read Heq;
    cbn [map app filter_lines_length] in *.
  - inversion Heq; subst. exists allocs. rewrite app_nil_r, Z.add_0_r.
    split; [reflexivity|lia].
  - inversion Heq; subst tok outerTok. clear Heq.
    destruct (map (filter_line llx) fs ++ [EmptyString])
      as [|next outerTok'] eqn:Hrest.
    { destruct (map (filter_line llx) fs); discriminate. }
    cbn [read_filters].
    assert (Hf : forall v, In v (filter_numbers f) ->
                   number_round_trips kstrtoull llx v)
      by (intros v Hv; exact (H f v (or_introl eq_refl) Hv)).
    pose proof (read_filter_exact f allocs Hf) as Hread.
    destruct (filter_line llx f) as [|ch line] eqn:Eline.
    { unfold read_filter in Hread. rewrite vmalloc_succeeds in Hread.
      discriminate. }
    rewrite Hread.
    destruct (IH (fun f' v Hf' => H f' v (or_intror Hf')) next outerTok'
                (S allocs + List.length (comparisons f))%nat (fs0 ++ [f])
                (bytes_read + (strlen (String ch line) + 1)) eq_refl)
      as (n & Hn & Hle).
    exists n. rewrite Hn, <- app_assoc. cbn [app].
    split; [f_equal; lia|lia].
Qed.

(** X17: [mmap_filters_read] prints, after the header, one line for each
    filter of a process.  When the process has at least one filter, these
    lines are a filter program that [mmap_filters_write] reads back in
    full: written to a process, they give it the same filters, in the same
    order, after the ones it had, and the write returns their length.
    When the process has no filter, nothing follows the header, and
    writing that empty text fails with [-EINVAL] and removes the filters
    the destination had.  This holds when the text stays below the dead
    zone of the read buffer and [kstrtoull] reads every printed number
    back. *)
Theorem filters_read_write_round_trip (procs procs' : list mmap_filter_proc)
    (src dst : Z) (proc : mmap_filter_proc) (fresh_eager : rb_tree) :
  find_filter_proc_by_pid procs src = Some proc ->
  (forall f v, In f (filters proc) -> In v (filter_numbers f) ->
     number_round_trips kstrtoull llx v) ->
  strlen (filters_header ++ filter_lines (map (filter_line llx) (filters proc)))
    <= MMAP_FILTER_BUF_SIZE - MMAP_FILTER_BUF_DEAD_ZONE ->
  exists body,
    mmap_filters_read llx true procs (Some src)
    = inr (filters_header ++ body)%string
    /\ mmap_filters_write kstrtoull vmalloc_ok procs' (Some dst) true
         fresh_eager body
       = match filters proc with
         | [] =>
             (- EINVAL,
              match find_filter_proc_by_pid procs' dst with
              | Some p => replace_proc procs' (with_filters p [])
              | None => procs'
              end)
         | _ :: _ =>
             (strlen body,
              match find_filter_proc_by_pid procs' dst with
              | Some p =>
                  replace_proc procs'
                    (with_filters p (filters p ++ filters proc))
              | None =>
                  procs' ++ [mk_proc dst (filters proc) RB_ROOT fresh_eager]
              end)
         end.
Proof.
  intros Hfind Hnum Hlen.
  exists (filter_lines (map (filter_line llx) (filters proc))).
  split.
  - unfold mmap_filters_read. cbn [negb]. rewrite Hfind.
    rewrite print_filters_untruncated by exact Hlen. reflexivity.
  - assert (Hcase : filters proc = [] \/ filters proc <> [])
      by (destruct (filters proc); [left; reflexivity|right; discriminate]).
    destruct Hcase as [He|Hne].
    { rewrite He. cbn [map filter_lines].
      apply (mmap_filters_write_no_filter kstrtoull vmalloc_ok
               vmalloc_succeeds).
      left. reflexivity. }
    assert (Hm : forall (A : Type) (x y : A),
              match filters proc with [] => x | _ :: _ => y end = y)
      by (intros A x y; destruct (filters proc); [congruence|reflexivity]).
    rewrite Hm. clear Hm.
    unfold mmap_filters_write.
    rewrite !vmalloc_succeeds. cbn [negb andb]. rewrite andb_false_r.
    assert (Hwf : Forall (well_formed_line kstrtoull vmalloc_ok)
                    (map (filter_line llx) (filters proc))).
    { apply Forall_forall. intros line Hline.
      apply in_map_iff in Hline. destruct Hline as (f & <- & Hf).
      apply filter_line_well_formed. intros v Hv. exact (Hnum f v Hf Hv). }
    rewrite <- (string_append_nil
                  (filter_lines (map (filter_line llx) (filters proc)))) at 1.
    rewrite (fields_filter_lines kstrtoull vmalloc_ok) by exact Hwf.
    cbn [c_str fields].
    destruct (map (filter_line llx) (filters proc) ++ [EmptyString])
      as [|tok outerTok] eqn:Hall.
    { destruct (map (filter_line llx) (filters proc)); discriminate. }
    set (p := match find_filter_proc_by_pid procs' dst with
              | Some p => p
              | None => mk_proc dst [] RB_ROOT fresh_eager
              end).
    set (allocs := if match find_filter_proc_by_pid procs' dst with
                      | Some _ => false | None => true end
                   then 2%nat else 1%nat).
    destruct (read_filters_exact (filters proc) Hnum tok outerTok allocs
                (filters p) 0 Hall) as (n & Hread & _).
    rewrite Hread. cbn [Z.add].
    rewrite strlen_filter_lines.
    assert (Hpos : 0 < filter_lines_length
                         (map (filter_line llx) (filters proc))).
    { apply filter_lines_length_pos.
      destruct (filters proc); [congruence|discriminate]. }
    replace (filter_lines_length (map (filter_line llx) (filters proc)) =? 0)
      with false by (symmetry; apply Z.eqb_neq; lia).
    unfold p. destruct (find_filter_proc_by_pid procs' dst); reflexivity.
Qed.

End FilterRoundTrip.

Lemma filters_read_write_round_trip_witness :
  let f1 := mk_filter SectionMmap PolicyHugePage 16
              [mk_comparison QuantLen CompGreaterThan 4096] in
  let f2 := mk_filter SectionHeap PolicyEagerPage 255 [] in
  let procs := [mk_proc 7 [f1; f2] RB_ROOT RB_ROOT; mk_proc 8 [] RB_ROOT RB_ROOT] in
  let procs' := [mk_proc 9 [f2] RB_ROOT RB_ROOT] in
  (exists body,
     mmap_filters_read hex_text true procs (Some 7)
     = inr (filters_header ++ body)%string
     /\ mmap_filters_write hex_literal (fun _ => true) procs' (Some 9) true
          rb_null body
        = (strlen body, [mk_proc 9 [f2; f1; f2] RB_ROOT RB_ROOT]))
  /\ (exists body,
       mmap_filters_read hex_text true procs (Some 8)
       = inr (filters_header ++ body)%string
       /\ mmap_filters_write hex_literal (fun _ => true) procs' (Some 9) true
            rb_null body
          = (- EINVAL, [mk_proc 9 [] RB_ROOT RB_ROOT])).
Proof.
  intros f1 f2 procs procs'.
  assert (Hnum : forall f v, In f [f1; f2] -> In v (filter_numbers f) ->
                   number_round_trips hex_literal hex_text v).
  { intros f v [<-|[<-|[]]] Hv; cbn in Hv;
      repeat (destruct Hv as [<-|Hv]; [repeat split; reflexivity|]);
      destruct Hv. }
  assert (Hnone : forall f v, In f (@nil mmap_filter) ->
                    In v (filter_numbers f) ->
                    number_round_trips hex_literal hex_text v).
  { intros f v []. }
  split.
  - destruct (filters_read_write_round_trip hex_literal hex_text
                (fun _ => true) (fun _ => eq_refl) procs procs' 7 9
                (mk_proc 7 [f1; f2] RB_ROOT RB_ROOT)
                rb_null eq_refl Hnum ltac:(vm_compute; discriminate))
      as (body & Hr & Hw).
    exists body. split; [exact Hr|exact Hw].
  - destruct (filters_read_write_round_trip hex_literal hex_text
                (fun _ => true) (fun _ => eq_refl) procs procs' 8 9
                (mk_proc 8 [] RB_ROOT RB_ROOT)
                rb_null eq_refl Hnone ltac:(vm_compute; discriminate))
      as (body & Hr & Hw).
    exists body. split; [exact Hr|exact Hw].
Defined.

(** ** mm_add_memory_range *)

Section AddMemoryRangeProperties.

Variable vmalloc_ok : nat -> bool.
Variable msection : mm_memory_section.
Variables mapaddr section_off len prot flags fd off : Z.

Lemma match_comparisons_no_address (filter : mmap_filter)
    (subranges : rb_tree) (cs : list mmap_comparison) :
  forallb (fun c => match quant c with
                    | QuantSectionOff | QuantAddr => false
                    | _ => true
                    end) cs = true ->
  forall passes_filter allocs,
  match_comparisons vmalloc_ok msection mapaddr section_off len prot flags
    fd off filter subranges cs passes_filter None RB_ROOT allocs
  = Some (ComparisonsDone
            (passes_filter
             && forallb (fun c => mm_does_quantity_match c
                           (quantity_value len prot flags fd off (quant c))) cs)
            None RB_ROOT allocs).
Proof.
  induction cs as [|c cs IH]; intros Hcs passes_filter allocs;
    cbn [match_comparisons forallb].
  - rewrite andb_true_r. reflexivity.
  - cbn [forallb] in Hcs. apply andb_true_iff in Hcs. destruct Hcs as [Hc Hcs].
    destruct passes_filter; cbn [negb andb]; [|reflexivity].
    destruct (quant c) eqn:Eq; try discriminate Hc;
      rewrite (IH Hcs); cbn [andb quantity_value]; reflexivity.
Qed.

Lemma apply_filters_skip (skipped tail : list mmap_filter) :
  Forall (fun f => tests_no_address f = true
                   /\ matches_mapping msection len prot flags fd off f = false)
    skipped ->
  forall huge eager allocs,
  apply_filters vmalloc_ok msection mapaddr section_off len prot flags fd off
    (skipped ++ tail) huge eager allocs
  = apply_filters vmalloc_ok msection mapaddr section_off len prot flags fd off
      tail huge eager allocs.
Proof.
  induction 1 as [|f skipped [Hna Hmiss] _ IH]; intros huge eager allocs;
    cbn [app apply_filters]; [reflexivity|].
  rewrite (match_comparisons_no_address f _ (comparisons f) Hna).
  unfold matches_mapping in Hmiss. rewrite Hmiss. apply IH.
Qed.

(** With no address compared up to the first matching filter, the range
    of the mapping is never split: each tree gets one insert. *)
Lemma mm_add_memory_range_first_match (procs : list mmap_filter_proc)
    (p : Z) (proc : mmap_filter_proc) (skipped tail : list mmap_filter) :
  find_filter_proc_by_pid procs p = Some proc ->
  vmalloc_ok O = true -> vmalloc_ok 1%nat = true ->
  filters proc = skipped ++ tail ->
  Forall (fun f => tests_no_address f = true
                   /\ matches_mapping msection len prot flags fd off f = false)
    skipped ->
  match tail with
  | [] => True
  | f :: _ => tests_no_address f = true
              /\ matches_mapping msection len prot flags fd off f = true
  end ->
  let huge_benefit :=
    match tail with
    | f :: _ => match policy f with PolicyHugePage => filter_benefit f | _ => 0 end
    | [] => 0
    end in
  let eager_benefit :=
    match tail with
    | f :: _ => match policy f with PolicyEagerPage => filter_benefit f | _ => 0 end
    | [] => 0
    end in
  mm_add_memory_range vmalloc_ok msection mapaddr section_off len prot flags
    fd off procs p
  = Some (replace_proc procs
            (mk_proc (pid proc) (filters proc)
               (profile_range_insert (hp_ranges_root proc)
                  (aligned_range mapaddr len huge_benefit))
               (profile_range_insert (eager_ranges_root proc)
                  (aligned_range mapaddr len eager_benefit)))).
Proof.
  intros Hfind H0 H1 Hfs Hskipped Htail huge_benefit eager_benefit.
  unfold mm_add_memory_range. rewrite Hfind, H0. cbn [negb].
  unfold mm_copy_profile_range.
  change (profile_range_insert RB_ROOT ?r) with (rb_node rb_null r rb_null).
  cbn [inorder app copy_profile_ranges]. rewrite H1. cbn [negb].
  change (profile_range_insert RB_ROOT ?r) with (rb_node rb_null r rb_null).
  cbn [start end_ benefit Z.eqb negb].
  rewrite Hfs at 1. rewrite (apply_filters_skip skipped tail Hskipped).
  fold (aligned_range mapaddr len 0).
  destruct tail as [|f tail'].
  - cbn [apply_filters]. reflexivity.
  - destruct Htail as [Hna Hm]. cbn [apply_filters].
    rewrite (match_comparisons_no_address f _ (comparisons f) Hna).
    unfold matches_mapping in Hm. rewrite Hm.
    unfold huge_benefit, eager_benefit.
    destruct (policy f); reflexivity.
Qed.

End AddMemoryRangeProperties.

(** *** The working trees stay interval stores *)

Lemma profile_find_first_node_found (t : rb_tree) (key : Z)
    (comparator : mmap_comparator) (n : nat) :
  wf_ranges (inorder t) ->
  profile_find_first_node t key comparator = Some n ->
  exists r, container_of t n = Some r /\ found_for comparator key r.
Proof.
  intros Hwf Hn. destruct comparator; cbn [found_for].
  - (* CompEquals *)
    unfold profile_find_first_node in Hn.
    pose proof (find_any_range_eq t key Hwf O) as Hany.
    destruct (find_any_range t key CompEquals O) as [m|]; [|discriminate].
    inversion Hn; subst m. destruct Hany as (k & x & -> & Hk & Hx).
    exists x. split; [exact Hk|exact Hx].
  - (* CompGreaterThan *)
    pose proof (profile_find_first_node_gt t key Hwf) as H.
    rewrite Hn in H. destruct H as (A & r & B & Heq & -> & Hr & _).
    exists r. split; [|exact Hr].
    unfold container_of. rewrite Heq. apply nth_error_middle.
  - (* CompLessThan *)
    unfold profile_find_first_node in Hn.
    pose proof (find_any_range_lt t key Hwf O) as Hany.
    destruct (find_any_range t key CompLessThan O) as [m|]; [|discriminate].
    destruct Hany as (k & x & -> & Hk & Hx). cbn [Nat.add] in Hn.
    destruct (nth_error_split_at _ _ _ Hk) as [Hsplit Hlen].
    rewrite (skipn_nth_error _ _ _ Hk) in Hn. cbn [walk_next] in Hn.
    replace (key <=? start x) with false in Hn
      by (symmetry; apply Z.leb_gt; exact Hx).
    destruct (walk_next_spec key (skipn (S k) (inorder t))
                (firstn k (inorder t)) x Hx)
      as (A & r & B & Heq & Hw & Hr & _).
    rewrite Hlen in Hw. rewrite Hw in Hn. inversion Hn; subst n.
    exists r. split; [|exact Hr].
    unfold container_of. rewrite <- Hsplit in Heq. rewrite Heq.
    apply nth_error_middle.
Qed.

Lemma working_tree_split (t : rb_tree) (n : nat) (x : profile_range) :
  working_tree t -> container_of t n = Some x ->
  Forall page_bounded (firstn n (inorder t))
  /\ page_bounded x /\ nonempty x
  /\ Forall page_bounded (skipn (S n) (inorder t)).
Proof.
  intros [Hwf Hb] Hx.
  destruct (container_of_split _ _ _ Hx) as (Hsplit & _ & _).
  assert (Hin : In x (inorder t)) by (eapply nth_error_In; exact Hx).
  rewrite Hsplit in Hb. apply Forall_app in Hb. destruct Hb as [HA HxB].
  inversion HxB; subst.
  split; [exact HA|]. split; [assumption|].
  split; [exact (wf_ranges_In _ _ Hwf Hin)|assumption].
Qed.

(** [mm_split_ranges] on the range found for the key keeps a working tree
    a working tree, whatever the allocations do. *)
Lemma mm_split_ranges_working (vmalloc_ok : nat -> bool) (t : rb_tree)
    (n : nat) (r : profile_range) (key : Z) (comparator : mmap_comparator) :
  working_tree t -> container_of t n = Some r -> found_for comparator key r ->
  exists b t',
    mm_split_ranges vmalloc_ok t n key comparator = Some (b, t')
    /\ (b = true -> working_tree t').
Proof.
  intros Hw Hr Hfound.
  destruct (working_tree_split t n r Hw Hr) as (HbA & Hbr & Hne & HbB).
  pose proof Hw as [Hwf _].
  destruct r as [s e V]. unfold page_bounded, nonempty in Hbr, Hne.
  cbn [start end_] in Hbr, Hne.
  unfold mm_split_ranges. rewrite Hr. cbn [start end_ benefit].
  destruct comparator; cbn [found_for start end_] in Hfound.
  - (* CompEquals *)
    assert (Hpage : u64_add key PAGE_SIZE = key + PAGE_SIZE).
    { unfold u64_add, u64. apply Z.mod_small.
      unfold u64_modulus, PAGE_SIZE, PAGE_SHIFT in *. lia. }
    assert (Hpos : 0 < PAGE_SIZE) by (unfold PAGE_SIZE, PAGE_SHIFT; lia).
    rewrite Hpage.
    destruct (s <? key) eqn:El.
    + apply Z.ltb_lt in El.
      destruct (vmalloc_ok O); cbn [negb].
      2:{ eexists; eexists. split; [reflexivity|discriminate]. }
      destruct (split_left_step t n s e V key Hwf Hr ltac:(lia))
        as (HinL & HwfL & Hnode).
      rewrite Hnode. cbn [start end_ benefit].
      set (tL := profile_range_insert (rb_store t n (mk_range key e V))
                   (mk_range s key 0)) in *.
      assert (HwL : working_tree tL).
      { split; [exact HwfL|]. rewrite HinL.
        apply Forall_app. split; [exact HbA|].
        constructor; [unfold page_bounded; cbn [start end_]; lia|].
        constructor; [unfold page_bounded; cbn [start end_]; lia|exact HbB]. }
      destruct (key + PAGE_SIZE <? e) eqn:Er.
      * apply Z.ltb_lt in Er.
        destruct (vmalloc_ok 1%nat); cbn [negb].
        2:{ eexists; eexists. split; [reflexivity|discriminate]. }
        assert (HbaseL : container_of tL (S n) = Some (mk_range key e V)).
        { destruct (container_of_split _ _ _ Hr) as (_ & Hlen & _).
          unfold container_of. rewrite HinL.
          replace (S n) with (List.length (firstn n (inorder t)) + 1)%nat by lia.
          rewrite nth_error_app2 by lia.
          replace (List.length (firstn n (inorder t)) + 1
                   - List.length (firstn n (inorder t)))%nat with 1%nat by lia.
          reflexivity. }
        destruct (split_right_step tL (S n) key e V (key + PAGE_SIZE)
                    HwfL HbaseL ltac:(lia)) as [HinR HwfR].
        destruct (working_tree_split tL (S n) _ HwL HbaseL)
          as (HbA' & _ & _ & HbB').
        eexists; eexists. split; [reflexivity|]. intros _.
        split; [exact HwfR|]. rewrite HinR.
        apply Forall_app. split; [exact HbA'|].
        constructor; [unfold page_bounded; cbn [start end_]; lia|].
        constructor; [unfold page_bounded; cbn [start end_]; lia|exact HbB'].
      * eexists; eexists. split; [reflexivity|]. intros _. exact HwL.
    + apply Z.ltb_ge in El. cbn [start end_ benefit].
      destruct (key + PAGE_SIZE <? e) eqn:Er.
      * apply Z.ltb_lt in Er.
        destruct (vmalloc_ok O); cbn [negb].
        2:{ eexists; eexists. split; [reflexivity|discriminate]. }
        destruct (split_right_step t n s e V (key + PAGE_SIZE) Hwf Hr
                    ltac:(lia)) as [HinR HwfR].
        eexists; eexists. split; [reflexivity|]. intros _.
        split; [exact HwfR|]. rewrite HinR.
        apply Forall_app. split; [exact HbA|].
        constructor; [unfold page_bounded; cbn [start end_]; lia|].
        constructor; [unfold page_bounded; cbn [start end_]; lia|exact HbB].
      * eexists; eexists. split; [reflexivity|]. intros _. exact Hw.
  - (* CompGreaterThan *)
    destruct (key <=? s) eqn:E.
    { eexists; eexists. split; [reflexivity|]. intros _. exact Hw. }
    apply Z.leb_gt in E.
    destruct (vmalloc_ok O); cbn [negb].
    2:{ eexists; eexists. split; [reflexivity|discriminate]. }
    destruct (split_left_step t n s e V key Hwf Hr ltac:(lia))
      as (HinL & HwfL & _).
    eexists; eexists. split; [reflexivity|]. intros _.
    split; [exact HwfL|]. rewrite HinL.
    apply Forall_app. split; [exact HbA|].
    constructor; [unfold page_bounded; cbn [start end_]; lia|].
    constructor; [unfold page_bounded; cbn [start end_]; lia|exact HbB].
  - (* CompLessThan *)
    destruct (e <=? key) eqn:E.
    { eexists; eexists. split; [reflexivity|]. intros _. exact Hw. }
    apply Z.leb_gt in E.
    destruct (vmalloc_ok O); cbn [negb].
    2:{ eexists; eexists. split; [reflexivity|discriminate]. }
    destruct (split_right_step t n s e V key Hwf Hr ltac:(lia))
      as [HinR HwfR].
    eexists; eexists. split; [reflexivity|]. intros _.
    split; [exact HwfR|]. rewrite HinR.
    apply Forall_app. split; [exact HbA|].
    constructor; [unfold page_bounded; cbn [start end_]; lia|].
    constructor; [unfold page_bounded; cbn [start end_]; lia|exact HbB].
Qed.

Lemma working_tree_store (t : rb_tree) (n : nat) (r : profile_range) (b : Z) :
  working_tree t -> container_of t n = Some r ->
  working_tree (rb_store t n (mk_range (start r) (end_ r) b))
  /\ container_of (rb_store t n (mk_range (start r) (end_ r) b)) n
     = Some (mk_range (start r) (end_ r) b).
Proof.
  intros Hw Hr.
  destruct (working_tree_split t n r Hw Hr) as (HbA & Hbr & Hne & HbB).
  destruct Hw as [Hwf _].
  destruct (container_of_split _ _ _ Hr) as (Hsplit & Hlen & Hlt).
  assert (Hin : inorder (rb_store t n (mk_range (start r) (end_ r) b))
                = firstn n (inorder t)
                  ++ mk_range (start r) (end_ r) b :: skipn (S n) (inorder t))
    by (apply inorder_rb_store, Hlt).
  split; [split|].
  - rewrite Hin. rewrite Hsplit in Hwf.
    apply (wf_ranges_narrow _ _ r); cbn [start end_]; auto; lia.
  - rewrite Hin. apply Forall_app. split; [exact HbA|].
    constructor; [exact Hbr|exact HbB].
  - unfold container_of. rewrite Hin.
    rewrite <- Hlen at 3. apply nth_error_middle.
Qed.

Lemma split_for_filter_working (vmalloc_ok : nat -> bool) (filter : mmap_filter)
    (temp : rb_tree) (n : nat) (key : Z) (comparator : mmap_comparator)
    (allocs : nat) (r : profile_range) :
  working_tree temp -> container_of temp n = Some r ->
  found_for comparator key r ->
  exists res,
    split_for_filter vmalloc_ok filter temp n key comparator allocs = Some res
    /\ match res with
       | None => True
       | Some (temp', _) => working_tree temp'
       end.
Proof.
  intros Hw Hr Hfound. unfold split_for_filter. rewrite Hr.
  destruct (working_tree_store temp n r (filter_benefit filter) Hw Hr)
    as [Hw1 Hr1].
  assert (Hfound1 : found_for comparator key
                      (mk_range (start r) (end_ r) (filter_benefit filter)))
    by (destruct comparator; exact Hfound).
  destruct (mm_split_ranges_working (fun k => vmalloc_ok (allocs + k)%nat)
              _ n _ key comparator Hw1 Hr1 Hfound1) as (b & t' & Hs & Ht').
  rewrite Hs. destruct b.
  - eexists. split; [reflexivity|]. apply Ht'. reflexivity.
  - eexists. split; [reflexivity|]. exact I.
Qed.

Lemma working_tree_single (r : profile_range) :
  nonempty r -> page_bounded r ->
  working_tree (rb_node rb_null r rb_null).
Proof.
  intros Hne Hb. split; cbn [inorder app].
  - apply wf_ranges_cons. split; [exact Hne|].
    split; [apply wf_ranges_nil|intros b []].
  - constructor; [exact Hb|constructor].
Qed.

Lemma working_tree_nil : working_tree RB_ROOT.
Proof. split; [apply wf_ranges_nil|constructor]. Qed.

Lemma wf_ranges_same_bounds (g : profile_range -> profile_range)
    (l : list profile_range) :
  (forall r, start (g r) = start r /\ end_ (g r) = end_ r) ->
  wf_ranges l -> wf_ranges (map g l).
Proof.
  intros Hg. induction l as [|x l IH]; intros Hwf; cbn [map].
  - apply wf_ranges_nil.
  - apply wf_ranges_cons in Hwf. destruct Hwf as (Hx & Hl & Hxb).
    apply wf_ranges_cons. split; [|split].
    + unfold nonempty in *. destruct (Hg x) as [-> ->]. exact Hx.
    + apply IH, Hl.
    + intros b Hb. apply in_map_iff in Hb. destruct Hb as (y & <- & Hy).
      specialize (Hxb y Hy). unfold before in *.
      destruct (Hg x) as [_ ->]. destruct (Hg y) as [-> _]. exact Hxb.
Qed.

Lemma inorder_set_unset_benefits (t : rb_tree) (b : Z) :
  inorder (set_unset_benefits t b)
  = map (fun x => if benefit x =? 0 then mk_range (start x) (end_ x) b else x)
      (inorder t).
Proof.
  induction t as [|l IHl x r IHr]; cbn [set_unset_benefits inorder map];
    [reflexivity|].
  rewrite IHl, IHr, map_app. reflexivity.
Qed.

Lemma working_tree_set_unset_benefits (t : rb_tree) (b : Z) :
  working_tree t -> working_tree (set_unset_benefits t b).
Proof.
  intros [Hwf Hb].
  unfold working_tree. rewrite inorder_set_unset_benefits. split.
  - apply wf_ranges_same_bounds; [|exact Hwf].
    intros r. destruct (benefit r =? 0); split; reflexivity.
  - apply Forall_forall. intros y Hy.
    apply in_map_iff in Hy. destruct Hy as (x & <- & Hx).
    pose proof (proj1 (Forall_forall _ _) Hb x Hx) as Hbx.
    destruct (benefit x =? 0); exact Hbx.
Qed.

Lemma working_tree_erase (t : rb_tree) (n : nat) :
  working_tree t -> (n < size t)%nat -> working_tree (rb_erase t n).
Proof.
  intros Hw Hn.
  assert (Hx : exists x, container_of t n = Some x).
  { unfold container_of. destruct (nth_error (inorder t) n) eqn:E;
      [eexists; reflexivity|].
    apply nth_error_None in E. rewrite size_inorder in E. lia. }
  destruct Hx as (x & Hx).
  destruct (working_tree_split t n x Hw Hx) as (HbA & _ & _ & HbB).
  destruct (container_of_split _ _ _ Hx) as (Hsplit & _ & _).
  destruct Hw as [Hwf _]. unfold working_tree.
  rewrite inorder_rb_erase by exact Hn. split.
  - rewrite Hsplit in Hwf. apply wf_ranges_app in Hwf.
    destruct Hwf as (HA & HxB & HAx).
    apply wf_ranges_cons in HxB. destruct HxB as (_ & HB & _).
    apply wf_ranges_app. split; [exact HA|]. split; [exact HB|].
    intros a b Ha Hb. apply HAx; [exact Ha|right; exact Hb].
  - apply Forall_app. split; assumption.
Qed.

Lemma working_tree_move (src dst : rb_tree) :
  working_tree src -> working_tree dst ->
  working_tree (snd (profile_move src dst)).
Proof.
  intros [Hs Hbs] [Hd Hbd]. unfold profile_move.
  destruct (profile_move_loop_spec (size src) src dst (le_n _) Hs Hd)
    as (_ & Hwf & Hin).
  split; [exact Hwf|].
  apply Forall_forall. intros r Hr. apply Hin in Hr.
  destruct Hr as [Hr|[Hr _]].
  - exact (proj1 (Forall_forall _ _) Hbs r Hr).
  - exact (proj1 (Forall_forall _ _) Hbd r Hr).
Qed.

Section WorkingTrees.

Variable vmalloc_ok : nat -> bool.
Variable msection : mm_memory_section.
Variables mapaddr section_off len prot flags fd off : Z.

Lemma match_comparisons_working (filter : mmap_filter) (subranges : rb_tree)
    (cs : list mmap_comparison) :
  working_tree subranges ->
  forall passes_filter parent_range temp allocs,
  working_tree temp ->
  (parent_range = None -> temp = RB_ROOT) ->
  (forall n, parent_range = Some n -> (n < size subranges)%nat) ->
  exists out,
    match_comparisons vmalloc_ok msection mapaddr section_off len prot flags
      fd off filter subranges cs passes_filter parent_range temp allocs
    = Some out
    /\ match out with
       | ComparisonsDone _ parent temp' _ =>
           working_tree temp'
           /\ forall n, parent = Some n -> (n < size subranges)%nat
       | ComparisonsErr => True
       end.
Proof.
  intros Hsub.
  induction cs as [|c cs IH];
    intros passes_filter parent_range temp allocs Htemp Hnone Hparent;
    cbn [match_comparisons].
  { eexists. split; [reflexivity|]. split; assumption. }
  destruct passes_filter; cbn [negb].
  2:{ eexists. split; [reflexivity|]. split; assumption. }
  assert (Hplain : forall value,
    exists out,
      match_comparisons vmalloc_ok msection mapaddr section_off len prot
        flags fd off filter subranges cs
        (true && mm_does_quantity_match c value) parent_range temp allocs
      = Some out
      /\ match out with
         | ComparisonsDone _ parent temp' _ =>
             working_tree temp'
             /\ forall n, parent = Some n -> (n < size subranges)%nat
         | ComparisonsErr => True
         end).
  { intros value. apply IH; assumption. }
  assert (Haddr :
    exists out,
      (let (search_key, comparator) :=
         search_key_of msection mapaddr section_off c in
       match parent_range with
       | None =>
           match profile_find_first_node subranges search_key comparator with
           | None => Some (ComparisonsDone false None temp allocs)
           | Some parent =>
               match container_of subranges parent with
               | None => None
               | Some p =>
                   if negb (benefit p =? 0)
                   then Some (ComparisonsDone false (Some parent) temp allocs)
                   else if negb (vmalloc_ok allocs)
                   then Some ComparisonsErr
                   else
                     let range := mk_range (start p) (end_ p) (benefit p) in
                     match split_for_filter vmalloc_ok filter
                             (profile_range_insert temp range)
                             (node_of_insert temp range)
                             search_key comparator (S allocs) with
                     | None => None
                     | Some None => Some ComparisonsErr
                     | Some (Some (temp0, allocs')) =>
                         match_comparisons vmalloc_ok msection mapaddr
                           section_off len prot flags fd off filter subranges
                           cs true (Some parent) temp0 allocs'
                     end
               end
           end
       | Some _ =>
           match profile_find_first_node temp search_key comparator with
           | None => Some (ComparisonsDone false parent_range temp allocs)
           | Some range =>
               match split_for_filter vmalloc_ok filter temp range
                       search_key comparator allocs with
               | None => None
               | Some None => Some ComparisonsErr
               | Some (Some (temp0, allocs')) =>
                   match_comparisons vmalloc_ok msection mapaddr section_off
                     len prot flags fd off filter subranges cs true
                     parent_range temp0 allocs'
               end
           end
       end) = Some out
      /\ match out with
         | ComparisonsDone _ parent temp' _ =>
             working_tree temp'
             /\ forall n, parent = Some n -> (n < size subranges)%nat
         | ComparisonsErr => True
         end).
  { destruct (search_key_of msection mapaddr section_off c)
      as [search_key comparator].
    destruct parent_range as [parent|].
    - (* a range of the temporary tree *)
      destruct (profile_find_first_node temp search_key comparator)
        as [range|] eqn:Ef.
      2:{ eexists. split; [reflexivity|]. split; assumption. }
      destruct (profile_find_first_node_found temp search_key comparator range
                  (proj1 Htemp) Ef) as (r & Hr & Hfound).
      destruct (split_for_filter_working vmalloc_ok filter temp range
                  search_key comparator allocs r Htemp Hr Hfound)
        as (res & Hres & Hok).
      rewrite Hres. destruct res as [[temp0 allocs']|].
      + apply IH; [exact Hok|discriminate|exact Hparent].
      + eexists. split; [reflexivity|exact I].
    - (* the parent range is looked up first *)
      rewrite (Hnone eq_refl).
      destruct (profile_find_first_node subranges search_key comparator)
        as [parent|] eqn:Ef.
      2:{ eexists. split; [reflexivity|].
          split; [apply working_tree_nil|discriminate]. }
      destruct (profile_find_first_node_found subranges search_key comparator
                  parent (proj1 Hsub) Ef) as (p & Hp & Hfound).
      rewrite Hp.
      assert (Hlt : (parent < size subranges)%nat)
        by (destruct (container_of_split _ _ _ Hp) as (_ & _ & H); exact H).
      destruct (benefit p =? 0); cbn [negb].
      2:{ eexists. split; [reflexivity|].
          split; [apply working_tree_nil|].
          intros n Hn. inversion Hn; subst. exact Hlt. }
      destruct (vmalloc_ok allocs); cbn [negb].
      2:{ eexists. split; [reflexivity|exact I]. }
      destruct (working_tree_split subranges parent p Hsub Hp)
        as (_ & Hbp & Hnp & _).
      change (profile_range_insert RB_ROOT ?r) with (rb_node rb_null r rb_null).
      change (node_of_insert RB_ROOT ?r) with O.
      assert (Hsingle : working_tree
                (rb_node rb_null (mk_range (start p) (end_ p) (benefit p))
                   rb_null))
        by (apply working_tree_single; assumption).
      assert (Hfound' : found_for comparator search_key
                          (mk_range (start p) (end_ p) (benefit p)))
        by (destruct comparator; exact Hfound).
      destruct (split_for_filter_working vmalloc_ok filter _ O search_key
                  comparator (S allocs) _ Hsingle eq_refl Hfound')
        as (res & Hres & Hok).
      rewrite Hres. destruct res as [[temp0 allocs']|].
      + apply IH; [exact Hok|discriminate|].
        intros n Hn. inversion Hn; subst. exact Hlt.
      + eexists. split; [reflexivity|exact I]. }
  destruct (quant c); try exact Haddr; apply Hplain.
Qed.

Lemma apply_filters_working (fs : list mmap_filter) :
  forall huge eager allocs,
  working_tree huge -> working_tree eager ->
  exists res,
    apply_filters vmalloc_ok msection mapaddr section_off len prot flags fd
      off fs huge eager allocs = Some res
    /\ match res with
       | None => True
       | Some (huge', eager') => working_tree huge' /\ working_tree eager'
       end.
Proof.
  induction fs as [|filter fs IH]; intros huge eager allocs Hh He;
    cbn [apply_filters].
  { eexists. split; [reflexivity|]. split; assumption. }
  set (subranges := match policy filter with
                    | PolicyHugePage => huge
                    | PolicyEagerPage => eager
                    end).
  assert (Hsub : working_tree subranges)
    by (unfold subranges; destruct (policy filter); assumption).
  destruct (match_comparisons_working filter subranges (comparisons filter)
              Hsub (mm_memory_section_eqb msection (section filter)) None
              RB_ROOT allocs working_tree_nil (fun _ => eq_refl)
              ltac:(discriminate)) as (out & Hout & Hok).
  rewrite Hout.
  destruct out as [passes parent temp allocs'|].
  2:{ eexists. split; [reflexivity|exact I]. }
  destruct Hok as [Htemp Hparent].
  destruct passes; [|apply IH; assumption].
  destruct parent as [parent|].
  - assert (Hnew : working_tree
                     (snd (profile_move temp (rb_erase subranges parent)))).
    { apply working_tree_move; [exact Htemp|].
      apply working_tree_erase; [exact Hsub|]. apply Hparent. reflexivity. }
    destruct (policy filter); apply IH; assumption.
  - pose proof (working_tree_set_unset_benefits subranges
                  (filter_benefit filter) Hsub) as Hnew.
    eexists. split; [reflexivity|].
    destruct (policy filter); split; assumption.
Qed.

End WorkingTrees.

(** Masking with [PAGE_MASK] rounds a [u64] down to a page boundary. *)
Lemma land_PAGE_MASK (x : Z) :
  0 <= x < u64_modulus ->
  Z.land x PAGE_MASK = PAGE_SIZE * (x / PAGE_SIZE).
Proof.
  intros Hx.
  change PAGE_MASK with (Z.shiftl (Z.ones 52) 12).
  change PAGE_SIZE with (2 ^ 12).
  rewrite Z.mul_comm, <- Z.shiftr_div_pow2, <- Z.shiftl_mul_pow2 by lia.
  apply Z.bits_inj'. intros i Hi.
  rewrite Z.land_spec.
  destruct (Z.ltb_spec i 12) as [Hlow|Hhigh].
  - rewrite !Z.shiftl_spec_low by exact Hlow. apply andb_false_r.
  - rewrite !Z.shiftl_spec by exact Hi. rewrite Z.shiftr_spec by lia.
    replace (i - 12 + 12) with i by lia.
    destruct (Z.ltb_spec i 64) as [Hin|Hout].
    + rewrite Z.ones_spec_low by lia. apply andb_true_r.
    + rewrite Z.ones_spec_high by lia. rewrite andb_false_r.
      symmetry. destruct (Z.eq_dec x 0) as [->|Hnz]; [apply Z.testbit_0_l|].
      apply Z.bits_above_log2; [lia|].
      apply Z.log2_lt_pow2; [lia|].
      apply Z.lt_le_trans with (2 ^ 64); [exact (proj2 Hx)|].
      apply Z.pow_le_mono_r; lia.
Qed.

(** The page-aligned range of a mapping that is not empty and ends a page
    below the top of the address space. *)
Lemma aligned_range_working (mapaddr len b : Z) :
  0 <= mapaddr -> 0 < len -> mapaddr + len + PAGE_SIZE - 1 < u64_modulus ->
  nonempty (aligned_range mapaddr len b)
  /\ page_bounded (aligned_range mapaddr len b).
Proof.
  intros Hm Hl Htop.
  assert (Hpage : PAGE_SIZE = 4096) by reflexivity.
  assert (Hmod : u64_modulus = 18446744073709551616) by reflexivity.
  assert (Hend : u64_sub (u64_add (u64_add mapaddr len) PAGE_SIZE) 1
                 = mapaddr + len + PAGE_SIZE - 1).
  { unfold u64_sub, u64_add, u64. rewrite Hpage, Hmod in *.
    rewrite Zplus_mod_idemp_l, Zminus_mod_idemp_l.
    apply Z.mod_small. lia. }
  unfold aligned_range, nonempty, page_bounded. cbn [start end_].
  rewrite Hend.
  rewrite !land_PAGE_MASK by lia.
  rewrite Hpage in *. rewrite Hmod in *.
  pose proof (Z.div_mod mapaddr 4096 ltac:(lia)) as D1.
  pose proof (Z.mod_pos_bound mapaddr 4096 ltac:(lia)) as B1.
  pose proof (Z.div_mod (mapaddr + len + 4096 - 1) 4096 ltac:(lia)) as D2.
  pose proof (Z.mod_pos_bound (mapaddr + len + 4096 - 1) 4096 ltac:(lia)) as B2.
  pose proof (Z.div_pos mapaddr 4096 Hm ltac:(lia)) as P1.
  assert (P3 : (mapaddr + len + 4096 - 1) / 4096 <= 4503599627370495).
  { apply Z.lt_succ_r. apply Z.div_lt_upper_bound; lia. }
  lia.
Qed.

Section AddMemoryRangeWholeMatch.

Variable vmalloc_ok : nat -> bool.
Variable msection : mm_memory_section.
Variables mapaddr section_off len prot flags fd off : Z.

Lemma stored_profile_range_insert (t : rb_tree) (new_range r : profile_range) :
  interval_store t -> nonempty new_range ->
  (stored (profile_range_insert t new_range) r <->
   r = new_range
   \/ (stored t r /\ ~ meets (start new_range) (end_ new_range) r)).
Proof.
  intros Ht Hnew. apply interval_store_wf in Ht. unfold stored.
  rewrite (inorder_profile_range_insert t new_range Ht Hnew).
  rewrite (In_insert_spec (inorder t) new_range r Hnew).
  unfold meets. unfold nonempty in Hnew. split.
  - intros [Hr|[Hr Hno]]; [left; exact Hr|right]. split; [exact Hr|].
    pose proof (wf_ranges_In _ _ Ht Hr) as Hne. unfold nonempty in Hne.
    apply ranges_overlap_false in Hno. lia.
  - intros [Hr|[Hr Hno]]; [left; exact Hr|right]. split; [exact Hr|].
    pose proof (wf_ranges_In _ _ Ht Hr) as Hne. unfold nonempty in Hne.
    apply ranges_overlap_false. lia.
Qed.

(** X18: take a process whose two trees are interval stores, and a mapping
    that is not empty and ends a page below the top of the address space.
    When the first two allocations of [mm_add_memory_range] succeed and the
    filters of the process, up to and including the first one that matches
    the mapping, compare no address and no section offset, the call gives
    each tree of the process the page-aligned range of the mapping as one
    range: with the benefit of that first matching filter in the tree of
    the filter's policy, with benefit 0 in the other.  Of the ranges a tree
    held before, exactly those that do not meet the mapping stay.  The
    filters behind the first match are not looked at, whatever their
    policy; when no filter matches, both trees get the range with
    benefit 0.  Both trees are interval stores afterwards; the filters of
    the process and the other processes are untouched. *)
Theorem mm_add_memory_range_whole_match (procs : list mmap_filter_proc)
    (p : Z) (proc : mmap_filter_proc) (skipped tail : list mmap_filter) :
  find_filter_proc_by_pid procs p = Some proc ->
  vmalloc_ok O = true -> vmalloc_ok 1%nat = true ->
  interval_store (hp_ranges_root proc) ->
  interval_store (eager_ranges_root proc) ->
  0 <= mapaddr -> 0 < len -> mapaddr + len + PAGE_SIZE - 1 < u64_modulus ->
  filters proc = skipped ++ tail ->
  Forall (fun f => tests_no_address f = true
                   /\ matches_mapping msection len prot flags fd off f = false)
    skipped ->
  match tail with
  | [] => True
  | f :: _ => tests_no_address f = true
              /\ matches_mapping msection len prot flags fd off f = true
  end ->
  let huge_benefit :=
    match tail with
    | f :: _ => match policy f with PolicyHugePage => filter_benefit f | _ => 0 end
    | [] => 0
    end in
  let eager_benefit :=
    match tail with
    | f :: _ => match policy f with PolicyEagerPage => filter_benefit f | _ => 0 end
    | [] => 0
    end in
  let lo := start (aligned_range mapaddr len 0) in
  let hi := end_ (aligned_range mapaddr len 0) in
  exists procs' proc',
    mm_add_memory_range vmalloc_ok msection mapaddr section_off len prot
      flags fd off procs p = Some procs'
    /\ find_filter_proc_by_pid procs' p = Some proc'
    /\ filters proc' = filters proc
    /\ (forall r, stored (hp_ranges_root proc') r <->
          r = aligned_range mapaddr len huge_benefit
          \/ (stored (hp_ranges_root proc) r /\ ~ meets lo hi r))
    /\ (forall r, stored (eager_ranges_root proc') r <->
          r = aligned_range mapaddr len eager_benefit
          \/ (stored (eager_ranges_root proc) r /\ ~ meets lo hi r))
    /\ interval_store (hp_ranges_root proc')
    /\ interval_store (eager_ranges_root proc')
    /\ forall q, q <> p ->
         find_filter_proc_by_pid procs' q = find_filter_proc_by_pid procs q.
Proof.
  intros Hfind H0 H1 Hhp Heager Hm Hl Htop Hfs Hskipped Htail
    huge_benefit eager_benefit lo hi.
  rewrite (mm_add_memory_range_first_match vmalloc_ok msection mapaddr
             section_off len prot flags fd off procs p proc skipped tail
             Hfind H0 H1 Hfs Hskipped Htail).
  fold huge_benefit eager_benefit.
  pose proof (find_filter_proc_by_pid_pid procs p proc Hfind) as Hpid.
  destruct (aligned_range_working mapaddr len huge_benefit Hm Hl Htop)
    as [Hnh _].
  destruct (aligned_range_working mapaddr len eager_benefit Hm Hl Htop)
    as [Hne _].
  eexists; eexists. split; [reflexivity|].
  rewrite find_replace_proc. cbn [pid filters hp_ranges_root eager_ranges_root].
  rewrite Hpid, Z.eqb_refl, Hfind.
  split; [reflexivity|]. split; [reflexivity|].
  split; [|split; [|split; [|split]]].
  - intros r. apply (stored_profile_range_insert _ _ r Hhp Hnh).
  - intros r. apply (stored_profile_range_insert _ _ r Heager Hne).
  - apply interval_store_wf. apply wf_ranges_profile_range_insert.
    + apply interval_store_wf, Hhp.
    + exact Hnh.
  - apply interval_store_wf. apply wf_ranges_profile_range_insert.
    + apply interval_store_wf, Heager.
    + exact Hne.
  - intros q Hq. rewrite find_replace_proc. cbn [pid]. rewrite ?Hpid.
    replace (q =? p) with false by (symmetry; apply Z.eqb_neq; exact Hq).
    reflexivity.
Qed.

End AddMemoryRangeWholeMatch.

Lemma mm_add_memory_range_whole_match_witness :
  let miss := mk_filter SectionHeap PolicyHugePage 3 [] in
  let hit := mk_filter SectionMmap PolicyEagerPage 7
               [mk_comparison QuantLen CompGreaterThan 100] in
  let late := mk_filter SectionMmap PolicyHugePage 9 [] in
  let hp := rb_node (rb_node rb_null (mk_range 0 4096 5) rb_null)
              (mk_range 20480 24576 9) rb_null in
  let proc := mk_proc 7 [miss; hit; late] hp RB_ROOT in
  exists procs' proc',
    mm_add_memory_range (fun _ => true) SectionMmap 16385 0 16000 0 0 0 0
      [proc] 7 = Some procs'
    /\ find_filter_proc_by_pid procs' 7 = Some proc'
    /\ stored (hp_ranges_root proc') (mk_range 16384 32768 0)
    /\ stored (hp_ranges_root proc') (mk_range 0 4096 5)
    /\ ~ stored (hp_ranges_root proc') (mk_range 20480 24576 9)
    /\ stored (eager_ranges_root proc') (mk_range 16384 32768 7).
Proof.
  intros miss hit late hp proc.
  assert (Hskipped :
    Forall (fun f => tests_no_address f = true
                     /\ matches_mapping SectionMmap 16000 0 0 0 0 f = false)
      [miss]).
  { constructor; [split; reflexivity|constructor]. }
  assert (Hhit : tests_no_address hit = true
                 /\ matches_mapping SectionMmap 16000 0 0 0 0 hit = true).
  { split; reflexivity. }
  assert (Hhp : interval_store hp).
  { apply interval_store_wf. cbn [hp inorder app].
    repeat (apply wf_ranges_cons; split;
            [unfold nonempty; cbn; lia
            |split; [|intros b Hb; cbn in Hb; unfold before;
                      intuition (subst; cbn; lia)]]).
    apply wf_ranges_nil. }
  assert (He : interval_store RB_ROOT).
  { apply interval_store_wf. apply wf_ranges_nil. }
  assert (Hm : 0 <= 16385) by lia.
  assert (Hl : 0 < 16000) by lia.
  assert (Htop : 16385 + 16000 + PAGE_SIZE - 1 < u64_modulus)
    by (vm_compute; reflexivity).
  destruct (mm_add_memory_range_whole_match (fun _ => true) SectionMmap 16385
              0 16000 0 0 0 0 [proc] 7 proc [miss] [hit; late] eq_refl
              eq_refl eq_refl Hhp He Hm Hl Htop eq_refl Hskipped Hhit)
    as (procs' & proc' & Hres & Hfind & _ & Hh & Heg & _).
  exists procs', proc'. split; [exact Hres|]. split; [exact Hfind|].
  split; [|split; [|split]].
  - apply Hh. left. reflexivity.
  - apply Hh. right. split; [cbn; tauto|]. unfold meets. cbn. lia.
  - intros Hs. apply Hh in Hs. destruct Hs as [Hs|[_ Hs]].
    + discriminate Hs.
    + apply Hs. unfold meets. cbn. lia.
  - apply Heg. left. reflexivity.
Defined.

Section AddMemoryRangeStores.

Variable vmalloc_ok : nat -> bool.
Variable msection : mm_memory_section.
Variables mapaddr section_off len prot flags fd off : Z.

(** X19: for a mapping that is not empty and ends a page below the top of
    the address space, [mm_add_memory_range] on a process whose two trees
    are interval stores returns (no pointer of the function is left
    dangling, whatever filters the process has and whichever allocations
    fail), and both trees are interval stores afterwards.  The filters of
    the process and the profiles of the other processes are untouched. *)
Theorem mm_add_memory_range_keeps_stores (procs : list mmap_filter_proc)
    (p : Z) (proc : mmap_filter_proc) :
  find_filter_proc_by_pid procs p = Some proc ->
  interval_store (hp_ranges_root proc) ->
  interval_store (eager_ranges_root proc) ->
  0 <= mapaddr -> 0 < len -> mapaddr + len + PAGE_SIZE - 1 < u64_modulus ->
  exists procs' proc',
    mm_add_memory_range vmalloc_ok msection mapaddr section_off len prot
      flags fd off procs p = Some procs'
    /\ find_filter_proc_by_pid procs' p = Some proc'
    /\ filters proc' = filters proc
    /\ interval_store (hp_ranges_root proc')
    /\ interval_store (eager_ranges_root proc')
    /\ forall q, q <> p ->
         find_filter_proc_by_pid procs' q = find_filter_proc_by_pid procs q.
Proof.
  intros Hfind Hhp Heager Hm Hl Htop.
  assert (Hsame : exists procs' proc',
            Some procs = Some procs'
            /\ find_filter_proc_by_pid procs' p = Some proc'
            /\ filters proc' = filters proc
            /\ interval_store (hp_ranges_root proc')
            /\ interval_store (eager_ranges_root proc')
            /\ forall q, q <> p ->
                 find_filter_proc_by_pid procs' q
                 = find_filter_proc_by_pid procs q).
  { exists procs, proc. split; [reflexivity|]. split; [exact Hfind|].
    split; [reflexivity|]. split; [exact Hhp|]. split; [exact Heager|].
    intros q _. reflexivity. }
  unfold mm_add_memory_range. rewrite Hfind.
  destruct (vmalloc_ok O); cbn [negb]; [|exact Hsame].
  fold (aligned_range mapaddr len 0).
  change (profile_range_insert RB_ROOT ?r) with (rb_node rb_null r rb_null).
  unfold mm_copy_profile_range. cbn [inorder app copy_profile_ranges].
  destruct (vmalloc_ok 1%nat); cbn [negb];
    [|change (-1 =? 0) with false; cbn [negb]; exact Hsame].
  change (profile_range_insert RB_ROOT ?r) with (rb_node rb_null r rb_null).
  change (0 =? 0) with true. cbn [negb].
  destruct (aligned_range_working mapaddr len 0 Hm Hl Htop) as [Hne Hb].
  assert (Hw : working_tree (rb_node rb_null (aligned_range mapaddr len 0)
                               rb_null))
    by (apply working_tree_single; assumption).
  assert (Hw' : working_tree
                  (rb_node rb_null
                     (mk_range (start (aligned_range mapaddr len 0))
                        (end_ (aligned_range mapaddr len 0))
                        (benefit (aligned_range mapaddr len 0))) rb_null))
    by exact Hw.
  destruct (apply_filters_working vmalloc_ok msection mapaddr section_off len
              prot flags fd off (filters proc) _ _ 2%nat Hw Hw')
    as (res & Hres & Hok).
  rewrite Hres. destruct res as [[huge eager]|]; [|exact Hsame].
  destruct Hok as [[Hwh _] [Hwe _]].
  apply interval_store_wf in Hhp, Heager.
  pose proof (find_filter_proc_by_pid_pid procs p proc Hfind) as Hpid.
  eexists; eexists. split; [reflexivity|].
  rewrite find_replace_proc. cbn [pid filters hp_ranges_root eager_ranges_root].
  rewrite Hpid, Z.eqb_refl, Hfind.
  split; [reflexivity|]. split; [reflexivity|].
  split; [|split].
  - apply interval_store_wf. unfold profile_move.
    exact (proj1 (proj2 (profile_move_loop_spec _ huge _ (le_n _) Hwh Hhp))).
  - apply interval_store_wf. unfold profile_move.
    exact (proj1 (proj2 (profile_move_loop_spec _ eager _ (le_n _) Hwe Heager))).
  - intros q Hq. rewrite find_replace_proc. cbn [pid]. rewrite ?Hpid.
    replace (q =? p) with false by (symmetry; apply Z.eqb_neq; exact Hq).
    reflexivity.
Qed.

End AddMemoryRangeStores.

Lemma mm_add_memory_range_keeps_stores_witness :
  let f1 := mk_filter SectionMmap PolicyHugePage 5
              [mk_comparison QuantAddr CompEquals 20481;
               mk_comparison QuantAddr CompLessThan 22000] in
  let f2 := mk_filter SectionMmap PolicyHugePage 16
              [mk_comparison QuantAddr CompGreaterThan 20480] in
  let f3 := mk_filter SectionMmap PolicyEagerPage 9 [] in
  let old := rb_node rb_null (mk_range 0 20000 3) rb_null in
  let proc := mk_proc 7 [f1; f2; f3] old RB_ROOT in
  exists procs' proc',
    mm_add_memory_range (fun _ => true) SectionMmap 16384 0 16384 0 0 0 0
      [proc] 7 = Some procs'
    /\ find_filter_proc_by_pid procs' 7 = Some proc'
    /\ interval_store (hp_ranges_root proc')
    /\ interval_store (eager_ranges_root proc').
Proof.
  intros f1 f2 f3 old proc.
  assert (Hold : interval_store old).
  { apply interval_store_wf. cbn [old inorder app].
    apply wf_ranges_cons. split; [unfold nonempty; cbn; lia|].
    split; [apply wf_ranges_nil|intros b []]. }
  assert (Hnil : interval_store RB_ROOT)
    by (apply interval_store_wf, wf_ranges_nil).
  assert (H0 : 0 <= 16384) by lia.
  assert (H1 : 0 < 16384) by lia.
  assert (H2 : 16384 + 16384 + PAGE_SIZE - 1 < u64_modulus)
    by (vm_compute; reflexivity).
  destruct (mm_add_memory_range_keeps_stores (fun _ => true) SectionMmap
              16384 0 16384 0 0 0 0 [proc] 7 proc eq_refl Hold Hnil H0 H1 H2)
    as (procs' & proc' & Hr & Hf & _ & Hh & He & _).
  exists procs', proc'. split; [exact Hr|]. split; [exact Hf|].
  split; [exact Hh|exact He].
Defined.

(** *** What the trees hold after mm_add_memory_range *)

Lemma tiles_app (l1 l2 : list profile_range) :
  forall a b,
  tiles a b (l1 ++ l2) <-> exists m, tiles a m l1 /\ tiles m b l2.
Proof.
  induction l1 as [|x l1 IH]; intros a b; cbn [app tiles].
  - split.
    + intros H. exists a. split; [reflexivity|exact H].
    + intros (m & -> & H). exact H.
  - rewrite IH. split.
    + intros (H1 & H2 & m & H3 & H4). exists m. tauto.
    + intros (m & (H1 & H2 & H3) & H4). split; [exact H1|].
      split; [exact H2|]. exists m. tauto.
Qed.

Lemma tiles_le (l : list profile_range) :
  forall a b, tiles a b l -> a <= b.
Proof.
  induction l as [|x l IH]; intros a b; cbn [tiles].
  - lia.
  - intros (H1 & H2 & H3). specialize (IH _ _ H3). lia.
Qed.

Lemma tiles_In (l : list profile_range) :
  forall a b r, tiles a b l -> In r l ->
  a <= start r /\ start r < end_ r /\ end_ r <= b.
Proof.
  induction l as [|x l IH]; intros a b r Ht Hr; [destruct Hr|].
  cbn [tiles] in Ht. destruct Ht as (H1 & H2 & H3).
  pose proof (tiles_le _ _ _ H3).
  destruct Hr as [<-|Hr]; [lia|].
  specialize (IH _ _ r H3 Hr). lia.
Qed.

Lemma tiles_wf (l : list profile_range) :
  forall a b, tiles a b l -> wf_ranges l.
Proof.
  induction l as [|x l IH]; intros a b Ht; [apply wf_ranges_nil|].
  cbn [tiles] in Ht. destruct Ht as (H1 & H2 & H3).
  apply wf_ranges_cons. split; [unfold nonempty; lia|].
  split; [exact (IH _ _ H3)|].
  intros y Hy. pose proof (tiles_In _ _ _ y H3 Hy). unfold before. lia.
Qed.

Lemma tiles_cover (l : list profile_range) :
  forall a b x, tiles a b l -> a <= x < b ->
  exists r, In r l /\ start r <= x < end_ r.
Proof.
  induction l as [|y l IH]; intros a b x Ht Hx; cbn [tiles] in Ht.
  - lia.
  - destruct Ht as (H1 & H2 & H3).
    destruct (Z_lt_le_dec x (end_ y)) as [Hin|Hout].
    + exists y. split; [left; reflexivity|lia].
    + destruct (IH _ _ x H3 ltac:(lia)) as (r & Hr & Hc).
      exists r. split; [right; exact Hr|exact Hc].
Qed.

Lemma tiles_replace (A B pieces : list profile_range) (r : profile_range) :
  forall a b,
  tiles a b (A ++ r :: B) -> tiles (start r) (end_ r) pieces ->
  tiles a b (A ++ pieces ++ B).
Proof.
  intros a b Ht Hp. apply tiles_app in Ht. destruct Ht as (m & HA & HrB).
  cbn [tiles] in HrB. destruct HrB as (H1 & H2 & HB).
  apply tiles_app. exists m. split; [exact HA|].
  apply tiles_app. exists (end_ r). rewrite <- H1. split; assumption.
Qed.

Lemma tiles_same_bounds (g : profile_range -> profile_range)
    (l : list profile_range) :
  (forall r, start (g r) = start r /\ end_ (g r) = end_ r) ->
  forall a b, tiles a b l -> tiles a b (map g l).
Proof.
  intros Hg. induction l as [|x l IH]; intros a b Ht; cbn [map tiles] in *.
  - exact Ht.
  - destruct (Hg x) as [-> ->]. destruct Ht as (H1 & H2 & H3).
    split; [exact H1|]. split; [exact H2|]. apply IH, H3.
Qed.

(** Two well-formed stores with the same ranges list them in the same
    order. *)
Lemma wf_ranges_ext (l1 : list profile_range) :
  forall l2, wf_ranges l1 -> wf_ranges l2 ->
  (forall r, In r l1 <-> In r l2) -> l1 = l2.
Proof.
  induction l1 as [|x l1 IH]; intros l2 H1 H2 Hext.
  - destruct l2 as [|y l2]; [reflexivity|].
    exfalso. apply (proj2 (Hext y)). left. reflexivity.
  - destruct l2 as [|y l2].
    { exfalso. apply (proj1 (Hext x)). left. reflexivity. }
    apply wf_ranges_cons in H1. destruct H1 as (Hx & Hl1 & Hxb).
    apply wf_ranges_cons in H2. destruct H2 as (Hy & Hl2 & Hyb).
    assert (Hxy : x = y).
    { destruct (proj1 (Hext x) (or_introl eq_refl)) as [E|Hin]; [auto|].
      destruct (proj2 (Hext y) (or_introl eq_refl)) as [E|Hin']; [auto|].
      specialize (Hyb x Hin). specialize (Hxb y Hin'). range_arith. }
    subst y. f_equal. apply IH; [exact Hl1|exact Hl2|].
    intros r. split; intros Hr.
    + destruct (proj1 (Hext r) (or_intror Hr)) as [E|Hin]; [|exact Hin].
      subst r. specialize (Hxb x Hr). range_arith.
    + destruct (proj2 (Hext r) (or_intror Hr)) as [E|Hin]; [|exact Hin].
      subst r. specialize (Hyb x Hr). range_arith.
Qed.

(** [mm_split_ranges] on the range found for the key, the allocations
    succeeding: the range is replaced by pieces that tile it, one with its
    benefit and the others with benefit 0. *)
Lemma mm_split_ranges_pieces (vmalloc_ok : nat -> bool) (t : rb_tree)
    (n : nat) (r : profile_range) (key : Z) (comparator : mmap_comparator) :
  (forall k, vmalloc_ok k = true) ->
  working_tree t -> container_of t n = Some r -> found_for comparator key r ->
  exists t' pieces,
    mm_split_ranges vmalloc_ok t n key comparator = Some (true, t')
    /\ inorder t' = firstn n (inorder t) ++ pieces ++ skipn (S n) (inorder t)
    /\ tiles (start r) (end_ r) pieces
    /\ Forall (fun x => benefit x = benefit r \/ benefit x = 0) pieces
    /\ working_tree t'.
Proof.
  intros Halloc Hw Hr Hfound.
  destruct (mm_split_ranges_working vmalloc_ok t n r key comparator Hw Hr Hfound)
    as (b0 & t0 & Hres0 & Hw0).
  assert (Hgoal : exists t' pieces,
            mm_split_ranges vmalloc_ok t n key comparator = Some (true, t')
            /\ inorder t' = firstn n (inorder t) ++ pieces ++ skipn (S n) (inorder t)
            /\ tiles (start r) (end_ r) pieces
            /\ Forall (fun x => benefit x = benefit r \/ benefit x = 0) pieces).
  { destruct (working_tree_split t n r Hw Hr) as (_ & Hbr & Hne & _).
    pose proof Hw as [Hwf _].
    destruct (container_of_split _ _ _ Hr) as (Hsplit & Hlen & Hlt).
    destruct r as [s e V]. unfold page_bounded, nonempty in Hbr, Hne.
    cbn [start end_ benefit] in *.
    unfold mm_split_ranges. rewrite Hr. cbn [start end_ benefit].
    rewrite ?(Halloc O), ?(Halloc 1%nat). cbn [negb].
    destruct comparator; cbn [found_for start end_] in Hfound.
    - (* CompEquals *)
      assert (Hpage : u64_add key PAGE_SIZE = key + PAGE_SIZE).
      { unfold u64_add, u64. apply Z.mod_small.
        unfold u64_modulus, PAGE_SIZE, PAGE_SHIFT in *. lia. }
      assert (Hpos : 0 < PAGE_SIZE) by (unfold PAGE_SIZE, PAGE_SHIFT; lia).
      rewrite Hpage.
      destruct (s <? key) eqn:El.
      + apply Z.ltb_lt in El.
        destruct (split_left_step t n s e V key Hwf Hr ltac:(lia))
          as (HinL & HwfL & Hnode).
        rewrite Hnode. cbn [start end_ benefit].
        rewrite ?(Halloc 1%nat). cbn [negb].
        set (tL := profile_range_insert (rb_store t n (mk_range key e V))
                     (mk_range s key 0)) in *.
        destruct (key + PAGE_SIZE <? e) eqn:Er.
        * apply Z.ltb_lt in Er.
          assert (HbaseL : container_of tL (S n) = Some (mk_range key e V)).
          { unfold container_of. rewrite HinL.
            replace (S n) with (List.length (firstn n (inorder t)) + 1)%nat by lia.
            rewrite nth_error_app2 by lia.
            replace (List.length (firstn n (inorder t)) + 1
                     - List.length (firstn n (inorder t)))%nat with 1%nat by lia.
            reflexivity. }
          destruct (split_right_step tL (S n) key e V (key + PAGE_SIZE)
                      HwfL HbaseL ltac:(lia)) as [HinR _].
          eexists.
          exists [mk_range s key 0; mk_range key (key + PAGE_SIZE) V;
                  mk_range (key + PAGE_SIZE) e 0].
          split; [reflexivity|]. split; [|split].
          -- rewrite HinR, HinL.
             replace (S n) with (List.length (firstn n (inorder t)) + 1)%nat
               at 1 by lia.
             rewrite firstn_length_app.
             replace (S (S n))
               with (List.length (firstn n (inorder t)) + 2)%nat by lia.
             rewrite skipn_length_app. cbn [firstn skipn].
             rewrite <- app_assoc. reflexivity.
          -- cbn [tiles start end_]. repeat split; lia.
          -- apply Forall_forall; intros x Hx; cbn [In] in Hx;
             repeat (destruct Hx as [<-|Hx]; [cbn [benefit]; auto|]);
             destruct Hx.
        * apply Z.ltb_ge in Er.
          eexists. exists [mk_range s key 0; mk_range key e V].
          split; [reflexivity|]. split; [exact HinL|]. split.
          -- cbn [tiles start end_]. repeat split; lia.
          -- apply Forall_forall; intros x Hx; cbn [In] in Hx;
             repeat (destruct Hx as [<-|Hx]; [cbn [benefit]; auto|]);
             destruct Hx.
      + apply Z.ltb_ge in El. assert (s = key) by lia. subst s.
        cbn [start end_ benefit].
        rewrite ?(Halloc O). cbn [negb].
        destruct (key + PAGE_SIZE <? e) eqn:Er.
        * apply Z.ltb_lt in Er.
          destruct (split_right_step t n key e V (key + PAGE_SIZE) Hwf Hr
                      ltac:(lia)) as [HinR _].
          eexists.
          exists [mk_range key (key + PAGE_SIZE) V;
                  mk_range (key + PAGE_SIZE) e 0].
          split; [reflexivity|]. split; [exact HinR|]. split.
          -- cbn [tiles start end_]. repeat split; lia.
          -- apply Forall_forall; intros x Hx; cbn [In] in Hx;
             repeat (destruct Hx as [<-|Hx]; [cbn [benefit]; auto|]);
             destruct Hx.
        * eexists. exists [mk_range key e V].
          split; [reflexivity|]. split; [exact Hsplit|]. split.
          -- cbn [tiles start end_]. repeat split; lia.
          -- apply Forall_forall; intros x Hx; cbn [In] in Hx;
             repeat (destruct Hx as [<-|Hx]; [cbn [benefit]; auto|]);
             destruct Hx.
    - (* CompGreaterThan *)
      destruct (key <=? s) eqn:E.
      { eexists. exists [mk_range s e V].
        split; [reflexivity|]. split; [exact Hsplit|]. split.
        - cbn [tiles start end_]. repeat split; lia.
        - apply Forall_forall; intros x Hx; cbn [In] in Hx;
             repeat (destruct Hx as [<-|Hx]; [cbn [benefit]; auto|]);
             destruct Hx. }
      apply Z.leb_gt in E.
      destruct (split_left_step t n s e V key Hwf Hr ltac:(lia))
        as (HinL & _ & _).
      eexists. exists [mk_range s key 0; mk_range key e V].
      split; [reflexivity|]. split; [exact HinL|]. split.
      + cbn [tiles start end_]. repeat split; lia.
      + apply Forall_forall; intros x Hx; cbn [In] in Hx;
             repeat (destruct Hx as [<-|Hx]; [cbn [benefit]; auto|]);
             destruct Hx.
    - (* CompLessThan *)
      destruct (e <=? key) eqn:E.
      { eexists. exists [mk_range s e V].
        split; [reflexivity|]. split; [exact Hsplit|]. split.
        - cbn [tiles start end_]. repeat split; lia.
        - apply Forall_forall; intros x Hx; cbn [In] in Hx;
             repeat (destruct Hx as [<-|Hx]; [cbn [benefit]; auto|]);
             destruct Hx. }
      apply Z.leb_gt in E.
      destruct (split_right_step t n s e V key Hwf Hr ltac:(lia))
        as [HinR _].
      eexists. exists [mk_range s key V; mk_range key e 0].
      split; [reflexivity|]. split; [exact HinR|]. split.
      + cbn [tiles start end_]. repeat split; lia.
      + apply Forall_forall; intros x Hx; cbn [In] in Hx;
             repeat (destruct Hx as [<-|Hx]; [cbn [benefit]; auto|]);
             destruct Hx. }
  destruct Hgoal as (t' & pieces & Hres & Hin & Ht & Hb).
  exists t', pieces. split; [exact Hres|]. split; [exact Hin|].
  split; [exact Ht|]. split; [exact Hb|].
  rewrite Hres in Hres0. inversion Hres0; subst. apply Hw0. reflexivity.
Qed.

Lemma split_for_filter_pieces (vmalloc_ok : nat -> bool) (filter : mmap_filter)
    (temp : rb_tree) (n : nat) (key : Z) (comparator : mmap_comparator)
    (allocs : nat) (r : profile_range) :
  (forall k, vmalloc_ok k = true) ->
  working_tree temp -> container_of temp n = Some r ->
  found_for comparator key r ->
  exists temp' allocs' pieces,
    split_for_filter vmalloc_ok filter temp n key comparator allocs
    = Some (Some (temp', allocs'))
    /\ inorder temp'
       = firstn n (inorder temp) ++ pieces ++ skipn (S n) (inorder temp)
    /\ tiles (start r) (end_ r) pieces
    /\ Forall (fun x => benefit x = filter_benefit filter \/ benefit x = 0)
         pieces
    /\ working_tree temp'.
Proof.
  intros Halloc Hw Hr Hfound. unfold split_for_filter. rewrite Hr.
  destruct (working_tree_store temp n r (filter_benefit filter) Hw Hr)
    as [Hw1 Hr1].
  assert (Hfound1 : found_for comparator key
                      (mk_range (start r) (end_ r) (filter_benefit filter)))
    by (destruct comparator; exact Hfound).
  destruct (mm_split_ranges_pieces (fun k => vmalloc_ok (allocs + k)%nat)
              _ n _ key comparator (fun k => Halloc _) Hw1 Hr1 Hfound1)
    as (t' & pieces & Hs & Hin & Ht & Hb & Hw').
  rewrite Hs. eexists; eexists; exists pieces.
  split; [reflexivity|].
  destruct (container_of_split _ _ _ Hr) as (Hsplit & Hlen & Hlt).
  assert (Hin1 : inorder (rb_store temp n
                            (mk_range (start r) (end_ r) (filter_benefit filter)))
                 = firstn n (inorder temp)
                   ++ mk_range (start r) (end_ r) (filter_benefit filter)
                      :: skipn (S n) (inorder temp))
    by (apply inorder_rb_store, Hlt).
  split; [|split; [exact Ht|split; [exact Hb|exact Hw']]].
  rewrite Hin, Hin1.
  set (A := firstn n (inorder temp)) in *.
  set (B := skipn (S n) (inorder temp)) in *.
  replace n with (List.length A + 0)%nat at 1 by lia.
  rewrite firstn_length_app. cbn [firstn]. rewrite app_nil_r.
  replace (S n) with (List.length A + 1)%nat by lia.
  rewrite skipn_length_app. reflexivity.
Qed.

Lemma tiles_working (l : list profile_range) (t : rb_tree) (a b : Z) :
  inorder t = l -> tiles a b l -> 0 <= a -> b <= u64_modulus - PAGE_SIZE ->
  working_tree t.
Proof.
  intros <- Ht Ha Hb. split; [exact (tiles_wf _ _ _ Ht)|].
  apply Forall_forall. intros r Hr.
  pose proof (tiles_In _ _ _ r Ht Hr). unfold page_bounded. lia.
Qed.

Lemma mm_memory_section_eqb_eq (x y : mm_memory_section) :
  mm_memory_section_eqb x y = true -> x = y.
Proof. destruct x, y; cbn; congruence. Qed.

(** Putting the pieces of a split parent range back: they take the place
    of the parent in the tree. *)
Lemma move_into_gap (subranges temp : rb_tree) (n : nat) (p : profile_range) :
  working_tree subranges -> container_of subranges n = Some p ->
  tiles (start p) (end_ p) (inorder temp) ->
  inorder (snd (profile_move temp (rb_erase subranges n)))
  = firstn n (inorder subranges) ++ inorder temp
    ++ skipn (S n) (inorder subranges).
Proof.
  intros Hsub Hp Htiles.
  destruct (container_of_split _ _ _ Hp) as (Hsplit & Hlen & Hlt).
  pose proof (working_tree_erase subranges n Hsub Hlt) as [Hwe _].
  pose proof (tiles_wf _ _ _ Htiles) as Hwt.
  destruct Hsub as [Hwf _].
  unfold profile_move.
  destruct (profile_move_loop_spec (size temp) temp (rb_erase subranges n)
              (le_n _) Hwt Hwe) as (_ & Hwm & Hin).
  set (A := firstn n (inorder subranges)) in *.
  set (B := skipn (S n) (inorder subranges)) in *.
  rewrite inorder_rb_erase in Hin, Hwe by exact Hlt. fold A B in Hin, Hwe.
  rewrite Hsplit in Hwf.
  apply wf_ranges_app in Hwf. destruct Hwf as (HA & HpB & HAp).
  apply wf_ranges_cons in HpB. destruct HpB as (Hpn & HB & HpBb).
  assert (HAt : forall a x, In a A -> In x (inorder temp) -> before a x).
  { intros a x Ha Hx. pose proof (tiles_In _ _ _ x Htiles Hx).
    assert (before a p) by (apply HAp; simpl; auto). range_arith. }
  assert (HtB : forall x b, In x (inorder temp) -> In b B -> before x b).
  { intros x b Hx Hb. pose proof (tiles_In _ _ _ x Htiles Hx).
    specialize (HpBb b Hb). range_arith. }
  apply wf_ranges_ext; [exact Hwm| |].
  - apply wf_ranges_app. split; [exact HA|]. split.
    + apply wf_ranges_app. split; [exact Hwt|]. split; [exact HB|exact HtB].
    + intros a y Ha Hy. apply in_app_or in Hy. destruct Hy as [Hy|Hy].
      * apply HAt; assumption.
      * apply wf_ranges_app in Hwe. destruct Hwe as (_ & _ & HAB).
        apply HAB; assumption.
  - intros r. rewrite Hin. split.
    + intros [Hr|[Hr _]].
      * apply in_or_app. right. apply in_or_app. left. exact Hr.
      * apply in_app_or in Hr. destruct Hr as [Hr|Hr].
        -- apply in_or_app. left. exact Hr.
        -- apply in_or_app. right. apply in_or_app. right. exact Hr.
    + intros Hr. apply in_app_or in Hr. destruct Hr as [Hr|Hr].
      * right. split; [apply in_or_app; left; exact Hr|].
        intros x Hx. apply ranges_overlap_false.
        pose proof (HAt r x Hr Hx). pose proof (wf_ranges_In _ _ HA Hr).
        pose proof (tiles_In _ _ _ x Htiles Hx). range_arith.
      * apply in_app_or in Hr. destruct Hr as [Hr|Hr]; [left; exact Hr|].
        right. split; [apply in_or_app; right; exact Hr|].
        intros x Hx. apply ranges_overlap_false.
        pose proof (HtB x r Hx Hr). pose proof (wf_ranges_In _ _ HB Hr).
        pose proof (tiles_In _ _ _ x Htiles Hx). range_arith.
Qed.

Section AddMemoryRangeTiles.

Variable vmalloc_ok : nat -> bool.
Hypothesis vmalloc_succeeds : forall k, vmalloc_ok k = true.
Variable msection : mm_memory_section.
Variables mapaddr section_off len prot flags fd off : Z.

Lemma match_comparisons_tiles (filter : mmap_filter) (subranges : rb_tree)
    (cs : list mmap_comparison) :
  working_tree subranges ->
  forall passes_filter parent_range temp allocs,
  (parent_range = None -> temp = RB_ROOT) ->
  (forall n, parent_range = Some n -> splits_parent filter subranges n temp) ->
  exists passes' parent' temp' allocs',
    match_comparisons vmalloc_ok msection mapaddr section_off len prot flags
      fd off filter subranges cs passes_filter parent_range temp allocs
    = Some (ComparisonsDone passes' parent' temp' allocs')
    /\ (passes' = true -> passes_filter = true)
    /\ (forall n, parent' = Some n -> passes' = true ->
          splits_parent filter subranges n temp').
Proof.
  intros Hsub.
  induction cs as [|c cs IH];
    intros passes_filter parent_range temp allocs Hnone Hparent;
    cbn [match_comparisons].
  { do 4 eexists. split; [reflexivity|]. split; [auto|].
    intros n Hn _. exact (Hparent n Hn). }
  destruct passes_filter; cbn [negb].
  2:{ do 4 eexists. split; [reflexivity|]. split; [auto|].
      intros n _ Hf. discriminate Hf. }
  assert (Hplain : forall value,
    exists passes' parent' temp' allocs',
      match_comparisons vmalloc_ok msection mapaddr section_off len prot
        flags fd off filter subranges cs
        (true && mm_does_quantity_match c value) parent_range temp allocs
      = Some (ComparisonsDone passes' parent' temp' allocs')
      /\ (passes' = true -> true = true)
      /\ (forall n, parent' = Some n -> passes' = true ->
            splits_parent filter subranges n temp')).
  { intros value.
    destruct (IH (true && mm_does_quantity_match c value) parent_range temp
                allocs Hnone Hparent)
      as (ps & pr & tp & al & H1 & _ & H3).
    exists ps, pr, tp, al. split; [exact H1|]. split; [reflexivity|exact H3]. }
  assert (Haddr :
    exists passes' parent' temp' allocs',
      (let (search_key, comparator) :=
         search_key_of msection mapaddr section_off c in
       match parent_range with
       | None =>
           match profile_find_first_node subranges search_key comparator with
           | None => Some (ComparisonsDone false None temp allocs)
           | Some parent =>
               match container_of subranges parent with
               | None => None
               | Some p =>
                   if negb (benefit p =? 0)
                   then Some (ComparisonsDone false (Some parent) temp allocs)
                   else if negb (vmalloc_ok allocs)
                   then Some ComparisonsErr
                   else
                     let range := mk_range (start p) (end_ p) (benefit p) in
                     match split_for_filter vmalloc_ok filter
                             (profile_range_insert temp range)
                             (node_of_insert temp range)
                             search_key comparator (S allocs) with
                     | None => None
                     | Some None => Some ComparisonsErr
                     | Some (Some (temp0, allocs')) =>
                         match_comparisons vmalloc_ok msection mapaddr
                           section_off len prot flags fd off filter subranges
                           cs true (Some parent) temp0 allocs'
                     end
               end
           end
       | Some _ =>
           match profile_find_first_node temp search_key comparator with
           | None => Some (ComparisonsDone false parent_range temp allocs)
           | Some range =>
               match split_for_filter vmalloc_ok filter temp range
                       search_key comparator allocs with
               | None => None
               | Some None => Some ComparisonsErr
               | Some (Some (temp0, allocs')) =>
                   match_comparisons vmalloc_ok msection mapaddr section_off
                     len prot flags fd off filter subranges cs true
                     parent_range temp0 allocs'
               end
           end
       end) = Some (ComparisonsDone passes' parent' temp' allocs')
      /\ (passes' = true -> true = true)
      /\ (forall n, parent' = Some n -> passes' = true ->
            splits_parent filter subranges n temp')).
  { destruct (search_key_of msection mapaddr section_off c)
      as [search_key comparator].
    destruct parent_range as [parent|].
    - (* a range of the temporary tree *)
      destruct (Hparent parent eq_refl) as (p & Hp & Htiles & Htemp & Hben).
      destruct (profile_find_first_node temp search_key comparator)
        as [range|] eqn:Ef.
      2:{ do 4 eexists. split; [reflexivity|]. split; [auto|].
          intros n _ Hf. discriminate Hf. }
      destruct (profile_find_first_node_found temp search_key comparator range
                  (proj1 Htemp) Ef) as (r & Hr & Hfound).
      destruct (split_for_filter_pieces vmalloc_ok filter temp range
                  search_key comparator allocs r vmalloc_succeeds Htemp Hr
                  Hfound)
        as (temp0 & allocs' & pieces & Hres & Hin & Htp & Hbp & Hw0).
      rewrite Hres.
      destruct (IH true (Some parent) temp0 allocs' ltac:(discriminate))
        as (ps & pr & tp & al & H1 & _ & H3).
      + intros n Hn. inversion Hn; subst n. exists p.
        split; [exact Hp|]. split; [|split; [exact Hw0|]].
        * rewrite Hin.
          destruct (container_of_split _ _ _ Hr) as (Hsplit & _ & _).
          rewrite Hsplit in Htiles.
          exact (tiles_replace _ _ _ _ _ _ Htiles Htp).
        * rewrite Hin.
          destruct (container_of_split _ _ _ Hr) as (Hsplit & _ & _).
          rewrite Hsplit in Hben. apply Forall_app in Hben.
          destruct Hben as [HbA HbB]. inversion HbB; subst.
          apply Forall_app. split; [exact HbA|].
          apply Forall_app. split; assumption.
      + exists ps, pr, tp, al. split; [exact H1|].
        split; [reflexivity|exact H3].
    - (* the parent range is looked up first *)
      rewrite (Hnone eq_refl).
      destruct (profile_find_first_node subranges search_key comparator)
        as [parent|] eqn:Ef.
      2:{ do 4 eexists. split; [reflexivity|]. split; [auto|].
          intros n _ Hf. discriminate Hf. }
      destruct (profile_find_first_node_found subranges search_key comparator
                  parent (proj1 Hsub) Ef) as (p & Hp & Hfound).
      rewrite Hp.
      destruct (benefit p =? 0) eqn:Eb; cbn [negb].
      2:{ do 4 eexists. split; [reflexivity|]. split; [auto|].
          intros n _ Hf. discriminate Hf. }
      rewrite vmalloc_succeeds. cbn [negb].
      destruct (working_tree_split subranges parent p Hsub Hp)
        as (_ & Hbp & Hnp & _).
      change (profile_range_insert RB_ROOT ?r) with (rb_node rb_null r rb_null).
      change (node_of_insert RB_ROOT ?r) with O.
      assert (Hsingle : working_tree
                (rb_node rb_null (mk_range (start p) (end_ p) (benefit p))
                   rb_null))
        by (apply working_tree_single; assumption).
      assert (Hfound' : found_for comparator search_key
                          (mk_range (start p) (end_ p) (benefit p)))
        by (destruct comparator; exact Hfound).
      destruct (split_for_filter_pieces vmalloc_ok filter _ O search_key
                  comparator (S allocs) _ vmalloc_succeeds Hsingle eq_refl
                  Hfound')
        as (temp0 & allocs' & pieces & Hres & Hin & Htp & Hbpieces & Hw0).
      rewrite Hres.
      destruct (IH true (Some parent) temp0 allocs' ltac:(discriminate))
        as (ps & pr & tp & al & H1 & _ & H3).
      + intros n Hn. inversion Hn; subst n. exists p.
        split; [exact Hp|].
        cbn [inorder app firstn skipn] in Hin. rewrite app_nil_r in Hin.
        rewrite Hin. cbn [start end_] in Htp.
        split; [exact Htp|]. split; [exact Hw0|exact Hbpieces].
      + exists ps, pr, tp, al. split; [exact H1|].
        split; [reflexivity|exact H3]. }
  destruct (quant c); try exact Haddr; apply Hplain.
Qed.

Variable all_filters : list mmap_filter.
Variables lo hi : Z.
Hypothesis lo_nonneg : 0 <= lo.
Hypothesis hi_bounded : hi <= u64_modulus - PAGE_SIZE.

Lemma apply_filters_tiles (fs : list mmap_filter) :
  (forall f, In f fs -> In f all_filters) ->
  forall huge eager allocs,
  tiles lo hi (inorder huge) -> tiles lo hi (inorder eager) ->
  Forall (fun r => benefit_from all_filters msection PolicyHugePage (benefit r))
    (inorder huge) ->
  Forall (fun r => benefit_from all_filters msection PolicyEagerPage (benefit r))
    (inorder eager) ->
  exists huge' eager',
    apply_filters vmalloc_ok msection mapaddr section_off len prot flags fd
      off fs huge eager allocs = Some (Some (huge', eager'))
    /\ tiles lo hi (inorder huge') /\ tiles lo hi (inorder eager')
    /\ Forall (fun r => benefit_from all_filters msection PolicyHugePage
                          (benefit r)) (inorder huge')
    /\ Forall (fun r => benefit_from all_filters msection PolicyEagerPage
                          (benefit r)) (inorder eager').
Proof.
  induction fs as [|filter fs IH];
    intros Hall huge eager allocs Hth Hte Hbh Hbe; cbn [apply_filters].
  { exists huge, eager. split; [reflexivity|]. tauto. }
  assert (Hall' : forall f, In f fs -> In f all_filters)
    by (intros f Hf; apply Hall; right; exact Hf).
  assert (Hfilter : In filter all_filters) by (apply Hall; left; reflexivity).
  set (subranges := match policy filter with
                    | PolicyHugePage => huge
                    | PolicyEagerPage => eager
                    end).
  assert (Hts : tiles lo hi (inorder subranges))
    by (unfold subranges; destruct (policy filter); assumption).
  assert (Hbs : Forall (fun r => benefit_from all_filters msection
                                   (policy filter) (benefit r))
                  (inorder subranges))
    by (unfold subranges; destruct (policy filter); assumption).
  assert (Hsub : working_tree subranges)
    by (exact (tiles_working _ subranges lo hi eq_refl Hts lo_nonneg
                 hi_bounded)).
  destruct (match_comparisons_tiles filter subranges (comparisons filter) Hsub
              (mm_memory_section_eqb msection (section filter)) None RB_ROOT
              allocs (fun _ => eq_refl) ltac:(discriminate))
    as (passes & parent & temp & allocs' & Hout & Hpasses & Hparent).
  rewrite Hout.
  destruct passes; [|apply IH; assumption].
  assert (Hsection : section filter = msection).
  { symmetry. apply mm_memory_section_eqb_eq, Hpasses. reflexivity. }
  assert (Hown : forall x, benefit x = filter_benefit filter \/ benefit x = 0 ->
                   benefit_from all_filters msection (policy filter) (benefit x)).
  { intros x [Hx|Hx]; [right|left; exact Hx].
    exists filter. rewrite Hx. auto. }
  destruct parent as [parent|].
  - destruct (Hparent parent eq_refl eq_refl) as (p & Hp & Htp & Hwt & Hbt).
    pose proof (move_into_gap subranges temp parent p Hsub Hp Htp) as Hin.
    destruct (container_of_split _ _ _ Hp) as (Hsplit & _ & _).
    assert (Htn : tiles lo hi
                    (inorder (snd (profile_move temp
                                     (rb_erase subranges parent))))).
    { rewrite Hin. rewrite Hsplit in Hts.
      exact (tiles_replace _ _ _ _ _ _ Hts Htp). }
    assert (Hbn : Forall (fun r => benefit_from all_filters msection
                                     (policy filter) (benefit r))
                    (inorder (snd (profile_move temp
                                     (rb_erase subranges parent))))).
    { rewrite Hin. rewrite Hsplit in Hbs. apply Forall_app in Hbs.
      destruct Hbs as [HbA HbB]. inversion HbB; subst.
      apply Forall_app. split; [exact HbA|].
      apply Forall_app. split; [|assumption].
      apply Forall_forall. intros x Hx. apply Hown.
      exact (proj1 (Forall_forall _ _) Hbt x Hx). }
    destruct (policy filter); apply IH; assumption.
  - assert (Htn : tiles lo hi
                    (inorder (set_unset_benefits subranges
                                (filter_benefit filter)))).
    { rewrite inorder_set_unset_benefits. apply tiles_same_bounds; [|exact Hts].
      intros r. destruct (benefit r =? 0); split; reflexivity. }
    assert (Hbn : Forall (fun r => benefit_from all_filters msection
                                     (policy filter) (benefit r))
                    (inorder (set_unset_benefits subranges
                                (filter_benefit filter)))).
    { rewrite inorder_set_unset_benefits. apply Forall_forall. intros y Hy.
      apply in_map_iff in Hy. destruct Hy as (x & <- & Hx).
      destruct (benefit x =? 0).
      - apply Hown. left. reflexivity.
      - exact (proj1 (Forall_forall _ _) Hbs x Hx). }
    destruct (policy filter); eexists; eexists;
      (split; [reflexivity|]); tauto.
Qed.

End AddMemoryRangeTiles.

(** A non-empty range overlaps a piece of a tiling exactly when it meets
    the window that is tiled. *)
Lemma tiles_overlap_meets (l : list profile_range) (lo hi : Z)
    (r : profile_range) :
  tiles lo hi l -> lo < hi -> nonempty r ->
  ((forall x, In x l -> ranges_overlap x r = false) <-> ~ meets lo hi r).
Proof.
  intros Ht Hlt Hr. unfold meets, nonempty in *. split.
  - intros Hno [H1 H2].
    destruct (tiles_cover l lo hi (Z.max (start r) lo) Ht ltac:(lia))
      as (x & Hx & Hc).
    specialize (Hno x Hx). apply ranges_overlap_false in Hno. lia.
  - intros Hm x Hx. pose proof (tiles_In _ _ _ x Ht Hx).
    apply ranges_overlap_false. lia.
Qed.

Section AddMemoryRangeResult.

Variable vmalloc_ok : nat -> bool.
Hypothesis vmalloc_succeeds : forall k, vmalloc_ok k = true.
Variable msection : mm_memory_section.
Variables mapaddr section_off len prot flags fd off : Z.

(** X20: when no allocation fails, [mm_add_memory_range] for a mapping
    that is not empty and ends a page below the top of the address space
    gives each tree of the process a list of new ranges that cut the
    page-aligned range of the mapping into non-empty pieces, one after the
    other without gaps.  The tree then holds these pieces and, of the
    ranges it held before, exactly those that do not meet the mapping.
    The benefit of a piece is 0 or the benefit of a filter of the process
    that has the policy of the tree and the section of the mapping. *)
Theorem mm_add_memory_range_result (procs : list mmap_filter_proc)
    (p : Z) (proc : mmap_filter_proc) :
  find_filter_proc_by_pid procs p = Some proc ->
  interval_store (hp_ranges_root proc) ->
  interval_store (eager_ranges_root proc) ->
  0 <= mapaddr -> 0 < len -> mapaddr + len + PAGE_SIZE - 1 < u64_modulus ->
  let lo := start (aligned_range mapaddr len 0) in
  let hi := end_ (aligned_range mapaddr len 0) in
  exists procs' proc' new_huge new_eager,
    mm_add_memory_range vmalloc_ok msection mapaddr section_off len prot
      flags fd off procs p = Some procs'
    /\ find_filter_proc_by_pid procs' p = Some proc'
    /\ tiles lo hi new_huge /\ tiles lo hi new_eager
    /\ (forall r, stored (hp_ranges_root proc') r <->
          In r new_huge
          \/ (stored (hp_ranges_root proc) r /\ ~ meets lo hi r))
    /\ (forall r, stored (eager_ranges_root proc') r <->
          In r new_eager
          \/ (stored (eager_ranges_root proc) r /\ ~ meets lo hi r))
    /\ Forall (fun r => benefit_from (filters proc) msection PolicyHugePage
                          (benefit r)) new_huge
    /\ Forall (fun r => benefit_from (filters proc) msection PolicyEagerPage
                          (benefit r)) new_eager.
Proof.
  intros Hfind Hhp Heager Hm Hl Htop lo hi.
  destruct (aligned_range_working mapaddr len 0 Hm Hl Htop) as [Hne Hb].
  unfold nonempty, page_bounded in Hne, Hb. fold lo hi in Hne, Hb.
  unfold mm_add_memory_range. rewrite Hfind, vmalloc_succeeds. cbn [negb].
  fold (aligned_range mapaddr len 0).
  change (profile_range_insert RB_ROOT ?r) with (rb_node rb_null r rb_null).
  unfold mm_copy_profile_range. cbn [inorder app copy_profile_ranges].
  rewrite vmalloc_succeeds. cbn [negb].
  change (profile_range_insert RB_ROOT ?r) with (rb_node rb_null r rb_null).
  change (0 =? 0) with true. cbn [negb].
  fold lo hi.
  assert (Ht0 : forall v, tiles lo hi (inorder (rb_node rb_null
                                                  (mk_range lo hi v) rb_null))).
  { intros v. cbn [inorder app tiles start end_]. repeat split. exact Hne. }
  assert (Hb0 : forall pol, Forall
            (fun r => benefit_from (filters proc) msection pol (benefit r))
            (inorder (rb_node rb_null (mk_range lo hi 0) rb_null))).
  { intros pol. cbn [inorder app]. constructor; [left; reflexivity|constructor]. }
  change (aligned_range mapaddr len 0) with (mk_range lo hi 0).
  change (benefit (mk_range lo hi 0)) with 0.
  destruct (apply_filters_tiles vmalloc_ok vmalloc_succeeds msection mapaddr
              section_off len prot flags fd off (filters proc) lo hi
              (proj1 Hb) (proj2 Hb) (filters proc) (fun f Hf => Hf)
              _ _ 2%nat (Ht0 0) (Ht0 0) (Hb0 PolicyHugePage)
              (Hb0 PolicyEagerPage))
    as (huge & eager & Hres & Hth & Hte & Hbh & Hbe).
  rewrite Hres.
  apply interval_store_wf in Hhp, Heager.
  pose proof (find_filter_proc_by_pid_pid procs p proc Hfind) as Hpid.
  eexists; eexists; exists (inorder huge), (inorder eager).
  split; [reflexivity|].
  rewrite find_replace_proc. cbn [pid filters hp_ranges_root eager_ranges_root].
  rewrite Hpid, Z.eqb_refl, Hfind.
  split; [reflexivity|]. split; [exact Hth|]. split; [exact Hte|].
  split; [|split; [|split; [exact Hbh|exact Hbe]]].
  - intros r. unfold stored, profile_move.
    destruct (profile_move_loop_spec _ huge (hp_ranges_root proc) (le_n _)
                (tiles_wf _ _ _ Hth) Hhp) as (_ & _ & Hin).
    rewrite Hin. split.
    + intros [Hr|[Hr Hno]]; [left; exact Hr|right].
      split; [exact Hr|].
      apply (tiles_overlap_meets (inorder huge) lo hi); auto.
      exact (wf_ranges_In _ _ Hhp Hr).
    + intros [Hr|[Hr Hno]]; [left; exact Hr|right].
      split; [exact Hr|].
      apply (tiles_overlap_meets (inorder huge) lo hi); auto.
      exact (wf_ranges_In _ _ Hhp Hr).
  - intros r. unfold stored, profile_move.
    destruct (profile_move_loop_spec _ eager (eager_ranges_root proc) (le_n _)
                (tiles_wf _ _ _ Hte) Heager) as (_ & _ & Hin).
    rewrite Hin. split.
    + intros [Hr|[Hr Hno]]; [left; exact Hr|right].
      split; [exact Hr|].
      apply (tiles_overlap_meets (inorder eager) lo hi); auto.
      exact (wf_ranges_In _ _ Heager Hr).
    + intros [Hr|[Hr Hno]]; [left; exact Hr|right].
      split; [exact Hr|].
      apply (tiles_overlap_meets (inorder eager) lo hi); auto.
      exact (wf_ranges_In _ _ Heager Hr).
Qed.

End AddMemoryRangeResult.

Lemma mm_add_memory_range_result_witness :
  let f1 := mk_filter SectionMmap PolicyHugePage 5
              [mk_comparison QuantAddr CompEquals 20481;
               mk_comparison QuantAddr CompLessThan 22000] in
  let f2 := mk_filter SectionMmap PolicyHugePage 16
              [mk_comparison QuantAddr CompGreaterThan 20480] in
  let f3 := mk_filter SectionMmap PolicyEagerPage 9 [] in
  let old := rb_node rb_null (mk_range 0 20000 3) rb_null in
  let proc := mk_proc 7 [f1; f2; f3] old RB_ROOT in
  exists procs' proc' new_huge,
    mm_add_memory_range (fun _ => true) SectionMmap 16384 0 16384 0 0 0 0
      [proc] 7 = Some procs'
    /\ find_filter_proc_by_pid procs' 7 = Some proc'
    /\ tiles 16384 32768 new_huge
    /\ forall r, stored (hp_ranges_root proc') r <->
         In r new_huge \/ (stored old r /\ ~ meets 16384 32768 r).
Proof.
  intros f1 f2 f3 old proc.
  assert (Hold : interval_store old).
  { apply interval_store_wf. cbn [old inorder app].
    apply wf_ranges_cons. split; [unfold nonempty; cbn; lia|].
    split; [apply wf_ranges_nil|intros b []]. }
  assert (Hnil : interval_store RB_ROOT)
    by (apply interval_store_wf, wf_ranges_nil).
  assert (H0 : 0 <= 16384) by lia.
  assert (H1 : 0 < 16384) by lia.
  assert (H2 : 16384 + 16384 + PAGE_SIZE - 1 < u64_modulus)
    by (vm_compute; reflexivity).
  destruct (mm_add_memory_range_result (fun _ => true) (fun _ => eq_refl)
              SectionMmap 16384 0 16384 0 0 0 0 [proc] 7 proc eq_refl Hold
              Hnil H0 H1 H2)
    as (procs' & proc' & new_huge & new_eager & Hr & Hf & Ht & _ & Hs & _).
  exists procs', proc', new_huge. split; [exact Hr|]. split; [exact Hf|].
  split; [exact Ht|exact Hs].
Defined.

(** ** The mode across the entry points *)

Lemma mm_decide_mode (st : econ_state) (c : mm_cost_delta) :
  mm_econ_mode (fst (mm_decide st c)) = mm_econ_mode st.
Proof.
  unfold mm_decide.
  destruct (mm_econ_mode st =? 0); [reflexivity|].
  destruct (mm_econ_mode st =? 1); [|reflexivity].
  destruct (cost c <? cost_benefit c); reflexivity.
Qed.

Lemma mm_estimate_changes_mode (env : estimator_env) (st st' : econ_state)
    (a : mm_action) (c c' : mm_cost_delta) :
  mm_estimate_changes env st a c = Some (st', c') ->
  mm_econ_mode st' = mm_econ_mode st.
Proof.
  intros H.
  destruct (mm_estimate_changes_effect env st a c)
    as (st1 & c1 & Hr & _ & _ & _ & Hmode & _).
  rewrite Hr in H. inversion H; subst. rewrite <- Hmode.
  unfold record_estimate.
  destruct (mm_econ_debugging_mode st1 =? 2); reflexivity.
Qed.

(** X21: in every state of the globals that the entry points of the module
    (the five sysfs stores, [mm_estimate_changes], [mm_decide],
    [mm_register_promotion]) can produce from the initial values, the mode
    is 0 or 1.  So [mm_decide] never reaches its [BUG()]: it returns a
    decision for every cost, and every estimate returns. *)
Theorem econ_reachable_mode (st : econ_state) :
  econ_reachable st ->
  (mm_econ_mode st = 0 \/ mm_econ_mode st = 1)
  /\ (forall c, exists d, snd (mm_decide st c) = Some d)
  /\ (forall env a c, exists st' c',
        mm_estimate_changes env st a c = Some (st', c')).
Proof.
  intros Hreach.
  assert (Hmode : mm_econ_mode st = 0 \/ mm_econ_mode st = 1).
  { induction Hreach as
      [ | st k buf count _ IH | st k buf count _ IH | st k buf count _ IH
        | st k buf count _ IH | st buf count _ IH
        | env st st' a c c' _ IH Hest | st c _ IH | st addr _ IH ].
    - left. reflexivity.
    - unfold enabled_store. destruct (k buf) as [ret|mode]; [left; reflexivity|].
      destruct ((0 <=? mode) && (mode <=? 1)) eqn:E; [|left; reflexivity].
      apply andb_true_iff in E. rewrite !Z.leb_le in E.
      cbn [fst set_mm_econ_mode mm_econ_mode]. lia.
    - unfold debugging_mode_store. destruct (k buf); exact IH.
    - unfold contention_cycles_store. destruct (k buf); exact IH.
    - unfold freq_mhz_store. destruct (k buf); exact IH.
    - exact IH.
    - rewrite (mm_estimate_changes_mode env st st' a c c' Hest). exact IH.
    - rewrite mm_decide_mode. exact IH.
    - exact IH. }
  split; [exact Hmode|]. split.
  - intros c. unfold mm_decide.
    destruct Hmode as [-> | ->]; cbn [Z.eqb snd]; eexists; reflexivity.
  - intros env a c.
    destruct (mm_estimate_changes_effect env st a c) as (st1 & c1 & Hr & _).
    eexists; eexists. exact Hr.
Qed.

Lemma econ_reachable_mode_witness :
  let kstrtoint := fun _ : string => @inr Z Z 7 in
  let st := fst (enabled_store kstrtoint
                   (mm_register_promotion (state_with_mode 0) 4096)
                   "7" 1) in
  mm_econ_mode st = 0
  /\ exists d, snd (mm_decide st (mk_cost 5 10 (ExtraWord 0))) = Some d.
Proof.
  intros kstrtoint st.
  assert (Hst : econ_reachable st).
  { apply econ_enabled_store, econ_register_promotion, econ_initial. }
  destruct (econ_reachable_mode st Hst) as (_ & Hd & _).
  split; [reflexivity|]. apply Hd.
Defined.

(** ** print_profile *)

Section PrintProfileProperties.

Variable llx : Z -> string.
Variable llu : Z -> string.

Lemma print_range_tree_bound (buf_size : Z) (nodes : list profile_range) :
  (forall r, In r nodes ->
     strlen (llx (start r)) <= 16 /\ strlen (llx (end_ r)) <= 16
     /\ strlen (llx (benefit r)) <= 16
     /\ strlen (llu (u64_sub (end_ r) (start r))) <= 20) ->
  forall buffer,
  strlen buffer <= Z.max 0 (buf_size - 31) ->
  strlen (print_range_tree llx llu buf_size nodes buffer)
    <= Z.max 0 (buf_size - 31).
Proof.
  induction nodes as [|r nodes IH]; intros Hn buffer Hb;
    cbn [print_range_tree].
  - exact Hb.
  - destruct (buf_size - MMAP_FILTER_BUF_DEAD_ZONE <? strlen buffer) eqn:E;
      [exact Hb|].
    apply Z.ltb_ge in E. unfold MMAP_FILTER_BUF_DEAD_ZONE in E.
    apply IH; [intros r' Hr'; apply Hn; right; exact Hr'|].
    destruct (Hn r (or_introl eq_refl)) as (H1 & H2 & H3 & H4).
    rewrite !strlen_append.
    change (strlen "[0x") with 3. change (strlen ", 0x") with 4.
    change (strlen ") (") with 3.
    change (strlen " bytes) benefit=0x") with 18.
    change (strlen (String newline "")) with 1.
    pose proof (strlen_nonneg buffer). lia.
Qed.

(** X22: when no number of a range prints to more than 16 hexadecimal or
    20 decimal digits, the text [print_profile] has printed when it
    reaches [simple_read_from_buffer], with its terminating NUL, fits the
    [MMAP_FILTER_BUF_SIZE] bytes allocated, however many ranges the two
    trees of the process hold. *)
Theorem print_profile_fits (vmalloc_ok : bool)
    (procs : list mmap_filter_proc) (task : option Z) (buffer : string) :
  (forall proc r, In proc procs ->
     stored (hp_ranges_root proc) r \/ stored (eager_ranges_root proc) r ->
     strlen (llx (start r)) <= 16 /\ strlen (llx (end_ r)) <= 16
     /\ strlen (llx (benefit r)) <= 16
     /\ strlen (llu (u64_sub (end_ r) (start r))) <= 20) ->
  print_profile llx llu vmalloc_ok procs task = inr buffer ->
  strlen buffer + 1 <= MMAP_FILTER_BUF_SIZE.
Proof.
  intros Hnum. unfold print_profile.
  destruct task as [tgid|]; [|discriminate].
  destruct (find_filter_proc_by_pid procs tgid) as [proc|] eqn:Ef;
    [|discriminate].
  destruct (negb vmalloc_ok); [discriminate|].
  cbv zeta. intros E.
  match type of E with
  | inr ?x = _ => assert (Hb : buffer = x) by congruence
  end.
  subst buffer. clear E.
  apply find_filter_proc_by_pid_In in Ef.
  set (head := ("Huge Page Ranges:" ++ String newline EmptyString)%string).
  assert (Hhead : strlen head = 18) by reflexivity.
  pose proof (print_range_tree_bound (MMAP_FILTER_BUF_SIZE - strlen head)
                (inorder (hp_ranges_root proc))
                (fun r Hr => Hnum proc r Ef (or_introl Hr)) EmptyString
                (Z.le_max_l _ _)) as H1.
  set (huge := print_range_tree llx llu (MMAP_FILTER_BUF_SIZE - strlen head)
                 (inorder (hp_ranges_root proc)) EmptyString) in *.
  set (mid := (head ++ huge ++ "Eager Page Ranges:"
               ++ String newline EmptyString)%string).
  pose proof (print_range_tree_bound (MMAP_FILTER_BUF_SIZE - strlen mid)
                (inorder (eager_ranges_root proc))
                (fun r Hr => Hnum proc r Ef (or_intror Hr)) EmptyString
                (Z.le_max_l _ _)) as H2.
  set (eager := print_range_tree llx llu (MMAP_FILTER_BUF_SIZE - strlen mid)
                  (inorder (eager_ranges_root proc)) EmptyString) in *.
  assert (Hmid : strlen mid = 18 + strlen huge + 19).
  { unfold mid. rewrite !strlen_append, Hhead.
    change (strlen "Eager Page Ranges:") with 18.
    change (strlen (String newline "")) with 1. lia. }
  replace ((head ++ huge)
           ++ "Eager Page Ranges:" ++ String newline EmptyString)%string
    with mid by (unfold mid; rewrite string_append_assoc; reflexivity).
  fold eager. rewrite strlen_append.
  clearbody eager. clearbody mid. clearbody huge. clearbody head.
  unfold MMAP_FILTER_BUF_SIZE in *.
  pose proof (strlen_nonneg huge). pose proof (strlen_nonneg eager). lia.
Qed.

End PrintProfileProperties.

Lemma print_profile_fits_witness :
  let t := rb_node rb_null (mk_range 4096 8192 255) rb_null in
  let procs := [mk_proc 7 [] t t] in
  exists buffer,
    print_profile hex_text hex_text true procs (Some 7) = inr buffer
    /\ strlen buffer + 1 <= MMAP_FILTER_BUF_SIZE.
Proof.
  intros t procs. eexists. split; [reflexivity|].
  apply (print_profile_fits hex_text hex_text true procs (Some 7)).
  - intros proc r [<-|[]] [[<-|[]]|[<-|[]]]; vm_compute; intuition discriminate.
  - reflexivity.
Defined.

(** ** Reclaim *)

(** X23: the estimate of a huge page allocation that needs reclaim has the
    benefit and the extra word that the promotion estimate computes for
    the same action descriptor, and its cost is the promotion cost with
    exactly 1000000000 cycles added: the 64-bit sum never wraps.  In mode 1
    the decider approves it exactly when the benefit exceeds that sum. *)
Theorem alloc_reclaim_estimate (env : estimator_env) (st : econ_state)
    (a : mm_action) (c : mm_cost_delta) :
  action a = MM_ACTION_ALLOC_RECLAIM ->
  exists st' c',
    mm_estimate_changes env st a c = Some (st', c')
    /\ cost c' = promote_cost (have_free_huge_pages env) + 1000000000
    /\ cost_benefit c'
       = cost_benefit (mm_estimate_huge_page_promote_cost_benefit env a c)
    /\ extra c' = extra (mm_estimate_huge_page_promote_cost_benefit env a c)
    /\ (mm_econ_mode st = 1 ->
        (snd (mm_decide st' c') = Some true <->
         promote_cost (have_free_huge_pages env) + 1000000000
         < compute_hpage_benefit env a)).
Proof.
  intros Ha. unfold mm_estimate_changes. rewrite Ha.
  eexists; eexists. split; [reflexivity|].
  assert (Hcost :
    cost (mm_estimate_huge_page_reclaim_cost a
            (mm_estimate_huge_page_promote_cost_benefit env a c))
    = promote_cost (have_free_huge_pages env) + 1000000000).
  { unfold mm_estimate_huge_page_reclaim_cost. cbn [set_cost cost].
    rewrite promote_cost_eq. unfold u64_add, u64. apply Z.mod_small.
    unfold promote_cost, u64_modulus.
    destruct (have_free_huge_pages env); lia. }
  split; [exact Hcost|]. split; [reflexivity|]. split; [reflexivity|].
  intros Hmode.
  assert (Hm : mm_econ_mode
                 (record_estimate st
                    (mm_estimate_huge_page_reclaim_cost a
                       (mm_estimate_huge_page_promote_cost_benefit env a c)))
               = 1).
  { unfold record_estimate.
    destruct (mm_econ_debugging_mode st =? 2); exact Hmode. }
  unfold mm_decide. rewrite Hm.
  change (1 =? 0) with false. change (1 =? 1) with true. cbn [snd].
  rewrite Hcost.
  change (cost_benefit
            (mm_estimate_huge_page_reclaim_cost a
               (mm_estimate_huge_page_promote_cost_benefit env a c)))
    with (compute_hpage_benefit env a).
  split.
  - intros E. injection E as E. apply Z.ltb_lt. exact E.
  - intros H. f_equal. apply Z.ltb_lt. exact H.
Qed.

Lemma alloc_reclaim_estimate_witness :
  let reads_kind := fun a : mm_action =>
    match action a with MM_ACTION_ALLOC_RECLAIM => 6000000000 | _ => 1 end in
  let env := mk_env fhps_none (Some reads_kind) 4 1 0 7 [] true in
  let a := mk_action MM_ACTION_ALLOC_RECLAIM 4096 0 0 in
  exists st' c',
    mm_estimate_changes env (state_with_mode 1) a (mk_cost 0 0 (ExtraWord 0))
    = Some (st', c')
    /\ cost c' = 2 ^ 32 + 200000 + 1000000000
    /\ cost_benefit c' = 6000000000
    /\ snd (mm_decide st' c') = Some true.
Proof.
  intros reads_kind env a.
  destruct (alloc_reclaim_estimate env (state_with_mode 1) a
              (mk_cost 0 0 (ExtraWord 0)) eq_refl)
    as (st' & c' & H1 & H2 & H3 & _ & H5).
  exists st', c'. split; [exact H1|]. split; [exact H2|].
  split; [exact H3|]. apply (H5 eq_refl). vm_compute. reflexivity.
Defined.
